(** * go-matroska: the EBML decoder

    A shallow embedding of [ebml/decode.go] (the element cursor, the vint
    codec and the primitive readers) and of the reflection-driven struct
    decoder ([typeCodec], [structInfo], [fieldInfo]).

    Conventions.
    - [int64] and [int] values are [Z]; every operation that can overflow is
      wrapped with [wrap64] (the target is a 64-bit platform).
    - Bytes are [Byte.byte]; a [[]byte] is a [list byte].
    - [*Decoder] values live in a store ([w_heap]); a pointer is an index.
      A parent and the caller share the child they point to.
    - The [bufio.Reader] and the source below it are shared by all cursors
      of a stream; they are the [w_buf], [w_src] and [w_cap] parts of the
      world. *)

From Stdlib Require Import ZArith List Lia Bool String.
From Stdlib Require Import Strings.Byte.
From stdpp Require Import base list gmap strings.
Import ListNotations.
Local Open Scope Z_scope.
Set Warnings "-register-all".

(** ** Machine integers and bytes *)

Definition wrap64 (x : Z) : Z := (x + 2 ^ 63) mod 2 ^ 64 - 2 ^ 63.

Definition int64_range (x : Z) : Prop := - 2 ^ 63 <= x < 2 ^ 63.

Definition byte_to_Z (b : byte) : Z := Z.of_N (Byte.to_N b).

Definition byte_of_Z (z : Z) : byte :=
  match Byte.of_N (Z.to_N (z mod 256)) with
  | Some b => b
  | None => x00
  end.

(** [v = (v << 8) | int64(it)] *)
Definition shift_in (v : Z) (it : byte) : Z :=
  Z.lor (wrap64 (Z.shiftl v 8)) (byte_to_Z it).

(** [for _, it := range b { v = (v << 8) | int64(it) }] *)
Definition shift_bytes (v : Z) (b : list byte) : Z := fold_left shift_in b v.

(** ** Package-level tables *)

Definition mask : list Z := [0x80; 0x40; 0x20; 0x10; 0x8; 0x4; 0x2; 0x1].
Definition rest : list Z := [0xff; 0x7f; 0x3f; 0x1f; 0xf; 0x7; 0x3; 0x1; 0x0].
Definition maxBufferSize : Z := Z.shiftl 1 20.

(** ** Errors and results *)

Inductive error : Type :=
| EOF                          (* io.EOF *)
| ErrFormat                    (* ebml.ErrFormat *)
| ErrBufferFull                (* bufio.ErrBufferFull *)
| ErrNegativeCount             (* bufio.ErrNegativeCount *)
| ErrNoProgress                (* io.ErrNoProgress *)
| ErrOther (msg : string)      (* errors.New(msg) *)
| Panic (msg : string).        (* a run-time panic, propagated like an error *)

Inductive result (A : Type) : Type :=
| Ok (a : A)
| Err (e : error)
| NoFuel.                      (* the model ran out of fuel: no answer *)
Arguments Ok {A} a.
Arguments Err {A} e.
Arguments NoFuel {A}.

Definition error_eq_dec (x y : error) : {x = y} + {x <> y}.
Proof. decide equality; apply string_dec. Defined.

Definition is_EOF (e : error) : bool :=
  match e with EOF => true | _ => false end.

(** ** The leading byte of a vint

    [for n, bit = range mask { if m&bit != 0 { v = int64(m & rest[n+off]); break } }]

    [n] and [v] are the named results, zero on entry; the range clause
    assigns [n] at the start of every iteration, so a loop that never
    breaks leaves [n] at the last index. *)

Fixpoint vint_scan (bits : list Z) (i : nat) (m : Z) (off : nat) (n : nat) (v : Z)
  : nat * Z :=
  match bits with
  | [] => (n, v)
  | bit :: bits' =>
      if negb (Z.land m bit =? 0)
      then (i, Z.land m (nth (i + off) rest 0))
      else vint_scan bits' (S i) m off i v
  end.

Definition vint_lead (m : byte) (off : nat) : nat * Z :=
  vint_scan mask 0 (byte_to_Z m) off 0 0.

(** ** Cursors, the shared reader, the world *)

(** [type Decoder struct { rs; buf; len; size; id; elem }].  [d_rs] tells
    whether [rs] is non-nil; [buf] is the one reader of the world. *)
Record Decoder : Type := mkDecoder {
  d_rs : bool;
  d_len : Z;
  d_size : Z;
  d_id : Z;
  d_elem : option nat
}.

(** [w_buf] holds the bytes buffered by the [bufio.Reader] and not yet
    consumed, [w_src] the bytes the source has not delivered yet and
    [w_cap] the size the reader was created with.  The source is a regular
    file or an in-memory reader: a read delivers as many bytes as asked for
    while there are some and [io.EOF] with no byte at the end, and a
    relative seek forward always succeeds, also past the end. *)
Record world : Type := mkWorld {
  w_heap : list Decoder;
  w_buf : list byte;
  w_src : list byte;
  w_cap : nat
}.

Definition set_heap (h : list Decoder) (w : world) : world :=
  mkWorld h (w_buf w) (w_src w) (w_cap w).
Definition set_buf (b : list byte) (w : world) : world :=
  mkWorld (w_heap w) b (w_src w) (w_cap w).
Definition set_src (s : list byte) (w : world) : world :=
  mkWorld (w_heap w) (w_buf w) s (w_cap w).

(** The bytes still to come, whether buffered or not. *)
Definition pending (w : world) : list byte := w_buf w ++ w_src w.

(** ** A state-and-error monad: the state survives an error *)

Definition M (A : Type) : Type := world -> result A * world.

Definition ret {A} (a : A) : M A := fun w => (Ok a, w).
Definition fail {A} (e : error) : M A := fun w => (Err e, w).
Definition bind {A B} (m : M A) (k : A -> M B) : M B :=
  fun w =>
    match m w with
    | (Ok a, w') => k a w'
    | (Err e, w') => (Err e, w')
    | (NoFuel, w') => (NoFuel, w')
    end.

Notation "'let*' x ':=' m 'in' k" := (bind m (fun x => k))
  (at level 10, x name, m at level 100, k at level 200).
Notation "'let*' ' p ':=' m 'in' k" := (bind m (fun x => match x with p => k end))
  (at level 10, p pattern, m at level 100, k at level 200).
Notation "m1 '>>' m2" := (bind m1 (fun _ => m2))
  (at level 100, m2 at level 200, right associativity).

(** ** bufio.Reader *)

(** [NewReaderSize] never makes a buffer smaller than 16 bytes. *)
Definition cap (w : world) : nat := Nat.max 16 (w_cap w).

(** [fill]: one read of the source into the free part of the buffer. *)
Definition fill (w : world) : world :=
  let k := (cap w - length (w_buf w))%nat in
  mkWorld (w_heap w) (w_buf w ++ take k (w_src w)) (drop k (w_src w)) (w_cap w).

Definition fill_if_empty (w : world) : world :=
  match w_buf w with
  | [] => fill w
  | _ => w
  end.

Definition Buffered : M nat := fun w => (Ok (length (w_buf w)), w).

Definition ReadByte : M byte := fun w =>
  let w1 := fill_if_empty w in
  match w_buf w1 with
  | [] => (Err EOF, w1)
  | c :: b => (Ok c, set_buf b w1)
  end.

Definition Peek (n : nat) : M (list byte) := fun w =>
  let w1 :=
    if (length (w_buf w) <? n)%nat && (length (w_buf w) <? cap w)%nat
    then fill w else w in
  if (cap w <? n)%nat then (Err ErrBufferFull, w1)
  else if (length (w_buf w1) <? n)%nat then (Err EOF, w1)
  else (Ok (take n (w_buf w1)), w1).

(** The loop of [Discard]; every turn that does not return consumes a
    byte, so [remain] turns are enough. *)
Fixpoint discard_loop (fuel : nat) (remain : nat) (w : world) : result unit * world :=
  match fuel with
  | O => (NoFuel, w)
  | S fuel' =>
      let w1 := fill_if_empty w in
      let skip := Nat.min (length (w_buf w1)) remain in
      let w2 := set_buf (drop skip (w_buf w1)) w1 in
      if (remain - skip =? 0)%nat then (Ok tt, w2)
      else match w_buf w1 with
           | [] => (Err EOF, w2)
           | _ => discard_loop fuel' (remain - skip) w2
           end
  end.

Definition Discard (n : Z) : M unit := fun w =>
  if n <? 0 then (Err ErrNegativeCount, w)
  else if n =? 0 then (Ok tt, w)
  else discard_loop (Z.to_nat n) (Z.to_nat n) w.

(** [Read(p)] with [len(p) = k]: the bytes copied into [p]. *)
Definition bufRead (k : nat) : M (list byte) := fun w =>
  if (k =? 0)%nat then (Ok [], w)
  else match w_buf w with
       | [] =>
           match w_src w with
           | [] => (Err EOF, w)
           | _ =>
               if (cap w <=? k)%nat
               then (Ok (take k (w_src w)), set_src (drop k (w_src w)) w)
               else
                 let b := take (cap w) (w_src w) in
                 (Ok (take k b),
                  mkWorld (w_heap w) (drop k b) (drop (cap w) (w_src w)) (w_cap w))
           end
       | b => (Ok (take k b), set_buf (drop k b) w)
       end.

(** [rs.Seek(off, 1)] followed by [buf.Reset(rs)]. *)
Definition Seek (off : Z) : M unit := fun w =>
  (Ok tt, set_src (drop (Z.to_nat off) (w_src w)) w).
Definition Reset : M unit := fun w => (Ok tt, set_buf [] w).

(** ** The store of cursors *)

Definition get_dec (a : nat) : M Decoder := fun w =>
  match w_heap w !! a with
  | Some d => (Ok d, w)
  | None => (Err (Panic "nil pointer dereference"), w)
  end.

Definition with_len (d : Decoder) (x : Z) : Decoder :=
  mkDecoder (d_rs d) x (d_size d) (d_id d) (d_elem d).
Definition with_elem (d : Decoder) (e : option nat) : Decoder :=
  mkDecoder (d_rs d) (d_len d) (d_size d) (d_id d) e.

Definition set_len (a : nat) (x : Z) : M unit := fun w =>
  match w_heap w !! a with
  | Some d => (Ok tt, set_heap (<[a := with_len d x]> (w_heap w)) w)
  | None => (Err (Panic "nil pointer dereference"), w)
  end.

Definition set_elem (a : nat) (e : option nat) : M unit := fun w =>
  match w_heap w !! a with
  | Some d => (Ok tt, set_heap (<[a := with_elem d e]> (w_heap w)) w)
  | None => (Err (Panic "nil pointer dereference"), w)
  end.

(** [&Decoder{...}]: a new cursor at a fresh address. *)
Definition alloc (d : Decoder) : M nat := fun w =>
  (Ok (length (w_heap w)), set_heap (w_heap w ++ [d]) w).

(** ** Decoder: skip, Skip, readVint, Next *)

(** [Skip] first closes the open child, which closes its own child, and so
    on: the fuel bounds the length of that chain. *)
Fixpoint Skip (fuel : nat) (a : nat) : M unit :=
  match fuel with
  | O => fun w => (NoFuel, w)
  | S fuel' =>
      let* d0 := get_dec a in
      (match d_elem d0 with
       | Some e => Skip fuel' e
       | None => ret tt
       end) >>
      let* d := get_dec a in
      if d_len d <=? 0 then ret tt
      else
        let* n := Buffered in
        (if d_rs d && (Z.of_nat n <? d_len d)
         then Seek (d_len d - Z.of_nat n) >> Reset
         else Discard (d_len d)) >>
        set_len a 0
  end.

Definition skip (fuel : nat) (a : nat) : M unit :=
  let* d := get_dec a in
  match d_elem d with
  | Some e => Skip fuel e
  | None => ret tt
  end.

Definition readVint (fuel : nat) (a : nat) (off : nat) : M (Z * nat) :=
  skip fuel a >>
  let* d := get_dec a in
  if (d_len d <? 1) && (0 <? d_size d) then fail EOF
  else
    let* m := ReadByte in
    set_len a (wrap64 (d_len d - 1)) >>
    let '(n, v) := vint_lead m off in
    if (0 <? n)%nat then
      let* d := get_dec a in
      if (d_len d <? Z.of_nat n) && (0 <? d_size d) then fail EOF
      else
        let* b := Peek n in
        let v := shift_bytes v b in
        Discard (Z.of_nat n) >>
        set_len a (wrap64 (d_len d - Z.of_nat n)) >>
        ret (v, n)
    else ret (v, n).

Definition Next (fuel : nat) (a : nat) : M (Z * option nat) :=
  skip fuel a >>
  let* '(id, _) := readVint fuel a 0 in
  let* '(size, _) := readVint fuel a 1 in
  if (id =? 0) || (size <? 0) then fail ErrFormat
  else
    let* d := get_dec a in
    if (d_size d <? size) && (0 <? d_size d) then fail ErrFormat
    else if size =? 0 then ret (id, None)
    else
      set_len a (wrap64 (d_len d - size)) >>
      let* v := alloc (mkDecoder (d_rs d) size size id None) in
      set_elem a (Some v) >>
      ret (id, Some v).

(** [NewDecoder(r)]: [rs] says whether [r] is an [io.ReadSeeker], [fsize]
    is the size reported by [Stat] when [r] is a file and 0 otherwise. *)
Definition NewDecoder (rs : bool) (fsize : Z) (bufsize : nat) (data : list byte) : world :=
  mkWorld [mkDecoder rs fsize fsize 0 None] [] data bufsize.

(** ** Decoder: Read and the primitive readers *)

(** The loop of [Read]: [k] is [len(b)], [acc] the bytes stored so far. *)
Fixpoint read_loop (fuel : nat) (a : nat) (k : nat) (acc : list byte) : M (list byte) :=
  match k with
  | O => ret acc
  | S _ =>
      match fuel with
      | O => fun w => (NoFuel, w)
      | S fuel' =>
          let* c := bufRead k in
          if (0 <? length c)%nat then
            let* d := get_dec a in
            set_len a (wrap64 (d_len d - Z.of_nat (length c))) >>
            read_loop fuel' a (k - length c) (acc ++ c)
          else fail EOF
      end
  end.

(** [Read(b)] with [len(b) = m]: the bytes stored into [b], whose number
    is the [n] of the source.  On an error the count of the bytes read so
    far is not kept; the cursor and the reader are as the source leaves
    them. *)
Definition Read (fuel : nat) (a : nat) (m : nat) : M (list byte) :=
  skip fuel a >>
  let* d := get_dec a in
  let* k :=
    if (d_len d <? Z.of_nat m) && (0 <? d_size d)
    then if d_len d <? 0 then fail (Panic "slice bounds out of range")
         else ret (Z.to_nat (d_len d))
    else ret m in
  read_loop k a k [].

Definition ReadInt (fuel : nat) (a : nat) : M Z :=
  skip fuel a >>
  let* d := get_dec a in
  if (d_len d <? 1) || (8 <? d_len d) then fail ErrFormat
  else
    let n := Z.to_nat (d_len d) in
    let* b := Peek n in
    let v := shift_bytes 0 b in
    Discard (Z.of_nat n) >>
    set_len a 0 >>
    ret v.

(** A [float64] is kept as the bit pattern it was made from. *)
Inductive float64 : Type :=
| FZero
| F32frombits (u : Z)          (* float64(math.Float32frombits(u)) *)
| F64frombits (u : Z).         (* math.Float64frombits(u) *)

(** [binary.BigEndian.Uint32] and [Uint64]. *)
Definition be_uint (b : list byte) : Z :=
  fold_left (fun acc it => acc * 256 + byte_to_Z it) b 0.

Definition ReadFloat (fuel : nat) (a : nat) : M float64 :=
  skip fuel a >>
  let* d := get_dec a in
  let* v :=
    if d_len d =? 4 then let* b := Peek 4 in ret (F32frombits (be_uint b))
    else if d_len d =? 8 then let* b := Peek 8 in ret (F64frombits (be_uint b))
    else fail ErrFormat in
  Discard (d_len d) >>
  set_len a 0 >>
  ret v.

Definition ReadBool (fuel : nat) (a : nat) : M bool :=
  let* v := ReadInt fuel a in
  ret (negb (v =? 0)).

(** The time read is [absTime] plus the returned number of nanoseconds. *)
Definition ReadTime (fuel : nat) (a : nat) : M Z :=
  let* v := ReadInt fuel a in
  ret v.

Definition ReadBytes (fuel : nat) (a : nat) : M (list byte) :=
  skip fuel a >>
  let* d := get_dec a in
  if (d_len d <? 0) || (maxBufferSize <? d_len d) then fail ErrFormat
  else
    let* b := Read fuel a (Z.to_nat (d_len d)) in
    ret b.

Definition ReadString (fuel : nat) (a : nat) : M (list byte) :=
  let* b := ReadBytes fuel a in
  ret b.

(** ** Go types and values, as far as [reflect] shows them to the decoder *)

Inductive intk : Type := K8 | K16 | K32 | K64 | Kword.

Definition bits_of (k : intk) : Z :=
  match k with K8 => 8 | K16 => 16 | K32 => 32 | K64 => 64 | Kword => 64 end.

(** Conversion of an [int64] to a signed or unsigned integer of kind [k]. *)
Definition wrap_signed (k : intk) (x : Z) : Z :=
  (x + 2 ^ (bits_of k - 1)) mod 2 ^ bits_of k - 2 ^ (bits_of k - 1).
Definition wrap_unsigned (k : intk) (x : Z) : Z := x mod 2 ^ bits_of k.

Inductive rtype : Type :=
| TInt (k : intk)
| TUint (k : intk)               (* [uintptr] is [TUint Kword] *)
| TBool
| TFloat (single : bool)
| TString
| TTime                          (* time.Time *)
| TStruct (name : string)        (* a named struct type *)
| TPtr (e : rtype)
| TSlice (e : rtype)
| TOther (kind : string).        (* any kind the decoder has no case for *)

Inductive value : Type :=
| VInt (k : intk) (i : Z)
| VUint (k : intk) (u : Z)
| VBool (b : bool)
| VFloat (single : bool) (f : float64)
| VString (s : list byte)
| VTime (t : option Z)           (* [None]: the zero time; [Some ns]: absTime + ns *)
| VStruct (name : string) (fields : list value)
| VPtr (e : rtype) (p : option value)
| VBytes (b : list byte)         (* a []byte *)
| VSlice (e : rtype) (items : list value)
| VOther (kind : string).

(** The tag of a field after [Tag.Get("ebml")], the two [strings.Split]
    and [strconv.ParseInt(s, 16, 64)] on every id of the path: [None]
    stands for an id that does not parse. *)
Inductive ebml_tag : Type :=
| TagAbsent                              (* "" or "-" *)
| TagPath (path : list (option Z)).

Record structField : Type := mkStructField {
  sf_name : string;
  sf_exported : bool;                    (* PkgPath == "" *)
  sf_anonymous : bool;
  sf_tag : ebml_tag;
  sf_type : rtype
}.

(** A struct type: its fields, and whether a pointer to it implements
    [Unmarshaler].  The one implementation in the repository is
    [matroska.Block], whose method stores [ReadBytes] in its first field. *)
Record structDecl : Type := mkStructDecl {
  s_fields : list structField;
  s_unmarshaler : bool
}.

Definition tenv : Type := string -> structDecl.

Definition is_struct_kind (t : rtype) : bool :=
  match t with TStruct _ | TTime => true | _ => false end.

Definition implements_Unmarshaler (env : tenv) (t : rtype) : bool :=
  match t with
  | TPtr (TStruct name) => s_unmarshaler (env name)
  | _ => false
  end.

(** The zero value of a type ([reflect.New], [reflect.Zero]); the fuel
    bounds the nesting of structs held by value. *)
Fixpoint zero (fuel : nat) (env : tenv) (t : rtype) : option value :=
  match t with
  | TInt k => Some (VInt k 0)
  | TUint k => Some (VUint k 0)
  | TBool => Some (VBool false)
  | TFloat s => Some (VFloat s FZero)
  | TString => Some (VString [])
  | TTime => Some (VTime None)
  | TPtr e => Some (VPtr e None)
  | TSlice (TUint K8) => Some (VBytes [])
  | TSlice e => Some (VSlice e [])
  | TOther k => Some (VOther k)
  | TStruct name =>
      match fuel with
      | O => None
      | S fuel' =>
          option_map (VStruct name)
            (fold_right
               (fun f acc =>
                  match zero fuel' env (sf_type f), acc with
                  | Some x, Some l => Some (x :: l)
                  | _, _ => None
                  end)
               (Some []) (s_fields (env name)))
      end
  end.

(** ** structInfo and fieldInfo *)

Record fieldInfo : Type := mkFieldInfo {
  fi_id : Z;
  fi_index : nat;
  fi_name : string;
  fi_seq : list Z                        (* [[]] is the nil slice *)
}.

Record structInfo : Type := mkStructInfo {
  si_fields : list fieldInfo;
  si_ids : gmap Z fieldInfo
}.

(** The inner loop of [newStructInfo] over the ids of one tag. *)
Fixpoint tag_ids (i : nat) (name : string) (path : list (option Z))
  (it : option fieldInfo) : result (option fieldInfo) :=
  match path with
  | [] => Ok it
  | None :: _ => Err (ErrOther "strconv.ParseInt: invalid syntax")
  | Some id :: path' =>
      tag_ids i name path'
        (match it with
         | None => Some (mkFieldInfo id i name [])
         | Some f => Some (mkFieldInfo (fi_id f) (fi_index f) (fi_name f) (fi_seq f ++ [id]))
         end)
  end.

(** The outer loop of [newStructInfo], from field [i] on. *)
Fixpoint struct_fields (i : nat) (fs : list structField) (c : structInfo)
  : result structInfo :=
  match fs with
  | [] => Ok c
  | f :: fs' =>
      if negb (sf_exported f) && negb (sf_anonymous f) then struct_fields (S i) fs' c
      else
        match sf_tag f with
        | TagAbsent => struct_fields (S i) fs' c
        | TagPath path =>
            if sf_anonymous f then struct_fields (S i) fs' c
            else
              match tag_ids i (sf_name f) path None with
              | Ok (Some it) =>
                  struct_fields (S i) fs'
                    (mkStructInfo (si_fields c ++ [it]) (<[fi_id it := it]> (si_ids c)))
              | Ok None => Err (Panic "nil pointer dereference")
              | Err e => Err e
              | NoFuel => NoFuel
              end
        end
  end.

Definition newStructInfo (env : tenv) (v : value) : result structInfo :=
  match v with
  | VStruct name _ => struct_fields 0 (s_fields (env name)) (mkStructInfo [] ∅)
  | VTime _ =>
      (* [time.Time] is of kind [Struct]; its fields are not exported
         and carry no tag, so none gets a descriptor *)
      Ok (mkStructInfo [] ∅)
  | _ => Err (ErrOther "ebml: Decode not a struct")
  end.

(** [v.Field(i)] and the store through it. *)
Definition field (v : value) (i : nat) : option value :=
  match v with
  | VStruct _ fs => fs !! i
  | _ => None
  end.

Definition set_field (v : value) (i : nat) (x : value) : value :=
  match v with
  | VStruct name fs => VStruct name (<[i := x]> fs)
  | _ => v
  end.

(** ** typeCodec.UnmarshalEBML, fieldInfo.Decode, decodeSeq and decode

    The functions return the value they were given as it stands when they
    return, together with the outcome: an error leaves what was stored
    before it in place.  [env] is the table of struct types, [sf] the fuel
    handed to the cursor operations; [fuel] bounds the depth of calls and
    the turns of the loops.  The counter [prefix] of the source is only
    incremented and decremented and is left out. *)

Definition decoding : Type := value * result unit * world.

Section Codec.
Variable env : tenv.
Variable sf : nat.

(** Storing the value read by a primitive reader. *)
Definition store {A} (v : value) (r : result A * world) (f : A -> value) : decoding :=
  match r with
  | (Ok x, w) => (f x, Ok tt, w)
  | (Err e, w) => (v, Err e, w)
  | (NoFuel, w) => (v, NoFuel, w)
  end.

(** [Block.UnmarshalEBML]: [r.Data, err = dec.ReadBytes()], which stores
    the nil slice when [ReadBytes] fails. *)
Definition Block_UnmarshalEBML (v : value) (a : nat) (w : world) : decoding :=
  match ReadBytes sf a w with
  | (Ok b, w') => (set_field v 0 (VBytes b), Ok tt, w')
  | (Err e, w') => (set_field v 0 (VBytes []), Err e, w')
  | (NoFuel, w') => (v, NoFuel, w')
  end.

(** [dec.Decode(u)] for a [u] that implements [Unmarshaler]: the [skip]
    of [Decode], which returns before [u] is touched when it fails, then
    [u.UnmarshalEBML(dec)]. *)
Definition Decode_Unmarshaler (v : value) (a : nat) (w : world) : decoding :=
  match skip sf a w with
  | (Ok _, w1) => Block_UnmarshalEBML v a w1
  | (Err e, w1) => (v, Err e, w1)
  | (NoFuel, w1) => (v, NoFuel, w1)
  end.

Fixpoint UnmarshalEBML_loop (fuel : nat) (s : structInfo) (v : value) (a : nat)
  (w : world) {struct fuel} : decoding :=
  match fuel with
  | O => (v, NoFuel, w)
  | S fuel' =>
      match Next sf a w with
      | (Err e, w1) => if is_EOF e then (v, Ok tt, w1) else (v, Err e, w1)
      | (NoFuel, w1) => (v, NoFuel, w1)
      | (Ok (_, None), w1) => UnmarshalEBML_loop fuel' s v a w1
      | (Ok (id, Some elem), w1) =>
          match si_ids s !! id with
          | Some f =>
              match field v (fi_index f) with
              | None => (v, Err (Panic "reflect: Field index out of range"), w1)
              | Some fv =>
                  (* f.Decode(c.v.Field(f.index), elem) *)
                  let '(fv', r, w2) :=
                    match fi_seq f with
                    | [] => decode fuel' fv elem w1
                    | seq => decodeSeq fuel' seq fv elem w1
                    end in
                  let v' := set_field v (fi_index f) fv' in
                  match r with
                  | Ok _ => UnmarshalEBML_loop fuel' s v' a w2
                  | _ => (v', r, w2)
                  end
              end
          | None =>
              match Skip sf elem w1 with
              | (Ok _, w2) => UnmarshalEBML_loop fuel' s v a w2
              | (Err e, w2) => (v, Err e, w2)
              | (NoFuel, w2) => (v, NoFuel, w2)
              end
          end
      end
  end

with decodeSeq (fuel : nat) (seq : list Z) (v : value) (a : nat) (w : world)
  {struct fuel} : decoding :=
  match fuel with
  | O => (v, NoFuel, w)
  | S fuel' =>
      match Next sf a w with
      | (Err e, w1) => if is_EOF e then (v, Ok tt, w1) else (v, Err e, w1)
      | (NoFuel, w1) => (v, NoFuel, w1)
      | (Ok (_, None), w1) => decodeSeq fuel' seq v a w1
      | (Ok (id, Some elem), w1) =>
          match seq with
          | [] => (v, Err (Panic "index out of range"), w1)
          | id0 :: seq' =>
              if id =? id0 then
                let '(v', r, w2) :=
                  match seq' with
                  | [] => decode fuel' v elem w1
                  | _ => decodeSeq fuel' seq' v elem w1
                  end in
                match r with
                | Ok _ => decodeSeq fuel' seq v' a w2
                | _ => (v', r, w2)
                end
              else
                match Skip sf elem w1 with
                | (Ok _, w2) => decodeSeq fuel' seq v a w2
                | (Err e, w2) => (v, Err e, w2)
                | (NoFuel, w2) => (v, NoFuel, w2)
                end
          end
      end
  end

with decode (fuel : nat) (v : value) (a : nat) (w : world) {struct fuel} : decoding :=
  match fuel with
  | O => (v, NoFuel, w)
  | S fuel' =>
      match v with
      | VTime _ => store v (ReadTime sf a w) (fun t => VTime (Some t))
      | VStruct _ _ =>
          (* u := &typeCodec{v}; return u.UnmarshalEBML(dec) *)
          match newStructInfo env v with
          | Ok s => UnmarshalEBML_loop fuel' s v a w
          | Err e => (v, Err e, w)
          | NoFuel => (v, NoFuel, w)
          end
      | VPtr e p =>
          if negb (is_struct_kind e)
          then (v, Err (ErrOther "ebml: unsupported pointer type"), w)
          else
            match (match p with Some x => Some x | None => zero fuel' env e end) with
            | None => (v, NoFuel, w)
            | Some x =>
                let '(x', r, w') :=
                  if implements_Unmarshaler env (TPtr e)
                  then Decode_Unmarshaler x a w
                  else decode fuel' x a w in
                (VPtr e (Some x'), r, w')
            end
      | VBytes _ => store v (ReadBytes sf a w) VBytes
      | VSlice e items =>
          match e with
          | TUint K8 => store v (ReadBytes sf a w) VBytes
          | TInt K64 => store v (ReadInt sf a w) (fun i => VSlice e (items ++ [VInt K64 i]))
          | TPtr e' =>
              match zero fuel' env e' with
              | None => (v, NoFuel, w)
              | Some it =>
                  let '(it', r, w') :=
                    if implements_Unmarshaler env e
                    then Decode_Unmarshaler it a w
                    else decode fuel' it a w in
                  (VSlice e (items ++ [VPtr e' (Some it')]), r, w')
              end
          | _ => (v, Err (ErrOther "ebml: unsupported slice type"), w)
          end
      | VInt k _ => store v (ReadInt sf a w) (fun i => VInt k (wrap_signed k i))
      | VUint k _ => store v (ReadInt sf a w) (fun i => VUint k (wrap_unsigned k i))
      | VBool _ => store v (ReadBool sf a w) VBool
      | VFloat s _ => store v (ReadFloat sf a w) (VFloat s)
      | VString _ => store v (ReadString sf a w) VString
      | VOther _ => (v, Err (ErrOther "ebml: unsupported type"), w)
      end
  end.

(** [typeCodec.UnmarshalEBML]. *)
Definition UnmarshalEBML (fuel : nat) (v : value) (a : nat) (w : world) : decoding :=
  match newStructInfo env v with
  | Ok s => UnmarshalEBML_loop fuel s v a w
  | Err e => (v, Err e, w)
  | NoFuel => (v, NoFuel, w)
  end.

(** [Decoder.Decode(v)] for a [v] that holds a pointer. *)
Definition Decode (fuel : nat) (v : value) (a : nat) (w : world) : decoding :=
  match skip sf a w with
  | (Err e, w1) => (v, Err e, w1)
  | (NoFuel, w1) => (v, NoFuel, w1)
  | (Ok _, w1) =>
      match v with
      | VPtr e (Some x) =>
          if implements_Unmarshaler env (TPtr e) then
            let '(x', r, w2) := Block_UnmarshalEBML x a w1 in
            (VPtr e (Some x'), r, w2)
          else
            match x with
            | VStruct _ _ | VTime _ =>
                (* [ref.Elem().Kind() == reflect.Struct] *)
                let '(x', r, w2) := UnmarshalEBML fuel x a w1 in
                (VPtr e (Some x'), r, w2)
            | _ => (v, Err (ErrOther "ebml: Decode not a struct"), w1)
            end
      | VPtr _ None => (v, Err (ErrOther "ebml: Decode not a struct"), w1)
      | _ => (v, Err (ErrOther "ebml: Decode not a pointer"), w1)
      end
  end.
End Codec.

(** ** Notions used to state the properties *)

(** The reader operations leave the cursors alone. *)
Definition same_store (w w' : world) : Prop :=
  w_heap w' = w_heap w /\ w_cap w' = w_cap w.

(** The chain of children hanging from a cursor is quiet when each of
    them is consumed: the implicit skip then does nothing.  The chain does
    not come back to the cursor [a] it hangs from and is at most [n] long. *)
Inductive quiet_chain (h : list Decoder) (a : nat) : nat -> option nat -> Prop :=
| quiet_nil (n : nat) : quiet_chain h a n None
| quiet_cons (n e : nat) (d : Decoder) :
    e <> a -> h !! e = Some d -> d_len d <= 0 ->
    quiet_chain h a n (d_elem d) ->
    quiet_chain h a (S n) (Some e).

(** The two kinds of vint and the offset [readVint] is called with. *)
Inductive vkind : Type := IdKind | SizeKind.

Definition off_of (k : vkind) : nat :=
  match k with IdKind => 0%nat | SizeKind => 1%nat end.

(** The [n] low bytes of [x], most significant first. *)
Fixpoint be_bytes (n : nat) (x : Z) : list byte :=
  match n with
  | O => []
  | S k => byte_of_Z (Z.shiftr x (8 * Z.of_nat k)) :: be_bytes k x
  end.

(** Modelled from the spec: the encoder of the repository is a stub
    ([Encoder.Encode] returns nil), so the reference encoding is the one
    the spec describes: a vint of width [n] is [n] bytes, big-endian, and
    the position of the highest set bit of the first byte gives [n].  A
    size is a magnitude below [2^(7n)] written under the marker bit; an id
    is an opaque token whose value includes the marker, written as it is. *)
Definition encode_vint (k : vkind) (width : nat) (x : Z) : list byte :=
  match k with
  | IdKind => be_bytes width x
  | SizeKind => be_bytes width (2 ^ (7 * Z.of_nat width) + x)
  end.

Definition encodable (k : vkind) (width : nat) (x : Z) : Prop :=
  (1 <= width <= 8)%nat /\
  match k with
  | IdKind => 2 ^ (7 * Z.of_nat width) <= x < 2 ^ (7 * Z.of_nat width + 1)
  | SizeKind => 0 <= x < 2 ^ (7 * Z.of_nat width)
  end.

(** [Read] gives the bytes asked for, or what is left of a bounded
    element when that is less. *)
Definition read_count (d : Decoder) (m : nat) : nat :=
  if (d_len d <? Z.of_nat m) && (0 <? d_size d) then Z.to_nat (d_len d) else m.

(** The same world with the cursor [a] over a source that can seek, or
    over one that cannot. *)
Definition with_rs (d : Decoder) (rs : bool) : Decoder :=
  mkDecoder rs (d_len d) (d_size d) (d_id d) (d_elem d).

Definition set_rs (a : nat) (rs : bool) (w : world) : world :=
  match w_heap w !! a with
  | Some d => set_heap (<[a := with_rs d rs]> (w_heap w)) w
  | None => w
  end.

(** The invariant of a size-bounded cursor: [0 <= len <= size], the
    size being an [int64]. *)
Definition cursor_inv (d : Decoder) : Prop :=
  0 < d_size d -> 0 <= d_len d <= d_size d /\ d_size d < 2 ^ 63.

Definition store_inv (w : world) : Prop :=
  forall a d, w_heap w !! a = Some d -> cursor_inv d.

(** The operations of a cursor other than [Next]. *)
Inductive cursor_op : Type :=
| OpSkip
| OpRead (m : nat)
| OpReadVint (off : nat)
| OpReadInt
| OpReadFloat
| OpReadBool
| OpReadTime
| OpReadString
| OpReadBytes.

Definition run_op (fuel : nat) (o : cursor_op) (a : nat) : M unit :=
  match o with
  | OpSkip => Skip fuel a
  | OpRead m => Read fuel a m >> ret tt
  | OpReadVint off => readVint fuel a off >> ret tt
  | OpReadInt => ReadInt fuel a >> ret tt
  | OpReadFloat => ReadFloat fuel a >> ret tt
  | OpReadBool => ReadBool fuel a >> ret tt
  | OpReadTime => ReadTime fuel a >> ret tt
  | OpReadString => ReadString fuel a >> ret tt
  | OpReadBytes => ReadBytes fuel a >> ret tt
  end.

(** [Next] in two stages, to name the moment a child is opened: the
    header is read, then the sizes are checked and the child made. *)
Definition Next_header (fuel : nat) (a : nat) : M (Z * Z) :=
  skip fuel a >>
  let* '(id, _) := readVint fuel a 0 in
  let* '(size, _) := readVint fuel a 1 in
  ret (id, size).

Definition Next_open (a : nat) (id size : Z) : M (Z * option nat) :=
  if (id =? 0) || (size <? 0) then fail ErrFormat
  else
    let* d := get_dec a in
    if (d_size d <? size) && (0 <? d_size d) then fail ErrFormat
    else if size =? 0 then ret (id, None)
    else
      set_len a (wrap64 (d_len d - size)) >>
      let* v := alloc (mkDecoder (d_rs d) size size id None) in
      set_elem a (Some v) >>
      ret (id, Some v).

(** ** A small schema for the examples

    [Outer] has a nested single structure, a scalar and a repeated scalar
    behind a wrapper; [Inner] has two scalars. *)
Definition example_env : tenv := fun name =>
  if String.eqb name "Outer" then
    mkStructDecl
      [mkStructField "P" true false (TagPath [Some 0xA0]) (TPtr (TStruct "Inner"));
       mkStructField "N" true false (TagPath [Some 0x83]) (TInt Kword);
       mkStructField "L" true false (TagPath [Some 0xA1; Some 0x84]) (TSlice (TInt K64))]
      false
  else if String.eqb name "Inner" then
    mkStructDecl
      [mkStructField "X" true false (TagPath [Some 0x81]) (TInt Kword);
       mkStructField "Y" true false (TagPath [Some 0x82]) (TInt Kword)]
      false
  else mkStructDecl [] false.

Definition Outer_zero : value :=
  VStruct "Outer" [VPtr (TStruct "Inner") None; VInt Kword 0; VSlice (TInt K64) []].

(** The parts of what a decoding step returns. *)
Definition dec_value (r : decoding) : value := fst (fst r).
Definition dec_result (r : decoding) : result unit := snd (fst r).
Definition dec_world (r : decoding) : world := snd r.

(** Two values of one primitive kind: what a primitive reader stores over. *)
Inductive same_primitive : value -> value -> Prop :=
| sp_int (k : intk) (i j : Z) : same_primitive (VInt k i) (VInt k j)
| sp_uint (k : intk) (i j : Z) : same_primitive (VUint k i) (VUint k j)
| sp_bool (b c : bool) : same_primitive (VBool b) (VBool c)
| sp_float (s : bool) (f g : float64) : same_primitive (VFloat s f) (VFloat s g)
| sp_string (s t : list byte) : same_primitive (VString s) (VString t)
| sp_time (s t : option Z) : same_primitive (VTime s) (VTime t)
| sp_bytes (s t : list byte) : same_primitive (VBytes s) (VBytes t).

(** Two worlds whose readers have the same shape: the same capacity and
    as many bytes buffered and as many bytes left in the source.  What
    the bytes are, and the cursors, are left open. *)
Definition rshape_eq (w1 w2 : world) : Prop :=
  w_cap w1 = w_cap w2 /\
  length (w_buf w1) = length (w_buf w2) /\
  length (w_src w1) = length (w_src w2).

(** What [readVint] does to the reader for a vint of [n] further bytes,
    and what [Skip] does to it for a cursor [d] with bytes to skip. *)
Definition vint_advance (n : nat) (w : world) : world :=
  match n with
  | O => snd (ReadByte w)
  | S _ => snd (Discard (Z.of_nat n) (snd (Peek n (snd (ReadByte w)))))
  end.

Definition skip_advance (d : Decoder) (w : world) : world :=
  if d_len d <=? 0 then w
  else if d_rs d && (Z.of_nat (length (w_buf w)) <? d_len d)
       then set_buf [] (set_src (drop (Z.to_nat (d_len d - Z.of_nat (length (w_buf w)))) (w_src w)) w)
       else snd (Discard (d_len d) w).

(** An element as it lies in the stream: the vint of its id, the vint of
    its size, its payload. *)
Record raw_elem : Type := mkRawElem {
  re_id : Z;
  re_wi : nat;                   (* width of the id *)
  re_size : Z;
  re_ws : nat;                   (* width of the size *)
  re_payload : list byte
}.

Definition encode_elem (e : raw_elem) : list byte :=
  encode_vint IdKind (re_wi e) (re_id e)
  ++ encode_vint SizeKind (re_ws e) (re_size e)
  ++ re_payload e.

Definition encode_elems (es : list raw_elem) : list byte :=
  concat (map encode_elem es).

(** An element with a well-formed header, a payload of the declared
    size, and an id that matches no field descriptor of [s]. *)
Definition unknown_elem (s : structInfo) (e : raw_elem) : Prop :=
  encodable IdKind (re_wi e) (re_id e) /\
  encodable SizeKind (re_ws e) (re_size e) /\
  length (re_payload e) = Z.to_nat (re_size e) /\
  si_ids s !! re_id e = None.

(** Two elements that differ in the bytes of their payload at most. *)
Definition same_header (e1 e2 : raw_elem) : Prop :=
  re_id e1 = re_id e2 /\ re_wi e1 = re_wi e2 /\
  re_size e1 = re_size e2 /\ re_ws e1 = re_ws e2.

(** The cursors and the shape of the reader once the loop has passed an
    element of unknown id: they depend on its header, not on its payload.
    An element of size 0 opens no child. *)
Definition heap_after_unknown (a : nat) (d : Decoder) (id size : Z) (wi ws : nat)
  (h : list Decoder) : list Decoder :=
  let L := wrap64 (wrap64 (d_len d - Z.of_nat wi) - Z.of_nat ws) in
  if size =? 0 then <[a := with_len d L]> h
  else
    <[length h := mkDecoder (d_rs d) 0 size id None]>
      (<[a := with_elem (with_len d (wrap64 (L - size))) (Some (length h))]> h
       ++ [mkDecoder (d_rs d) size size id None]).

Definition reader_after_unknown (d : Decoder) (id size : Z) (wi ws : nat)
  (w : world) : world :=
  let w1 := vint_advance (ws - 1) (vint_advance (wi - 1) w) in
  if size =? 0 then w1 else skip_advance (mkDecoder (d_rs d) size size id None) w1.

(** The cursors that hang from a cursor, the nearest first: its open
    child, the open child of that one, and so on. *)
Inductive chain (h : list Decoder) : option nat -> list nat -> Prop :=
| chain_nil : chain h None []
| chain_cons (e : nat) (d : Decoder) (l : list nat) :
    h !! e = Some d -> chain h (d_elem d) l -> chain h (Some e) (e :: l).

(** The bytes the cursors of [l] have left to pass, and the store once
    [Skip] has closed them: a count above 0 becomes 0, the deepest cursor
    first. *)
Definition left_of (h : list Decoder) (l : list nat) : Z :=
  fold_right
    (fun e acc => match h !! e with Some d => Z.max 0 (d_len d) + acc | None => acc end)
    0 l.

Definition close_one (e : nat) (h : list Decoder) : list Decoder :=
  match h !! e with
  | Some d => if d_len d <=? 0 then h else <[e := with_len d 0]> h
  | None => h
  end.

Definition close_all (l : list nat) (h : list Decoder) : list Decoder :=
  fold_right close_one h l.

(** ** Struct tags

    What [newStructInfo] does to the tag of a field before it looks at the
    ids: [f.Tag.Get("ebml")], then [strings.Split(tag, ",")], then
    [strings.Split(p[0], ">")] and [strconv.ParseInt(s, 16, 64)] on every
    piece. *)

Definition char_comma : Ascii.ascii := Ascii.ascii_of_nat 44.   (* ',' *)
Definition char_gt : Ascii.ascii := Ascii.ascii_of_nat 62.      (* '>' *)
Definition char_plus : Ascii.ascii := Ascii.ascii_of_nat 43.    (* '+' *)
Definition char_minus : Ascii.ascii := Ascii.ascii_of_nat 45.   (* '-' *)

(** [strings.Split(s, sep)] for a separator of one byte: the pieces of
    [s] between the separators, one more than there are separators. *)
Fixpoint split_on (sep : Ascii.ascii) (s : string) : list string :=
  match s with
  | EmptyString => [EmptyString]
  | String c s' =>
      if Ascii.eqb c sep then EmptyString :: split_on sep s'
      else match split_on sep s' with
           | p :: ps => String c p :: ps
           | [] => [String c EmptyString]
           end
  end.

(** The value of a digit of [strconv.ParseUint] in base 16: the decimal
    digits, and the letters [a] to [f] in either case. *)
Definition hex_digit (c : Ascii.ascii) : option Z :=
  let n := Z.of_N (Ascii.N_of_ascii c) in
  if (48 <=? n) && (n <=? 57) then Some (n - 48)
  else
    let l := Z.lor n 32 in
    if (97 <=? l) && (l <=? 102) then Some (l - 97 + 10) else None.

(** The loop of [strconv.ParseUint(s, 16, 64)]; [None] is an error, of
    syntax or of range. *)
Fixpoint ParseUint16_loop (s : string) (n : Z) : option Z :=
  match s with
  | EmptyString => Some n
  | String c s' =>
      match hex_digit c with
      | None => None
      | Some d =>
          if 2 ^ 60 <=? n then None
          else ParseUint16_loop s' (n * 16 + d)
      end
  end.

Definition ParseUint16 (s : string) : option Z :=
  match s with
  | EmptyString => None
  | _ => ParseUint16_loop s 0
  end.

(** [strconv.ParseInt(s, 16, 64)]. *)
Definition ParseInt16 (s : string) : option Z :=
  match s with
  | EmptyString => None
  | String c s' =>
      let '(neg, digits) :=
        if Ascii.eqb c char_plus then (false, s')
        else if Ascii.eqb c char_minus then (true, s')
        else (false, s) in
      match ParseUint16 digits with
      | None => None
      | Some un =>
          if negb neg && (2 ^ 63 <=? un) then None
          else if neg && (2 ^ 63 <? un) then None
          else Some (if neg then - un else un)
      end
  end.

(** The tag of a field as [newStructInfo] reads it. *)
Definition parse_tag (tag : string) : ebml_tag :=
  if String.eqb tag "" || String.eqb tag "-" then TagAbsent
  else
    match split_on char_comma tag with
    | p0 :: _ => TagPath (map ParseInt16 (split_on char_gt p0))
    | [] => TagPath []
    end.

(** ** The Matroska schema

    The struct types of the package [matroska], field by field: name, tag
    and type.  All their fields are exported and none is embedded.
    [Block] is the one type with an [UnmarshalEBML] method. *)

Definition tagged (name tag : string) (t : rtype) : structField :=
  mkStructField name true false (parse_tag tag) t.

Definition untagged (name : string) (t : rtype) : structField :=
  mkStructField name true false (parse_tag "") t.

Definition matroska_schema : list (string * structDecl) :=
  [("File",
   mkStructDecl
     [tagged "EBML" "1A45DFA3" (TPtr (TStruct "EBML"));
      tagged "Segment" "18538067" (TSlice (TPtr (TStruct "Segment")))]
     false);
  ("EBML",
   mkStructDecl
     [tagged "Version" "4286" (TInt Kword);
      tagged "ReadVersion" "42F7" (TInt Kword);
      tagged "MaxIDLength" "42F2" (TInt Kword);
      tagged "MaxSizeLength" "42F3" (TInt Kword);
      tagged "DocType" "4282" (TString);
      tagged "DocTypeVersion" "4287" (TInt Kword);
      tagged "DocTypeReadVersion" "4285" (TInt Kword)]
     false);
  ("Segment",
   mkStructDecl
     [tagged "Info" "1549A966" (TSlice (TPtr (TStruct "SegmentInfo")));
      tagged "SeekHead" "114D9B74,omitempty" (TSlice (TPtr (TStruct "SeekHead")));
      tagged "Tracks" "1654AE6B>AE,omitempty" (TSlice (TPtr (TStruct "Track")));
      tagged "Cluster" "1F43B675,omitempty" (TSlice (TPtr (TStruct "Cluster")));
      tagged "Cues" "1C53BB6B>BB,omitempty" (TSlice (TPtr (TStruct "CuePoint")));
      tagged "Attachments" "1941A469>61A7" (TSlice (TPtr (TStruct "Attachment")));
      tagged "Chapters" "1043A770>45B9" (TSlice (TPtr (TStruct "Chapter")));
      tagged "Tags" "1254C367>7373" (TSlice (TPtr (TStruct "Tag")))]
     false);
  ("SegmentInfo",
   mkStructDecl
     [tagged "UID" "73A4,omitempty" (TSlice (TUint K8));
      tagged "Filename" "7384,omitempty" (TString);
      tagged "PrevUID" "3CB923,omitempty" (TSlice (TUint K8));
      tagged "PrevFilename" "3C83AB,omitempty" (TString);
      tagged "NextUID" "3EB923,omitempty" (TSlice (TUint K8));
      tagged "NextFilename" "3E83BB,omitempty" (TString);
      tagged "TimecodeScale" "2AD7B1" (TInt K64);
      tagged "Duration" "4489,omitempty" (TFloat false);
      tagged "DateUTC" "4461,omitempty" (TPtr (TTime));
      tagged "Title" "7BA9,omitempty" (TString);
      tagged "MuxingApp" "4D80" (TString);
      tagged "WritingApp" "5741" (TString);
      tagged "SegmentFamily" "4444" (TSlice (TUint K8));
      tagged "Translate" "6924" (TSlice (TPtr (TStruct "ChapterTranslate")))]
     false);
  ("ChapterTranslate",
   mkStructDecl
     [tagged "EditionUID" "69FC,omitempty" (TInt K64);
      tagged "Codec" "69BF" (TInt K64);
      tagged "ID" "69A5" (TSlice (TUint K8))]
     false);
  ("SeekHead",
   mkStructDecl
     [tagged "Seek" "4DBB" (TSlice (TPtr (TStruct "Seek")))]
     false);
  ("Seek",
   mkStructDecl
     [tagged "ID" "53AB" (TSlice (TUint K8));
      tagged "Position" "53AC" (TInt K64)]
     false);
  ("Track",
   mkStructDecl
     [tagged "TrackNumber" "D7" (TInt Kword);
      tagged "TrackUID" "73C5" (TInt K64);
      tagged "TrackType" "83" (TInt Kword);
      tagged "FlagEnabled" "B9" (TInt Kword);
      tagged "FlagDefault" "88" (TInt Kword);
      tagged "FlagForced" "55AA" (TInt Kword);
      tagged "FlagLacing" "9C" (TInt Kword);
      tagged "MinCache" "6DE7" (TInt Kword);
      tagged "MaxCache" "6DF8,omitempty" (TInt Kword);
      tagged "DefaultDuration" "23E383,omitempty" (TInt K64);
      tagged "DefaultDecodedFieldDuration" "234E7A,omitempty" (TInt K64);
      tagged "MaxBlockAdditionID" "55EE" (TInt K64);
      tagged "Name" "536E,omitempty" (TString);
      tagged "Language" "22B59C,omitempty" (TString);
      tagged "CodecID" "86" (TString);
      tagged "CodecPrivate" "63A2,omitempty" (TSlice (TUint K8));
      tagged "CodecName" "258688,omitempty" (TString);
      tagged "AttachmentLink" "7446,omitempty" (TInt K64);
      tagged "CodecDecodeAll" "AA" (TInt K64);
      tagged "TrackOverlay" "6FAB,omitempty" (TInt K64);
      tagged "CodecDelay" "56AA,omitempty" (TInt K64);
      tagged "SeekPreRoll" "56BB" (TInt K64);
      tagged "Translate" "6624,omitempty" (TSlice (TPtr (TStruct "TrackTranslate")));
      tagged "Video" "E0,omitempty" (TPtr (TStruct "VideoTrack"));
      tagged "Audio" "E1,omitempty" (TPtr (TStruct "AudioTrack"));
      tagged "TrackOperation" "E2,omitempty" (TPtr (TStruct "TrackOperation"));
      tagged "ContentEncodings" "6D80>6240" (TSlice (TPtr (TStruct "ContentEncoding")))]
     false);
  ("TrackTranslate",
   mkStructDecl
     [tagged "EditionUID" "66FC,omitempty" (TInt K64);
      tagged "Codec" "66BF" (TInt K64);
      tagged "ID" "66A5" (TSlice (TUint K8))]
     false);
  ("Cluster",
   mkStructDecl
     [tagged "Timecode" "E7" (TInt K64);
      tagged "SilentTracks" "5854>58D7,omitempty" (TSlice (TInt Kword));
      tagged "Position" "A7,omitempty" (TInt K64);
      tagged "PrevSize" "AB,omitempty" (TInt K64);
      tagged "SimpleBlock" "A3,omitempty" (TSlice (TPtr (TStruct "Block")));
      tagged "BlockGroup" "A0,omitempty" (TSlice (TPtr (TStruct "BlockGroup")))]
     false);
  ("Block",
   mkStructDecl
     [untagged "Data" (TSlice (TUint K8))]
     true);
  ("BlockGroup",
   mkStructDecl
     [tagged "Block" "A1" (TPtr (TStruct "Block"));
      tagged "Additions" "75A1>A6,omitempty" (TSlice (TPtr (TStruct "BlockAddition")));
      tagged "Duration" "9B,omitempty" (TInt K64);
      tagged "ReferencePriority" "FA" (TInt K64);
      tagged "ReferenceBlock" "FB,omitempty" (TInt K64);
      tagged "CodecState" "A4,omitempty" (TSlice (TUint K8));
      tagged "DiscardPadding" "75A2,omitempty" (TInt K64);
      tagged "Slices" "8E>E8>CC,omitempty" (TSlice (TInt K64))]
     false);
  ("BlockAddition",
   mkStructDecl
     [tagged "ID" "EE" (TInt K64);
      tagged "Additional" "A5" (TSlice (TUint K8))]
     false);
  ("VideoTrack",
   mkStructDecl
     [tagged "FlagInterlaced" "9A" (TInt Kword);
      tagged "FieldOrder" "9D" (TInt Kword);
      tagged "StereoMode" "53B8,omitempty" (TInt Kword);
      tagged "AlphaMode" "53C0,omitempty" (TInt Kword);
      tagged "PixelWidth" "B0" (TInt Kword);
      tagged "PixelHeight" "BA" (TInt Kword);
      tagged "PixelCropBottom" "54AA,omitempty" (TInt Kword);
      tagged "PixelCropTop" "54BB,omitempty" (TInt Kword);
      tagged "PixelCropLeft" "54CC,omitempty" (TInt Kword);
      tagged "PixelCropRight" "54DD,omitempty" (TInt Kword);
      tagged "DisplayWidth" "54B0,omitempty" (TInt Kword);
      tagged "DisplayHeight" "54BA,omitempty" (TInt Kword);
      tagged "DisplayUnit" "54B2,omitempty" (TInt Kword);
      tagged "AspectRatioType" "54B3,omitempty" (TInt Kword);
      tagged "ColourSpace" "2EB524,omitempty" (TSlice (TUint K8));
      tagged "Colour" "55B0,omitempty" (TSlice (TPtr (TStruct "Colour")))]
     false);
  ("Colour",
   mkStructDecl
     [tagged "MatrixCoefficients" "55B1,omitempty" (TInt Kword);
      tagged "BitsPerChannel" "55B2,omitempty" (TInt Kword);
      tagged "ChromaSubsamplingHorz" "55B3,omitempty" (TInt Kword);
      tagged "ChromaSubsamplingVert" "55B4,omitempty" (TInt Kword);
      tagged "CbSubsamplingHorz" "55B5,omitempty" (TInt Kword);
      tagged "CbSubsamplingVert" "55B6,omitempty" (TInt Kword);
      tagged "ChromaSitingHorz" "55B7,omitempty" (TInt Kword);
      tagged "ChromaSitingVert" "55B8,omitempty" (TInt Kword);
      tagged "Range" "55B9,omitempty" (TInt Kword);
      tagged "TransferCharacteristics" "55BA,omitempty" (TInt Kword);
      tagged "Primaries" "55BB,omitempty" (TInt Kword);
      tagged "MaxCLL" "55BC,omitempty" (TInt Kword);
      tagged "MaxFALL" "55BD,omitempty" (TInt Kword);
      tagged "MasteringMetadata" "55D0" (TSlice (TPtr (TStruct "MasteringMetadata")))]
     false);
  ("MasteringMetadata",
   mkStructDecl
     [tagged "PrimaryRChromaX" "55D1,omitempty" (TFloat false);
      tagged "PrimaryRChromaY" "55D2,omitempty" (TFloat false);
      tagged "PrimaryGChromaX" "55D3,omitempty" (TFloat false);
      tagged "PrimaryGChromaY" "55D4,omitempty" (TFloat false);
      tagged "PrimaryBChromaX" "55D5,omitempty" (TFloat false);
      tagged "PrimaryBChromaY" "55D6,omitempty" (TFloat false);
      tagged "WhitePointChromaX" "55D7,omitempty" (TFloat false);
      tagged "WhitePointChromaY" "55D8,omitempty" (TFloat false);
      tagged "LuminanceMax" "55D9,omitempty" (TFloat false);
      tagged "LuminanceMin" "55DA,omitempty" (TFloat false)]
     false);
  ("AudioTrack",
   mkStructDecl
     [tagged "SamplingFreq" "B5" (TFloat false);
      tagged "OutputSamplingFreq" "78B5,omitempty" (TFloat false);
      tagged "Channels" "9F" (TInt Kword);
      tagged "BitDepth" "6264,omitempty" (TInt Kword)]
     false);
  ("TrackOperation",
   mkStructDecl
     [tagged "CombinePlanes" "E3>E4,omitempty" (TSlice (TPtr (TStruct "TrackPlane")));
      tagged "JoinBlocks" "E9>ED" (TSlice (TInt K64))]
     false);
  ("TrackPlane",
   mkStructDecl
     [tagged "UID" "E5" (TInt K64);
      tagged "Type" "E6" (TInt Kword)]
     false);
  ("ContentEncoding",
   mkStructDecl
     [tagged "Order" "5031" (TInt Kword);
      tagged "Scope" "5032" (TInt Kword);
      tagged "Type" "5033" (TInt Kword);
      tagged "Compression" "5034,omitempty" (TPtr (TStruct "Compression"));
      tagged "Encryption" "5035,omitempty" (TPtr (TStruct "Encryption"))]
     false);
  ("Compression",
   mkStructDecl
     [tagged "Algo" "4254" (TInt Kword);
      tagged "Settings" "4255,omitempty" (TSlice (TUint K8))]
     false);
  ("Encryption",
   mkStructDecl
     [tagged "EncAlgo" "47E1,omitempty" (TInt Kword);
      tagged "EncKeyID" "47E2,omitempty" (TSlice (TUint K8));
      tagged "Signature" "47E3,omitempty" (TSlice (TUint K8));
      tagged "SigKeyID" "47E4,omitempty" (TSlice (TUint K8));
      tagged "SigAlgo" "47E5,omitempty" (TInt Kword);
      tagged "SigHashAlgo" "47E6,omitempty" (TInt Kword)]
     false);
  ("CuePoint",
   mkStructDecl
     [tagged "Time" "B3" (TInt K64);
      tagged "TrackPositions" "B7" (TSlice (TPtr (TStruct "CueTrackPosition")))]
     false);
  ("CueTrackPosition",
   mkStructDecl
     [tagged "Track" "F7" (TInt K64);
      tagged "ClusterPosition" "F1" (TInt K64);
      tagged "RelativePosition" "F0,omitempty" (TInt K64);
      tagged "Duration" "B2,omitempty" (TInt K64);
      tagged "BlockNumber" "5378,omitempty" (TInt K64);
      tagged "CodecState" "EA,omitempty" (TInt K64);
      tagged "References" "DB>96,omitempty" (TSlice (TInt K64))]
     false);
  ("Attachment",
   mkStructDecl
     [tagged "UID" "46AE" (TInt K64);
      tagged "Description" "467E,omitempty" (TString);
      tagged "Name" "466E" (TString);
      tagged "MimeType" "4660" (TString);
      tagged "Data" "465C" (TSlice (TUint K8))]
     false);
  ("Chapter",
   mkStructDecl
     [tagged "EditionUID" "45BC,omitempty" (TInt K64);
      tagged "FlagHidden" "45BD" (TInt Kword);
      tagged "FlagDefault" "45DB" (TInt Kword);
      tagged "FlagOrdered" "45DD,omitempty" (TInt Kword);
      tagged "Atoms" "B6" (TSlice (TPtr (TStruct "ChapterAtom")))]
     false);
  ("ChapterAtom",
   mkStructDecl
     [tagged "ChapterUID" "73C4" (TInt K64);
      tagged "StringUID" "5654,omitempty" (TString);
      tagged "TimeStart" "91" (TInt K64);
      tagged "TimeEnd" "92,omitempty" (TInt K64);
      tagged "FlagHidden" "98" (TInt Kword);
      tagged "FlagEnabled" "4598" (TInt Kword);
      tagged "SegmentUID" "6E67,omitempty" (TInt K64);
      tagged "SegmentEditionUID" "6EBC,omitempty" (TInt K64);
      tagged "PhysicalEquiv" "63C3,omitempty" (TInt Kword);
      tagged "Tracks" "8F>89,omitempty" (TSlice (TInt K64));
      tagged "Displays" "80,omitempty" (TSlice (TPtr (TStruct "ChapterDisplay")));
      tagged "Processes" "6944,omitempty" (TSlice (TPtr (TStruct "ChapterProcess")))]
     false);
  ("ChapterDisplay",
   mkStructDecl
     [tagged "String" "85" (TString);
      tagged "Language" "437C" (TString);
      tagged "Country" "437E,omitempty" (TString)]
     false);
  ("ChapterProcess",
   mkStructDecl
     [tagged "CodecID" "6955" (TInt Kword);
      tagged "Private" "450D,omitempty" (TSlice (TUint K8));
      tagged "Command" "6911,omitempty" (TSlice (TPtr (TStruct "ChapterCommand")))]
     false);
  ("ChapterCommand",
   mkStructDecl
     [tagged "Time" "6922" (TInt K64);
      tagged "Data" "6933" (TSlice (TUint K8))]
     false);
  ("Tag",
   mkStructDecl
     [tagged "Targets" "63C0" (TSlice (TPtr (TStruct "TagTarget")));
      tagged "Tags" "67C8" (TSlice (TPtr (TStruct "SimpleTag")))]
     false);
  ("TagTarget",
   mkStructDecl
     [tagged "TypeValue" "68CA,omitempty" (TInt Kword);
      tagged "Type" "63CA,omitempty" (TString);
      tagged "TrackUID" "63C5,omitempty" (TSlice (TInt K64));
      tagged "EditionUID" "63C9,omitempty" (TSlice (TInt K64));
      tagged "ChapterUID" "63C4,omitempty" (TSlice (TInt K64));
      tagged "AttachmentUID" "63C6,omitempty" (TSlice (TInt K64))]
     false);
  ("SimpleTag",
   mkStructDecl
     [tagged "Tags" "67C8" (TSlice (TPtr (TStruct "SimpleTag")));
      tagged "Name" "45A3" (TString);
      tagged "Language" "447A" (TString);
      tagged "Default" "4484" (TInt Kword);
      tagged "String" "4487,omitempty" (TString);
      tagged "Binary" "4485,omitempty" (TSlice (TUint K8))]
     false)].

Definition matroska_env : tenv := fun name =>
  match List.find (fun p => String.eqb (fst p) name) matroska_schema with
  | Some p => snd p
  | None => mkStructDecl [] false
  end.

(** ** What [newStructInfo] makes of a struct type *)

(** The path [newStructInfo] reads from a field, when it looks at the
    field at all: the field is exported, not embedded, and has a tag. *)
Definition tag_path (f : structField) : option (list (option Z)) :=
  if sf_exported f && negb (sf_anonymous f)
  then match sf_tag f with TagPath p => Some p | TagAbsent => None end
  else None.

(** The descriptor of the field of index [i]: the first id of its path,
    the index, the name, and the rest of the path. *)
Definition descriptor (i : nat) (f : structField) : option fieldInfo :=
  match tag_path f with
  | Some (Some id :: rest) =>
      if forallb (fun o : option Z => bool_decide (is_Some o)) rest
      then Some (mkFieldInfo id i (sf_name f) (omap (fun o => o) rest))
      else None
  | _ => None
  end.

Fixpoint descriptors (i : nat) (fs : list structField) : list fieldInfo :=
  match fs with
  | [] => []
  | f :: fs' =>
      match descriptor i f with
      | Some x => x :: descriptors (S i) fs'
      | None => descriptors (S i) fs'
      end
  end.

(** A field whose tag [newStructInfo] can read: the path is not empty
    and every id of it parses. *)
Definition readable_tag (f : structField) : Prop :=
  forall p, tag_path f = Some p -> p <> [] /\ Forall is_Some p.

(** The types [decode] has a case for. *)
Fixpoint supported (t : rtype) : bool :=
  match t with
  | TPtr e => is_struct_kind e
  | TSlice (TUint K8) => true
  | TSlice (TInt K64) => true
  | TSlice (TPtr e) => supported e
  | TSlice _ => false
  | TOther _ => false
  | _ => true
  end.

(** The ids [readVint] can return for an id: the marker of the width is
    part of the value. *)
Definition id_width (id : Z) : option nat :=
  List.find (fun w => (2 ^ (7 * Z.of_nat w) <=? id) && (id <? 2 ^ (7 * Z.of_nat w + 1)))
    [1; 2; 3; 4; 5; 6; 7; 8]%nat.

(** The descriptors of every struct type of the schema, with the name of
    the type. *)
Definition schema_tables : list (string * result structInfo) :=
  map (fun p => (fst p, struct_fields 0 (s_fields (snd p)) (mkStructInfo [] ∅)))
    matroska_schema.

(** The fields of the schema whose type [decode] has no case for. *)
Definition schema_unsupported : list (string * string) :=
  concat
    (map (fun p =>
            omap (fun f => if supported (sf_type f) then None
                           else Some (fst p, sf_name f))
              (s_fields (snd p)))
       matroska_schema).

(** The nesting of pointers and slices in a type. *)
Fixpoint rdepth (t : rtype) : nat :=
  match t with
  | TPtr e => S (rdepth e)
  | TSlice e => S (rdepth e)
  | _ => 1
  end.

Definition has_tag (f : structField) : bool :=
  match sf_tag f with TagAbsent => false | TagPath _ => true end.

(** ** The readers as functions of a payload

    What the primitive readers return for an element whose payload is
    [p], and what [decode] stores with it in a field that holds a value
    of a primitive kind, a byte slice or a slice of [int64]. *)

Definition payload_int (p : list byte) : result Z :=
  if (1 <=? length p)%nat && (length p <=? 8)%nat
  then Ok (wrap64 (be_uint p)) else Err ErrFormat.

Definition payload_float (p : list byte) : result float64 :=
  if (length p =? 4)%nat then Ok (F32frombits (be_uint p))
  else if (length p =? 8)%nat then Ok (F64frombits (be_uint p))
  else Err ErrFormat.

Definition payload_bytes (p : list byte) : result (list byte) :=
  if Z.of_nat (length p) <=? maxBufferSize then Ok p else Err ErrFormat.

Definition stored {A} (v : value) (r : result A) (f : A -> value) : value * result unit :=
  match r with
  | Ok x => (f x, Ok tt)
  | Err e => (v, Err e)
  | NoFuel => (v, NoFuel)
  end.

Definition leaf (v : value) (p : list byte) : option (value * result unit) :=
  match v with
  | VInt k _ => Some (stored v (payload_int p) (fun i => VInt k (wrap_signed k i)))
  | VUint k _ => Some (stored v (payload_int p) (fun i => VUint k (wrap_unsigned k i)))
  | VBool _ => Some (stored v (payload_int p) (fun i => VBool (negb (i =? 0))))
  | VFloat s _ => Some (stored v (payload_float p) (VFloat s))
  | VString _ => Some (stored v (payload_bytes p) VString)
  | VBytes _ => Some (stored v (payload_bytes p) VBytes)
  | VTime _ => Some (stored v (payload_int p) (fun t => VTime (Some t)))
  | VSlice (TUint K8) _ => Some (stored v (payload_bytes p) VBytes)
  | VSlice (TInt K64) items =>
      Some (stored v (payload_int p) (fun i => VSlice (TInt K64) (items ++ [VInt K64 i])))
  | _ => None
  end.

(** A reader that returns [r] on the cursor [a]: on success the bytes up
    to [t] are consumed and the cursor is closed, on an error nothing has
    changed. *)
Definition reads {A} (m : M A) (r : result A) (a : nat) (d : Decoder) (w : world)
  (t : list byte) : Prop :=
  exists w',
    m w = (r, w') /\
    match r with
    | Ok _ => pending w' = t /\ w_heap w' = <[a := with_len d 0]> (w_heap w) /\
              w_cap w' = w_cap w
    | _ => w' = w
    end.

(** ** Element trees

    A stream seen as nested elements: a leaf carries its payload as
    bytes, a node carries it as the elements it is made of.  [wi] and
    [ws] are the widths of the two vints of the header. *)
Inductive etree : Type :=
| Leaf (id : Z) (wi ws : nat) (p : list byte)
| Node (id : Z) (wi ws : nat) (cs : list etree).

Definition e_id (e : etree) : Z :=
  match e with Leaf id _ _ _ => id | Node id _ _ _ => id end.
Definition e_wi (e : etree) : nat :=
  match e with Leaf _ wi _ _ => wi | Node _ wi _ _ => wi end.
Definition e_ws (e : etree) : nat :=
  match e with Leaf _ _ ws _ => ws | Node _ _ ws _ => ws end.

Fixpoint encode_tree (e : etree) : list byte :=
  match e with
  | Leaf id wi ws p =>
      encode_vint IdKind wi id ++ encode_vint SizeKind ws (Z.of_nat (length p)) ++ p
  | Node id wi ws cs =>
      encode_vint IdKind wi id
      ++ encode_vint SizeKind ws (Z.of_nat (length (concat (map encode_tree cs))))
      ++ concat (map encode_tree cs)
  end.

Definition encode_trees (es : list etree) : list byte := concat (map encode_tree es).

Definition payload (e : etree) : list byte :=
  match e with
  | Leaf _ _ _ p => p
  | Node _ _ _ cs => encode_trees cs
  end.

Definition children (e : etree) : option (list etree) :=
  match e with
  | Leaf _ _ _ _ => None
  | Node _ _ _ cs => Some cs
  end.

(** The header of every element can be written: the id carries the
    marker of its width and the size fits the width of its vint. *)
Inductive wf_tree : etree -> Prop :=
| wf_leaf (id : Z) (wi ws : nat) (p : list byte) :
    encodable IdKind wi id ->
    encodable SizeKind ws (Z.of_nat (length p)) ->
    wf_tree (Leaf id wi ws p)
| wf_node (id : Z) (wi ws : nat) (cs : list etree) :
    encodable IdKind wi id ->
    encodable SizeKind ws (Z.of_nat (length (encode_trees cs))) ->
    Forall wf_tree cs ->
    wf_tree (Node id wi ws cs).

(** The number of elements on the longest way down a tree. *)
Fixpoint tdepth (e : etree) : nat :=
  match e with
  | Leaf _ _ _ _ => 1
  | Node _ _ _ cs => S (fold_right Nat.max 0%nat (map tdepth cs))
  end.

(** ** The struct decoder read on element trees

    [typeCodec.UnmarshalEBML], [decodeSeq] and [decode] followed on the
    elements of a tree instead of a cursor: the same cases in the same
    order, with the same fuel, the payload and the children of an element
    taken from the tree.  The result is [None] where the decoder goes
    into the payload of an element that the tree gives as a leaf. *)

Definition tree_block (x : value) (p : list byte) : value * result unit :=
  match payload_bytes p with
  | Ok b => (set_field x 0 (VBytes b), Ok tt)
  | Err e => (set_field x 0 (VBytes []), Err e)
  | NoFuel => (x, NoFuel)
  end.

Section Trees.
Variable env : tenv.

Fixpoint tree_loop (fuel : nat) (s : structInfo) (v : value) (es : list etree)
  {struct fuel} : option (value * result unit) :=
  match fuel with
  | O => Some (v, NoFuel)
  | S fuel' =>
      match es with
      | [] => Some (v, Ok tt)
      | e :: es' =>
          if (length (payload e) =? 0)%nat then tree_loop fuel' s v es'
          else
            match si_ids s !! e_id e with
            | Some f =>
                match field v (fi_index f) with
                | None => Some (v, Err (Panic "reflect: Field index out of range"))
                | Some fv =>
                    match
                      match fi_seq f with
                      | [] => tree_decode fuel' fv e
                      | seq =>
                          match children e with
                          | Some cs => tree_seq fuel' seq fv cs
                          | None => None
                          end
                      end
                    with
                    | None => None
                    | Some (fv', r) =>
                        let v' := set_field v (fi_index f) fv' in
                        match r with
                        | Ok _ => tree_loop fuel' s v' es'
                        | _ => Some (v', r)
                        end
                    end
                end
            | None => tree_loop fuel' s v es'
            end
      end
  end

with tree_seq (fuel : nat) (seq : list Z) (v : value) (es : list etree)
  {struct fuel} : option (value * result unit) :=
  match fuel with
  | O => Some (v, NoFuel)
  | S fuel' =>
      match es with
      | [] => Some (v, Ok tt)
      | e :: es' =>
          if (length (payload e) =? 0)%nat then tree_seq fuel' seq v es'
          else
            match seq with
            | [] => Some (v, Err (Panic "index out of range"))
            | id0 :: seq' =>
                if e_id e =? id0 then
                  match
                    match seq' with
                    | [] => tree_decode fuel' v e
                    | _ =>
                        match children e with
                        | Some cs => tree_seq fuel' seq' v cs
                        | None => None
                        end
                    end
                  with
                  | None => None
                  | Some (v', r) =>
                      match r with
                      | Ok _ => tree_seq fuel' seq v' es'
                      | _ => Some (v', r)
                      end
                  end
                else tree_seq fuel' seq v es'
            end
      end
  end

with tree_decode (fuel : nat) (v : value) (e : etree) {struct fuel}
  : option (value * result unit) :=
  match fuel with
  | O => Some (v, NoFuel)
  | S fuel' =>
      match v with
      | VStruct _ _ =>
          match newStructInfo env v with
          | Ok s =>
              match children e with
              | Some cs => tree_loop fuel' s v cs
              | None => None
              end
          | Err er => Some (v, Err er)
          | NoFuel => Some (v, NoFuel)
          end
      | VPtr t p =>
          if negb (is_struct_kind t)
          then Some (v, Err (ErrOther "ebml: unsupported pointer type"))
          else
            match (match p with Some x => Some x | None => zero fuel' env t end) with
            | None => Some (v, NoFuel)
            | Some x =>
                match
                  if implements_Unmarshaler env (TPtr t)
                  then Some (tree_block x (payload e))
                  else tree_decode fuel' x e
                with
                | None => None
                | Some (x', r) => Some (VPtr t (Some x'), r)
                end
            end
      | VSlice t items =>
          match t with
          | TUint K8 => leaf v (payload e)
          | TInt K64 => leaf v (payload e)
          | TPtr t' =>
              match zero fuel' env t' with
              | None => Some (v, NoFuel)
              | Some it =>
                  match
                    if implements_Unmarshaler env t
                    then Some (tree_block it (payload e))
                    else tree_decode fuel' it e
                  with
                  | None => None
                  | Some (it', r) => Some (VSlice t (items ++ [VPtr t' (Some it')]), r)
                  end
              end
          | _ => Some (v, Err (ErrOther "ebml: unsupported slice type"))
          end
      | VOther _ => Some (v, Err (ErrOther "ebml: unsupported type"))
      | _ => leaf v (payload e)
      end
  end.
End Trees.

(** ** The state of a cursor between two elements *)

(** The chain under [o] is closed, at most [n] long, and made of cursors
    at the address [lo] or above. *)
Definition tidy (h : list Decoder) (lo n : nat) (o : option nat) : Prop :=
  exists l,
    chain h o l /\ (length l <= n)%nat /\ Forall (fun x => (lo <= x)%nat) l /\
    forall x d, x ∈ l -> h !! x = Some d -> d_len d <= 0.

Definition cursor_ok (a lo n : nat) (d : Decoder) (w : world) : Prop :=
  w_heap w !! a = Some d /\
  (a < lo <= length (w_heap w))%nat /\
  tidy (w_heap w) lo n (d_elem d) /\
  int64_range (d_len d).

(** From [w] to [w'] the cursor [a] has passed [total] bytes: its own
    record went from [d] to [d'], cursors were added, no other cursor
    that was there has changed. *)
Definition advanced (a : nat) (d d' : Decoder) (total : Z) (w w' : world) : Prop :=
  w_cap w' = w_cap w /\
  (length (w_heap w) <= length (w_heap w'))%nat /\
  (forall x, (x < length (w_heap w))%nat -> x <> a -> w_heap w' !! x = w_heap w !! x) /\
  d_size d' = d_size d /\ d_rs d' = d_rs d /\ d_id d' = d_id d /\
  (0 < d_size d -> d_len d' = d_len d - total).

Definition passed (a lo n : nat) (d : Decoder) (total : Z) (t : list byte)
  (w w' : world) : Prop :=
  pending w' = t /\
  exists d', cursor_ok a lo n d' w' /\ advanced a d d' total w w'.

(** A size-bounded cursor has room for [total] bytes; and the elements
    that come are the last ones: the cursor is bounded and they fill it,
    or the stream ends behind them. *)
Definition room (d : Decoder) (total : Z) : Prop :=
  0 < d_size d -> total <= d_len d <= d_size d.

Definition at_end (d : Decoder) (total : Z) (t : list byte) : Prop :=
  (0 < d_size d /\ d_len d = total) \/ t = [].

(** ** The decoder on a cursor against the decoder on a tree

    The three functions of the struct decoder, run on a cursor that has
    the encoding of the elements before it, against their reading on the
    trees: the same value and the same outcome; and when the outcome is
    success, the elements are consumed and the cursor is ready for what
    follows. *)

Definition loop_refines (env : tenv) (sf fuel : nat) : Prop :=
  forall (s : structInfo) (v : value) (es : list etree) (a lo m : nat) (d : Decoder)
         (w : world) (t : list byte) (res : value * result unit),
    tree_loop env fuel s v es = Some res ->
    Forall wf_tree es ->
    Forall (fun e => (tdepth e <= m)%nat) es ->
    (m <= sf)%nat ->
    cursor_ok a lo m d w ->
    room d (Z.of_nat (length (encode_trees es))) ->
    pending w = encode_trees es ++ t ->
    at_end d (Z.of_nat (length (encode_trees es))) t ->
    exists w',
      UnmarshalEBML_loop env sf fuel s v a w = (fst res, snd res, w') /\
      (snd res = Ok tt ->
       passed a lo m d (Z.of_nat (length (encode_trees es))) t w w').

Definition seq_refines (env : tenv) (sf fuel : nat) : Prop :=
  forall (seq : list Z) (v : value) (es : list etree) (a lo m : nat) (d : Decoder)
         (w : world) (t : list byte) (res : value * result unit),
    tree_seq env fuel seq v es = Some res ->
    Forall wf_tree es ->
    Forall (fun e => (tdepth e <= m)%nat) es ->
    (m <= sf)%nat ->
    cursor_ok a lo m d w ->
    room d (Z.of_nat (length (encode_trees es))) ->
    pending w = encode_trees es ++ t ->
    at_end d (Z.of_nat (length (encode_trees es))) t ->
    exists w',
      decodeSeq env sf fuel seq v a w = (fst res, snd res, w') /\
      (snd res = Ok tt ->
       passed a lo m d (Z.of_nat (length (encode_trees es))) t w w').

Definition decode_refines (env : tenv) (sf fuel : nat) : Prop :=
  forall (v : value) (e : etree) (c : nat) (dc : Decoder) (w : world) (t : list byte)
         (res : value * result unit),
    tree_decode env fuel v e = Some res ->
    wf_tree e ->
    (tdepth e <= sf)%nat ->
    w_heap w !! c = Some dc ->
    d_elem dc = None ->
    0 < d_size dc ->
    d_len dc = d_size dc ->
    d_size dc = Z.of_nat (length (payload e)) ->
    pending w = payload e ++ t ->
    exists w',
      decode env sf fuel v c w = (fst res, snd res, w') /\
      (snd res = Ok tt ->
       passed c (length (w_heap w)) (tdepth e - 1) dc (Z.of_nat (length (payload e))) t w w').

(** [typeCodec.UnmarshalEBML] read on the trees. *)
Definition tree_unmarshal (env : tenv) (fuel : nat) (v : value) (es : list etree)
  : option (value * result unit) :=
  match newStructInfo env v with
  | Ok s => tree_loop env fuel s v es
  | Err e => Some (v, Err e)
  | NoFuel => Some (v, NoFuel)
  end.

(** The value [ReadInt] returns for a payload, stored in a slice of
    [int64]. *)
Definition int64_item (p : list byte) : value := VInt K64 (wrap64 (be_uint p)).

(** The children a path of one id selects: those with that id and a
    payload. *)
Definition selected (id0 : Z) (e : etree) : bool :=
  (e_id e =? id0) && negb (length (payload e) =? 0)%nat.

(** Two elements that are one and the same, or whose ids both match no
    field descriptor of [s]. *)
Definition same_known (s : structInfo) (e1 e2 : etree) : Prop :=
  e1 = e2 \/ (si_ids s !! e_id e1 = None /\ si_ids s !! e_id e2 = None).

(** The cursor [a], with no child open, has the encoding of the
    well-formed trees [es] before it and ends with them. *)
Definition holds_trees (sf a : nat) (w : world) (es : list etree) : Prop :=
  exists (d : Decoder) (t : list byte),
    w_heap w !! a = Some d /\ d_elem d = None /\ int64_range (d_len d) /\
    Forall wf_tree es /\ Forall (fun e => (tdepth e <= sf)%nat) es /\
    room d (Z.of_nat (length (encode_trees es))) /\
    pending w = encode_trees es ++ t /\
    at_end d (Z.of_nat (length (encode_trees es))) t.

(** * Properties *)

(** ** Integers and bytes *)

Lemma byte_to_Z_range (b : byte) : 0 <= byte_to_Z b < 256.
Proof.
  unfold byte_to_Z. pose proof (Byte.to_N_bounded b). lia.
Qed.

Lemma byte_to_of_Z (z : Z) : byte_to_Z (byte_of_Z z) = z mod 256.
Proof.
  unfold byte_to_Z, byte_of_Z.
  assert (Hr : 0 <= z mod 256 < 256) by (apply Z.mod_pos_bound; lia).
  destruct (Byte.of_N (Z.to_N (z mod 256))) as [b|] eqn:E.
  - apply Byte.to_of_N in E. rewrite E. lia.
  - apply Byte.of_N_None_iff in E. lia.
Qed.

Lemma wrap64_id (x : Z) : int64_range x -> wrap64 x = x.
Proof.
  unfold int64_range, wrap64. intros H.
  rewrite Z.mod_small by lia. lia.
Qed.

Lemma lor_low_byte (a b : Z) : 0 <= b < 256 -> Z.lor (a * 256) b = a * 256 + b.
Proof.
  intros Hb.
  assert (Hland : Z.land (a * 256) b = 0).
  { apply Z.bits_inj'. intros n Hn.
    rewrite Z.land_spec, Z.bits_0.
    destruct (Z.ltb_spec n 8).
    - change 256 with (2 ^ 8). rewrite Z.mul_pow2_bits_low by lia. reflexivity.
    - replace (Z.testbit b n) with false; [apply andb_false_r|].
      symmetry. destruct (Z.eq_dec b 0) as [->|Hnz]; [apply Z.bits_0|].
      apply Z.bits_above_log2; [lia|].
      apply Z.log2_lt_pow2; [lia|].
      apply Z.lt_le_trans with (2 ^ 8); [lia|].
      apply Z.pow_le_mono_r; lia. }
  rewrite <- Z.lxor_lor by exact Hland.
  symmetry. apply Z.add_nocarry_lxor. exact Hland.
Qed.

Lemma shift_in_eq (v : Z) (it : byte) :
  0 <= v -> v * 256 < 2 ^ 63 -> shift_in v it = v * 256 + byte_to_Z it.
Proof.
  intros H0 H1. unfold shift_in.
  rewrite Z.shiftl_mul_pow2 by lia. change (2 ^ 8) with 256.
  rewrite wrap64_id by (unfold int64_range; lia).
  apply lor_low_byte, byte_to_Z_range.
Qed.

Lemma be_uint_app (b : list byte) (x : byte) :
  be_uint (b ++ [x]) = be_uint b * 256 + byte_to_Z x.
Proof.
  unfold be_uint. rewrite fold_left_app. reflexivity.
Qed.

Lemma be_uint_fold (b : list byte) (acc : Z) :
  fold_left (fun acc it => acc * 256 + byte_to_Z it) b acc
  = acc * 256 ^ Z.of_nat (length b) + be_uint b.
Proof.
  revert acc. induction b as [|x b IH]; intros acc.
  - simpl. unfold be_uint. simpl. lia.
  - cbn [fold_left length]. rewrite IH.
    unfold be_uint at 2. cbn [fold_left]. rewrite (IH (0 * 256 + byte_to_Z x)).
    rewrite Nat2Z.inj_succ, Z.pow_succ_r by lia. ring.
Qed.

Lemma be_uint_cons (x : byte) (b : list byte) :
  be_uint (x :: b) = byte_to_Z x * 256 ^ Z.of_nat (length b) + be_uint b.
Proof.
  unfold be_uint at 1. cbn [fold_left]. rewrite be_uint_fold. ring.
Qed.

Lemma be_uint_range (b : list byte) : 0 <= be_uint b < 256 ^ Z.of_nat (length b).
Proof.
  induction b as [|x b IH] using rev_ind.
  - vm_compute. split; [discriminate | reflexivity].
  - rewrite be_uint_app, length_app, Nat2Z.inj_add. cbn [length].
    rewrite Z.pow_add_r by lia. change (256 ^ Z.of_nat 1) with 256.
    pose proof (byte_to_Z_range x). nia.
Qed.

(** Without overflow the shifts of [shift_bytes] are a big-endian number. *)
Lemma shift_bytes_eq (b : list byte) (v : Z) :
  0 <= v -> (v + 1) * 256 ^ Z.of_nat (length b) <= 2 ^ 63 ->
  shift_bytes v b = v * 256 ^ Z.of_nat (length b) + be_uint b.
Proof.
  revert v. induction b as [|x b IH]; intros v H0 H1.
  - cbn. unfold be_uint. cbn. lia.
  - unfold shift_bytes. cbn [fold_left]. fold (shift_bytes (shift_in v x) b).
    cbn [length] in *. rewrite Nat2Z.inj_succ, Z.pow_succ_r in * by lia.
    assert (Hp : 0 < 256 ^ Z.of_nat (length b)) by (apply Z.pow_pos_nonneg; lia).
    pose proof (byte_to_Z_range x) as Hx.
    rewrite shift_in_eq by nia.
    rewrite IH by nia.
    rewrite be_uint_cons. ring.
Qed.

(** ** The leading byte: width and residual bits *)

Lemma vint_lead_facts (m : byte) :
  m <> x00 ->
  let n := fst (vint_lead m 0) in
  fst (vint_lead m 1) = n /\
  (n <= 7)%nat /\
  2 ^ (7 - Z.of_nat n) <= byte_to_Z m < 2 ^ (8 - Z.of_nat n) /\
  snd (vint_lead m 0) = byte_to_Z m /\
  snd (vint_lead m 1) = byte_to_Z m - 2 ^ (7 - Z.of_nat n).
Proof.
  intros Hm. destruct m; try (exfalso; apply Hm; reflexivity);
    vm_compute; repeat split; try discriminate; lia.
Qed.

Lemma vint_lead_zero (off : nat) : vint_lead x00 off = (7%nat, 0).
Proof. reflexivity. Qed.

(** The value of a vint of [n] further bytes whose leading byte left [v]. *)
Lemma shift_bytes_width (n : nat) (v : Z) (b : list byte) :
  (n <= 7)%nat -> length b = n -> 0 <= v < 2 ^ (8 - Z.of_nat n) ->
  shift_bytes v b = v * 2 ^ (8 * Z.of_nat n) + be_uint b.
Proof.
  intros Hn Hb Hv.
  assert (E : 256 ^ Z.of_nat (length b) = 2 ^ (8 * Z.of_nat n)).
  { rewrite Hb. change 256 with (2 ^ 8). rewrite <- Z.pow_mul_r by lia. reflexivity. }
  rewrite shift_bytes_eq, E; [reflexivity | lia |].
  rewrite E.
  apply Z.le_trans with (2 ^ (8 - Z.of_nat n) * 2 ^ (8 * Z.of_nat n)).
  - apply Z.mul_le_mono_nonneg_r; [apply Z.pow_nonneg|]; lia.
  - rewrite <- Z.pow_add_r by lia. apply Z.pow_le_mono_r; lia.
Qed.

(** ** The buffered reader, seen through the bytes still to come *)


Lemma same_store_refl (w : world) : same_store w w.
Proof. split; reflexivity. Qed.

Lemma same_store_trans (w1 w2 w3 : world) :
  same_store w1 w2 -> same_store w2 w3 -> same_store w1 w3.
Proof. unfold same_store. intros [? ?] [? ?]. split; congruence. Qed.

Lemma cap_ge_16 (w : world) : (16 <= cap w)%nat.
Proof. unfold cap. lia. Qed.

Lemma same_store_cap (w w' : world) : same_store w w' -> cap w' = cap w.
Proof. intros [_ H]. unfold cap. rewrite H. reflexivity. Qed.

Lemma fill_pending (w : world) : pending (fill w) = pending w.
Proof.
  unfold pending, fill. cbn. rewrite <- app_assoc, take_drop. reflexivity.
Qed.

Lemma fill_same_store (w : world) : same_store w (fill w).
Proof. split; reflexivity. Qed.

Lemma fill_if_empty_pending (w : world) : pending (fill_if_empty w) = pending w.
Proof.
  unfold fill_if_empty. destruct (w_buf w); [apply fill_pending | reflexivity].
Qed.

Lemma fill_if_empty_same_store (w : world) : same_store w (fill_if_empty w).
Proof.
  unfold fill_if_empty. destruct (w_buf w); [apply fill_same_store | apply same_store_refl].
Qed.

(** After [fill_if_empty] the buffer is empty only at the end of input. *)
Lemma fill_if_empty_buf (w : world) :
  w_buf (fill_if_empty w) = [] -> pending w = [].
Proof.
  unfold fill_if_empty, pending.
  destruct (w_buf w) as [|c b] eqn:Eb; [|intros H; rewrite Eb in H; discriminate].
  unfold fill. cbn. rewrite Eb. cbn.
  pose proof (cap_ge_16 w).
  destruct (w_src w) as [|x s]; [reflexivity|].
  destruct (cap w - 0)%nat eqn:Ec; [lia|]. cbn. discriminate.
Qed.

Lemma ReadByte_cons (w : world) (x : byte) (t : list byte) :
  pending w = x :: t ->
  exists w', ReadByte w = (Ok x, w') /\ pending w' = t /\ same_store w w'.
Proof.
  intros Hp. unfold ReadByte.
  pose proof (fill_if_empty_pending w) as Hf.
  pose proof (fill_if_empty_same_store w) as Hs.
  pose proof (fill_if_empty_buf w) as Hb.
  destruct (w_buf (fill_if_empty w)) as [|c b] eqn:E.
  - rewrite Hb in Hp by reflexivity. discriminate.
  - unfold pending in Hf at 1. rewrite E, Hp in Hf. cbn in Hf.
    injection Hf as -> <-.
    eexists. split; [reflexivity|]. split; [reflexivity|].
    destruct Hs as [? ?]. split; assumption.
Qed.

Lemma ReadByte_nil (w : world) :
  pending w = [] ->
  exists w', ReadByte w = (Err EOF, w') /\ pending w' = [] /\ same_store w w'.
Proof.
  intros Hp. unfold ReadByte.
  pose proof (fill_if_empty_pending w) as Hf.
  pose proof (fill_if_empty_same_store w) as Hs.
  destruct (w_buf (fill_if_empty w)) as [|c b] eqn:E.
  - eexists. split; [reflexivity|]. split; [congruence | exact Hs].
  - unfold pending in Hf at 1. rewrite E, Hp in Hf. discriminate.
Qed.

Lemma Peek_ok (n : nat) (w : world) :
  (n <= cap w)%nat -> (n <= length (pending w))%nat ->
  exists w', Peek n w = (Ok (take n (pending w)), w')
             /\ pending w' = pending w /\ same_store w w'.
Proof.
  intros Hc Hn. unfold Peek.
  replace (cap w <? n)%nat with false by (symmetry; apply Nat.ltb_ge; exact Hc).
  destruct (Nat.ltb_spec (length (w_buf w)) n) as [Hlt|Hge]; cbn [andb].
  - replace (length (w_buf w) <? cap w)%nat with true
      by (symmetry; apply Nat.ltb_lt; lia).
    assert (Hlen : (n <= length (w_buf (fill w)))%nat).
    { unfold fill. cbn. unfold pending in Hn.
      rewrite length_app in *. rewrite length_take. lia. }
    replace (length (w_buf (fill w)) <? n)%nat with false
      by (symmetry; apply Nat.ltb_ge; exact Hlen).
    exists (fill w). split; [|split; [apply fill_pending | apply fill_same_store]].
    f_equal. f_equal. rewrite <- (fill_pending w). unfold pending at 1.
    rewrite take_app_le by exact Hlen. reflexivity.
  - replace (length (w_buf w) <? n)%nat with false
      by (symmetry; apply Nat.ltb_ge; exact Hge).
    exists w. split; [|split; [reflexivity | apply same_store_refl]].
    unfold pending. rewrite take_app_le by exact Hge. reflexivity.
Qed.

Lemma Peek_short (n : nat) (w : world) :
  (n <= cap w)%nat -> (length (pending w) < n)%nat ->
  exists w', Peek n w = (Err EOF, w') /\ pending w' = pending w /\ same_store w w'.
Proof.
  intros Hc Hn. unfold Peek.
  replace (cap w <? n)%nat with false by (symmetry; apply Nat.ltb_ge; exact Hc).
  assert (Hb : (length (w_buf w) < n)%nat).
  { unfold pending in Hn. rewrite length_app in Hn. lia. }
  replace (length (w_buf w) <? n)%nat with true by (symmetry; apply Nat.ltb_lt; exact Hb).
  replace (length (w_buf w) <? cap w)%nat with true by (symmetry; apply Nat.ltb_lt; lia).
  cbn [andb].
  assert (Hlen : (length (w_buf (fill w)) < n)%nat).
  { rewrite <- (fill_pending w) in Hn. unfold pending in Hn.
    rewrite length_app in Hn. lia. }
  replace (length (w_buf (fill w)) <? n)%nat with true
    by (symmetry; apply Nat.ltb_lt; exact Hlen).
  exists (fill w). split; [reflexivity|]. split; [apply fill_pending | apply fill_same_store].
Qed.

Lemma set_buf_drop_pending (k : nat) (w : world) :
  (k <= length (w_buf w))%nat ->
  pending (set_buf (drop k (w_buf w)) w) = drop k (pending w).
Proof.
  intros Hk. unfold pending, set_buf. cbn.
  rewrite drop_app_le by exact Hk. reflexivity.
Qed.

Lemma discard_loop_ok (fuel remain : nat) (w : world) :
  (0 < remain <= fuel)%nat -> (remain <= length (pending w))%nat ->
  exists w', discard_loop fuel remain w = (Ok tt, w')
             /\ pending w' = drop remain (pending w) /\ same_store w w'.
Proof.
  revert remain w. induction fuel as [|fuel IH]; intros remain w Hr Hp; [lia|].
  cbn [discard_loop].
  pose proof (fill_if_empty_pending w) as Hf.
  pose proof (fill_if_empty_same_store w) as Hs.
  pose proof (fill_if_empty_buf w) as Hb.
  set (w1 := fill_if_empty w) in *.
  set (skip := Nat.min (length (w_buf w1)) remain).
  assert (Hskip : (skip <= length (w_buf w1))%nat) by (unfold skip; lia).
  pose proof (set_buf_drop_pending skip w1 Hskip) as Hd.
  set (w2 := set_buf (drop skip (w_buf w1)) w1) in *.
  assert (Hs2 : same_store w w2).
  { destruct Hs as [? ?]. split; assumption. }
  destruct (Nat.eqb_spec (remain - skip) 0) as [Hz|Hnz].
  - exists w2. split; [reflexivity|]. split; [|exact Hs2].
    rewrite Hd, Hf. f_equal. unfold skip. unfold skip in Hz. lia.
  - destruct (w_buf w1) as [|c b] eqn:E.
    + rewrite Hb in Hp by reflexivity. cbn in Hp. lia.
    + assert (Hpos : (0 < skip)%nat) by (unfold skip; rewrite ?E; cbn [length]; lia).
      destruct (IH (remain - skip)%nat w2) as (w' & Hrun & Hpen & Hst).
      * lia.
      * rewrite Hd, Hf, length_drop. lia.
      * exists w'. split; [exact Hrun|]. split.
        -- rewrite Hpen, Hd, Hf, drop_drop. f_equal. lia.
        -- eapply same_store_trans; eassumption.
Qed.

Lemma Discard_ok (n : Z) (w : world) :
  0 <= n <= Z.of_nat (length (pending w)) ->
  exists w', Discard n w = (Ok tt, w')
             /\ pending w' = drop (Z.to_nat n) (pending w) /\ same_store w w'.
Proof.
  intros Hn. unfold Discard.
  replace (n <? 0) with false by (symmetry; apply Z.ltb_ge; lia).
  destruct (Z.eqb_spec n 0) as [->|Hnz].
  - exists w. split; [reflexivity|]. split; [reflexivity | apply same_store_refl].
  - apply discard_loop_ok; lia.
Qed.

Lemma discard_loop_short (fuel remain : nat) (w : world) :
  (remain <= fuel)%nat -> (length (pending w) < remain)%nat ->
  exists w', discard_loop fuel remain w = (Err EOF, w')
             /\ pending w' = [] /\ same_store w w'.
Proof.
  revert remain w. induction fuel as [|fuel IH]; intros remain w Hr Hp; [lia|].
  cbn [discard_loop].
  pose proof (fill_if_empty_pending w) as Hf.
  pose proof (fill_if_empty_same_store w) as Hs.
  set (w1 := fill_if_empty w) in *.
  set (skip := Nat.min (length (w_buf w1)) remain).
  assert (Hb1 : (length (w_buf w1) <= length (pending w))%nat).
  { rewrite <- Hf. unfold pending. rewrite length_app. lia. }
  assert (Hskip : skip = length (w_buf w1)) by (unfold skip; lia).
  pose proof (set_buf_drop_pending skip w1 (Nat.eq_le_incl _ _ Hskip)) as Hd.
  set (w2 := set_buf (drop skip (w_buf w1)) w1) in *.
  assert (Hs2 : same_store w w2).
  { destruct Hs as [? ?]. split; assumption. }
  replace (remain - skip =? 0)%nat with false by (symmetry; apply Nat.eqb_neq; lia).
  destruct (w_buf w1) as [|c b] eqn:E.
  - exists w2. split; [reflexivity|]. split; [|exact Hs2].
    rewrite Hd, Hskip. cbn.
    pose proof (fill_if_empty_buf w E) as H0. rewrite <- Hf in H0. exact H0.
  - destruct (IH (remain - skip)%nat w2) as (w' & Hrun & Hpen & Hst).
    + rewrite Hskip, ?E. cbn [length]. lia.
    + rewrite Hd, Hf, length_drop. lia.
    + exists w'. split; [exact Hrun|]. split; [exact Hpen|].
      eapply same_store_trans; eassumption.
Qed.

Lemma Discard_short (n : Z) (w : world) :
  Z.of_nat (length (pending w)) < n ->
  exists w', Discard n w = (Err EOF, w') /\ pending w' = [] /\ same_store w w'.
Proof.
  intros Hn. unfold Discard.
  replace (n <? 0) with false by (symmetry; apply Z.ltb_ge; lia).
  replace (n =? 0) with false by (symmetry; apply Z.eqb_neq; lia).
  apply discard_loop_short; lia.
Qed.

(** ** The store of cursors *)

Lemma wrap64_range (x : Z) : int64_range (wrap64 x).
Proof.
  unfold int64_range, wrap64.
  pose proof (Z.mod_pos_bound (x + 2 ^ 63) (2 ^ 64) ltac:(lia)). lia.
Qed.

Lemma wrap64_sub_l (x y : Z) : wrap64 (wrap64 x - y) = wrap64 (x - y).
Proof.
  unfold wrap64.
  replace ((x + 2 ^ 63) mod 2 ^ 64 - 2 ^ 63 - y + 2 ^ 63)
    with ((x + 2 ^ 63) mod 2 ^ 64 + - y) by ring.
  rewrite Zplus_mod_idemp_l. f_equal. f_equal. ring.
Qed.

Lemma get_dec_Some (a : nat) (d : Decoder) (w : world) :
  w_heap w !! a = Some d -> get_dec a w = (Ok d, w).
Proof. intros H. unfold get_dec. rewrite H. reflexivity. Qed.

Lemma set_len_Some (a : nat) (x : Z) (d : Decoder) (w : world) :
  w_heap w !! a = Some d ->
  set_len a x w = (Ok tt, set_heap (<[a := with_len d x]> (w_heap w)) w).
Proof. intros H. unfold set_len. rewrite H. reflexivity. Qed.

Lemma pending_set_heap (h : list Decoder) (w : world) :
  pending (set_heap h w) = pending w.
Proof. reflexivity. Qed.

Lemma lookup_set_len (a : nat) (d : Decoder) (x : Z) (h : list Decoder) :
  h !! a = Some d -> <[a := with_len d x]> h !! a = Some (with_len d x).
Proof.
  intros H. apply list_lookup_insert_eq. eapply lookup_lt_Some; eassumption.
Qed.


Lemma Skip_quiet (h : list Decoder) (a n : nat) (o : option nat) :
  quiet_chain h a n o ->
  forall w e, w_heap w = h -> o = Some e -> Skip n e w = (Ok tt, w).
Proof.
  induction 1 as [|n e d Hne Hl Hlen Hq IH]; intros w e' Hw Ho; [discriminate|].
  injection Ho as <-. subst h.
  cbn [Skip]. unfold bind at 1. rewrite (get_dec_Some _ _ _ Hl).
  unfold bind at 1.
  assert (Hc : (match d_elem d with Some e0 => Skip n e0 | None => ret tt end) w = (Ok tt, w)).
  { destruct (d_elem d) as [c|] eqn:Ec; [|reflexivity].
    apply IH; reflexivity. }
  rewrite Hc. unfold bind. rewrite (get_dec_Some _ _ _ Hl).
  replace (d_len d <=? 0) with true by (symmetry; apply Z.leb_le; exact Hlen).
  reflexivity.
Qed.

Lemma skip_quiet (fuel a : nat) (d : Decoder) (w : world) :
  w_heap w !! a = Some d ->
  quiet_chain (w_heap w) a fuel (d_elem d) ->
  skip fuel a w = (Ok tt, w).
Proof.
  intros Hl Hq. unfold skip, bind. rewrite (get_dec_Some _ _ _ Hl).
  destruct (d_elem d) as [e|] eqn:E; [|reflexivity].
  eapply Skip_quiet; [exact Hq | reflexivity | reflexivity].
Qed.

(** A quiet chain stays quiet when only the cursor it hangs from changes. *)
Lemma quiet_chain_insert (h : list Decoder) (a n : nat) (o : option nat) (d' : Decoder) :
  quiet_chain h a n o -> quiet_chain (<[a := d']> h) a n o.
Proof.
  induction 1 as [|n e d Hne Hl Hlen Hq IH]; [constructor|].
  econstructor; [exact Hne | | exact Hlen | exact IH].
  rewrite list_lookup_insert_ne by congruence. exact Hl.
Qed.

(** ** Running the monad *)

Lemma bind_Ok {A B} (m : M A) (k : A -> M B) (w w' : world) (x : A) :
  m w = (Ok x, w') -> bind m k w = k x w'.
Proof. intros H. unfold bind. rewrite H. reflexivity. Qed.

Lemma bind_Ok_inv {A B} (m : M A) (k : A -> M B) (w w' : world) (y : B) :
  bind m k w = (Ok y, w') -> exists x w1, m w = (Ok x, w1) /\ k x w1 = (Ok y, w').
Proof.
  unfold bind. destruct (m w) as [[x|e|] w1]; try discriminate.
  intros H. exists x, w1. split; [reflexivity | exact H].
Qed.

Lemma bind_Err {A B} (m : M A) (k : A -> M B) (w w' : world) (e : error) :
  m w = (Err e, w') -> bind m k w = (Err e, w').
Proof. intros H. unfold bind. rewrite H. reflexivity. Qed.

Lemma vint_lead_fst_le (m : byte) (off : nat) : (fst (vint_lead m off) <= 7)%nat.
Proof. destruct m; vm_compute; lia. Qed.

Lemma vint_lead_fst_off (m : byte) (off : nat) :
  fst (vint_lead m off) = fst (vint_lead m 0).
Proof. destruct m; reflexivity. Qed.

(** ** The shape of the reader does not depend on the bytes *)

Lemma rshape_eq_refl (w : world) : rshape_eq w w.
Proof. repeat split. Qed.

Lemma rshape_eq_sym (w1 w2 : world) : rshape_eq w1 w2 -> rshape_eq w2 w1.
Proof. intros (? & ? & ?). repeat split; congruence. Qed.

Lemma rshape_eq_trans (w1 w2 w3 : world) :
  rshape_eq w1 w2 -> rshape_eq w2 w3 -> rshape_eq w1 w3.
Proof. intros (? & ? & ?) (? & ? & ?). repeat split; congruence. Qed.

Lemma rshape_eq_set_heap (h : list Decoder) (w : world) : rshape_eq (set_heap h w) w.
Proof. repeat split. Qed.

Lemma rshape_eq_cap (w1 w2 : world) : rshape_eq w1 w2 -> cap w1 = cap w2.
Proof. intros (H & _). unfold cap. rewrite H. reflexivity. Qed.

Lemma fill_shape (w1 w2 : world) : rshape_eq w1 w2 -> rshape_eq (fill w1) (fill w2).
Proof.
  intros H. pose proof (rshape_eq_cap _ _ H) as Hc. destruct H as (H1 & H2 & H3).
  unfold fill. repeat split; cbn; [exact H1| |].
  - rewrite !length_app, !length_take. lia.
  - rewrite !length_drop. lia.
Qed.

Lemma fill_if_empty_shape (w1 w2 : world) :
  rshape_eq w1 w2 -> rshape_eq (fill_if_empty w1) (fill_if_empty w2).
Proof.
  intros H. pose proof H as (_ & H2 & _). unfold fill_if_empty.
  destruct (w_buf w1), (w_buf w2); try discriminate; [apply fill_shape|]; exact H.
Qed.

Lemma ReadByte_shape (w1 w2 : world) :
  rshape_eq w1 w2 -> rshape_eq (snd (ReadByte w1)) (snd (ReadByte w2)).
Proof.
  intros H. apply fill_if_empty_shape in H. unfold ReadByte.
  pose proof H as (H1 & H2 & H3).
  destruct (w_buf (fill_if_empty w1)), (w_buf (fill_if_empty w2)); try discriminate;
    cbn [snd]; [exact H|].
  repeat split; cbn in *; congruence.
Qed.

Lemma Peek_shape (n : nat) (w1 w2 : world) :
  rshape_eq w1 w2 -> rshape_eq (snd (Peek n w1)) (snd (Peek n w2)).
Proof.
  intros H. pose proof (rshape_eq_cap _ _ H) as Hc. pose proof H as (H1 & H2 & H3).
  assert (Hw : rshape_eq
                 (if (length (w_buf w1) <? n)%nat && (length (w_buf w1) <? cap w1)%nat
                  then fill w1 else w1)
                 (if (length (w_buf w2) <? n)%nat && (length (w_buf w2) <? cap w2)%nat
                  then fill w2 else w2)).
  { rewrite H2, Hc. destruct (_ && _); [apply fill_shape|]; exact H. }
  unfold Peek.
  destruct (cap w1 <? n)%nat, (cap w2 <? n)%nat; cbn [snd]; try exact Hw;
    repeat match goal with |- context [if ?c then _ else _] => destruct c end;
    cbn [snd]; exact Hw.
Qed.

Lemma discard_loop_shape (fuel remain : nat) (w1 w2 : world) :
  rshape_eq w1 w2 ->
  rshape_eq (snd (discard_loop fuel remain w1)) (snd (discard_loop fuel remain w2)).
Proof.
  revert remain w1 w2. induction fuel as [|fuel IH]; intros remain w1 w2 H; [exact H|].
  cbn [discard_loop].
  apply fill_if_empty_shape in H. pose proof H as (H1 & H2 & H3).
  set (u1 := fill_if_empty w1) in *. set (u2 := fill_if_empty w2) in *.
  rewrite H2.
  assert (Hd : rshape_eq
                 (set_buf (drop (Nat.min (length (w_buf u2)) remain) (w_buf u1)) u1)
                 (set_buf (drop (Nat.min (length (w_buf u2)) remain) (w_buf u2)) u2)).
  { repeat split; cbn; [exact H1 | | exact H3]. rewrite !length_drop. lia. }
  destruct (_ =? 0)%nat; [exact Hd|].
  destruct (w_buf u1) eqn:E1, (w_buf u2) eqn:E2; try discriminate; [exact Hd|].
  apply IH. exact Hd.
Qed.

Lemma Discard_shape (n : Z) (w1 w2 : world) :
  rshape_eq w1 w2 -> rshape_eq (snd (Discard n w1)) (snd (Discard n w2)).
Proof.
  intros H. unfold Discard. destruct (n <? 0); [exact H|].
  destruct (n =? 0); [exact H|]. apply discard_loop_shape. exact H.
Qed.

Lemma vint_advance_shape (n : nat) (w1 w2 : world) :
  rshape_eq w1 w2 -> rshape_eq (vint_advance n w1) (vint_advance n w2).
Proof.
  intros H. unfold vint_advance. destruct n.
  - apply ReadByte_shape. exact H.
  - apply Discard_shape, Peek_shape, ReadByte_shape. exact H.
Qed.

Lemma skip_advance_shape (d : Decoder) (w1 w2 : world) :
  rshape_eq w1 w2 -> rshape_eq (skip_advance d w1) (skip_advance d w2).
Proof.
  intros H. pose proof H as (H1 & H2 & H3). unfold skip_advance.
  destruct (d_len d <=? 0); [exact H|]. rewrite H2.
  destruct (d_rs d && _).
  - repeat split; cbn; [exact H1|]. rewrite !length_drop. lia.
  - apply Discard_shape. exact H.
Qed.

(** Same cursors, same capacity, same bytes to come, same split: the
    same world. *)
Lemma world_eq (w1 w2 : world) :
  w_heap w1 = w_heap w2 -> pending w1 = pending w2 -> rshape_eq w1 w2 -> w1 = w2.
Proof.
  destruct w1 as [h1 b1 s1 c1], w2 as [h2 b2 s2 c2].
  unfold pending, rshape_eq. cbn.
  intros Hh Hp (Hc & Hb & _). subst h2 c2.
  apply app_inj_1 in Hp as [Eb Es]; [|exact Hb]. subst b2 s2. reflexivity.
Qed.

(** ** readVint on a stream that holds a whole vint *)

Lemma readVint_run (fuel a off : nat) (d : Decoder) (w : world)
  (m : byte) (b t : list byte) :
  w_heap w !! a = Some d ->
  quiet_chain (w_heap w) a fuel (d_elem d) ->
  int64_range (d_len d) ->
  (0 < d_size d -> 1 + Z.of_nat (length b) <= d_len d) ->
  pending w = m :: b ++ t ->
  length b = fst (vint_lead m off) ->
  exists w',
    readVint fuel a off w = (Ok (shift_bytes (snd (vint_lead m off)) b, length b), w') /\
    pending w' = t /\
    w_heap w' = <[a := with_len d (wrap64 (d_len d - 1 - Z.of_nat (length b)))]> (w_heap w) /\
    w_cap w' = w_cap w /\
    rshape_eq w' (vint_advance (length b) w).
Proof.
  intros Hl Hq Hr Hroom Hp Hb.
  unfold readVint.
  rewrite (bind_Ok _ _ _ _ _ (skip_quiet _ _ _ _ Hl Hq)).
  rewrite (bind_Ok _ _ _ _ _ (get_dec_Some _ _ _ Hl)).
  assert (Hc1 : (d_len d <? 1) && (0 <? d_size d) = false).
  { destruct (Z.ltb_spec 0 (d_size d)); [|apply andb_false_r].
    rewrite andb_true_r. apply Z.ltb_ge. lia. }
  rewrite Hc1.
  destruct (ReadByte_cons w m (b ++ t) Hp) as (w1 & Hrb & Hp1 & Hh1 & Hcap1).
  rewrite (bind_Ok _ _ _ _ _ Hrb).
  assert (Hl1 : w_heap w1 !! a = Some d) by (rewrite Hh1; exact Hl).
  rewrite (bind_Ok _ _ _ _ _ (set_len_Some _ _ _ _ Hl1)).
  set (w2 := set_heap _ w1).
  pose proof (vint_lead_fst_le m off) as Hn7.
  destruct (vint_lead m off) as [n v] eqn:Ev. cbn [fst snd] in *.
  assert (Hl2 : w_heap w2 !! a = Some (with_len d (wrap64 (d_len d - 1)))).
  { unfold w2. cbn. apply lookup_set_len. exact Hl1. }
  destruct (Nat.ltb_spec 0 n) as [Hpos|Hz].
  - rewrite (bind_Ok _ _ _ _ _ (get_dec_Some _ _ _ Hl2)). cbn [with_len d_len d_size].
    assert (Hc2 : (wrap64 (d_len d - 1) <? Z.of_nat n) && (0 <? d_size d) = false).
    { destruct (Z.ltb_spec 0 (d_size d)); [|apply andb_false_r].
      rewrite andb_true_r. apply Z.ltb_ge.
      rewrite wrap64_id by (unfold int64_range in *; lia). lia. }
    rewrite Hc2.
    assert (Hcap2 : cap w2 = cap w) by (unfold cap, w2; cbn; rewrite Hcap1; reflexivity).
    assert (Hp2 : pending w2 = b ++ t) by exact Hp1.
    destruct (Peek_ok n w2) as (w3 & Hpk & Hp3 & Hh3 & Hcap3).
    { rewrite Hcap2. pose proof (cap_ge_16 w). lia. }
    { rewrite Hp2, length_app. lia. }
    rewrite (bind_Ok _ _ _ _ _ Hpk).
    rewrite Hp2 in Hp3 |- *. rewrite take_app_length' by (symmetry; exact Hb).
    destruct (Discard_ok (Z.of_nat n) w3) as (w4 & Hdc & Hp4 & Hh4 & Hcap4).
    { rewrite Hp3, length_app. lia. }
    rewrite (bind_Ok _ _ _ _ _ Hdc).
    assert (Hl4 : w_heap w4 !! a = Some (with_len d (wrap64 (d_len d - 1)))).
    { rewrite Hh4, Hh3. exact Hl2. }
    rewrite (bind_Ok _ _ _ _ _ (set_len_Some _ _ _ _ Hl4)).
    eexists. split; [rewrite Hb; reflexivity|]. cbn.
    split; [|split; [|split]].
    + change (pending w4 = t). rewrite Hp4, Hp3, Nat2Z.id, drop_app_length' by (symmetry; exact Hb).
      reflexivity.
    + rewrite Hh4, Hh3. unfold w2. cbn. rewrite Hh1, list_insert_insert_eq.
      unfold with_len. cbn. rewrite wrap64_sub_l, Hb. reflexivity.
    + rewrite Hcap4, Hcap3. unfold w2. cbn. exact Hcap1.
    + eapply rshape_eq_trans; [apply rshape_eq_set_heap|].
      rewrite Hb. destruct n as [|n']; [lia|]. unfold vint_advance.
      replace w4 with (snd (Discard (Z.of_nat (S n')) w3)) by (rewrite Hdc; reflexivity).
      apply Discard_shape.
      replace w3 with (snd (Peek (S n') w2)) by (rewrite Hpk; reflexivity).
      apply Peek_shape.
      replace (snd (ReadByte w)) with w1 by (rewrite Hrb; reflexivity).
      apply rshape_eq_set_heap.
  - assert (n = 0%nat) by lia. subst n.
    destruct b; [|discriminate].
    eexists. split; [reflexivity|]. cbn.
    split; [exact Hp1 | split; [|split]].
    + rewrite Hh1. rewrite Z.sub_0_r. reflexivity.
    + exact Hcap1.
    + rewrite Hrb. apply rshape_eq_set_heap.
Qed.

Lemma readVint_ok (fuel a off : nat) (d : Decoder) (w : world)
  (m : byte) (b t : list byte) :
  w_heap w !! a = Some d ->
  quiet_chain (w_heap w) a fuel (d_elem d) ->
  int64_range (d_len d) ->
  (0 < d_size d -> 1 + Z.of_nat (length b) <= d_len d) ->
  pending w = m :: b ++ t ->
  length b = fst (vint_lead m off) ->
  exists w',
    readVint fuel a off w = (Ok (shift_bytes (snd (vint_lead m off)) b, length b), w') /\
    pending w' = t /\
    w_heap w' = <[a := with_len d (wrap64 (d_len d - 1 - Z.of_nat (length b)))]> (w_heap w) /\
    w_cap w' = w_cap w.
Proof.
  intros Hl Hq Hr Hroom Hp Hb.
  destruct (readVint_run fuel a off d w m b t Hl Hq Hr Hroom Hp Hb)
    as (w' & H1 & H2 & H3 & H4 & _).
  exists w'. repeat split; assumption.
Qed.

(** ** The reference encoding of a vint *)


Lemma length_be_bytes (n : nat) (x : Z) : length (be_bytes n x) = n.
Proof. induction n as [|n IH]; cbn; [reflexivity | rewrite IH; reflexivity]. Qed.

Lemma be_uint_be_bytes (n : nat) (x : Z) :
  be_uint (be_bytes n x) = x mod 2 ^ (8 * Z.of_nat n).
Proof.
  induction n as [|n IH].
  - cbn. rewrite Z.mod_1_r. reflexivity.
  - cbn [be_bytes]. rewrite be_uint_cons, length_be_bytes, IH, byte_to_of_Z.
    rewrite Z.shiftr_div_pow2 by lia.
    replace (8 * Z.of_nat (S n)) with (8 * Z.of_nat n + 8) by lia.
    rewrite Z.pow_add_r by lia. change (2 ^ 8) with 256.
    change 256 with (2 ^ 8) at 2. rewrite <- Z.pow_mul_r by lia.
    rewrite (Z.rem_mul_r x (2 ^ (8 * Z.of_nat n)) 256) by
      (try apply Z.pow_nonzero; lia).
    ring.
Qed.

(** The leading byte of an encoding: the width it announces and the value
    the following bytes complete, for an encoded number [y] with the
    marker in place. *)
Lemma be_bytes_lead (off n : nat) (y : Z) :
  (off <= 1)%nat -> (n <= 7)%nat ->
  2 ^ (7 * Z.of_nat (S n)) <= y < 2 ^ (7 * Z.of_nat (S n) + 1) ->
  exists m b,
    be_bytes (S n) y = m :: b /\ length b = n /\
    fst (vint_lead m off) = n /\
    shift_bytes (snd (vint_lead m off)) b = y - Z.of_nat off * 2 ^ (7 * Z.of_nat (S n)).
Proof.
  intros Hoff Hn Hy.
  exists (byte_of_Z (Z.shiftr y (8 * Z.of_nat n))), (be_bytes n y).
  split; [reflexivity|]. split; [apply length_be_bytes|].
  set (m := byte_of_Z _).
  set (P := 2 ^ (8 * Z.of_nat n)).
  assert (HP : 0 < P) by (apply Z.pow_pos_nonneg; lia).
  assert (E1 : 2 ^ (7 * Z.of_nat (S n)) = 2 ^ (7 - Z.of_nat n) * P).
  { unfold P. rewrite <- Z.pow_add_r by lia. f_equal. lia. }
  assert (E2 : 2 ^ (7 * Z.of_nat (S n) + 1) = 2 ^ (8 - Z.of_nat n) * P).
  { unfold P. rewrite <- Z.pow_add_r by lia. f_equal. lia. }
  assert (Hq : 2 ^ (7 - Z.of_nat n) <= y / P < 2 ^ (8 - Z.of_nat n)).
  { split.
    - apply Z.div_le_lower_bound; [exact HP|]. lia.
    - apply Z.div_lt_upper_bound; [exact HP|]. lia. }
  assert (H256 : 2 ^ (8 - Z.of_nat n) <= 256).
  { change 256 with (2 ^ 8). apply Z.pow_le_mono_r; lia. }
  assert (Hpos : 0 < 2 ^ (7 - Z.of_nat n)) by (apply Z.pow_pos_nonneg; lia).
  assert (Hm : byte_to_Z m = y / P).
  { unfold m. rewrite byte_to_of_Z, Z.shiftr_div_pow2 by lia.
    apply Z.mod_small. fold P. lia. }
  assert (Hnz : m <> x00).
  { intros E. rewrite E in Hm. change (byte_to_Z x00) with 0 in Hm. lia. }
  destruct (vint_lead_facts m Hnz) as (Hf1 & Hle & Hrange & Hv0 & Hv1).
  set (n' := fst (vint_lead m 0)) in *.
  assert (En : n' = n).
  { assert (L1 : Z.log2 (byte_to_Z m) = 7 - Z.of_nat n').
    { apply Z.log2_unique; [lia|].
      replace (Z.succ (7 - Z.of_nat n')) with (8 - Z.of_nat n') by lia. exact Hrange. }
    assert (L2 : Z.log2 (byte_to_Z m) = 7 - Z.of_nat n).
    { apply Z.log2_unique; [lia|].
      replace (Z.succ (7 - Z.of_nat n)) with (8 - Z.of_nat n) by lia.
      rewrite Hm. exact Hq. }
    lia. }
  rewrite En in *.
  assert (Hdm : y = (y / P) * P + y mod P).
  { rewrite (Z.div_mod y P) at 1 by lia. ring. }
  assert (Hoff' : off = 0%nat \/ off = 1%nat) by lia.
  destruct Hoff' as [-> | ->].
  - split; [exact En|].
    rewrite Hv0, (shift_bytes_width n) by
      (try apply length_be_bytes; try exact Hn; rewrite Hm; lia).
    rewrite be_uint_be_bytes, Hm. fold P. lia.
  - split; [exact Hf1|].
    rewrite Hv1, (shift_bytes_width n) by
      (try apply length_be_bytes; try exact Hn; rewrite Hm; lia).
    rewrite be_uint_be_bytes, Hm. fold P. rewrite E1. lia.
Qed.

Lemma encode_vint_lead (k : vkind) (width : nat) (x : Z) :
  encodable k width x ->
  exists m b,
    encode_vint k width x = m :: b /\ S (length b) = width /\
    fst (vint_lead m (off_of k)) = length b /\
    shift_bytes (snd (vint_lead m (off_of k))) b = x.
Proof.
  intros [Hw Hx]. destruct width as [|n]; [lia|].
  destruct k; cbn [encode_vint off_of].
  - destruct (be_bytes_lead 0 n x) as (m & b & E & Hb & Hf & Hv); [lia | lia | exact Hx |].
    exists m, b. rewrite Hb. repeat split; try assumption. rewrite Hv. cbn. lia.
  - destruct (be_bytes_lead 1 n (2 ^ (7 * Z.of_nat (S n)) + x))
      as (m & b & E & Hb & Hf & Hv); [lia | lia | |].
    { replace (7 * Z.of_nat (S n) + 1) with (Z.succ (7 * Z.of_nat (S n))) by lia.
      rewrite Z.pow_succ_r by lia. lia. }
    exists m, b. rewrite Hb. repeat split; try assumption. rewrite Hv.
    change (Z.of_nat 1) with 1. lia.
Qed.

(** ** C3: what the two masks keep of the leading byte *)

(** C3, as stated, fails: the id-kind mask does not clear the width-marker
    bit.  For the leading byte 0x81 the id-kind residue is 0x81 itself,
    not 0x01. *)
Lemma id_mask_keeps_marker :
  ~ (forall m : byte, m <> x00 ->
       snd (vint_lead m 0)
       = Z.ldiff (byte_to_Z m) (2 ^ (7 - Z.of_nat (fst (vint_lead m 0))))).
Proof.
  intros H. specialize (H x81 ltac:(discriminate)). vm_compute in H. discriminate.
Qed.

(** C3 (amended).  For every leading byte [m] with a bit set, the two
    kinds find the same width [n + 1], the marker being bit [7 - n] of
    [m]; the id-kind mask keeps the whole byte, marker included; the
    size-kind mask clears the marker bit and nothing else.  So the id
    read from the bytes is the size read from them plus the marker
    [2^(7(n+1))], and the size is a magnitude below that marker. *)
Theorem vint_masks_by_kind (m : byte) (b : list byte) :
  m <> x00 ->
  length b = fst (vint_lead m 0) ->
  fst (vint_lead m 1) = fst (vint_lead m 0) /\
  Z.testbit (byte_to_Z m) (7 - Z.of_nat (fst (vint_lead m 0))) = true /\
  snd (vint_lead m 0) = byte_to_Z m /\
  snd (vint_lead m 1)
  = Z.ldiff (byte_to_Z m) (2 ^ (7 - Z.of_nat (fst (vint_lead m 0)))) /\
  shift_bytes (snd (vint_lead m 0)) b
  = 2 ^ (7 * Z.of_nat (S (fst (vint_lead m 0)))) + shift_bytes (snd (vint_lead m 1)) b /\
  0 <= shift_bytes (snd (vint_lead m 1)) b < 2 ^ (7 * Z.of_nat (S (fst (vint_lead m 0)))).
Proof.
  intros Hm Hb.
  destruct (vint_lead_facts m Hm) as (Hf1 & Hle & Hrange & Hv0 & Hv1).
  set (n := fst (vint_lead m 0)) in *.
  split; [exact Hf1|].
  split; [destruct m; try (exfalso; apply Hm; reflexivity); reflexivity|].
  split; [exact Hv0|].
  split; [destruct m; try (exfalso; apply Hm; reflexivity); reflexivity|].
  assert (Hpos : 0 < 2 ^ (7 - Z.of_nat n)) by (apply Z.pow_pos_nonneg; lia).
  assert (Hdbl : 2 ^ (8 - Z.of_nat n) = 2 * 2 ^ (7 - Z.of_nat n)).
  { replace (8 - Z.of_nat n) with (Z.succ (7 - Z.of_nat n)) by lia.
    apply Z.pow_succ_r. lia. }
  assert (E1 : 2 ^ (7 * Z.of_nat (S n)) = 2 ^ (7 - Z.of_nat n) * 2 ^ (8 * Z.of_nat n)).
  { rewrite <- Z.pow_add_r by lia. f_equal. lia. }
  assert (HP : 0 < 2 ^ (8 * Z.of_nat n)) by (apply Z.pow_pos_nonneg; lia).
  rewrite Hv0, Hv1.
  rewrite !(shift_bytes_width n) by (try exact Hle; try exact Hb; lia).
  pose proof (be_uint_range b) as Hbe.
  assert (E8 : 256 ^ Z.of_nat (length b) = 2 ^ (8 * Z.of_nat n)).
  { rewrite Hb. change 256 with (2 ^ 8). rewrite <- Z.pow_mul_r by lia. reflexivity. }
  rewrite E8 in Hbe. rewrite E1. nia.
Qed.

Lemma vint_masks_by_kind_witness :
  fst (vint_lead xff 1) = fst (vint_lead xff 0) /\
  snd (vint_lead xff 0) = 255 /\ snd (vint_lead xff 1) = 127.
Proof.
  pose proof (vint_masks_by_kind xff [] ltac:(discriminate) ltac:(reflexivity))
    as (H1 & _ & H2 & H3 & _).
  split; [exact H1|]. split; [exact H2 | exact H3].
Defined.

(** ** C6: a leading byte with no bit set *)

Lemma readVint_zero_lead (fuel a off : nat) (d : Decoder) (w : world) (b t : list byte) :
  w_heap w !! a = Some d ->
  quiet_chain (w_heap w) a fuel (d_elem d) ->
  int64_range (d_len d) ->
  (0 < d_size d -> 8 <= d_len d) ->
  pending w = x00 :: b ++ t ->
  length b = 7%nat ->
  exists w', readVint fuel a off w = (Ok (shift_bytes 0 b, 7%nat), w') /\ pending w' = t.
Proof.
  intros Hl Hq Hr Hroom Hp Hb.
  destruct (readVint_ok fuel a off d w x00 b t Hl Hq Hr) as (w' & Hrun & Hpen & _);
    [ rewrite Hb; exact Hroom | exact Hp | rewrite vint_lead_zero; exact Hb |].
  rewrite vint_lead_zero, Hb in Hrun. exists w'. split; assumption.
Qed.

(** C6.  On the eight bytes 00 00 00 00 00 00 00 2A the vint decoder
    reports no format error: under both masks it takes the width to be 8
    and returns 42; [Next] then goes on to open a child with that id. *)
Theorem readVint_zero_lead_no_error :
  let w := NewDecoder false 0 4096 [x00; x00; x00; x00; x00; x00; x00; x2a; x81; xff] in
  fst (readVint 1 0 0 w) = Ok (42, 7%nat) /\
  fst (readVint 1 0 1 w) = Ok (42, 7%nat) /\
  fst (Next 1 0 w) = Ok (42, Some 1%nat).
Proof. vm_compute. repeat split. Qed.

(** ** C1: the size of a child against what is left of its parent *)

(** C1.  A container of declared size 9 holds a first child of 5 bytes
    (header and payload), which leaves 4, and then a header that declares
    6 bytes.  [Next] compares 6 with the declared size 9, returns no
    error and opens the child; the container is left with [-4], and a
    [Read] on the container then slices its buffer to [b[:-4]]. *)
Theorem Next_accepts_size_beyond_remaining :
  let w0 := NewDecoder false 0 4096
              [xa0; x89; x81; x83; x01; x02; x03; x82; x86; x0a; x0b; x0c; x0d; x0e; x0f] in
  let r1 := Next 4 0 w0 in
  let r2 := Next 4 1%nat (snd r1) in
  let r3 := Next 4 1%nat (snd r2) in
  fst r1 = Ok (0xA0, Some 1%nat) /\
  w_heap (snd r1) !! 1%nat = Some (mkDecoder false 9 9 0xA0 None) /\
  fst r2 = Ok (0x81, Some 2%nat) /\
  w_heap (snd r2) !! 1%nat = Some (mkDecoder false 4 9 0xA0 (Some 2%nat)) /\
  fst r3 = Ok (0x82, Some 3%nat) /\
  w_heap (snd r3) !! 1%nat = Some (mkDecoder false (-4) 9 0xA0 (Some 3%nat)) /\
  w_heap (snd r3) !! 3%nat = Some (mkDecoder false 6 6 0x82 None) /\
  fst (Read 4 1%nat 1 (snd r3)) = Err (Panic "slice bounds out of range").
Proof. vm_compute. repeat split. Qed.

(** ** C8: decoding the reference encoding *)

(** C8.  For both kinds, every width from 1 to 8 and every value [x]
    encodable at that width, [readVint] on a stream that starts with the
    reference encoding of [x] returns [x], reports [width - 1] further
    bytes, and consumes exactly [width] bytes: what follows the encoding
    is what is left, and the cursor has [width] bytes less to go. *)
Theorem vint_roundtrip (k : vkind) (width : nat) (x : Z)
  (fuel a : nat) (d : Decoder) (w : world) (t : list byte) :
  encodable k width x ->
  w_heap w !! a = Some d ->
  quiet_chain (w_heap w) a fuel (d_elem d) ->
  int64_range (d_len d) ->
  (0 < d_size d -> Z.of_nat width <= d_len d) ->
  pending w = encode_vint k width x ++ t ->
  exists w',
    readVint fuel a (off_of k) w = (Ok (x, (width - 1)%nat), w') /\
    pending w' = t /\
    w_heap w' = <[a := with_len d (wrap64 (d_len d - Z.of_nat width))]> (w_heap w) /\
    w_cap w' = w_cap w.
Proof.
  intros Henc Hl Hq Hr Hroom Hp.
  destruct (encode_vint_lead k width x Henc) as (m & b & E & Hw & Hf & Hv).
  rewrite E in Hp. cbn [app] in Hp.
  destruct (readVint_ok fuel a (off_of k) d w m b t Hl Hq Hr) as (w' & Hrun & Hpen & Hh & Hc);
    [ intros Hs; specialize (Hroom Hs); lia | exact Hp | symmetry; exact Hf |].
  exists w'. rewrite Hv in Hrun.
  replace (width - 1)%nat with (length b) by lia.
  replace (d_len d - Z.of_nat width) with (d_len d - 1 - Z.of_nat (length b)) by lia.
  repeat split; assumption.
Qed.

Lemma vint_roundtrip_witness :
  fst (readVint 0 0 (off_of SizeKind)
         (NewDecoder false 0 4096 (encode_vint SizeKind 2 300 ++ [xff])))
  = Ok (300, 1%nat).
Proof.
  destruct (vint_roundtrip SizeKind 2 300 0 0 (mkDecoder false 0 0 0 None)
              (NewDecoder false 0 4096 (encode_vint SizeKind 2 300 ++ [xff])) [xff])
    as (w' & H1 & _).
  - split; [lia|]. cbn. lia.
  - reflexivity.
  - constructor.
  - unfold int64_range. cbn. lia.
  - cbn. lia.
  - reflexivity.
  - rewrite H1. reflexivity.
Defined.

(** ** Read and ReadBytes *)

Lemma take_min_length {A} (k : nat) (l : list A) :
  take (Nat.min k (length l)) l = take k l.
Proof.
  destruct (Nat.le_gt_cases k (length l)).
  - rewrite Nat.min_l by lia. reflexivity.
  - rewrite Nat.min_r by lia. rewrite !take_ge by lia. reflexivity.
Qed.

Lemma drop_min_length {A} (k : nat) (l : list A) :
  drop (Nat.min k (length l)) l = drop k l.
Proof.
  destruct (Nat.le_gt_cases k (length l)).
  - rewrite Nat.min_l by lia. reflexivity.
  - rewrite Nat.min_r by lia. rewrite !drop_ge by lia. reflexivity.
Qed.

Lemma bufRead_ok (k : nat) (w : world) :
  (0 < k)%nat -> pending w <> [] ->
  exists j w',
    bufRead k w = (Ok (take j (pending w)), w') /\
    (1 <= j <= k)%nat /\ (j <= length (pending w))%nat /\
    pending w' = drop j (pending w) /\ same_store w w'.
Proof.
  intros Hk Hp. unfold bufRead.
  replace (k =? 0)%nat with false by (symmetry; apply Nat.eqb_neq; lia).
  unfold pending in *.
  destruct (w_buf w) as [|c b] eqn:Eb.
  - cbn [app] in *. destruct (w_src w) as [|x s] eqn:Es; [congruence|].
    rewrite <- Es in *.
    assert (Hlen : (0 < length (w_src w))%nat) by (rewrite Es; cbn; lia).
    destruct (Nat.leb_spec (cap w) k) as [Hdirect|Hbuf].
    + exists (Nat.min k (length (w_src w))). eexists.
      split; [|split; [lia | split; [lia | split]]].
      * rewrite take_min_length. reflexivity.
      * cbn. rewrite Eb. cbn. rewrite drop_min_length. reflexivity.
      * split; reflexivity.
    + exists (Nat.min k (length (w_src w))). eexists.
      split; [|split; [lia | split; [lia | split]]].
      * rewrite take_take. rewrite Nat.min_l by lia.
        rewrite take_min_length. reflexivity.
      * cbn. rewrite drop_min_length.
        rewrite <- (take_drop (cap w) (w_src w)) at 3.
        destruct (Nat.le_gt_cases k (length (take (cap w) (w_src w)))) as [Hle|Hgt].
        -- rewrite drop_app_le by exact Hle. reflexivity.
        -- rewrite length_take in Hgt.
           rewrite (drop_ge (take _ _)) by (rewrite length_take; lia).
           rewrite (drop_ge (_ ++ _)); [|rewrite length_app, length_take, length_drop; lia].
           rewrite drop_ge by lia. reflexivity.
      * split; reflexivity.
  - exists (Nat.min k (length (c :: b))). eexists.
    split; [|split; [cbn [length]; lia | split; [rewrite length_app; lia | split]]].
    + rewrite take_app_le by lia. rewrite take_min_length. reflexivity.
    + cbn [w_buf w_src set_buf]. rewrite drop_app_le by lia.
      rewrite drop_min_length. reflexivity.
    + split; reflexivity.
Qed.

Lemma read_loop_ok (fuel a k : nat) (acc : list byte) (d : Decoder) (w : world) :
  (k <= fuel)%nat ->
  w_heap w !! a = Some d ->
  int64_range (d_len d) ->
  (k <= length (pending w))%nat ->
  exists w',
    read_loop fuel a k acc w = (Ok (acc ++ take k (pending w)), w') /\
    pending w' = drop k (pending w) /\
    w_heap w' = <[a := with_len d (wrap64 (d_len d - Z.of_nat k))]> (w_heap w) /\
    w_cap w' = w_cap w.
Proof.
  revert k acc d w. induction fuel as [|fuel IH]; intros k acc d w Hk Hl Hr Hp.
  - assert (k = 0%nat) by lia. subst k. cbn.
    exists w. rewrite app_nil_r, Z.sub_0_r, wrap64_id by exact Hr.
    repeat split. rewrite list_insert_id; [reflexivity|].
    rewrite Hl. f_equal. destruct d; reflexivity.
  - destruct k as [|k'].
    + cbn. exists w. rewrite app_nil_r, Z.sub_0_r, wrap64_id by exact Hr.
      repeat split. rewrite list_insert_id; [reflexivity|].
      rewrite Hl. f_equal. destruct d; reflexivity.
    + cbn [read_loop]. remember (S k') as k eqn:Ek.
      destruct (bufRead_ok k w) as (j & w1 & Hrd & Hj & Hjl & Hp1 & Hh1 & Hc1).
      { lia. }
      { intros E. rewrite E in Hp. cbn in Hp. lia. }
      rewrite (bind_Ok _ _ _ _ _ Hrd).
      assert (Hlen : length (take j (pending w)) = j) by (rewrite length_take; lia).
      rewrite Hlen.
      replace (0 <? j)%nat with true by (symmetry; apply Nat.ltb_lt; lia).
      assert (Hl1 : w_heap w1 !! a = Some d) by (rewrite Hh1; exact Hl).
      rewrite (bind_Ok _ _ _ _ _ (get_dec_Some _ _ _ Hl1)).
      rewrite (bind_Ok _ _ _ _ _ (set_len_Some _ _ _ _ Hl1)).
      set (w2 := set_heap _ w1).
      destruct (IH (k - j)%nat (acc ++ take j (pending w))
                  (with_len d (wrap64 (d_len d - Z.of_nat j))) w2)
        as (w' & Hrun & Hp' & Hh' & Hc').
      { lia. }
      { unfold w2. cbn. apply lookup_set_len. exact Hl1. }
      { apply wrap64_range. }
      { change (pending w2) with (pending w1). rewrite Hp1, length_drop. lia. }
      exists w'. split; [|split; [|split]].
      * rewrite Hrun. change (pending w2) with (pending w1).
        rewrite Hp1, <- app_assoc, take_take_drop.
        replace (j + (k - j))%nat with k by lia. reflexivity.
      * rewrite Hp'. change (pending w2) with (pending w1).
        rewrite Hp1, drop_drop.
        replace (j + (k - j))%nat with k by lia. reflexivity.
      * rewrite Hh'. unfold w2. cbn. rewrite Hh1, list_insert_insert_eq.
        unfold with_len. cbn. rewrite wrap64_sub_l.
        replace (d_len d - Z.of_nat j - Z.of_nat (k - j)) with (d_len d - Z.of_nat k) by lia.
        reflexivity.
      * rewrite Hc'. unfold w2. cbn. exact Hc1.
Qed.

Lemma ReadBytes_format_error (fuel a : nat) (d : Decoder) (w : world) :
  w_heap w !! a = Some d ->
  quiet_chain (w_heap w) a fuel (d_elem d) ->
  d_len d < 0 \/ 2 ^ 20 < d_len d ->
  ReadBytes fuel a w = (Err ErrFormat, w).
Proof.
  intros Hl Hq Hlen. unfold ReadBytes.
  rewrite (bind_Ok _ _ _ _ _ (skip_quiet _ _ _ _ Hl Hq)).
  rewrite (bind_Ok _ _ _ _ _ (get_dec_Some _ _ _ Hl)).
  change maxBufferSize with (2 ^ 20).
  replace ((d_len d <? 0) || (2 ^ 20 <? d_len d)) with true; [reflexivity|].
  symmetry. apply orb_true_iff. rewrite !Z.ltb_lt. exact Hlen.
Qed.

Lemma Read_ok (fuel a m : nat) (d : Decoder) (w : world) :
  w_heap w !! a = Some d ->
  quiet_chain (w_heap w) a fuel (d_elem d) ->
  int64_range (d_len d) ->
  0 <= d_len d ->
  (read_count d m <= length (pending w))%nat ->
  exists w',
    Read fuel a m w = (Ok (take (read_count d m) (pending w)), w') /\
    pending w' = drop (read_count d m) (pending w) /\
    w_heap w' = <[a := with_len d (wrap64 (d_len d - Z.of_nat (read_count d m)))]> (w_heap w) /\
    w_cap w' = w_cap w.
Proof.
  intros Hl Hq Hr H0 Hp. unfold Read.
  rewrite (bind_Ok _ _ _ _ _ (skip_quiet _ _ _ _ Hl Hq)).
  rewrite (bind_Ok _ _ _ _ _ (get_dec_Some _ _ _ Hl)).
  set (k := read_count d m) in *.
  assert (Hk : (if (d_len d <? Z.of_nat m) && (0 <? d_size d)
                then if d_len d <? 0 then fail (Panic "slice bounds out of range")
                     else ret (Z.to_nat (d_len d))
                else ret m) w = (Ok k, w)).
  { unfold k, read_count.
    destruct ((d_len d <? Z.of_nat m) && (0 <? d_size d)); [|reflexivity].
    replace (d_len d <? 0) with false by (symmetry; apply Z.ltb_ge; exact H0).
    reflexivity. }
  rewrite (bind_Ok _ _ _ _ _ Hk).
  destruct (read_loop_ok k a k [] d w) as (w' & Hrun & Hp' & Hh' & Hc');
    [lia | exact Hl | exact Hr | exact Hp |].
  exists w'. cbn [app] in Hrun. repeat split; assumption.
Qed.

Lemma ReadBytes_payload (fuel a : nat) (d : Decoder) (w : world) :
  w_heap w !! a = Some d ->
  quiet_chain (w_heap w) a fuel (d_elem d) ->
  0 <= d_len d <= 2 ^ 20 ->
  d_len d <= Z.of_nat (length (pending w)) ->
  exists w',
    ReadBytes fuel a w = (Ok (take (Z.to_nat (d_len d)) (pending w)), w') /\
    pending w' = drop (Z.to_nat (d_len d)) (pending w) /\
    w_heap w' = <[a := with_len d 0]> (w_heap w) /\
    w_cap w' = w_cap w.
Proof.
  intros Hl Hq Hlen Hp. unfold ReadBytes.
  rewrite (bind_Ok _ _ _ _ _ (skip_quiet _ _ _ _ Hl Hq)).
  rewrite (bind_Ok _ _ _ _ _ (get_dec_Some _ _ _ Hl)).
  change maxBufferSize with (2 ^ 20).
  replace ((d_len d <? 0) || (2 ^ 20 <? d_len d)) with false
    by (symmetry; apply orb_false_iff; rewrite !Z.ltb_ge; lia).
  assert (Hc : read_count d (Z.to_nat (d_len d)) = Z.to_nat (d_len d)).
  { unfold read_count.
    replace (d_len d <? Z.of_nat (Z.to_nat (d_len d))) with false
      by (symmetry; apply Z.ltb_ge; lia).
    reflexivity. }
  destruct (Read_ok fuel a (Z.to_nat (d_len d)) d w) as (w' & Hrun & Hp' & Hh' & Hc');
    [exact Hl | exact Hq | unfold int64_range; lia | lia | rewrite Hc; lia |].
  rewrite Hc in *.
  rewrite (bind_Ok _ _ _ _ _ Hrun).
  exists w'. split; [reflexivity|]. split; [exact Hp'|]. split; [|exact Hc'].
  rewrite Hh'. rewrite Z2Nat.id, Z.sub_diag by lia. reflexivity.
Qed.

(** ** Skip *)

(** One step of [Skip] once the chain of children is known to be quiet. *)
Lemma Skip_unfold (fuel a : nat) (d : Decoder) (w : world) :
  w_heap w !! a = Some d ->
  quiet_chain (w_heap w) a fuel (d_elem d) ->
  Skip (S fuel) a w =
  if d_len d <=? 0 then (Ok tt, w)
  else
    ((if d_rs d && (Z.of_nat (length (w_buf w)) <? d_len d)
      then Seek (d_len d - Z.of_nat (length (w_buf w))) >> Reset
      else Discard (d_len d)) >> set_len a 0) w.
Proof.
  intros Hl Hq. cbn [Skip].
  rewrite (bind_Ok _ _ _ _ _ (get_dec_Some _ _ _ Hl)).
  assert (Hc : (match d_elem d with Some e => Skip fuel e | None => ret tt end) w = (Ok tt, w)).
  { destruct (d_elem d) as [c|] eqn:Ec; [|reflexivity].
    eapply Skip_quiet; [exact Hq | reflexivity | reflexivity]. }
  rewrite (bind_Ok _ _ _ _ _ Hc).
  rewrite (bind_Ok _ _ _ _ _ (get_dec_Some _ _ _ Hl)).
  destruct (d_len d <=? 0); reflexivity.
Qed.

(** Both paths, when the bytes to skip are there. *)
Lemma Skip_run (fuel a : nat) (d : Decoder) (w : world) :
  w_heap w !! a = Some d ->
  quiet_chain (w_heap w) a fuel (d_elem d) ->
  0 <= d_len d <= Z.of_nat (length (pending w)) ->
  exists w',
    Skip (S fuel) a w = (Ok tt, w') /\
    pending w' = drop (Z.to_nat (d_len d)) (pending w) /\
    w_heap w' = <[a := with_len d 0]> (w_heap w) /\
    w_cap w' = w_cap w /\
    rshape_eq w' (skip_advance d w).
Proof.
  intros Hl Hq Hlen. rewrite (Skip_unfold _ _ _ _ Hl Hq). unfold skip_advance.
  destruct (Z.leb_spec (d_len d) 0) as [Hz|Hpos].
  - exists w. assert (d_len d = 0) as E by lia. rewrite E. cbn.
    repeat split. rewrite list_insert_id; [reflexivity|].
    rewrite Hl. f_equal. destruct d; cbn in *; subst; reflexivity.
  - destruct (d_rs d && (Z.of_nat (length (w_buf w)) <? d_len d)) eqn:Epath.
    + apply andb_true_iff in Epath as [_ Hn]. apply Z.ltb_lt in Hn.
      unfold bind, Seek, Reset. cbn.
      rewrite (set_len_Some a 0 d) by exact Hl.
      eexists. split; [reflexivity|]. cbn. repeat split.
      unfold pending. cbn.
      rewrite drop_app_ge by lia. f_equal. lia.
    + destruct (Discard_ok (d_len d) w) as (w1 & Hdc & Hp1 & Hh1 & Hc1); [lia|].
      rewrite (bind_Ok _ _ _ _ _ Hdc).
      assert (Hl1 : w_heap w1 !! a = Some d) by (rewrite Hh1; exact Hl).
      rewrite (set_len_Some _ _ _ _ Hl1).
      eexists. split; [reflexivity|]. cbn. rewrite Hh1, Hdc.
      split; [exact Hp1|]. split; [reflexivity|]. split; [exact Hc1|].
      apply rshape_eq_set_heap.
Qed.

Lemma Skip_ok (fuel a : nat) (d : Decoder) (w : world) :
  w_heap w !! a = Some d ->
  quiet_chain (w_heap w) a fuel (d_elem d) ->
  0 <= d_len d <= Z.of_nat (length (pending w)) ->
  exists w',
    Skip (S fuel) a w = (Ok tt, w') /\
    pending w' = drop (Z.to_nat (d_len d)) (pending w) /\
    w_heap w' = <[a := with_len d 0]> (w_heap w) /\
    w_cap w' = w_cap w.
Proof.
  intros Hl Hq Hlen.
  destruct (Skip_run fuel a d w Hl Hq Hlen) as (w' & H1 & H2 & H3 & H4 & _).
  exists w'. repeat split; assumption.
Qed.

(** A source that ends too early: the path by [Seek] does not notice, the
    path by [Discard] reports it and leaves the cursor as it was. *)
Lemma Skip_short_seek (fuel a : nat) (d : Decoder) (w : world) :
  w_heap w !! a = Some d ->
  quiet_chain (w_heap w) a fuel (d_elem d) ->
  Z.of_nat (length (pending w)) < d_len d ->
  d_rs d = true ->
  exists w',
    Skip (S fuel) a w = (Ok tt, w') /\ pending w' = [] /\
    w_heap w' = <[a := with_len d 0]> (w_heap w) /\ w_cap w' = w_cap w.
Proof.
  intros Hl Hq Hlen Hrs. rewrite (Skip_unfold _ _ _ _ Hl Hq).
  replace (d_len d <=? 0) with false by (symmetry; apply Z.leb_gt; lia).
  assert (Hb : Z.of_nat (length (w_buf w)) < d_len d).
  { unfold pending in Hlen. rewrite length_app in Hlen. lia. }
  rewrite Hrs. replace (Z.of_nat (length (w_buf w)) <? d_len d) with true
    by (symmetry; apply Z.ltb_lt; exact Hb).
  unfold bind, Seek, Reset. cbn.
  rewrite (set_len_Some a 0 d) by exact Hl.
  eexists. split; [reflexivity|]. cbn. repeat split.
  unfold pending in *. cbn. rewrite length_app in Hlen. apply drop_ge. lia.
Qed.

Lemma Skip_short_discard (fuel a : nat) (d : Decoder) (w : world) :
  w_heap w !! a = Some d ->
  quiet_chain (w_heap w) a fuel (d_elem d) ->
  Z.of_nat (length (pending w)) < d_len d ->
  d_rs d = false ->
  exists w',
    Skip (S fuel) a w = (Err EOF, w') /\ pending w' = [] /\
    w_heap w' = w_heap w /\ w_cap w' = w_cap w.
Proof.
  intros Hl Hq Hlen Hrs. rewrite (Skip_unfold _ _ _ _ Hl Hq).
  replace (d_len d <=? 0) with false by (symmetry; apply Z.leb_gt; lia).
  rewrite Hrs. cbn [andb].
  destruct (Discard_short (d_len d) w Hlen) as (w1 & Hdc & Hp1 & Hh1 & Hc1).
  rewrite (bind_Err _ _ _ _ _ Hdc).
  exists w1. repeat split; assumption.
Qed.


(** ** The invariant of bounded cursors *)

(** A property of the world that holds when [m] returns, whatever it
    returns, follows step by step. *)
Lemma always_bind {A B} (Q : world -> Prop) (m : M A) (k : A -> M B) (w : world) :
  (forall r w1, m w = (r, w1) ->
     match r with Ok x => Q (snd (k x w1)) | _ => Q w1 end) ->
  Q (snd (bind m k w)).
Proof.
  intros H. unfold bind. specialize (H (fst (m w)) (snd (m w))).
  destruct (m w) as [[x|e|] w1]; cbn in *; apply H; reflexivity.
Qed.

Lemma ReadByte_heap (w : world) : w_heap (snd (ReadByte w)) = w_heap w.
Proof.
  unfold ReadByte. pose proof (fill_if_empty_same_store w) as [H _].
  destruct (w_buf (fill_if_empty w)); cbn; exact H.
Qed.

Lemma Peek_heap (n : nat) (w : world) : w_heap (snd (Peek n w)) = w_heap w.
Proof.
  unfold Peek.
  destruct ((length (w_buf w) <? n)%nat && (length (w_buf w) <? cap w)%nat);
    destruct (cap w <? n)%nat; try reflexivity;
    match goal with |- context [if ?c then _ else _] => destruct c end; reflexivity.
Qed.

Lemma discard_loop_heap (fuel remain : nat) (w : world) :
  w_heap (snd (discard_loop fuel remain w)) = w_heap w.
Proof.
  revert remain w. induction fuel as [|fuel IH]; intros remain w; [reflexivity|].
  cbn [discard_loop].
  pose proof (fill_if_empty_same_store w) as [H _].
  destruct (_ =? 0)%nat; [cbn; exact H|].
  destruct (w_buf (fill_if_empty w)) eqn:E; [cbn; exact H|].
  rewrite IH. cbn. exact H.
Qed.

Lemma Discard_heap (n : Z) (w : world) : w_heap (snd (Discard n w)) = w_heap w.
Proof.
  unfold Discard. destruct (n <? 0); [reflexivity|].
  destruct (n =? 0); [reflexivity|]. apply discard_loop_heap.
Qed.

Lemma bufRead_heap (k : nat) (w : world) : w_heap (snd (bufRead k w)) = w_heap w.
Proof.
  unfold bufRead. destruct (k =? 0)%nat; [reflexivity|].
  destruct (w_buf w); [|reflexivity].
  destruct (w_src w); [reflexivity|].
  destruct (cap w <=? k)%nat; reflexivity.
Qed.

Lemma heap_of_run {A} (m : M A) (w w1 : world) (r : result A) :
  w_heap (snd (m w)) = w_heap w -> m w = (r, w1) -> w_heap w1 = w_heap w.
Proof. intros H E. rewrite E in H. exact H. Qed.

Lemma get_dec_inv (a : nat) (w w1 : world) (r : result Decoder) :
  get_dec a w = (r, w1) ->
  w1 = w /\ match r with Ok d => w_heap w !! a = Some d | _ => True end.
Proof.
  unfold get_dec. destruct (w_heap w !! a); intros E; injection E as <- <-; auto.
Qed.

Lemma store_inv_heap (w w' : world) :
  w_heap w' = w_heap w -> store_inv w -> store_inv w'.
Proof. unfold store_inv. intros -> H. exact H. Qed.

Lemma set_len_inv (a : nat) (x : Z) (w : world) :
  store_inv w ->
  (forall d, w_heap w !! a = Some d -> 0 < d_size d -> 0 <= x <= d_size d) ->
  store_inv (snd (set_len a x w)).
Proof.
  intros Hinv Hx. unfold set_len.
  destruct (w_heap w !! a) as [d|] eqn:E; [|exact Hinv].
  cbn. intros b db Hb. cbn in Hb.
  destruct (Nat.eq_dec a b) as [<-|Hne].
  - rewrite list_lookup_insert_eq in Hb by (eapply lookup_lt_Some; exact E).
    injection Hb as <-. intros Hs. cbn in *. split; [apply (Hx d eq_refl Hs)|].
    apply (Hinv a d E Hs).
  - rewrite list_lookup_insert_ne in Hb by exact Hne. apply (Hinv b db Hb).
Qed.

Lemma Skip_inv (fuel a : nat) (w : world) :
  store_inv w -> store_inv (snd (Skip fuel a w)).
Proof.
  revert a w. induction fuel as [|fuel IH]; intros a w Hinv; [exact Hinv|].
  cbn [Skip].
  apply always_bind. intros r w1 E. apply get_dec_inv in E as [-> E].
  destruct r as [d0|e|]; try exact Hinv.
  apply always_bind. intros r w1 E1.
  assert (Hinv1 : store_inv w1).
  { destruct (d_elem d0) as [c|].
    - specialize (IH c w Hinv). rewrite E1 in IH. exact IH.
    - injection E1 as <- <-. exact Hinv. }
  destruct r as [[]|e|]; try exact Hinv1.
  apply always_bind. intros r w2 E2. apply get_dec_inv in E2 as [-> E2].
  destruct r as [d|e|]; try exact Hinv1.
  destruct (d_len d <=? 0); [exact Hinv1|].
  apply always_bind. intros r w2 E3. injection E3 as <- <-.
  apply always_bind. intros r w3 E4.
  assert (Hh3 : w_heap w3 = w_heap w1).
  { destruct (d_rs d && _).
    - unfold bind, Seek, Reset in E4. cbn in E4. injection E4 as <- <-. reflexivity.
    - eapply heap_of_run; [apply Discard_heap | exact E4]. }
  pose proof (store_inv_heap _ _ Hh3 Hinv1) as Hinv3.
  destruct r as [[]|e|]; try exact Hinv3.
  apply set_len_inv; [exact Hinv3|]. intros; lia.
Qed.

Lemma skip_inv (fuel a : nat) (w : world) :
  store_inv w -> store_inv (snd (skip fuel a w)).
Proof.
  intros Hinv. unfold skip.
  apply always_bind. intros r w1 E. apply get_dec_inv in E as [-> E].
  destruct r as [d|e|]; try exact Hinv.
  destruct (d_elem d); [apply Skip_inv; exact Hinv | exact Hinv].
Qed.

Ltac inv_step := apply always_bind; intros ?r ?w ?E.

Lemma readVint_inv (fuel a off : nat) (w : world) :
  store_inv w -> store_inv (snd (readVint fuel a off w)).
Proof.
  intros Hinv. unfold readVint.
  inv_step. pose proof (skip_inv fuel a w Hinv) as Hinv0. rewrite E in Hinv0. cbn in Hinv0.
  destruct r as [[]|e|]; try exact Hinv0.
  inv_step. apply get_dec_inv in E0 as [-> Hl].
  destruct r as [d|e|]; try exact Hinv0.
  destruct ((d_len d <? 1) && (0 <? d_size d)) eqn:Hc1; [exact Hinv0|].
  inv_step.
  assert (Hh1 : w_heap w1 = w_heap w0)
    by (eapply heap_of_run; [apply ReadByte_heap | exact E0]).
  pose proof (store_inv_heap _ _ Hh1 Hinv0) as Hinv1.
  destruct r as [m|e|]; try exact Hinv1.
  assert (Hl1 : w_heap w1 !! a = Some d) by (rewrite Hh1; exact Hl).
  assert (Hb1 : 0 < d_size d -> 1 <= d_len d <= d_size d /\ d_size d < 2 ^ 63).
  { intros Hs. pose proof (Hinv0 a d Hl Hs) as [? ?].
    apply andb_false_iff in Hc1 as [Hc|Hc]; [apply Z.ltb_ge in Hc|apply Z.ltb_ge in Hc]; lia. }
  inv_step. rewrite (set_len_Some _ _ _ _ Hl1) in E1. injection E1 as <- <-.
  assert (Hinv2 : store_inv (set_heap (<[a := with_len d (wrap64 (d_len d - 1))]> (w_heap w1)) w1)).
  { pose proof (set_len_inv a (wrap64 (d_len d - 1)) w1 Hinv1) as H.
    rewrite (set_len_Some _ _ _ _ Hl1) in H. apply H.
    intros d' Hd' Hs. rewrite Hl1 in Hd'. injection Hd' as <-.
    specialize (Hb1 Hs). rewrite wrap64_id by (unfold int64_range; lia). lia. }
  set (w2 := set_heap _ w1) in *.
  destruct (vint_lead m off) as [n v].
  destruct (0 <? n)%nat; [|exact Hinv2].
  inv_step. apply get_dec_inv in E1 as [-> Hl2].
  destruct r as [d2|e|]; try exact Hinv2.
  assert (Ed2 : d2 = with_len d (wrap64 (d_len d - 1))).
  { unfold w2 in Hl2. cbn in Hl2. rewrite (lookup_set_len _ _ _ _ Hl1) in Hl2.
    congruence. }
  subst d2. cbn [with_len d_len d_size] in *.
  destruct ((wrap64 (d_len d - 1) <? Z.of_nat n) && (0 <? d_size d)) eqn:Hc2; [exact Hinv2|].
  inv_step.
  assert (Hh3 : w_heap w3 = w_heap w2)
    by (eapply heap_of_run; [apply Peek_heap | exact E1]).
  pose proof (store_inv_heap _ _ Hh3 Hinv2) as Hinv3.
  destruct r as [b|e|]; try exact Hinv3.
  inv_step.
  assert (Hh4 : w_heap w4 = w_heap w3)
    by (eapply heap_of_run; [apply Discard_heap | exact E2]).
  pose proof (store_inv_heap _ _ Hh4 Hinv3) as Hinv4.
  destruct r as [[]|e|]; try exact Hinv4.
  inv_step.
  assert (Hinv5 : store_inv w5).
  { pose proof (set_len_inv a (wrap64 (wrap64 (d_len d - 1) - Z.of_nat n)) w4 Hinv4) as H.
    rewrite E3 in H. apply H.
    intros d' Hd' Hs. rewrite Hh4, Hh3, Hl2 in Hd'. injection Hd' as <-. cbn in *.
    specialize (Hb1 Hs).
    rewrite (wrap64_id (d_len d - 1)) in * by (unfold int64_range; lia).
    apply andb_false_iff in Hc2 as [Hc|Hc]; apply Z.ltb_ge in Hc;
      [|lia]. rewrite wrap64_id by (unfold int64_range; lia). lia. }
  destruct r; exact Hinv5.
Qed.

Lemma bufRead_length (k : nat) (w w1 : world) (c : list byte) :
  bufRead k w = (Ok c, w1) -> (length c <= k)%nat.
Proof.
  unfold bufRead. destruct (k =? 0)%nat.
  - intros E. injection E as <- <-. cbn. lia.
  - destruct (w_buf w).
    + destruct (w_src w); [discriminate|].
      destruct (cap w <=? k)%nat; intros E; injection E as <- <-;
        rewrite !length_take; lia.
    + intros E. injection E as <- <-. rewrite length_take. lia.
Qed.

Lemma read_loop_inv (fuel a k : nat) (acc : list byte) (w : world) :
  store_inv w ->
  (forall d, w_heap w !! a = Some d -> 0 < d_size d -> Z.of_nat k <= d_len d) ->
  store_inv (snd (read_loop fuel a k acc w)).
Proof.
  revert k acc w. induction fuel as [|fuel IH]; intros k acc w Hinv Hk.
  - destruct k; exact Hinv.
  - destruct k as [|k']; [exact Hinv|]. cbn [read_loop]. remember (S k') as k.
    inv_step.
    assert (Hh1 : w_heap w0 = w_heap w)
      by (eapply heap_of_run; [apply bufRead_heap | exact E]).
    pose proof (store_inv_heap _ _ Hh1 Hinv) as Hinv1.
    destruct r as [c|e|]; try exact Hinv1.
    pose proof (bufRead_length _ _ _ _ E) as Hc.
    destruct (0 <? length c)%nat; [|exact Hinv1].
    inv_step. apply get_dec_inv in E0 as [-> Hl].
    destruct r as [d|e|]; try exact Hinv1.
    inv_step. rewrite (set_len_Some _ _ _ _ Hl) in E0. injection E0 as <- <-.
    assert (Hb : 0 < d_size d -> Z.of_nat k <= d_len d <= d_size d /\ d_size d < 2 ^ 63).
    { intros Hs. pose proof (Hinv1 a d Hl Hs). rewrite Hh1 in Hl.
      specialize (Hk d Hl Hs). lia. }
    apply IH.
    + pose proof (set_len_inv a (wrap64 (d_len d - Z.of_nat (length c))) w0 Hinv1) as H.
      rewrite (set_len_Some _ _ _ _ Hl) in H. apply H.
      intros d' Hd' Hs. rewrite Hl in Hd'. injection Hd' as <-.
      specialize (Hb Hs). rewrite wrap64_id by (unfold int64_range; lia). lia.
    + intros d' Hd' Hs. cbn in Hd'. rewrite (lookup_set_len _ _ _ _ Hl) in Hd'.
      injection Hd' as <-. cbn in *. specialize (Hb Hs).
      rewrite wrap64_id by (unfold int64_range; lia). lia.
Qed.

Lemma Read_inv (fuel a m : nat) (w : world) :
  store_inv w -> store_inv (snd (Read fuel a m w)).
Proof.
  intros Hinv. unfold Read.
  inv_step. pose proof (skip_inv fuel a w Hinv) as Hinv0. rewrite E in Hinv0. cbn in Hinv0.
  destruct r as [[]|e|]; try exact Hinv0.
  inv_step. apply get_dec_inv in E0 as [-> Hl].
  destruct r as [d|e|]; try exact Hinv0.
  inv_step.
  destruct ((d_len d <? Z.of_nat m) && (0 <? d_size d)) eqn:Hc.
  - destruct (Z.ltb_spec (d_len d) 0).
    + injection E0 as <- <-. exact Hinv0.
    + injection E0 as <- <-. apply read_loop_inv; [exact Hinv0|].
      intros d' Hd' _. rewrite Hl in Hd'. injection Hd' as <-. lia.
  - injection E0 as <- <-. apply read_loop_inv; [exact Hinv0|].
    intros d' Hd' Hs. rewrite Hl in Hd'. injection Hd' as <-.
    apply andb_false_iff in Hc as [Hc|Hc]; apply Z.ltb_ge in Hc; lia.
Qed.

Lemma ReadInt_inv (fuel a : nat) (w : world) :
  store_inv w -> store_inv (snd (ReadInt fuel a w)).
Proof.
  intros Hinv. unfold ReadInt.
  inv_step. pose proof (skip_inv fuel a w Hinv) as Hinv0. rewrite E in Hinv0. cbn in Hinv0.
  destruct r as [[]|e|]; try exact Hinv0.
  inv_step. apply get_dec_inv in E0 as [-> Hl].
  destruct r as [d|e|]; try exact Hinv0.
  destruct ((d_len d <? 1) || (8 <? d_len d)); [exact Hinv0|].
  inv_step.
  assert (Hh1 : w_heap w1 = w_heap w0)
    by (eapply heap_of_run; [apply Peek_heap | exact E0]).
  pose proof (store_inv_heap _ _ Hh1 Hinv0) as Hinv1.
  destruct r as [b|e|]; try exact Hinv1.
  inv_step.
  assert (Hh2 : w_heap w2 = w_heap w1)
    by (eapply heap_of_run; [apply Discard_heap | exact E1]).
  pose proof (store_inv_heap _ _ Hh2 Hinv1) as Hinv2.
  destruct r as [[]|e|]; try exact Hinv2.
  inv_step.
  assert (Hinv3 : store_inv w3).
  { pose proof (set_len_inv a 0 w2 Hinv2) as H. rewrite E2 in H. apply H. intros; lia. }
  destruct r; exact Hinv3.
Qed.

Lemma ReadFloat_inv (fuel a : nat) (w : world) :
  store_inv w -> store_inv (snd (ReadFloat fuel a w)).
Proof.
  intros Hinv. unfold ReadFloat.
  inv_step. pose proof (skip_inv fuel a w Hinv) as Hinv0. rewrite E in Hinv0. cbn in Hinv0.
  destruct r as [[]|e|]; try exact Hinv0.
  inv_step. apply get_dec_inv in E0 as [-> Hl].
  destruct r as [d|e|]; try exact Hinv0.
  inv_step.
  assert (Hh1 : w_heap w1 = w_heap w0).
  { destruct (d_len d =? 4); [|destruct (d_len d =? 8)].
    - unfold bind in E0. pose proof (Peek_heap 4 w0) as H.
      destruct (Peek 4 w0) as [[b|e|] wp]; injection E0 as <- <-; exact H.
    - unfold bind in E0. pose proof (Peek_heap 8 w0) as H.
      destruct (Peek 8 w0) as [[b|e|] wp]; injection E0 as <- <-; exact H.
    - injection E0 as <- <-. reflexivity. }
  pose proof (store_inv_heap _ _ Hh1 Hinv0) as Hinv1.
  destruct r as [v|e|]; try exact Hinv1.
  inv_step.
  assert (Hh2 : w_heap w2 = w_heap w1)
    by (eapply heap_of_run; [apply Discard_heap | exact E1]).
  pose proof (store_inv_heap _ _ Hh2 Hinv1) as Hinv2.
  destruct r as [[]|e|]; try exact Hinv2.
  inv_step.
  assert (Hinv3 : store_inv w3).
  { pose proof (set_len_inv a 0 w2 Hinv2) as H. rewrite E2 in H. apply H. intros; lia. }
  destruct r; exact Hinv3.
Qed.

Lemma ReadBytes_inv (fuel a : nat) (w : world) :
  store_inv w -> store_inv (snd (ReadBytes fuel a w)).
Proof.
  intros Hinv. unfold ReadBytes.
  inv_step. pose proof (skip_inv fuel a w Hinv) as Hinv0. rewrite E in Hinv0. cbn in Hinv0.
  destruct r as [[]|e|]; try exact Hinv0.
  inv_step. apply get_dec_inv in E0 as [-> Hl].
  destruct r as [d|e|]; try exact Hinv0.
  destruct ((d_len d <? 0) || (maxBufferSize <? d_len d)); [exact Hinv0|].
  inv_step.
  pose proof (Read_inv fuel a (Z.to_nat (d_len d)) w0 Hinv0) as H. rewrite E0 in H.
  destruct r; exact H.
Qed.

(** Discarding the value returned does not change the world reached. *)
Lemma snd_bind_ret {A B} (m : M A) (f : A -> B) (w : world) :
  snd (bind m (fun x => ret (f x)) w) = snd (m w).
Proof. unfold bind, ret. destruct (m w) as [[x|e|] w1]; reflexivity. Qed.

Lemma Next_split (fuel a : nat) (w : world) :
  Next fuel a w = (let* '(id, size) := Next_header fuel a in Next_open a id size) w.
Proof.
  unfold Next, Next_header, Next_open, bind.
  destruct (skip fuel a w) as [[[]|e|] w0]; try reflexivity.
  destruct (readVint fuel a 0 w0) as [[[id n]|e|] w1]; try reflexivity.
  destruct (readVint fuel a 1 w1) as [[[size n']|e|] w2]; reflexivity.
Qed.

Lemma Next_header_inv (fuel a : nat) (w : world) :
  store_inv w -> store_inv (snd (Next_header fuel a w)).
Proof.
  intros Hinv. unfold Next_header.
  inv_step. pose proof (skip_inv fuel a w Hinv) as Hinv0. rewrite E in Hinv0. cbn in Hinv0.
  destruct r as [[]|e|]; try exact Hinv0.
  inv_step. pose proof (readVint_inv fuel a 0 w0 Hinv0) as Hinv1. rewrite E0 in Hinv1.
  destruct r as [[id n]|e|]; try exact Hinv1.
  inv_step. pose proof (readVint_inv fuel a 1 w1 Hinv1) as Hinv2. rewrite E1 in Hinv2.
  destruct r as [[size n']|e|]; exact Hinv2.
Qed.

Lemma shift_in_range (v : Z) (it : byte) : int64_range (shift_in v it).
Proof.
  unfold shift_in. rewrite Z.shiftl_mul_pow2 by lia. change (2 ^ 8) with 256.
  assert (E : wrap64 (v * 256) = ((v + 2 ^ 55) mod 2 ^ 56 - 2 ^ 55) * 256).
  { unfold wrap64.
    replace (v * 256 + 2 ^ 63) with (256 * (v + 2 ^ 55)) by (change (2 ^ 63) with (256 * 2 ^ 55); ring).
    change (2 ^ 64) with (256 * 2 ^ 56).
    rewrite Z.mul_mod_distr_l by lia. change (2 ^ 63) with (256 * 2 ^ 55). ring. }
  rewrite E. pose proof (byte_to_Z_range it) as Hb.
  rewrite lor_low_byte by exact Hb.
  pose proof (Z.mod_pos_bound (v + 2 ^ 55) (2 ^ 56) ltac:(lia)).
  unfold int64_range. lia.
Qed.

Lemma shift_bytes_range (b : list byte) (v : Z) :
  int64_range v -> int64_range (shift_bytes v b).
Proof.
  revert v. induction b as [|x b IH]; intros v Hv; [exact Hv|].
  unfold shift_bytes. cbn [fold_left]. apply IH, shift_in_range.
Qed.

Lemma vint_lead_snd_range (m : byte) (off : nat) :
  (off <= 1)%nat -> 0 <= snd (vint_lead m off) < 256.
Proof.
  intros Hoff. destruct off as [|[|off]]; [| |lia];
    destruct m; vm_compute; split; congruence.
Qed.

Lemma readVint_value_range (fuel a off : nat) (w w' : world) (v : Z) (n : nat) :
  (off <= 1)%nat -> readVint fuel a off w = (Ok (v, n), w') -> int64_range v.
Proof.
  intros Hoff. unfold readVint, bind.
  destruct (skip fuel a w) as [[[]|e|] w0]; try discriminate.
  destruct (get_dec a w0) as [[d|e|] w1]; try discriminate.
  destruct ((d_len d <? 1) && (0 <? d_size d)); [discriminate|].
  destruct (ReadByte w1) as [[m|e|] w2]; try discriminate.
  destruct (set_len a _ w2) as [[[]|e|] w3]; try discriminate.
  pose proof (vint_lead_snd_range m off Hoff) as Hv.
  destruct (vint_lead m off) as [n0 v0]. cbn [snd] in Hv.
  assert (Hr0 : int64_range v0) by (unfold int64_range; lia).
  destruct (0 <? n0)%nat.
  - destruct (get_dec a w3) as [[d3|e|] w4]; try discriminate.
    destruct ((d_len d3 <? Z.of_nat n0) && (0 <? d_size d3)); [discriminate|].
    destruct (Peek n0 w4) as [[b|e|] w5]; try discriminate.
    destruct (Discard _ w5) as [[[]|e|] w6]; try discriminate.
    destruct (set_len a _ w6) as [[[]|e|] w7]; try discriminate.
    intros E. injection E as <- _ _. apply shift_bytes_range. exact Hr0.
  - intros E. injection E as <- _ _. exact Hr0.
Qed.

Lemma Next_header_size_range (fuel a : nat) (w w' : world) (id size : Z) :
  Next_header fuel a w = (Ok (id, size), w') -> int64_range size.
Proof.
  unfold Next_header, bind.
  destruct (skip fuel a w) as [[[]|e|] w0]; try discriminate.
  destruct (readVint fuel a 0 w0) as [[[id0 n]|e|] w1]; try discriminate.
  destruct (readVint fuel a 1 w1) as [[[size0 n']|e|] w2] eqn:E; try discriminate.
  intros H. injection H as _ <- _.
  eapply readVint_value_range; [|exact E]. lia.
Qed.

(** The store once [Next_open] has made the child. *)
Lemma Next_open_child (a : nat) (id size : Z) (d1 : Decoder) (w1 : world) :
  w_heap w1 !! a = Some d1 ->
  (id =? 0) || (size <? 0) = false ->
  (d_size d1 <? size) && (0 <? d_size d1) = false ->
  (size =? 0) = false ->
  Next_open a id size w1 =
  (Ok (id, Some (length (w_heap w1))),
   set_heap (<[a := with_elem (with_len d1 (wrap64 (d_len d1 - size)))
                     (Some (length (w_heap w1)))]> (w_heap w1)
             ++ [mkDecoder (d_rs d1) size size id None]) w1).
Proof.
  intros Hl Hc1 Hc2 Hc3. unfold Next_open. rewrite Hc1.
  rewrite (bind_Ok _ _ _ _ _ (get_dec_Some _ _ _ Hl)). rewrite Hc2, Hc3.
  rewrite (bind_Ok _ _ _ _ _ (set_len_Some _ _ _ _ Hl)).
  unfold bind at 1. unfold alloc at 1. cbn [w_heap set_heap].
  assert (Hlt : (a < length (w_heap w1))%nat) by (eapply lookup_lt_Some; exact Hl).
  unfold bind, set_elem. cbn [w_heap set_heap].
  rewrite lookup_app_l by (rewrite length_insert; exact Hlt).
  rewrite list_lookup_insert_eq by exact Hlt.
  unfold ret. rewrite length_insert. f_equal.
  unfold set_heap. cbn. f_equal.
  rewrite insert_app_l by (rewrite length_insert; exact Hlt).
  rewrite list_insert_insert_eq. reflexivity.
Qed.

Lemma store_inv_after_open (a : nat) (id size : Z) (d1 : Decoder) (w1 : world) :
  store_inv w1 ->
  w_heap w1 !! a = Some d1 ->
  0 < size < 2 ^ 63 ->
  (0 < d_size d1 -> size <= d_size d1) ->
  let w' := set_heap (<[a := with_elem (with_len d1 (wrap64 (d_len d1 - size)))
                             (Some (length (w_heap w1)))]> (w_heap w1)
                      ++ [mkDecoder (d_rs d1) size size id None]) w1 in
  (d_size d1 <= 0 -> store_inv w') /\
  (0 < d_size d1 -> (store_inv w' <-> size <= d_len d1)).
Proof.
  intros Hinv Hl Hsize Hchk w'.
  assert (Hlt : (a < length (w_heap w1))%nat) by (eapply lookup_lt_Some; exact Hl).
  assert (Hla : w_heap w' !! a
                = Some (with_elem (with_len d1 (wrap64 (d_len d1 - size)))
                          (Some (length (w_heap w1))))).
  { unfold w'. cbn. rewrite lookup_app_l by (rewrite length_insert; exact Hlt).
    apply list_lookup_insert_eq. exact Hlt. }
  assert (Hgen : (0 < d_size d1 -> size <= d_len d1) -> store_inv w').
  { intros Hfit b db Hb. unfold w' in Hb. cbn in Hb.
    destruct (Nat.lt_ge_cases b (length (w_heap w1))) as [Hin|Hout].
    - rewrite lookup_app_l in Hb by (rewrite length_insert; exact Hin).
      destruct (Nat.eq_dec a b) as [<-|Hne].
      + rewrite list_lookup_insert_eq in Hb by exact Hlt. injection Hb as <-.
        intros Hs. cbn in *. pose proof (Hinv a d1 Hl Hs) as [? ?].
        specialize (Hfit Hs). rewrite wrap64_id by (unfold int64_range; lia). lia.
      + rewrite list_lookup_insert_ne in Hb by exact Hne. apply (Hinv b db Hb).
    - rewrite lookup_app_r in Hb by (rewrite length_insert; exact Hout).
      rewrite length_insert in Hb.
      destruct (b - length (w_heap w1))%nat as [|k] eqn:Ek; [|destruct k; discriminate].
      cbn in Hb. injection Hb as <-. intros _. cbn. lia. }
  split.
  - intros Hunb. apply Hgen. lia.
  - intros Hs. split; [|intros Hfit; apply Hgen; intros _; exact Hfit].
    intros Hinv'. pose proof (Hinv' a _ Hla) as H. unfold cursor_inv in H. cbn in H.
    specialize (H Hs). pose proof (Hinv a d1 Hl Hs) as [? ?]. specialize (Hchk Hs).
    rewrite wrap64_id in H by (unfold int64_range; lia). lia.
Qed.

(** ** C2: the invariant, operation by operation *)

(** C2, as stated, fails for the unbounded root cursor, whose declared
    size is the sentinel 0: reading the header 81 81 takes its remaining
    count from 0 to -2, opening the child of one byte takes it to -3, and
    [Next] returns without error. *)
Lemma root_remaining_goes_negative :
  let r := Next 1 0 (NewDecoder false 0 4096 [x81; x81; x00]) in
  fst r = Ok (0x81, Some 1%nat) /\
  d_len <$> (w_heap (snd r) !! 0%nat) = Some (-3) /\
  d_size <$> (w_heap (snd r) !! 0%nat) = Some 0 /\
  ~ (0 <= -3 <= 0).
Proof. vm_compute. repeat split; try congruence. intros [H _]. apply H. reflexivity. Qed.

(** C2 (amended).  For the cursors that are size-bounded (declared size
    above 0), with [0 <= remaining <= size] for each of them before:
    - [Skip], [Read], [readVint] and the primitive readers keep it for
      every cursor of the store, whatever they return;
    - so does [Next] when it returns an error or no child;
    - when [Next] opens a child, the child starts with
      [0 < remaining = size], the other cursors are untouched, the parent
      loses the size of the child, and the invariant still holds for the
      whole store exactly when the size of the child is at most what the
      parent had left at the moment the child was opened (for an
      unbounded parent it holds in any case). *)
Theorem bounded_cursor_invariant (fuel a : nat) (w : world) :
  store_inv w ->
  (forall o, store_inv (snd (run_op fuel o a w))) /\
  (forall r w', Next fuel a w = (r, w') ->
     match r with
     | Ok (_, Some c) =>
         exists id size w1 d1,
           Next_header fuel a w = (Ok (id, size), w1) /\
           store_inv w1 /\
           w_heap w1 !! a = Some d1 /\
           c = length (w_heap w1) /\
           w_heap w' =
             <[a := with_elem (with_len d1 (wrap64 (d_len d1 - size))) (Some c)]> (w_heap w1)
             ++ [mkDecoder (d_rs d1) size size id None] /\
           0 < size < 2 ^ 63 /\
           (d_size d1 <= 0 -> store_inv w') /\
           (0 < d_size d1 -> (store_inv w' <-> size <= d_len d1))
     | _ => store_inv w'
     end).
Proof.
  intros Hinv. split.
  - intros o. destruct o; cbn [run_op].
    + apply Skip_inv; exact Hinv.
    + rewrite (snd_bind_ret _ (fun _ => tt)). apply Read_inv; exact Hinv.
    + rewrite (snd_bind_ret _ (fun _ => tt)). apply readVint_inv; exact Hinv.
    + rewrite (snd_bind_ret _ (fun _ => tt)). apply ReadInt_inv; exact Hinv.
    + rewrite (snd_bind_ret _ (fun _ => tt)). apply ReadFloat_inv; exact Hinv.
    + rewrite (snd_bind_ret _ (fun _ => tt)). unfold ReadBool.
      rewrite snd_bind_ret. apply ReadInt_inv; exact Hinv.
    + rewrite (snd_bind_ret _ (fun _ => tt)). unfold ReadTime.
      rewrite (snd_bind_ret _ (fun v => v)). apply ReadInt_inv; exact Hinv.
    + rewrite (snd_bind_ret _ (fun _ => tt)). unfold ReadString.
      rewrite (snd_bind_ret _ (fun v => v)). apply ReadBytes_inv; exact Hinv.
    + rewrite (snd_bind_ret _ (fun _ => tt)). apply ReadBytes_inv; exact Hinv.
  - intros r w' Hrun. rewrite Next_split in Hrun. unfold bind in Hrun.
    pose proof (Next_header_inv fuel a w Hinv) as Hinv1.
    destruct (Next_header fuel a w) as [[[id size]|e|] w1] eqn:EH; cbn [snd] in Hinv1.
    2,3: injection Hrun as <- <-; exact Hinv1.
    pose proof (Next_header_size_range _ _ _ _ _ _ EH) as Hrange.
    unfold Next_open in Hrun.
    destruct ((id =? 0) || (size <? 0)) eqn:Hc1; [injection Hrun as <- <-; exact Hinv1|].
    unfold bind in Hrun at 1.
    destruct (get_dec a w1) as [[d1|e|] w1'] eqn:Eg;
      apply get_dec_inv in Eg as [-> Hl]; try (injection Hrun as <- <-; exact Hinv1).
    destruct ((d_size d1 <? size) && (0 <? d_size d1)) eqn:Hc2;
      [injection Hrun as <- <-; exact Hinv1|].
    destruct (size =? 0) eqn:Hc3; [injection Hrun as <- <-; exact Hinv1|].
    pose proof (Next_open_child a id size d1 w1 Hl Hc1 Hc2 Hc3) as Hopen.
    unfold Next_open in Hopen. rewrite Hc1 in Hopen.
    rewrite (bind_Ok _ _ _ _ _ (get_dec_Some _ _ _ Hl)), Hc2, Hc3 in Hopen.
    rewrite Hopen in Hrun. injection Hrun as <- <-.
    apply orb_false_iff in Hc1 as [_ Hneg]. apply Z.ltb_ge in Hneg.
    apply Z.eqb_neq in Hc3.
    assert (Hsize : 0 < size < 2 ^ 63) by (unfold int64_range in Hrange; lia).
    assert (Hchk : 0 < d_size d1 -> size <= d_size d1).
    { intros Hs. apply andb_false_iff in Hc2 as [Hc|Hc]; apply Z.ltb_ge in Hc; lia. }
    destruct (store_inv_after_open a id size d1 w1 Hinv1 Hl Hsize Hchk) as [Hunb Hbnd].
    exists id, size, w1, d1.
    split; [reflexivity|]. split; [exact Hinv1|]. split; [exact Hl|].
    split; [reflexivity|]. split; [reflexivity|]. split; [exact Hsize|].
    split; [exact Hunb | exact Hbnd].
Qed.

Lemma bounded_cursor_invariant_witness :
  let w := mkWorld [mkDecoder false (-2) 0 0 (Some 1%nat); mkDecoder false 3 3 0x86 None]
             [] [x56; x50; x38] 4096 in
  store_inv w /\ store_inv (snd (run_op 1 OpReadBytes 1 w)).
Proof.
  intros w.
  assert (Hinv : store_inv w).
  { intros a d H. destruct a as [|[|a]]; cbn in H; try discriminate;
      injection H as <-; intros Hs; cbn in *; lia. }
  split; [exact Hinv|].
  apply (bounded_cursor_invariant 1 1 w Hinv).
Defined.

(** ** C7: the two paths of Skip *)

(** Whatever the store, a [Skip] that returns without error leaves the
    cursor with nothing to go: 0, or the negative count it had. *)
Lemma Skip_leaves_nothing (fuel a : nat) (w w' : world) :
  Skip fuel a w = (Ok tt, w') ->
  exists d', w_heap w' !! a = Some d' /\ d_len d' <= 0.
Proof.
  destruct fuel as [|fuel]; [discriminate|]. cbn [Skip]. intros H.
  apply bind_Ok_inv in H as (d0 & w0 & E0 & H). apply get_dec_inv in E0 as [-> _].
  apply bind_Ok_inv in H as ([] & w1 & _ & H).
  apply bind_Ok_inv in H as (d & w2 & Eg & H). apply get_dec_inv in Eg as [-> Hl].
  destruct (Z.leb_spec (d_len d) 0) as [Hz|Hpos].
  - injection H as <-. exists d. split; assumption.
  - apply bind_Ok_inv in H as (n & w3 & EB & H). injection EB as <- <-.
    apply bind_Ok_inv in H as ([] & w4 & EP & H).
    assert (Hh : w_heap w4 = w_heap w1).
    { destruct (d_rs d && _).
      - apply bind_Ok_inv in EP as ([] & w5 & ES & ER).
        injection ES as <-. injection ER as <-. reflexivity.
      - eapply heap_of_run; [apply Discard_heap | exact EP]. }
    assert (Hl4 : w_heap w4 !! a = Some d) by (rewrite Hh; exact Hl).
    rewrite (set_len_Some _ _ _ _ Hl4) in H. injection H as <-.
    exists (with_len d 0). split; [|cbn; lia].
    cbn. apply lookup_set_len. exact Hl4.
Qed.

(** C7.  The two paths of [Skip] differ on a source that ends inside the
    element.  The stream A0 85 01 02 declares five bytes and holds two.
    Over a source that seeks, [Skip] on the child returns no error and
    leaves 0: the seek past the end succeeds and nothing compares it with
    what the source holds.  Over a source that does not seek, [Skip]
    returns [io.EOF] and leaves the 5.  So a struct whose last child, of
    an id it has no field for, is cut short decodes without error from a
    source that seeks and with [io.EOF] from one that does not.  (A
    remaining count that is negative already, as the unbounded root has
    once a header has been read, is left as it is.) *)
Lemma Skip_paths_differ_on_short_source :
  let run := fun rs : bool =>
    Skip 1 1%nat (snd (Next 1 0 (NewDecoder rs 0 4096 [xa0; x85; x01; x02]))) in
  let decoded := fun rs : bool =>
    fst (UnmarshalEBML example_env 1 4 Outer_zero 0
           (NewDecoder rs 0 4096 [xec; x85; x01; x02])) in
  fst (run true) = Ok tt /\
  w_heap (snd (run true)) !! 1%nat = Some (mkDecoder true 0 5 0xA0 None) /\
  fst (run false) = Err EOF /\
  w_heap (snd (run false)) !! 1%nat = Some (mkDecoder false 5 5 0xA0 None) /\
  decoded true = (Outer_zero, Ok tt) /\
  decoded false = (Outer_zero, Err EOF) /\
  fst (Skip 2 0 (snd (run true))) = Ok tt /\
  w_heap (snd (Skip 2 0 (snd (run true)))) !! 0%nat = Some (mkDecoder true (-7) 0 0 (Some 1%nat)).
Proof. vm_compute. repeat split. Qed.

(** X24.  In any state, a [Skip] that returns without error
    leaves a remaining count that is 0 or negative.  For a cursor with
    no child left open and a remaining count that is not negative, it is
    0; and when the source still holds the bytes to skip, [Skip] over a
    source that seeks and [Skip] over one that does not both succeed,
    consume exactly those bytes and leave the same cursors (up to the
    flag that tells the two sources apart). *)
Theorem Skip_paths_agree (fuel a : nat) (w : world) :
  (forall w', Skip (S fuel) a w = (Ok tt, w') ->
              exists d', w_heap w' !! a = Some d' /\ d_len d' <= 0) /\
  (forall d,
     w_heap w !! a = Some d ->
     quiet_chain (w_heap w) a fuel (d_elem d) ->
     0 <= d_len d ->
     (forall w', Skip (S fuel) a w = (Ok tt, w') ->
                 w_heap w' !! a = Some (with_len d 0)) /\
     (d_len d <= Z.of_nat (length (pending w)) ->
      exists ws wd,
        Skip (S fuel) a (set_rs a true w) = (Ok tt, ws) /\
        Skip (S fuel) a (set_rs a false w) = (Ok tt, wd) /\
        pending ws = drop (Z.to_nat (d_len d)) (pending w) /\
        pending wd = pending ws /\
        w_heap ws !! a = Some (with_rs (with_len d 0) true) /\
        w_heap wd = w_heap (set_rs a false ws))).
Proof.
  split; [intros w'; apply Skip_leaves_nothing|].
  intros d Hl Hq H0. split.
  - intros w' Hrun.
    destruct (Z.le_gt_cases (d_len d) (Z.of_nat (length (pending w)))) as [Hle|Hgt].
    + destruct (Skip_ok fuel a d w Hl Hq (conj H0 Hle)) as (w1 & H1 & _ & Hh & _).
      rewrite H1 in Hrun. injection Hrun as <-.
      rewrite Hh. apply lookup_set_len. exact Hl.
    + destruct (d_rs d) eqn:Hrs.
      * destruct (Skip_short_seek fuel a d w Hl Hq ltac:(lia) Hrs) as (w1 & H1 & _ & Hh & _).
        rewrite H1 in Hrun. injection Hrun as <-.
        rewrite Hh. apply lookup_set_len. exact Hl.
      * destruct (Skip_short_discard fuel a d w Hl Hq ltac:(lia) Hrs) as (w1 & H1 & _).
        rewrite H1 in Hrun. discriminate.
  - intros Hle.
    assert (Hlt : (a < length (w_heap w))%nat) by (eapply lookup_lt_Some; exact Hl).
    assert (Hrs : forall b, w_heap (set_rs a b w) !! a = Some (with_rs d b)
                            /\ pending (set_rs a b w) = pending w
                            /\ w_heap (set_rs a b w) = <[a := with_rs d b]> (w_heap w)).
    { intros b. unfold set_rs. rewrite Hl. cbn.
      split; [apply list_lookup_insert_eq; exact Hlt|]. split; reflexivity. }
    destruct (Hrs true) as (Hlt1 & Hpt & Hht).
    destruct (Hrs false) as (Hlf1 & Hpf & Hhf).
    destruct (Skip_ok fuel a (with_rs d true) (set_rs a true w) Hlt1)
      as (ws & Hs & Hps & Hhs & _).
    { rewrite Hht. apply quiet_chain_insert. exact Hq. }
    { rewrite Hpt. cbn. lia. }
    destruct (Skip_ok fuel a (with_rs d false) (set_rs a false w) Hlf1)
      as (wd & Hd & Hpd & Hhd & _).
    { rewrite Hhf. apply quiet_chain_insert. exact Hq. }
    { rewrite Hpf. cbn. lia. }
    exists ws, wd. cbn [with_rs d_len] in *.
    split; [exact Hs|]. split; [exact Hd|].
    split; [rewrite Hps, Hpt; reflexivity|].
    split; [rewrite Hps, Hpd, Hpt, Hpf; reflexivity|].
    split.
    + rewrite Hhs, Hht, list_insert_insert_eq. apply list_lookup_insert_eq. exact Hlt.
    + unfold set_rs at 1. rewrite Hhs, Hht, list_insert_insert_eq.
      rewrite list_lookup_insert_eq by exact Hlt. cbn.
      rewrite Hhd, Hhf, !list_insert_insert_eq. reflexivity.
Qed.

Lemma Skip_paths_agree_witness :
  let w := mkWorld [mkDecoder true 3 3 0xEC None] [x00] [x00; x00; xa1] 4096 in
  fst (Skip 1 0 (set_rs 0 true w)) = Ok tt /\
  fst (Skip 1 0 (set_rs 0 false w)) = Ok tt /\
  pending (snd (Skip 1 0 (set_rs 0 false w))) = pending (snd (Skip 1 0 (set_rs 0 true w))).
Proof.
  intros w.
  destruct (Skip_paths_agree 0 0 w) as [_ H].
  destruct (H (mkDecoder true 3 3 0xEC None) eq_refl (quiet_nil _ _ _) ltac:(cbn; lia))
    as [_ H'].
  destruct H' as (ws & wd & H1 & H2 & _ & H3 & _); [cbn; lia|].
  rewrite H1, H2. cbn. repeat split. exact H3.
Defined.

(** ** C5: the source ends at an element boundary *)

Lemma Next_eof_at_boundary (sf a : nat) (d : Decoder) (w : world) :
  w_heap w !! a = Some d ->
  quiet_chain (w_heap w) a sf (d_elem d) ->
  0 < d_len d ->
  pending w = [] ->
  exists w', Next sf a w = (Err EOF, w') /\ pending w' = [] /\ same_store w w'.
Proof.
  intros Hl Hq Hlen Hp. unfold Next.
  rewrite (bind_Ok _ _ _ _ _ (skip_quiet _ _ _ _ Hl Hq)).
  destruct (ReadByte_nil w Hp) as (w' & Hrb & Hp' & Hs').
  assert (Hrv : readVint sf a 0 w = (Err EOF, w')).
  { unfold readVint.
    rewrite (bind_Ok _ _ _ _ _ (skip_quiet _ _ _ _ Hl Hq)).
    rewrite (bind_Ok _ _ _ _ _ (get_dec_Some _ _ _ Hl)).
    replace (d_len d <? 1) with false by (symmetry; apply Z.ltb_ge; lia).
    cbn [andb]. rewrite (bind_Err _ _ _ _ _ Hrb). reflexivity. }
  rewrite (bind_Err _ _ _ _ _ Hrv).
  exists w'. repeat split; solve [assumption | apply Hs'].
Qed.

(** C5.  A container cursor that still has bytes to go (so a size-bounded
    one), with no child left open, over a source that has no byte left:
    [Next] signals [io.EOF], and the decoding loop takes it for the end
    of the container.  It returns without error, with the value as
    populated so far, and so does [UnmarshalEBML] for any struct whose
    tags parse. *)
Theorem UnmarshalEBML_eof_at_boundary (env : tenv) (sf fuel a : nat)
  (s : structInfo) (v : value) (d : Decoder) (w : world) :
  w_heap w !! a = Some d ->
  quiet_chain (w_heap w) a sf (d_elem d) ->
  0 < d_len d ->
  pending w = [] ->
  exists w',
    Next sf a w = (Err EOF, w') /\
    UnmarshalEBML_loop env sf (S fuel) s v a w = (v, Ok tt, w') /\
    (newStructInfo env v = Ok s -> UnmarshalEBML env sf (S fuel) v a w = (v, Ok tt, w')) /\
    w_heap w' = w_heap w.
Proof.
  intros Hl Hq Hlen Hp.
  destruct (Next_eof_at_boundary sf a d w Hl Hq Hlen Hp) as (w' & Hn & _ & Hh & _).
  exists w'. split; [exact Hn|].
  assert (Hloop : UnmarshalEBML_loop env sf (S fuel) s v a w = (v, Ok tt, w')).
  { cbn [UnmarshalEBML_loop]. rewrite Hn. reflexivity. }
  split; [exact Hloop|]. split; [|exact Hh].
  intros Hs. unfold UnmarshalEBML. rewrite Hs. exact Hloop.
Qed.

Lemma UnmarshalEBML_eof_at_boundary_witness :
  let v := VStruct "Inner" [VInt Kword 9; VInt Kword 0] in
  let w := mkWorld [mkDecoder false 4 10 0xA0 None] [] [] 4096 in
  fst (UnmarshalEBML example_env 1 1 v 0 w) = (v, Ok tt).
Proof.
  intros v w.
  destruct (newStructInfo example_env v) as [s|e|] eqn:Es;
    [|vm_compute in Es; discriminate..].
  destruct (UnmarshalEBML_eof_at_boundary example_env 1 0 0 s v
              (mkDecoder false 4 10 0xA0 None) w
              eq_refl (quiet_nil _ _ _) ltac:(cbn; lia) eq_refl)
    as (w' & _ & _ & H & _).
  rewrite (H Es). reflexivity.
Defined.

(** ** C4: two siblings with the id of one non-repeated field *)

(** C4, as stated, fails for a nested single structure.  The first
    element A0 holds X = 5 and Y = 7, the second holds X = 9 only.  The
    second alone decodes to X = 9, Y = 0; after the first it is decoded
    into the instance the first one made, and the tree holds X = 9,
    Y = 7. *)
Lemma duplicate_struct_is_merged :
  let first := [xa0; x86; x81; x81; x05; x82; x81; x07] in
  let second := [xa0; x83; x81; x81; x09] in
  let run := fun bs : list byte =>
    fst (UnmarshalEBML example_env 2 8 Outer_zero 0 (NewDecoder false 0 4096 bs)) in
  run second
  = (VStruct "Outer"
       [VPtr (TStruct "Inner") (Some (VStruct "Inner" [VInt Kword 9; VInt Kword 0]));
        VInt Kword 0; VSlice (TInt K64) []], Ok tt) /\
  run (first ++ second)
  = (VStruct "Outer"
       [VPtr (TStruct "Inner") (Some (VStruct "Inner" [VInt Kword 9; VInt Kword 7]));
        VInt Kword 0; VSlice (TInt K64) []], Ok tt) /\
  run (first ++ second) <> run second.
Proof. vm_compute. repeat split. discriminate. Qed.

Lemma store_same {A} (v1 v2 : value) (r : result A * world) (f : A -> value) :
  dec_result (store v1 r f) = dec_result (store v2 r f) /\
  dec_world (store v1 r f) = dec_world (store v2 r f) /\
  (dec_result (store v1 r f) = Ok tt ->
   dec_value (store v1 r f) = dec_value (store v2 r f)).
Proof.
  destruct r as [[x|e|] w]; cbn; repeat split; try reflexivity; discriminate.
Qed.

Lemma field_set_field (v : value) (i : nat) (x y : value) :
  field v i = Some x -> field (set_field v i y) i = Some y.
Proof.
  destruct v; cbn; try discriminate. intros H.
  apply list_lookup_insert_eq. eapply lookup_lt_Some; exact H.
Qed.

Lemma set_field_set_field (v : value) (i : nat) (x y : value) :
  set_field (set_field v i x) i y = set_field v i y.
Proof.
  destruct v; cbn; try reflexivity. rewrite list_insert_insert_eq. reflexivity.
Qed.

(** One turn of the loop of [UnmarshalEBML]. *)
Lemma UnmarshalEBML_loop_step (env : tenv) (sf fuel : nat) (s : structInfo) (v : value)
  (a : nat) (w : world) :
  UnmarshalEBML_loop env sf (S fuel) s v a w =
  match Next sf a w with
  | (Err e, w1) => if is_EOF e then (v, Ok tt, w1) else (v, Err e, w1)
  | (NoFuel, w1) => (v, NoFuel, w1)
  | (Ok (_, None), w1) => UnmarshalEBML_loop env sf fuel s v a w1
  | (Ok (id, Some elem), w1) =>
      match si_ids s !! id with
      | Some f =>
          match field v (fi_index f) with
          | None => (v, Err (Panic "reflect: Field index out of range"), w1)
          | Some fv =>
              let '(fv', r, w2) :=
                match fi_seq f with
                | [] => decode env sf fuel fv elem w1
                | seq => decodeSeq env sf fuel seq fv elem w1
                end in
              let v' := set_field v (fi_index f) fv' in
              match r with
              | Ok _ => UnmarshalEBML_loop env sf fuel s v' a w2
              | _ => (v', r, w2)
              end
          end
      | None =>
          match Skip sf elem w1 with
          | (Ok _, w2) => UnmarshalEBML_loop env sf fuel s v a w2
          | (Err e, w2) => (v, Err e, w2)
          | (NoFuel, w2) => (v, NoFuel, w2)
          end
      end
  end.
Proof. reflexivity. Qed.

(** C4 (amended).  Two sibling elements with the id of one non-repeated
    field raise no error of their own, and the second is decoded over
    what the first left in the field:
    - a primitive reader (integer, boolean, float, string, bytes, time)
      stores without looking at the old content, so the field ends with
      exactly the value of the second element;
    - a pointer to a struct that already points to an instance is decoded
      into that instance, field by field, and only a nil pointer gets a
      fresh one; fields the second element does not mention keep what the
      first one stored. *)
Theorem duplicate_field_semantics (env : tenv) (sf fuel a : nat) :
  (forall v1 v2 w, same_primitive v1 v2 ->
     dec_result (decode env sf (S fuel) v1 a w) = dec_result (decode env sf (S fuel) v2 a w) /\
     dec_world (decode env sf (S fuel) v1 a w) = dec_world (decode env sf (S fuel) v2 a w) /\
     (dec_result (decode env sf (S fuel) v1 a w) = Ok tt ->
      dec_value (decode env sf (S fuel) v1 a w) = dec_value (decode env sf (S fuel) v2 a w))) /\
  (forall name x w, s_unmarshaler (env name) = false ->
     decode env sf (S fuel) (VPtr (TStruct name) (Some x)) a w
     = (let '(x', r, w') := decode env sf fuel x a w in
        (VPtr (TStruct name) (Some x'), r, w'))) /\
  (forall (s : structInfo) (v fv fv1 : value) (f : fieldInfo) (id : Z) (c1 c2 : nat)
          (w w1 w2 w3 : world),
     si_ids s !! id = Some f ->
     fi_seq f = [] ->
     field v (fi_index f) = Some fv ->
     Next sf a w = (Ok (id, Some c1), w1) ->
     decode env sf (S fuel) fv c1 w1 = (fv1, Ok tt, w2) ->
     Next sf a w2 = (Ok (id, Some c2), w3) ->
     UnmarshalEBML_loop env sf (S (S fuel)) s v a w
     = (let '(fv2, r, w4) := decode env sf fuel fv1 c2 w3 in
        match r with
        | Ok _ => UnmarshalEBML_loop env sf fuel s (set_field v (fi_index f) fv2) a w4
        | _ => (set_field v (fi_index f) fv2, r, w4)
        end)).
Proof.
  split; [|split].
  - intros v1 v2 w H. destruct H; cbn [decode]; apply store_same.
  - intros name x w Hu. cbn [decode is_struct_kind negb implements_Unmarshaler].
    rewrite Hu. reflexivity.
  - intros s v fv fv1 f id c1 c2 w w1 w2 w3 Hid Hseq Hf HN1 Hd1 HN2.
    rewrite (UnmarshalEBML_loop_step env sf (S fuel) s v a w).
    rewrite HN1, Hid, Hf, Hseq, Hd1.
    rewrite (UnmarshalEBML_loop_step env sf fuel s _ a w2).
    rewrite HN2, Hid, (field_set_field _ _ _ _ Hf), Hseq.
    destruct (decode env sf fuel fv1 c2 w3) as [[fv2 r] w4].
    rewrite set_field_set_field. reflexivity.
Qed.

Lemma duplicate_field_semantics_witness :
  let s := match newStructInfo example_env Outer_zero with
           | Ok s => s
           | _ => mkStructInfo [] ∅
           end in
  let w := NewDecoder false 0 4096 [x83; x81; x05; x83; x81; x09] in
  dec_value (UnmarshalEBML_loop example_env 2 4 s Outer_zero 0 w)
  = VStruct "Outer" [VPtr (TStruct "Inner") None; VInt Kword 9; VSlice (TInt K64) []] /\
  dec_result (decode example_env 2 5 (VInt Kword 5) 1
                (snd (Next 2 0 (NewDecoder false 0 4096 [x83; x81; x09]))))
  = dec_result (decode example_env 2 5 (VInt Kword 0) 1
                  (snd (Next 2 0 (NewDecoder false 0 4096 [x83; x81; x09])))) /\
  dec_value (decode example_env 2 5
               (VPtr (TStruct "Inner") (Some (VStruct "Inner" [VInt Kword 5; VInt Kword 7]))) 1
               (snd (Next 2 0 (NewDecoder false 0 4096 [xa0; x83; x81; x81; x09]))))
  = VPtr (TStruct "Inner") (Some (VStruct "Inner" [VInt Kword 9; VInt Kword 7])).
Proof.
  intros s w.
  destruct (duplicate_field_semantics example_env 2 2 0) as (_ & _ & H3).
  destruct (duplicate_field_semantics example_env 2 4 1) as (G1 & G2 & _).
  split; [|split].
  - rewrite (H3 s Outer_zero (VInt Kword 0) (VInt Kword 5) (mkFieldInfo 0x83 1 "N" []) 0x83
               1%nat 2%nat w (snd (Next 2 0 w))
               (dec_world (decode example_env 2 3 (VInt Kword 0) 1 (snd (Next 2 0 w))))
               (snd (Next 2 0 (dec_world (decode example_env 2 3 (VInt Kword 0) 1
                                            (snd (Next 2 0 w)))))));
      vm_compute; reflexivity.
  - apply G1. constructor.
  - rewrite G2 by reflexivity. vm_compute. reflexivity.
Defined.

(** ** Next on a stream that holds a whole header *)

Lemma readVint_encoded (k : vkind) (width : nat) (x : Z)
  (fuel a : nat) (d : Decoder) (w : world) (t : list byte) :
  encodable k width x ->
  w_heap w !! a = Some d ->
  quiet_chain (w_heap w) a fuel (d_elem d) ->
  int64_range (d_len d) ->
  (0 < d_size d -> Z.of_nat width <= d_len d) ->
  pending w = encode_vint k width x ++ t ->
  exists w',
    readVint fuel a (off_of k) w = (Ok (x, (width - 1)%nat), w') /\
    pending w' = t /\
    w_heap w' = <[a := with_len d (wrap64 (d_len d - Z.of_nat width))]> (w_heap w) /\
    w_cap w' = w_cap w /\
    rshape_eq w' (vint_advance (width - 1) w).
Proof.
  intros Henc Hl Hq Hr Hroom Hp.
  destruct (encode_vint_lead k width x Henc) as (m & b & E & Hw & Hf & Hv).
  rewrite E in Hp. cbn [app] in Hp.
  destruct (readVint_run fuel a (off_of k) d w m b t Hl Hq Hr)
    as (w' & Hrun & Hpen & Hh & Hc & Hs);
    [ intros Hs; specialize (Hroom Hs); lia | exact Hp | symmetry; exact Hf |].
  exists w'. rewrite Hv in Hrun.
  replace (width - 1)%nat with (length b) by lia.
  replace (d_len d - Z.of_nat width) with (d_len d - 1 - Z.of_nat (length b)) by lia.
  repeat split; try assumption; apply Hs.
Qed.

Lemma quiet_chain_app (h : list Decoder) (a n : nat) (o : option nat) (x : Decoder) :
  quiet_chain h a n o -> quiet_chain (h ++ [x]) a n o.
Proof.
  induction 1 as [|n e d Hne Hl Hlen Hq IH]; [constructor|].
  econstructor; [exact Hne | | exact Hlen | exact IH].
  rewrite lookup_app_l by (eapply lookup_lt_Some; exact Hl). exact Hl.
Qed.

(** [Next] on a well-formed header of a child that fits. *)
Lemma Next_run (sf a : nat) (d : Decoder) (w : world)
  (id n : Z) (wi ws : nat) (t : list byte) :
  w_heap w !! a = Some d ->
  quiet_chain (w_heap w) a sf (d_elem d) ->
  int64_range (d_len d) ->
  encodable IdKind wi id ->
  encodable SizeKind ws n ->
  0 < n ->
  (0 < d_size d -> Z.of_nat wi + Z.of_nat ws <= d_len d /\ n <= d_size d) ->
  pending w = encode_vint IdKind wi id ++ encode_vint SizeKind ws n ++ t ->
  exists w',
    Next sf a w = (Ok (id, Some (length (w_heap w))), w') /\
    pending w' = t /\
    w_heap w' =
      <[a := with_elem
               (with_len d (wrap64 (wrap64 (wrap64 (d_len d - Z.of_nat wi) - Z.of_nat ws) - n)))
               (Some (length (w_heap w)))]> (w_heap w)
      ++ [mkDecoder (d_rs d) n n id None] /\
    w_cap w' = w_cap w /\
    rshape_eq w' (vint_advance (ws - 1) (vint_advance (wi - 1) w)).
Proof.
  intros Hl Hq Hr Hid Hsz Hn Hroom Hp.
  assert (Hlt : (a < length (w_heap w))%nat) by (eapply lookup_lt_Some; exact Hl).
  destruct (readVint_encoded IdKind wi id sf a d w
              (encode_vint SizeKind ws n ++ t) Hid Hl Hq Hr) as
    (w1 & Hr1 & Hp1 & Hh1 & Hc1 & Hs1); [intros Hs; specialize (Hroom Hs); lia | exact Hp |].
  set (d1 := with_len d (wrap64 (d_len d - Z.of_nat wi))) in *.
  assert (Hl1 : w_heap w1 !! a = Some d1).
  { rewrite Hh1. apply list_lookup_insert_eq. exact Hlt. }
  assert (Hq1 : quiet_chain (w_heap w1) a sf (d_elem d1)).
  { rewrite Hh1. apply quiet_chain_insert. exact Hq. }
  destruct (readVint_encoded SizeKind ws n sf a d1 w1 t Hsz Hl1 Hq1) as
    (w2 & Hr2 & Hp2 & Hh2 & Hc2 & Hs2).
  { apply wrap64_range. }
  { intros Hs. cbn in Hs. specialize (Hroom Hs). unfold d1. cbn.
    rewrite wrap64_id by (unfold int64_range in *; lia). lia. }
  { exact Hp1. }
  set (d2 := with_len d1 (wrap64 (d_len d1 - Z.of_nat ws))) in *.
  assert (Hl2 : w_heap w2 !! a = Some d2).
  { rewrite Hh2. apply list_lookup_insert_eq. rewrite Hh1, length_insert. exact Hlt. }
  assert (Hlen2 : length (w_heap w2) = length (w_heap w)).
  { rewrite Hh2, Hh1, !length_insert. reflexivity. }
  destruct Hid as [Hwi Hidr]. destruct Hsz as [Hws Hszr].
  assert (Hidpos : 0 < id).
  { eapply Z.lt_le_trans; [|apply Hidr]. apply Z.pow_pos_nonneg; lia. }
  assert (Hhead : Next_header sf a w = (Ok (id, n), w2)).
  { unfold Next_header.
    rewrite (bind_Ok _ _ _ _ _ (skip_quiet _ _ _ _ Hl Hq)).
    cbn [off_of] in Hr1, Hr2.
    rewrite (bind_Ok _ _ _ _ _ Hr1), (bind_Ok _ _ _ _ _ Hr2). reflexivity. }
  rewrite Next_split, (bind_Ok _ _ _ _ _ Hhead).
  rewrite (Next_open_child a id n d2 w2 Hl2).
  - eexists. split; [rewrite Hlen2; reflexivity|]. cbn [w_heap set_heap w_cap].
    split; [exact Hp2|]. split; [|split].
    + rewrite Hh2, Hh1, !list_insert_insert_eq. reflexivity.
    + rewrite Hc2. exact Hc1.
    + eapply rshape_eq_trans; [apply rshape_eq_set_heap|].
      eapply rshape_eq_trans; [exact Hs2|].
      apply vint_advance_shape. exact Hs1.
  - apply orb_false_iff. split; [apply Z.eqb_neq | apply Z.ltb_ge]; lia.
  - cbn. destruct (Z.ltb_spec 0 (d_size d)) as [Hs|Hs]; [|apply andb_false_r].
    rewrite andb_true_r. apply Z.ltb_ge. specialize (Hroom Hs). lia.
  - apply Z.eqb_neq. lia.
Qed.

(** ** A child whose id matches no field *)

(** [Next] on a well-formed header of an element of size 0. *)
Lemma Next_run_empty (sf a : nat) (d : Decoder) (w : world)
  (id : Z) (wi ws : nat) (t : list byte) :
  w_heap w !! a = Some d ->
  quiet_chain (w_heap w) a sf (d_elem d) ->
  int64_range (d_len d) ->
  encodable IdKind wi id ->
  encodable SizeKind ws 0 ->
  (0 < d_size d -> Z.of_nat wi + Z.of_nat ws <= d_len d) ->
  pending w = encode_vint IdKind wi id ++ encode_vint SizeKind ws 0 ++ t ->
  exists w',
    Next sf a w = (Ok (id, None), w') /\
    pending w' = t /\
    w_heap w' =
      <[a := with_len d (wrap64 (wrap64 (d_len d - Z.of_nat wi) - Z.of_nat ws))]> (w_heap w) /\
    w_cap w' = w_cap w /\
    rshape_eq w' (vint_advance (ws - 1) (vint_advance (wi - 1) w)).
Proof.
  intros Hl Hq Hr Hid Hsz Hroom Hp.
  assert (Hlt : (a < length (w_heap w))%nat) by (eapply lookup_lt_Some; exact Hl).
  destruct (readVint_encoded IdKind wi id sf a d w
              (encode_vint SizeKind ws 0 ++ t) Hid Hl Hq Hr) as
    (w1 & Hr1 & Hp1 & Hh1 & Hc1 & Hs1); [intros Hs; specialize (Hroom Hs); lia | exact Hp |].
  set (d1 := with_len d (wrap64 (d_len d - Z.of_nat wi))) in *.
  assert (Hl1 : w_heap w1 !! a = Some d1).
  { rewrite Hh1. apply list_lookup_insert_eq. exact Hlt. }
  assert (Hq1 : quiet_chain (w_heap w1) a sf (d_elem d1)).
  { rewrite Hh1. apply quiet_chain_insert. exact Hq. }
  destruct (readVint_encoded SizeKind ws 0 sf a d1 w1 t Hsz Hl1 Hq1) as
    (w2 & Hr2 & Hp2 & Hh2 & Hc2 & Hs2).
  { apply wrap64_range. }
  { intros Hs. cbn in Hs. specialize (Hroom Hs). unfold d1. cbn.
    rewrite wrap64_id by (unfold int64_range in *; lia). lia. }
  { exact Hp1. }
  set (d2 := with_len d1 (wrap64 (d_len d1 - Z.of_nat ws))) in *.
  assert (Hl2 : w_heap w2 !! a = Some d2).
  { rewrite Hh2. apply list_lookup_insert_eq. rewrite Hh1, length_insert. exact Hlt. }
  destruct Hid as [Hwi Hidr].
  assert (Hidpos : 0 < id).
  { eapply Z.lt_le_trans; [|apply Hidr]. apply Z.pow_pos_nonneg; lia. }
  assert (Hhead : Next_header sf a w = (Ok (id, 0), w2)).
  { unfold Next_header.
    rewrite (bind_Ok _ _ _ _ _ (skip_quiet _ _ _ _ Hl Hq)).
    cbn [off_of] in Hr1, Hr2.
    rewrite (bind_Ok _ _ _ _ _ Hr1), (bind_Ok _ _ _ _ _ Hr2). reflexivity. }
  rewrite Next_split, (bind_Ok _ _ _ _ _ Hhead).
  unfold Next_open.
  replace ((id =? 0) || (0 <? 0)) with false
    by (symmetry; apply orb_false_iff; split; [apply Z.eqb_neq; lia | reflexivity]).
  rewrite (bind_Ok _ _ _ _ _ (get_dec_Some _ _ _ Hl2)).
  replace ((d_size d2 <? 0) && (0 <? d_size d2)) with false
    by (symmetry; apply andb_false_iff; rewrite !Z.ltb_ge; lia).
  cbn [Z.eqb]. exists w2. split; [reflexivity|].
  split; [exact Hp2|]. split; [|split].
  - rewrite Hh2, Hh1, list_insert_insert_eq. reflexivity.
  - rewrite Hc2. exact Hc1.
  - eapply rshape_eq_trans; [exact Hs2|]. apply vint_advance_shape. exact Hs1.
Qed.

(** One turn of the loop on an element of unknown id whose bytes are
    there: the element is passed (a child is opened and skipped, unless
    the size is 0), the value is not touched, and the loop goes on behind
    it, from cursors and a reader shape that its header determines. *)
Lemma unknown_child_step (env : tenv) (sf fuel a : nat) (s : structInfo) (v : value)
  (d : Decoder) (w : world) (id n : Z) (wi ws : nat) (p t : list byte) :
  w_heap w !! a = Some d ->
  quiet_chain (w_heap w) a (S sf) (d_elem d) ->
  int64_range (d_len d) ->
  encodable IdKind wi id ->
  encodable SizeKind ws n ->
  (0 < d_size d -> Z.of_nat wi + Z.of_nat ws + n <= d_len d <= d_size d) ->
  si_ids s !! id = None ->
  length p = Z.to_nat n ->
  pending w = encode_vint IdKind wi id ++ encode_vint SizeKind ws n ++ p ++ t ->
  exists w' d',
    UnmarshalEBML_loop env (S sf) (S fuel) s v a w
    = UnmarshalEBML_loop env (S sf) fuel s v a w' /\
    pending w' = t /\
    w_heap w' = heap_after_unknown a d id n wi ws (w_heap w) /\
    rshape_eq w' (reader_after_unknown d id n wi ws w) /\
    w_heap w' !! a = Some d' /\
    quiet_chain (w_heap w') a (S sf) (d_elem d') /\
    int64_range (d_len d') /\
    d_size d' = d_size d /\
    (0 < d_size d -> d_len d' = d_len d - Z.of_nat wi - Z.of_nat ws - n).
Proof.
  intros Hl Hq Hr Hid Hsz Hroom Hunk Hlenp Hp.
  assert (Hn0 : 0 <= n) by (destruct Hsz as [_ ?]; lia).
  assert (Hlt : (a < length (w_heap w))%nat) by (eapply lookup_lt_Some; exact Hl).
  assert (HL : 0 < d_size d ->
               wrap64 (wrap64 (d_len d - Z.of_nat wi) - Z.of_nat ws)
               = d_len d - Z.of_nat wi - Z.of_nat ws).
  { intros Hs. specialize (Hroom Hs). unfold int64_range in Hr.
    rewrite (wrap64_id (d_len d - Z.of_nat wi)) by (unfold int64_range; lia).
    apply wrap64_id. unfold int64_range. lia. }
  unfold heap_after_unknown, reader_after_unknown.
  destruct (Z.eqb_spec n 0) as [->|Hnz].
  - destruct p; [|discriminate]. cbn [app] in Hp.
    destruct (Next_run_empty (S sf) a d w id wi ws t Hl Hq Hr Hid Hsz) as
      (w1 & HN & Hp1 & Hh1 & Hc1 & Hs1);
      [intros Hs; specialize (Hroom Hs); lia | exact Hp |].
    exists w1, (with_len d (wrap64 (wrap64 (d_len d - Z.of_nat wi) - Z.of_nat ws))).
    split; [rewrite UnmarshalEBML_loop_step, HN; reflexivity|].
    split; [exact Hp1|]. split; [exact Hh1|]. split; [exact Hs1|].
    split; [rewrite Hh1; apply list_lookup_insert_eq; exact Hlt|].
    split; [rewrite Hh1; apply quiet_chain_insert; exact Hq|].
    split; [apply wrap64_range|]. split; [reflexivity|].
    intros Hs. cbn. rewrite (HL Hs). lia.
  - assert (Hn : 0 < n) by lia.
    destruct (Next_run (S sf) a d w id n wi ws (p ++ t) Hl Hq Hr Hid Hsz Hn)
      as (w1 & HN & Hp1 & Hh1 & Hc1 & Hs1);
      [intros Hs; specialize (Hroom Hs); lia | exact Hp |].
    set (c := length (w_heap w)) in *.
    set (child := mkDecoder (d_rs d) n n id None) in *.
    assert (Hlc : w_heap w1 !! c = Some child).
    { rewrite Hh1. rewrite lookup_app_r by (rewrite length_insert; unfold c; lia).
      rewrite length_insert. unfold c. rewrite Nat.sub_diag. reflexivity. }
    destruct (Skip_run sf c child w1 Hlc) as (w2 & HS & Hp2 & Hh2 & Hc2 & Hs2).
    { cbn. constructor. }
    { cbn. rewrite Hp1, length_app. lia. }
    set (d' := with_elem
                 (with_len d (wrap64 (wrap64 (wrap64 (d_len d - Z.of_nat wi) - Z.of_nat ws) - n)))
                 (Some c)) in *.
    assert (Hla : w_heap w2 !! a = Some d').
    { rewrite Hh2, Hh1, list_lookup_insert_ne by lia.
      rewrite lookup_app_l by (rewrite length_insert; exact Hlt).
      apply list_lookup_insert_eq. exact Hlt. }
    assert (Hlc2 : w_heap w2 !! c = Some (with_len child 0)).
    { rewrite Hh2. apply list_lookup_insert_eq. eapply lookup_lt_Some. exact Hlc. }
    exists w2, d'.
    split; [rewrite UnmarshalEBML_loop_step, HN, Hunk, HS; reflexivity|].
    split.
    { rewrite Hp2, Hp1. cbn [d_len child].
      rewrite drop_app_length' by (symmetry; exact Hlenp). reflexivity. }
    split; [rewrite Hh2, Hh1; reflexivity|].
    split; [eapply rshape_eq_trans; [exact Hs2|]; apply skip_advance_shape; exact Hs1|].
    split; [exact Hla|].
    split.
    { cbn [d' with_elem d_elem]. eapply quiet_cons; [lia | exact Hlc2 | cbn; lia |].
      cbn. constructor. }
    split; [apply wrap64_range|]. split; [reflexivity|].
    intros Hs. cbn. rewrite (HL Hs). specialize (Hroom Hs). unfold int64_range in Hr.
    rewrite wrap64_id by (unfold int64_range; lia). lia.
Qed.

Lemma length_encode_vint (k : vkind) (width : nat) (x : Z) :
  length (encode_vint k width x) = width.
Proof. destruct k; apply length_be_bytes. Qed.

Lemma length_encode_elem (e : raw_elem) :
  Z.of_nat (length (encode_elem e))
  = Z.of_nat (re_wi e) + Z.of_nat (re_ws e) + Z.of_nat (length (re_payload e)).
Proof.
  unfold encode_elem. rewrite !length_app, !length_encode_vint. lia.
Qed.

(** [Next] at the end of the input. *)
Lemma Next_eof (sf a : nat) (d : Decoder) (w : world) :
  w_heap w !! a = Some d ->
  quiet_chain (w_heap w) a sf (d_elem d) ->
  pending w = [] ->
  exists w', Next sf a w = (Err EOF, w').
Proof.
  intros Hl Hq Hp. unfold Next.
  rewrite (bind_Ok _ _ _ _ _ (skip_quiet _ _ _ _ Hl Hq)).
  assert (Hrv : exists w', readVint sf a 0 w = (Err EOF, w')).
  { unfold readVint.
    rewrite (bind_Ok _ _ _ _ _ (skip_quiet _ _ _ _ Hl Hq)).
    rewrite (bind_Ok _ _ _ _ _ (get_dec_Some _ _ _ Hl)).
    destruct ((d_len d <? 1) && (0 <? d_size d)); [exists w; reflexivity|].
    destruct (ReadByte_nil w Hp) as (w' & Hrb & _).
    exists w'. rewrite (bind_Err _ _ _ _ _ Hrb). reflexivity. }
  destruct Hrv as (w' & Hrv). exists w'. rewrite (bind_Err _ _ _ _ _ Hrv). reflexivity.
Qed.

Lemma reader_after_unknown_shape (d : Decoder) (id size : Z) (wi ws : nat)
  (w1 w2 : world) :
  rshape_eq w1 w2 ->
  rshape_eq (reader_after_unknown d id size wi ws w1)
            (reader_after_unknown d id size wi ws w2).
Proof.
  intros H. unfold reader_after_unknown.
  destruct (size =? 0); [|apply skip_advance_shape];
    apply vint_advance_shape, vint_advance_shape; exact H.
Qed.

(** The loop over a run of elements of unknown ids, on two streams that
    differ in the payloads only: both runs come out behind the elements
    in one and the same state, the value untouched. *)
Lemma unknown_children_coupled (env : tenv) (sf a : nat) (s : structInfo) (v : value)
  (t : list byte) (es1 es2 : list raw_elem) :
  Forall2 same_header es1 es2 ->
  Forall (unknown_elem s) es1 ->
  Forall (unknown_elem s) es2 ->
  forall (fuel : nat) (d : Decoder) (w1 w2 : world),
    w_heap w1 !! a = Some d ->
    quiet_chain (w_heap w1) a (S sf) (d_elem d) ->
    int64_range (d_len d) ->
    w_heap w2 = w_heap w1 ->
    rshape_eq w1 w2 ->
    (0 < d_size d -> Z.of_nat (length (encode_elems es1)) <= d_len d <= d_size d) ->
    pending w1 = encode_elems es1 ++ t ->
    pending w2 = encode_elems es2 ++ t ->
    exists w' d',
      pending w' = t /\
      w_heap w' !! a = Some d' /\
      quiet_chain (w_heap w') a (S sf) (d_elem d') /\
      UnmarshalEBML_loop env (S sf) (length es1 + fuel) s v a w1
      = UnmarshalEBML_loop env (S sf) fuel s v a w' /\
      UnmarshalEBML_loop env (S sf) (length es1 + fuel) s v a w2
      = UnmarshalEBML_loop env (S sf) fuel s v a w'.
Proof.
  induction 1 as [|e1 e2 r1 r2 Hsame Hrest IH];
    intros Hu1 Hu2 fuel d w1 w2 Hl Hq Hr Hh Hshape Hroom Hp1 Hp2.
  - cbn in Hp1, Hp2. assert (w1 = w2) as <-.
    { apply world_eq; [symmetry; exact Hh | congruence | exact Hshape]. }
    exists w1, d. repeat split; assumption.
  - apply Forall_cons in Hu1 as [(Hid & Hsz & Hlen1 & Hunk) Hu1].
    apply Forall_cons in Hu2 as [(_ & _ & Hlen2 & _) Hu2].
    destruct Hsame as (Eid & Ewi & Esz & Ews).
    unfold encode_elems in Hp1, Hp2, Hroom. cbn [map concat] in Hp1, Hp2, Hroom.
    fold (encode_elems r1) in Hp1, Hroom. fold (encode_elems r2) in Hp2.
    unfold encode_elem in Hp1, Hp2. rewrite <- !app_assoc in Hp1, Hp2.
    rewrite <- Eid, <- Ewi, <- Esz, <- Ews in Hp2. rewrite <- Esz in Hlen2.
    assert (Hn0 : 0 <= re_size e1) by (destruct Hsz as [_ ?]; lia).
    assert (Hroom1 : 0 < d_size d ->
                     Z.of_nat (re_wi e1) + Z.of_nat (re_ws e1) + re_size e1
                     <= d_len d <= d_size d).
    { intros Hs. specialize (Hroom Hs).
      rewrite length_app, Nat2Z.inj_add, length_encode_elem, Hlen1 in Hroom. lia. }
    destruct (unknown_child_step env sf (length r1 + fuel) a s v d w1
                (re_id e1) (re_size e1) (re_wi e1) (re_ws e1) (re_payload e1)
                (encode_elems r1 ++ t) Hl Hq Hr Hid Hsz Hroom1 Hunk Hlen1 Hp1)
      as (u1 & d' & E1 & Hpu1 & Hhu1 & Hsu1 & Hla & Hqa & Hra & Hsa & Hlena).
    assert (Hl2 : w_heap w2 !! a = Some d) by (rewrite Hh; exact Hl).
    assert (Hq2 : quiet_chain (w_heap w2) a (S sf) (d_elem d)) by (rewrite Hh; exact Hq).
    destruct (unknown_child_step env sf (length r1 + fuel) a s v d w2
                (re_id e1) (re_size e1) (re_wi e1) (re_ws e1) (re_payload e2)
                (encode_elems r2 ++ t) Hl2 Hq2 Hr Hid Hsz Hroom1 Hunk Hlen2 Hp2)
      as (u2 & d2' & E2 & Hpu2 & Hhu2 & Hsu2 & _).
    rewrite Hh in Hhu2.
    destruct (IH Hu1 Hu2 fuel d' u1 u2) as (w' & df & Hpw & Hlw & Hqw & F1 & F2).
    + exact Hla.
    + exact Hqa.
    + exact Hra.
    + rewrite Hhu1, Hhu2. reflexivity.
    + eapply rshape_eq_trans; [exact Hsu1|].
      eapply rshape_eq_trans; [|apply rshape_eq_sym; exact Hsu2].
      apply reader_after_unknown_shape. exact Hshape.
    + rewrite Hsa. intros Hs. specialize (Hroom Hs). rewrite (Hlena Hs).
      rewrite length_app, Nat2Z.inj_add, length_encode_elem, Hlen1 in Hroom. lia.
    + exact Hpu1.
    + exact Hpu2.
    + exists w', df. split; [exact Hpw|]. split; [exact Hlw|]. split; [exact Hqw|].
      cbn [length Nat.add]. rewrite E1, E2. split; assumption.
Qed.

(** X25.  At any turn of the decoding loop of a container, take two
    streams that hold, from here on, the same run of child elements whose
    ids match no field descriptor, with well-formed headers and valid
    declared sizes, and that differ in the payload bytes of these
    children only, and then go on with the same bytes.  Decoding gives
    the same result on both: value tree, outcome and final state.  The
    children are skipped without error and the value is not touched, the
    loop going on behind them from one and the same state; when nothing
    follows them, decoding ends without error with the value as it was. *)
Theorem unknown_payload_not_inspected (env : tenv) (sf fuel a : nat) (s : structInfo)
  (v : value) (d : Decoder) (w1 w2 : world) (es1 es2 : list raw_elem) (t : list byte) :
  Forall2 same_header es1 es2 ->
  Forall (unknown_elem s) es1 ->
  Forall (unknown_elem s) es2 ->
  w_heap w1 !! a = Some d ->
  quiet_chain (w_heap w1) a (S sf) (d_elem d) ->
  int64_range (d_len d) ->
  w_heap w2 = w_heap w1 ->
  rshape_eq w1 w2 ->
  (0 < d_size d -> Z.of_nat (length (encode_elems es1)) <= d_len d <= d_size d) ->
  pending w1 = encode_elems es1 ++ t ->
  pending w2 = encode_elems es2 ++ t ->
  UnmarshalEBML_loop env (S sf) (length es1 + fuel) s v a w1
  = UnmarshalEBML_loop env (S sf) (length es1 + fuel) s v a w2 /\
  (exists w',
     pending w' = t /\
     UnmarshalEBML_loop env (S sf) (length es1 + fuel) s v a w1
     = UnmarshalEBML_loop env (S sf) fuel s v a w' /\
     UnmarshalEBML_loop env (S sf) (length es1 + fuel) s v a w2
     = UnmarshalEBML_loop env (S sf) fuel s v a w') /\
  (t = [] -> fuel <> 0%nat ->
   fst (UnmarshalEBML_loop env (S sf) (length es1 + fuel) s v a w1) = (v, Ok tt) /\
   fst (UnmarshalEBML_loop env (S sf) (length es1 + fuel) s v a w2) = (v, Ok tt)).
Proof.
  intros Hsame Hu1 Hu2 Hl Hq Hr Hh Hshape Hroom Hp1 Hp2.
  destruct (unknown_children_coupled env sf a s v t es1 es2 Hsame Hu1 Hu2
              fuel d w1 w2 Hl Hq Hr Hh Hshape Hroom Hp1 Hp2)
    as (w' & d' & Hpw & Hlw & Hqw & E1 & E2).
  split; [rewrite E1, E2; reflexivity|]. split.
  - exists w'. split; [exact Hpw|]. split; assumption.
  - intros Ht Hfuel. rewrite Ht in Hpw. destruct fuel as [|fuel]; [congruence|].
    destruct (Next_eof (S sf) a d' w' Hlw Hqw Hpw) as (wf & HN).
    rewrite E1, E2, UnmarshalEBML_loop_step, HN. cbn. split; reflexivity.
Qed.

Lemma unknown_payload_not_inspected_witness :
  let s := match newStructInfo example_env Outer_zero with
           | Ok s => s
           | _ => mkStructInfo [] ∅
           end in
  let run := fun p q : list byte =>
    UnmarshalEBML_loop example_env 1 4 s Outer_zero 0
      (NewDecoder true 0 16
         ([xec; x83] ++ p ++ [xbf; x84] ++ q ++ [x83; x81; x2a])) in
  run [x00; x00; x00] [x00; x00; x00; x00] = run [x83; x81; x07] [xa0; x82; x81; x01] /\
  dec_value (run [x83; x81; x07] [xa0; x82; x81; x01])
  = VStruct "Outer" [VPtr (TStruct "Inner") None; VInt Kword 42; VSlice (TInt K64) []].
Proof.
  intros s run. split.
  - apply (unknown_payload_not_inspected example_env 0 2 0 s Outer_zero
             (mkDecoder true 0 0 0 None) _ _
             [mkRawElem 0xEC 1 3 1 [x00; x00; x00];
              mkRawElem 0xBF 1 4 1 [x00; x00; x00; x00]]
             [mkRawElem 0xEC 1 3 1 [x83; x81; x07];
              mkRawElem 0xBF 1 4 1 [xa0; x82; x81; x01]]
             [x83; x81; x2a]);
      try reflexivity; try (constructor; fail);
      try (unfold int64_range; cbn; lia).
    + repeat constructor.
    + repeat constructor; try (cbn; lia); vm_compute; reflexivity.
    + repeat constructor; try (cbn; lia); vm_compute; reflexivity.
    + repeat split.
  - vm_compute. reflexivity.
Defined.

(** ** The primitive readers on the bytes of a payload *)

Lemma wrap64_mod (x : Z) : wrap64 x = x - 2 ^ 64 * ((x + 2 ^ 63) / 2 ^ 64).
Proof.
  unfold wrap64. rewrite Z.mod_eq by lia. ring.
Qed.

Lemma wrap64_congr (x y k : Z) : x = y + 2 ^ 64 * k -> wrap64 x = wrap64 y.
Proof.
  intros ->. unfold wrap64.
  replace (y + 2 ^ 64 * k + 2 ^ 63) with (y + 2 ^ 63 + k * 2 ^ 64) by ring.
  rewrite Z.mod_add by lia. reflexivity.
Qed.

Lemma shift_in_wrap (v : Z) (it : byte) :
  shift_in v it = wrap64 (v * 256 + byte_to_Z it).
Proof.
  unfold shift_in. rewrite Z.shiftl_mul_pow2 by lia. change (2 ^ 8) with 256.
  assert (E : wrap64 (v * 256) = ((v + 2 ^ 55) mod 2 ^ 56 - 2 ^ 55) * 256).
  { unfold wrap64.
    replace (v * 256 + 2 ^ 63) with (256 * (v + 2 ^ 55)) by (change (2 ^ 63) with (256 * 2 ^ 55); ring).
    change (2 ^ 64) with (256 * 2 ^ 56).
    rewrite Z.mul_mod_distr_l by lia. change (2 ^ 63) with (256 * 2 ^ 55). ring. }
  pose proof (byte_to_Z_range it) as Hb.
  rewrite E, lor_low_byte by exact Hb.
  pose proof (Z.mod_pos_bound (v + 2 ^ 55) (2 ^ 56) ltac:(lia)).
  rewrite <- (wrap64_id (_ * 256 + byte_to_Z it)) by (unfold int64_range; lia).
  rewrite <- E.
  apply (wrap64_congr _ _ (- ((v * 256 + 2 ^ 63) / 2 ^ 64))).
  rewrite (wrap64_mod (v * 256)). ring.
Qed.

Lemma shift_bytes_wrap (b : list byte) (v : Z) :
  int64_range v ->
  shift_bytes v b = wrap64 (v * 256 ^ Z.of_nat (length b) + be_uint b).
Proof.
  revert v. induction b as [|x b IH]; intros v Hv.
  - unfold shift_bytes, be_uint. cbn [fold_left length]. change (Z.of_nat 0) with 0.
    rewrite Z.pow_0_r, Z.mul_1_r, Z.add_0_r, wrap64_id by exact Hv. reflexivity.
  - unfold shift_bytes. cbn [fold_left]. fold (shift_bytes (shift_in v x) b).
    rewrite IH by apply shift_in_range.
    rewrite shift_in_wrap, be_uint_cons.
    cbn [length]. rewrite Nat2Z.inj_succ, Z.pow_succ_r by lia.
    apply (wrap64_congr _ _ (- ((v * 256 + byte_to_Z x + 2 ^ 63) / 2 ^ 64) * 256 ^ Z.of_nat (length b))).
    rewrite (wrap64_mod (v * 256 + byte_to_Z x)). ring.
Qed.

Lemma be_uint_zero (b : list byte) :
  be_uint b = 0 <-> forallb (fun x => byte_to_Z x =? 0) b = true.
Proof.
  induction b as [|x b IH].
  - cbn. tauto.
  - rewrite be_uint_cons. cbn [forallb]. rewrite andb_true_iff, Z.eqb_eq, <- IH.
    pose proof (byte_to_Z_range x). pose proof (be_uint_range b).
    assert (0 < 256 ^ Z.of_nat (length b)) by (apply Z.pow_pos_nonneg; lia).
    split; [nia | intros [-> ->]; lia].
Qed.

Lemma pow256_le (n : Z) : 0 <= n <= 8 -> 0 < 256 ^ n <= 2 ^ 64.
Proof.
  intros H. change 256 with (2 ^ 8). rewrite <- Z.pow_mul_r by lia.
  split; [apply Z.pow_pos_nonneg; lia|]. apply Z.pow_le_mono_r; lia.
Qed.

(** [ReadInt] on a cursor that has its bytes. *)
Lemma ReadInt_run (fuel a : nat) (d : Decoder) (w : world) :
  w_heap w !! a = Some d ->
  quiet_chain (w_heap w) a fuel (d_elem d) ->
  1 <= d_len d <= 8 ->
  d_len d <= Z.of_nat (length (pending w)) ->
  exists w',
    ReadInt fuel a w
    = (Ok (wrap64 (be_uint (take (Z.to_nat (d_len d)) (pending w)))), w') /\
    pending w' = drop (Z.to_nat (d_len d)) (pending w) /\
    w_heap w' = <[a := with_len d 0]> (w_heap w) /\
    w_cap w' = w_cap w.
Proof.
  intros Hl Hq Hn Hp. unfold ReadInt.
  rewrite (bind_Ok _ _ _ _ _ (skip_quiet _ _ _ _ Hl Hq)).
  rewrite (bind_Ok _ _ _ _ _ (get_dec_Some _ _ _ Hl)).
  replace ((d_len d <? 1) || (8 <? d_len d)) with false
    by (symmetry; apply orb_false_iff; rewrite !Z.ltb_ge; lia).
  set (n := Z.to_nat (d_len d)).
  pose proof (cap_ge_16 w) as Hcap.
  destruct (Peek_ok n w) as (w1 & HP & Hp1 & Hs1 & Hc1); [lia | lia |].
  rewrite (bind_Ok _ _ _ _ _ HP).
  destruct (Discard_ok (Z.of_nat n) w1) as (w2 & HD & Hp2 & Hs2 & Hc2); [rewrite Hp1; lia|].
  rewrite (bind_Ok _ _ _ _ _ HD).
  assert (Hl2 : w_heap w2 !! a = Some d) by (rewrite Hs2, Hs1; exact Hl).
  rewrite (bind_Ok _ _ _ _ _ (set_len_Some a 0 d w2 Hl2)).
  eexists. split.
  - unfold ret. rewrite shift_bytes_wrap by (unfold int64_range; lia).
    rewrite Z.mul_0_l, Z.add_0_l. reflexivity.
  - split; [rewrite pending_set_heap, Hp2, Hp1, Nat2Z.id; reflexivity|].
    split; [cbn; rewrite Hs2, Hs1; reflexivity|].
    cbn. rewrite Hc2, Hc1. reflexivity.
Qed.

(** X1.  [ReadInt] on an element of 1 to 8 bytes whose bytes are in the
    stream returns its payload read as a big-endian number, consumes
    exactly the payload and leaves no byte remaining.  A payload shorter
    than 8 bytes is read as unsigned (there is no sign extension); one of 8
    bytes is the two's complement [int64]. *)
Theorem ReadInt_reads_big_endian (fuel a : nat) (d : Decoder) (w : world) :
  w_heap w !! a = Some d ->
  quiet_chain (w_heap w) a fuel (d_elem d) ->
  1 <= d_len d <= 8 ->
  d_len d <= Z.of_nat (length (pending w)) ->
  exists w',
    ReadInt fuel a w
    = (Ok (wrap64 (be_uint (take (Z.to_nat (d_len d)) (pending w)))), w') /\
    (d_len d < 8 ->
     wrap64 (be_uint (take (Z.to_nat (d_len d)) (pending w)))
     = be_uint (take (Z.to_nat (d_len d)) (pending w)) /\
     0 <= be_uint (take (Z.to_nat (d_len d)) (pending w)) < 2 ^ (8 * d_len d)) /\
    pending w' = drop (Z.to_nat (d_len d)) (pending w) /\
    w_heap w' = <[a := with_len d 0]> (w_heap w).
Proof.
  intros Hl Hq Hn Hp.
  destruct (ReadInt_run fuel a d w Hl Hq Hn Hp) as (w' & H & Hp' & Hh' & _).
  exists w'. split; [exact H|]. split; [|split; assumption].
  intros H8.
  pose proof (be_uint_range (take (Z.to_nat (d_len d)) (pending w))) as Hr.
  rewrite length_take, Nat.min_l, Z2Nat.id in Hr by lia.
  change 256 with (2 ^ 8) in Hr. rewrite <- Z.pow_mul_r in Hr by lia.
  assert (2 ^ (8 * d_len d) <= 2 ^ 56) by (apply Z.pow_le_mono_r; lia).
  split; [|exact Hr]. apply wrap64_id. unfold int64_range. lia.
Qed.

Lemma ReadInt_reads_big_endian_witness :
  fst (ReadInt 0 0 (mkWorld [mkDecoder false 2 2 0xD7 None] [] [xff; xfe; x01] 4096))
  = Ok 65534.
Proof.
  destruct (ReadInt_reads_big_endian 0 0 (mkDecoder false 2 2 0xD7 None)
              (mkWorld [mkDecoder false 2 2 0xD7 None] [] [xff; xfe; x01] 4096)
              eq_refl (quiet_nil _ _ _))
    as (w' & H & _); [cbn; lia | cbn; lia |].
  rewrite H. reflexivity.
Defined.

(** X2.  [ReadInt] inverts the big-endian encoding: on the [n] bytes of
    [x], most significant first, it returns [x], for every unsigned [x]
    that fits [n <= 7] bytes and for every [int64] written on 8 bytes. *)
Theorem ReadInt_roundtrip (fuel a n : nat) (x : Z) (d : Decoder) (w : world)
  (t : list byte) :
  w_heap w !! a = Some d ->
  quiet_chain (w_heap w) a fuel (d_elem d) ->
  (1 <= n <= 8)%nat ->
  d_len d = Z.of_nat n ->
  (if (n <? 8)%nat then 0 <= x < 2 ^ (8 * Z.of_nat n) else int64_range x) ->
  pending w = be_bytes n x ++ t ->
  exists w',
    ReadInt fuel a w = (Ok x, w') /\
    pending w' = t /\
    w_heap w' = <[a := with_len d 0]> (w_heap w).
Proof.
  intros Hl Hq Hn Hd Hx Hp.
  destruct (ReadInt_run fuel a d w Hl Hq) as (w' & H & Hp' & Hh' & _).
  { lia. }
  { rewrite Hp, length_app, length_be_bytes. lia. }
  rewrite Hd, Nat2Z.id in H, Hp'. rewrite Hp in H, Hp'.
  rewrite take_app_length' in H by (symmetry; apply length_be_bytes).
  rewrite drop_app_length' in Hp' by (symmetry; apply length_be_bytes).
  exists w'. split; [|split; assumption]. rewrite H. do 2 f_equal.
  rewrite be_uint_be_bytes.
  destruct (Nat.ltb_spec n 8) as [H8|H8].
  - rewrite Z.mod_small by exact Hx.
    assert (2 ^ (8 * Z.of_nat n) <= 2 ^ 56) by (apply Z.pow_le_mono_r; lia).
    apply wrap64_id. unfold int64_range. lia.
  - assert (n = 8%nat) as -> by lia. change (8 * Z.of_nat 8) with 64.
    unfold int64_range in Hx. unfold wrap64.
    destruct (Z.neg_nonneg_cases x) as [Hneg|Hpos].
    + replace x with (x + 2 ^ 64 + (-1) * 2 ^ 64) at 1 by ring.
      rewrite Z.mod_add by lia. rewrite (Z.mod_small (x + 2 ^ 64)) by lia.
      replace (x + 2 ^ 64 + 2 ^ 63) with (x + 2 ^ 63 + 1 * 2 ^ 64) by ring.
      rewrite Z.mod_add by lia. rewrite Z.mod_small by lia. ring.
    + rewrite (Z.mod_small x) by lia. rewrite Z.mod_small by lia. ring.
Qed.

Lemma ReadInt_roundtrip_witness :
  fst (ReadInt 0 0 (mkWorld [mkDecoder false 8 8 0xFB None] [] (be_bytes 8 (-2) ++ [x00]) 4096))
  = Ok (-2).
Proof.
  destruct (ReadInt_roundtrip 0 0 8 (-2) (mkDecoder false 8 8 0xFB None)
              (mkWorld [mkDecoder false 8 8 0xFB None] [] (be_bytes 8 (-2) ++ [x00]) 4096)
              [x00] eq_refl (quiet_nil _ _ _))
    as (w' & H & _);
    [lia | reflexivity | unfold int64_range; cbn; lia | reflexivity |].
  rewrite H. reflexivity.
Defined.

(** X3.  The error cases of [ReadInt].  An element of no byte or of more
    than 8 bytes is a format error, and nothing is consumed.  When the
    stream ends inside the payload the error is [io.EOF]; no byte is
    consumed and the remaining count is left as it was. *)
Theorem ReadInt_errors (fuel a : nat) (d : Decoder) (w : world) :
  w_heap w !! a = Some d ->
  quiet_chain (w_heap w) a fuel (d_elem d) ->
  (d_len d < 1 \/ 8 < d_len d -> ReadInt fuel a w = (Err ErrFormat, w)) /\
  (1 <= d_len d <= 8 -> Z.of_nat (length (pending w)) < d_len d ->
   exists w',
     ReadInt fuel a w = (Err EOF, w') /\
     pending w' = pending w /\ w_heap w' = w_heap w).
Proof.
  intros Hl Hq. unfold ReadInt.
  rewrite (bind_Ok _ _ _ _ _ (skip_quiet _ _ _ _ Hl Hq)).
  rewrite (bind_Ok _ _ _ _ _ (get_dec_Some _ _ _ Hl)).
  split.
  - intros H.
    replace ((d_len d <? 1) || (8 <? d_len d)) with true; [reflexivity|].
    symmetry. apply orb_true_iff. rewrite !Z.ltb_lt. exact H.
  - intros Hn Hp.
    replace ((d_len d <? 1) || (8 <? d_len d)) with false
      by (symmetry; apply orb_false_iff; rewrite !Z.ltb_ge; lia).
    pose proof (cap_ge_16 w) as Hcap.
    destruct (Peek_short (Z.to_nat (d_len d)) w) as (w1 & HP & Hp1 & Hs1 & _); [lia | lia |].
    exists w1. rewrite (bind_Err _ _ _ _ _ HP). repeat split; assumption.
Qed.

Lemma ReadInt_errors_witness :
  fst (ReadInt 0 0 (mkWorld [mkDecoder false 9 9 0xD7 None] [] [x01] 4096)) = Err ErrFormat /\
  fst (ReadInt 0 0 (mkWorld [mkDecoder false 2 2 0xD7 None] [] [x01] 4096)) = Err EOF.
Proof.
  split.
  - destruct (ReadInt_errors 0 0 (mkDecoder false 9 9 0xD7 None)
                (mkWorld [mkDecoder false 9 9 0xD7 None] [] [x01] 4096)
                eq_refl (quiet_nil _ _ _)) as [H _].
    rewrite H; [reflexivity | right; cbn; lia].
  - destruct (ReadInt_errors 0 0 (mkDecoder false 2 2 0xD7 None)
                (mkWorld [mkDecoder false 2 2 0xD7 None] [] [x01] 4096)
                eq_refl (quiet_nil _ _ _)) as [_ H].
    destruct H as (w' & H & _); [cbn; lia | cbn; lia |].
    rewrite H. reflexivity.
Defined.

(** X4.  [ReadBool] on an element of 1 to 8 bytes returns false exactly
    when every byte of the payload is zero, and consumes the payload. *)
Theorem ReadBool_false_iff_all_zero (fuel a : nat) (d : Decoder) (w : world) :
  w_heap w !! a = Some d ->
  quiet_chain (w_heap w) a fuel (d_elem d) ->
  1 <= d_len d <= 8 ->
  d_len d <= Z.of_nat (length (pending w)) ->
  exists w',
    ReadBool fuel a w
    = (Ok (negb (forallb (fun x => byte_to_Z x =? 0)
                   (take (Z.to_nat (d_len d)) (pending w)))), w') /\
    pending w' = drop (Z.to_nat (d_len d)) (pending w) /\
    w_heap w' = <[a := with_len d 0]> (w_heap w).
Proof.
  intros Hl Hq Hn Hp.
  destruct (ReadInt_run fuel a d w Hl Hq Hn Hp) as (w' & H & Hp' & Hh' & _).
  exists w'. split; [|split; assumption].
  unfold ReadBool. rewrite (bind_Ok _ _ _ _ _ H). unfold ret. do 3 f_equal.
  set (p := take (Z.to_nat (d_len d)) (pending w)).
  pose proof (be_uint_range p) as Hr.
  assert (Hlen : length p = Z.to_nat (d_len d)) by (unfold p; rewrite length_take; lia).
  pose proof (pow256_le (Z.of_nat (length p)) ltac:(lia)) as Hpow.
  destruct (forallb _ p) eqn:E.
  - apply be_uint_zero in E. rewrite E. reflexivity.
  - apply Z.eqb_neq. intros H0.
    assert (be_uint p <> 0) as Hnz.
    { intros Hz. apply be_uint_zero in Hz. congruence. }
    unfold wrap64 in H0.
    destruct (Z.lt_ge_cases (be_uint p) (2 ^ 63)) as [Hlo|Hhi].
    + rewrite Z.mod_small in H0 by lia. lia.
    + replace (be_uint p + 2 ^ 63) with (be_uint p - 2 ^ 63 + 1 * 2 ^ 64) in H0 by ring.
      rewrite Z.mod_add, Z.mod_small in H0 by lia. lia.
Qed.

Lemma ReadBool_false_iff_all_zero_witness :
  fst (ReadBool 0 0 (mkWorld [mkDecoder false 2 2 0x88 None] [] [x00; x00; x01] 4096)) = Ok false /\
  fst (ReadBool 0 0 (mkWorld [mkDecoder false 2 2 0x88 None] [] [x00; x02; x00] 4096)) = Ok true.
Proof.
  split.
  - destruct (ReadBool_false_iff_all_zero 0 0 (mkDecoder false 2 2 0x88 None)
                (mkWorld [mkDecoder false 2 2 0x88 None] [] [x00; x00; x01] 4096)
                eq_refl (quiet_nil _ _ _)) as (w' & H & _); [cbn; lia | cbn; lia |].
    rewrite H. reflexivity.
  - destruct (ReadBool_false_iff_all_zero 0 0 (mkDecoder false 2 2 0x88 None)
                (mkWorld [mkDecoder false 2 2 0x88 None] [] [x00; x02; x00] 4096)
                eq_refl (quiet_nil _ _ _)) as (w' & H & _); [cbn; lia | cbn; lia |].
    rewrite H. reflexivity.
Defined.

(** X5.  [ReadFloat] takes elements of 4 or 8 bytes only: any other
    length, 0 included, is a format error and nothing is consumed.  On 4
    bytes it returns the single-precision number with the big-endian bit
    pattern of the payload, on 8 bytes the double-precision one; the
    payload is consumed. *)
Theorem ReadFloat_widths (fuel a : nat) (d : Decoder) (w : world) :
  w_heap w !! a = Some d ->
  quiet_chain (w_heap w) a fuel (d_elem d) ->
  (d_len d <> 4 -> d_len d <> 8 -> ReadFloat fuel a w = (Err ErrFormat, w)) /\
  (d_len d = 4 \/ d_len d = 8 ->
   d_len d <= Z.of_nat (length (pending w)) ->
   exists w',
     ReadFloat fuel a w
     = (Ok (if d_len d =? 4 then F32frombits (be_uint (take 4 (pending w)))
            else F64frombits (be_uint (take 8 (pending w)))), w') /\
     pending w' = drop (Z.to_nat (d_len d)) (pending w) /\
     w_heap w' = <[a := with_len d 0]> (w_heap w)).
Proof.
  intros Hl Hq. unfold ReadFloat.
  rewrite (bind_Ok _ _ _ _ _ (skip_quiet _ _ _ _ Hl Hq)).
  rewrite (bind_Ok _ _ _ _ _ (get_dec_Some _ _ _ Hl)).
  pose proof (cap_ge_16 w) as Hcap.
  split.
  - intros H4 H8.
    apply Z.eqb_neq in H4, H8. rewrite H4, H8. reflexivity.
  - intros Hn Hp.
    assert (Hstep : forall (n : nat) (mk : Z -> float64),
              d_len d = Z.of_nat n -> (n <= 16)%nat ->
              exists w',
                (let* v := (let* b := Peek n in ret (mk (be_uint b))) in
                 Discard (d_len d) >> set_len a 0 >> ret v) w
                = (Ok (mk (be_uint (take n (pending w)))), w') /\
                pending w' = drop (Z.to_nat (d_len d)) (pending w) /\
                w_heap w' = <[a := with_len d 0]> (w_heap w)).
    { intros n mk Hd Hn16.
      destruct (Peek_ok n w) as (w1 & HP & Hp1 & Hs1 & Hc1); [lia | lia |].
      assert (HP' : (let* b := Peek n in ret (mk (be_uint b))) w
                    = (Ok (mk (be_uint (take n (pending w)))), w1)).
      { rewrite (bind_Ok _ _ _ _ _ HP). reflexivity. }
      rewrite (bind_Ok _ _ _ _ _ HP').
      destruct (Discard_ok (d_len d) w1) as (w2 & HD & Hp2 & Hs2 & Hc2); [rewrite Hp1; lia|].
      rewrite (bind_Ok _ _ _ _ _ HD).
      assert (Hl2 : w_heap w2 !! a = Some d) by (rewrite Hs2, Hs1; exact Hl).
      rewrite (bind_Ok _ _ _ _ _ (set_len_Some a 0 d w2 Hl2)).
      eexists. split; [reflexivity|].
      split; [rewrite pending_set_heap, Hp2, Hp1; reflexivity|].
      cbn. rewrite Hs2, Hs1. reflexivity. }
    destruct Hn as [E|E]; rewrite E in *; cbn [Z.eqb Pos.eqb].
    + apply (Hstep 4%nat F32frombits); [reflexivity | lia].
    + apply (Hstep 8%nat F64frombits); [reflexivity | lia].
Qed.

Lemma ReadFloat_widths_witness :
  fst (ReadFloat 0 0 (mkWorld [mkDecoder false 0 1 0xB5 None] [] [x01] 4096)) = Err ErrFormat /\
  fst (ReadFloat 0 0 (mkWorld [mkDecoder false 4 4 0xB5 None] [] [x3f; x80; x00; x00] 4096))
  = Ok (F32frombits 0x3F800000).
Proof.
  split.
  - destruct (ReadFloat_widths 0 0 (mkDecoder false 0 1 0xB5 None)
                (mkWorld [mkDecoder false 0 1 0xB5 None] [] [x01] 4096)
                eq_refl (quiet_nil _ _ _)) as [H _].
    rewrite H; [reflexivity | cbn; lia | cbn; lia].
  - destruct (ReadFloat_widths 0 0 (mkDecoder false 4 4 0xB5 None)
                (mkWorld [mkDecoder false 4 4 0xB5 None] [] [x3f; x80; x00; x00] 4096)
                eq_refl (quiet_nil _ _ _)) as [_ H].
    destruct H as (w' & H & _); [left; reflexivity | cbn; lia |].
    rewrite H. reflexivity.
Defined.

(** X6.  [Read] on a size-bounded element never goes past its end: asked
    for [m] bytes with [len] remaining, it delivers the next
    [min m len] bytes of the stream and takes as many off the remaining
    count.  At the end of the element it delivers no byte and reports no
    error ([io.EOF] is not returned), leaving everything as it was. *)
Theorem Read_stays_inside_element (fuel a m : nat) (d : Decoder) (w : world) :
  w_heap w !! a = Some d ->
  quiet_chain (w_heap w) a fuel (d_elem d) ->
  0 < d_size d ->
  0 <= d_len d < 2 ^ 63 ->
  (Nat.min m (Z.to_nat (d_len d)) <= length (pending w))%nat ->
  (exists w',
     Read fuel a m w = (Ok (take (Nat.min m (Z.to_nat (d_len d))) (pending w)), w') /\
     pending w' = drop (Nat.min m (Z.to_nat (d_len d))) (pending w) /\
     w_heap w'
     = <[a := with_len d (d_len d - Z.of_nat (Nat.min m (Z.to_nat (d_len d))))]> (w_heap w)) /\
  (d_len d = 0 -> Read fuel a m w = (Ok [], w)).
Proof.
  intros Hl Hq Hs Hn Hp.
  assert (Hc : read_count d m = Nat.min m (Z.to_nat (d_len d))).
  { unfold read_count. replace (0 <? d_size d) with true by (symmetry; apply Z.ltb_lt; exact Hs).
    rewrite andb_true_r. destruct (Z.ltb_spec (d_len d) (Z.of_nat m)); lia. }
  split.
  - destruct (Read_ok fuel a m d w Hl Hq) as (w' & H & Hp' & Hh' & _);
      [unfold int64_range; lia | lia | rewrite Hc; exact Hp |].
    rewrite Hc in *. exists w'. split; [exact H|]. split; [exact Hp'|].
    rewrite Hh'. rewrite wrap64_id by (unfold int64_range; lia). reflexivity.
  - intros H0. unfold Read.
    rewrite (bind_Ok _ _ _ _ _ (skip_quiet _ _ _ _ Hl Hq)).
    rewrite (bind_Ok _ _ _ _ _ (get_dec_Some _ _ _ Hl)).
    rewrite H0. replace (0 <? d_size d) with true by (symmetry; apply Z.ltb_lt; exact Hs).
    destruct m as [|m]; reflexivity.
Qed.

Lemma Read_stays_inside_element_witness :
  fst (Read 0 0 10 (mkWorld [mkDecoder false 2 5 0xA3 None] [] [x01; x02; x03; x04] 4096))
  = Ok [x01; x02] /\
  fst (Read 0 0 10 (mkWorld [mkDecoder false 0 5 0xA3 None] [] [x03; x04] 4096)) = Ok [].
Proof.
  split.
  - destruct (Read_stays_inside_element 0 0 10 (mkDecoder false 2 5 0xA3 None)
                (mkWorld [mkDecoder false 2 5 0xA3 None] [] [x01; x02; x03; x04] 4096)
                eq_refl (quiet_nil _ _ _)) as [(w' & H & _) _];
      [cbn; lia | cbn; lia | vm_compute; lia |].
    rewrite H. reflexivity.
  - destruct (Read_stays_inside_element 0 0 10 (mkDecoder false 0 5 0xA3 None)
                (mkWorld [mkDecoder false 0 5 0xA3 None] [] [x03; x04] 4096)
                eq_refl (quiet_nil _ _ _)) as [_ H];
      [cbn; lia | cbn; lia | vm_compute; lia |].
    rewrite H; reflexivity.
Defined.

(** ** The values [readVint] returns, and the ends of a container *)

Lemma vint_lead_bounds (m : byte) (off : nat) :
  (off <= 1)%nat ->
  (fst (vint_lead m off) <= 7)%nat /\
  0 <= snd (vint_lead m off)
    < 2 ^ (8 - Z.of_nat (fst (vint_lead m off)) - Z.of_nat off).
Proof.
  intros Hoff.
  assert (H : ((fst (vint_lead m off) <=? 7)%nat
               && (0 <=? snd (vint_lead m off))
               && (snd (vint_lead m off)
                   <? 2 ^ (8 - Z.of_nat (fst (vint_lead m off)) - Z.of_nat off))) = true).
  { destruct off as [|[|off]]; [| |lia]; destruct m; vm_compute; reflexivity. }
  apply andb_true_iff in H as [H H3]. apply andb_true_iff in H as [H1 H2].
  apply Nat.leb_le in H1. apply Z.leb_le in H2. apply Z.ltb_lt in H3. repeat split; assumption.
Qed.

Lemma Peek_length (n : nat) (w w' : world) (b : list byte) :
  Peek n w = (Ok b, w') -> length b = n.
Proof.
  unfold Peek.
  destruct (cap w <? n)%nat; [discriminate|].
  match goal with |- context [if ?c then fill w else w] => destruct c end.
  - destruct (Nat.ltb_spec (length (w_buf (fill w))) n); [discriminate|].
    intros E. injection E as <- _. rewrite length_take. unfold fill in *. cbn [w_buf] in *. lia.
  - destruct (Nat.ltb_spec (length (w_buf w)) n); [discriminate|].
    intros E. injection E as <- _. rewrite length_take. lia.
Qed.

(** What a successful [readVint] has read: a leading byte and the bytes
    it announces. *)
Lemma readVint_Ok_inv (fuel a off : nat) (w w' : world) (v : Z) (n : nat) :
  readVint fuel a off w = (Ok (v, n), w') ->
  exists (m : byte) (b : list byte),
    n = fst (vint_lead m off) /\ length b = n /\
    v = shift_bytes (snd (vint_lead m off)) b.
Proof.
  unfold readVint, bind.
  destruct (skip fuel a w) as [[[]|e|] w0]; try discriminate.
  destruct (get_dec a w0) as [[d|e|] w1]; try discriminate.
  destruct ((d_len d <? 1) && (0 <? d_size d)); [discriminate|].
  destruct (ReadByte w1) as [[m|e|] w2]; try discriminate.
  destruct (set_len a _ w2) as [[[]|e|] w3]; try discriminate.
  destruct (vint_lead m off) as [n0 v0] eqn:El.
  destruct (Nat.ltb_spec 0 n0).
  - destruct (get_dec a w3) as [[d3|e|] w4]; try discriminate.
    destruct ((d_len d3 <? Z.of_nat n0) && (0 <? d_size d3)); [discriminate|].
    destruct (Peek n0 w4) as [[b|e|] w5] eqn:EP; try discriminate.
    destruct (Discard _ w5) as [[[]|e|] w6]; try discriminate.
    destruct (set_len a _ w6) as [[[]|e|] w7]; try discriminate.
    intros E. injection E as <- <- _. exists m, b. rewrite El. cbn.
    split; [reflexivity|]. split; [eapply Peek_length; exact EP | reflexivity].
  - intros E. injection E as <- <- _. exists m, []. rewrite El. cbn.
    split; [reflexivity|]. split; [lia | reflexivity].
Qed.

Lemma readVint_Ok_bounds (fuel a off : nat) (w w' : world) (v : Z) (n : nat) :
  (off <= 1)%nat ->
  readVint fuel a off w = (Ok (v, n), w') ->
  (n <= 7)%nat /\ 0 <= v < 2 ^ (7 * Z.of_nat n + 8 - Z.of_nat off).
Proof.
  intros Hoff Hrun.
  destruct (readVint_Ok_inv fuel a off w w' v n Hrun) as (m & b & Hn & Hb & Hv).
  destruct (vint_lead_bounds m off Hoff) as (H7 & H0 & H1).
  rewrite <- Hn in H7, H1. split; [exact H7|].
  set (v0 := snd (vint_lead m off)) in *.
  assert (Hpow : 256 ^ Z.of_nat (length b) = 2 ^ (8 * Z.of_nat n)).
  { rewrite Hb. change 256 with (2 ^ 8). rewrite <- Z.pow_mul_r by lia. reflexivity. }
  assert (Hsplit : 2 ^ (7 * Z.of_nat n + 8 - Z.of_nat off)
                   = 2 ^ (8 - Z.of_nat n - Z.of_nat off) * 2 ^ (8 * Z.of_nat n)).
  { rewrite <- Z.pow_add_r by lia. f_equal. lia. }
  assert (Hle : 2 ^ (7 * Z.of_nat n + 8 - Z.of_nat off) <= 2 ^ 57)
    by (apply Z.pow_le_mono_r; lia).
  assert (Hp0 : 0 < 2 ^ (8 * Z.of_nat n)) by (apply Z.pow_pos_nonneg; lia).
  pose proof (be_uint_range b) as Hbr. rewrite Hpow in Hbr.
  rewrite Hv, shift_bytes_eq; rewrite ?Hpow; [nia | lia | nia].
Qed.

Lemma Next_header_Ok_bounds (fuel a : nat) (w w' : world) (id size : Z) :
  Next_header fuel a w = (Ok (id, size), w') ->
  0 <= id < 2 ^ 57 /\ 0 <= size < 2 ^ 56.
Proof.
  unfold Next_header, bind.
  destruct (skip fuel a w) as [[[]|e|] w0]; try discriminate.
  destruct (readVint fuel a 0 w0) as [[[id0 n]|e|] w1] eqn:E1; try discriminate.
  destruct (readVint fuel a 1 w1) as [[[size0 n']|e|] w2] eqn:E2; try discriminate.
  intros H. injection H as <- <- _.
  destruct (readVint_Ok_bounds _ _ 0 _ _ _ _ ltac:(lia) E1) as [Hn1 Hv1].
  destruct (readVint_Ok_bounds _ _ 1 _ _ _ _ ltac:(lia) E2) as [Hn2 Hv2].
  assert (2 ^ (7 * Z.of_nat n + 8 - Z.of_nat 0) <= 2 ^ 57) by (apply Z.pow_le_mono_r; lia).
  assert (2 ^ (7 * Z.of_nat n' + 8 - Z.of_nat 1) <= 2 ^ 56) by (apply Z.pow_le_mono_r; lia).
  lia.
Qed.

(** X7.  Whatever the stream holds, a value [readVint] returns is not
    negative: read with [n] further bytes it is below [2^(7n+8)] as an id
    and below [2^(7n+7)] as a size, with [n <= 7].  So in the header
    [Next] reads the id is below [2^57] and the declared size is at most
    [2^56 - 1]: the test [size < 0] of [Next] never holds. *)
Theorem readVint_value_bounds (fuel a : nat) (w w' : world) :
  (forall off v n, (off <= 1)%nat ->
     readVint fuel a off w = (Ok (v, n), w') ->
     (n <= 7)%nat /\ 0 <= v < 2 ^ (7 * Z.of_nat n + 8 - Z.of_nat off)) /\
  (forall id size,
     Next_header fuel a w = (Ok (id, size), w') ->
     0 <= id < 2 ^ 57 /\ 0 <= size < 2 ^ 56 /\ (size <? 0) = false).
Proof.
  split.
  - intros off v n. apply readVint_Ok_bounds.
  - intros id size H. destruct (Next_header_Ok_bounds _ _ _ _ _ _ H) as [Hi Hs].
    split; [exact Hi|]. split; [exact Hs|]. apply Z.ltb_ge. lia.
Qed.

Lemma readVint_value_bounds_witness :
  let r := readVint 0 0 1 (NewDecoder false 0 4096 [xff; x00]) in
  fst r = Ok (127, 0%nat) /\ 0 <= 127 < 2 ^ 7.
Proof.
  intros r. unfold r.
  destruct (readVint 0 0 1 (NewDecoder false 0 4096 [xff; x00])) as [[[v n]|e|] w'] eqn:E;
    try (vm_compute in E; discriminate).
  destruct (readVint_value_bounds 0 0 (NewDecoder false 0 4096 [xff; x00]) w') as [Hb _].
  pose proof (Hb 1%nat v n ltac:(lia) E) as [_ H].
  assert (E' := E). vm_compute in E'. injection E' as <- <- _.
  split; [reflexivity | exact H].
Defined.

(** X8.  When [Next] returns a child, the child is a new cursor, other
    than its parent, that the parent now points to; it carries the id
    read, which is above 0, has the declared size, which is above 0 and
    below [2^56], as its size and as its remaining count, has no child of
    its own and reads from the same source.  Under a size-bounded parent
    the declared size is at most the size of the parent. *)
Theorem Next_opens_child (fuel a : nat) (w w' : world) (id : Z) (c : nat) :
  Next fuel a w = (Ok (id, Some c), w') ->
  exists (d' dc : Decoder),
    w_heap w' !! a = Some d' /\ d_elem d' = Some c /\ c <> a /\
    w_heap w' !! c = Some dc /\
    dc = mkDecoder (d_rs d') (d_size dc) (d_size dc) id None /\
    0 < id < 2 ^ 57 /\ 0 < d_size dc < 2 ^ 56 /\
    (0 < d_size d' -> d_size dc <= d_size d').
Proof.
  rewrite Next_split. intros H.
  apply bind_Ok_inv in H as ([id0 size] & w1 & Hh & Ho).
  destruct (Next_header_Ok_bounds _ _ _ _ _ _ Hh) as [Hi Hs].
  unfold Next_open in Ho.
  destruct ((id0 =? 0) || (size <? 0)) eqn:C1; [discriminate|].
  apply bind_Ok_inv in Ho as (d1 & w1' & Hg & Ho).
  apply get_dec_inv in Hg as [-> Hl].
  destruct ((d_size d1 <? size) && (0 <? d_size d1)) eqn:C2; [discriminate|].
  destruct (size =? 0) eqn:C3; [discriminate|].
  pose proof (Next_open_child a id0 size d1 w1 Hl C1 C2 C3) as Hopen.
  unfold Next_open in Hopen. rewrite C1 in Hopen.
  rewrite (bind_Ok _ _ _ _ _ (get_dec_Some _ _ _ Hl)), C2, C3 in Hopen.
  rewrite Hopen in Ho. injection Ho as <- <- <-.
  assert (Hlt : (a < length (w_heap w1))%nat) by (eapply lookup_lt_Some; exact Hl).
  apply orb_false_iff in C1 as [C1 _]. apply Z.eqb_neq in C1. apply Z.eqb_neq in C3.
  eexists _, _. cbn [w_heap set_heap].
  split; [rewrite lookup_app_l by (rewrite length_insert; exact Hlt);
          apply list_lookup_insert_eq; exact Hlt|].
  split; [reflexivity|]. split; [lia|].
  split; [rewrite lookup_app_r by (rewrite length_insert; lia);
          rewrite length_insert, Nat.sub_diag; reflexivity|].
  split; [reflexivity|]. cbn [d_size with_elem with_len].
  split; [lia|]. split; [lia|].
  intros Hsz. apply andb_false_iff in C2 as [C2|C2]; apply Z.ltb_ge in C2; lia.
Qed.

Lemma Next_opens_child_witness :
  exists d' dc,
    w_heap (snd (Next 0 0 (NewDecoder true 0 4096 [xa3; x82; x01; x02]))) !! 0%nat = Some d' /\
    d_elem d' = Some 1%nat /\
    w_heap (snd (Next 0 0 (NewDecoder true 0 4096 [xa3; x82; x01; x02]))) !! 1%nat = Some dc /\
    dc = mkDecoder true 2 2 0xA3 None.
Proof.
  destruct (Next 0 0 (NewDecoder true 0 4096 [xa3; x82; x01; x02])) as [r w'] eqn:E.
  assert (Er : r = Ok (0xA3, Some 1%nat)) by (vm_compute in E; congruence).
  subst r.
  destruct (Next_opens_child 0 0 _ _ _ _ E) as (d' & dc & H1 & H2 & _ & H3 & H4 & _).
  exists d', dc. cbn [snd]. split; [exact H1|]. split; [exact H2|]. split; [exact H3|].
  rewrite H4. assert (E' := E). vm_compute in E'. injection E' as <-.
  cbn in H1, H3. injection H1 as <-. injection H3 as <-. reflexivity.
Defined.

(** A vint that does not fit what is left of a size-bounded cursor:
    [readVint] returns [io.EOF], after the leading byte when there was
    room for it. *)
Lemma readVint_straddles (k : vkind) (width : nat) (x : Z)
  (fuel a : nat) (d : Decoder) (w : world) (t : list byte) :
  encodable k width x ->
  w_heap w !! a = Some d ->
  quiet_chain (w_heap w) a fuel (d_elem d) ->
  0 < d_size d ->
  d_len d < Z.of_nat width ->
  d_len d < 2 ^ 63 ->
  pending w = encode_vint k width x ++ t ->
  exists w',
    readVint fuel a (off_of k) w = (Err EOF, w') /\
    w_cap w' = w_cap w /\
    (d_len d < 1 -> w' = w) /\
    (1 <= d_len d ->
     pending w' = drop 1 (pending w) /\
     w_heap w' = <[a := with_len d (d_len d - 1)]> (w_heap w)).
Proof.
  intros Henc Hl Hq Hs Hlen H63 Hp.
  destruct (encode_vint_lead k width x Henc) as (m & b & Ee & Hw & Hn & _).
  unfold readVint.
  rewrite (bind_Ok _ _ _ _ _ (skip_quiet _ _ _ _ Hl Hq)).
  rewrite (bind_Ok _ _ _ _ _ (get_dec_Some _ _ _ Hl)).
  replace (0 <? d_size d) with true by (symmetry; apply Z.ltb_lt; exact Hs).
  rewrite andb_true_r.
  destruct (Z.ltb_spec (d_len d) 1) as [H1|H1].
  - exists w. split; [reflexivity|]. split; [reflexivity|]. split; [reflexivity|]. lia.
  - rewrite Ee in Hp. cbn [app] in Hp.
    destruct (ReadByte_cons w m (b ++ t) Hp) as (w1 & HR & Hp1 & Hh1 & Hc1).
    rewrite (bind_Ok _ _ _ _ _ HR).
    assert (Hl1 : w_heap w1 !! a = Some d) by (rewrite Hh1; exact Hl).
    rewrite (bind_Ok _ _ _ _ _ (set_len_Some a _ d w1 Hl1)).
    destruct (vint_lead m (off_of k)) as [n v0]. cbn [fst] in Hn. subst n.
    assert (Hb : (0 < length b)%nat) by lia.
    replace (0 <? length b)%nat with true by (symmetry; apply Nat.ltb_lt; exact Hb).
    rewrite wrap64_id by (unfold int64_range; lia).
    set (w2 := set_heap _ w1).
    assert (Hl2 : w_heap w2 !! a = Some (with_len d (d_len d - 1))).
    { unfold w2. cbn. apply lookup_set_len. exact Hl1. }
    rewrite (bind_Ok _ _ _ _ _ (get_dec_Some _ _ _ Hl2)).
    cbn [with_len d_len d_size].
    replace (d_len d - 1 <? Z.of_nat (length b)) with true by (symmetry; apply Z.ltb_lt; lia).
    replace (0 <? d_size d) with true by (symmetry; apply Z.ltb_lt; exact Hs).
    exists w2. split; [reflexivity|]. split; [exact Hc1|]. split; [lia|].
    intros _. split.
    + unfold w2. rewrite pending_set_heap, Hp1, Hp. reflexivity.
    + unfold w2. cbn. rewrite Hh1. reflexivity.
Qed.

(** X9.  The end of a size-bounded container ends its decoding without
    error.  With no byte remaining, [Next] returns [io.EOF] without
    touching the stream, and the decoding loop returns the value as it
    stands.  The same holds when the bytes remaining are too few for the
    header that comes: an id cut by the end of the container, or a size
    cut by it, gives [io.EOF] as well, and the loop returns without
    error. *)
Theorem container_end_stops_loop (env : tenv) (sf fuel a : nat) (s : structInfo)
  (v : value) (d : Decoder) (w : world) :
  w_heap w !! a = Some d ->
  quiet_chain (w_heap w) a sf (d_elem d) ->
  0 < d_size d ->
  d_len d < 2 ^ 63 ->
  (d_len d <= 0 ->
   Next sf a w = (Err EOF, w) /\
   UnmarshalEBML_loop env sf (S fuel) s v a w = (v, Ok tt, w)) /\
  (forall (wi : nat) (id : Z) (t : list byte),
     encodable IdKind wi id ->
     d_len d < Z.of_nat wi ->
     pending w = encode_vint IdKind wi id ++ t ->
     exists w',
       Next sf a w = (Err EOF, w') /\
       UnmarshalEBML_loop env sf (S fuel) s v a w = (v, Ok tt, w')) /\
  (forall (wi ws : nat) (id n : Z) (t : list byte),
     encodable IdKind wi id ->
     encodable SizeKind ws n ->
     Z.of_nat wi <= d_len d < Z.of_nat wi + Z.of_nat ws ->
     pending w = encode_vint IdKind wi id ++ encode_vint SizeKind ws n ++ t ->
     exists w',
       Next sf a w = (Err EOF, w') /\
       UnmarshalEBML_loop env sf (S fuel) s v a w = (v, Ok tt, w')).
Proof.
  intros Hl Hq Hs H63.
  assert (Hloop : forall w', Next sf a w = (Err EOF, w') ->
            UnmarshalEBML_loop env sf (S fuel) s v a w = (v, Ok tt, w')).
  { intros w' HN. rewrite UnmarshalEBML_loop_step, HN. reflexivity. }
  assert (Hskip := skip_quiet _ _ _ _ Hl Hq).
  split; [|split].
  - intros H0.
    assert (HN : Next sf a w = (Err EOF, w)).
    { unfold Next. rewrite (bind_Ok _ _ _ _ _ Hskip).
      assert (Hr : readVint sf a 0 w = (Err EOF, w)).
      { unfold readVint. rewrite (bind_Ok _ _ _ _ _ Hskip).
        rewrite (bind_Ok _ _ _ _ _ (get_dec_Some _ _ _ Hl)).
        replace ((d_len d <? 1) && (0 <? d_size d)) with true; [reflexivity|].
        symmetry. apply andb_true_iff. rewrite !Z.ltb_lt. lia. }
      rewrite (bind_Err _ _ _ _ _ Hr). reflexivity. }
    split; [exact HN | apply Hloop; exact HN].
  - intros wi id t Hid Hlen Hp.
    destruct (readVint_straddles IdKind wi id sf a d w t Hid Hl Hq Hs Hlen H63 Hp)
      as (w' & Hr & _).
    cbn [off_of] in Hr. exists w'.
    assert (HN : Next sf a w = (Err EOF, w')).
    { unfold Next. rewrite (bind_Ok _ _ _ _ _ Hskip), (bind_Err _ _ _ _ _ Hr). reflexivity. }
    split; [exact HN | apply Hloop; exact HN].
  - intros wi ws id n t Hid Hsz Hlen Hp.
    destruct (readVint_encoded IdKind wi id sf a d w (encode_vint SizeKind ws n ++ t)
                Hid Hl Hq) as (w1 & Hr1 & Hp1 & Hh1 & Hc1 & _);
      [unfold int64_range; destruct Hid as [? _]; lia | lia | exact Hp |].
    assert (Hlt : (a < length (w_heap w))%nat) by (eapply lookup_lt_Some; exact Hl).
    assert (Hw : wrap64 (d_len d - Z.of_nat wi) = d_len d - Z.of_nat wi)
      by (apply wrap64_id; unfold int64_range; lia).
    rewrite Hw in Hh1.
    set (d1 := with_len d (d_len d - Z.of_nat wi)) in *.
    assert (Hl1 : w_heap w1 !! a = Some d1).
    { rewrite Hh1. apply list_lookup_insert_eq. exact Hlt. }
    assert (Hq1 : quiet_chain (w_heap w1) a sf (d_elem d1)).
    { rewrite Hh1. apply quiet_chain_insert. exact Hq. }
    destruct (readVint_straddles SizeKind ws n sf a d1 w1 t Hsz Hl1 Hq1)
      as (w' & Hr2 & _); [exact Hs | cbn; lia | cbn; lia | exact Hp1 |].
    cbn [off_of] in Hr1, Hr2. exists w'.
    assert (HN : Next sf a w = (Err EOF, w')).
    { unfold Next. rewrite (bind_Ok _ _ _ _ _ Hskip), (bind_Ok _ _ _ _ _ Hr1).
      rewrite (bind_Err _ _ _ _ _ Hr2). reflexivity. }
    split; [exact HN | apply Hloop; exact HN].
Qed.

Lemma container_end_stops_loop_witness :
  let v := VStruct "Inner" [VInt Kword 9; VInt Kword 0] in
  let s := mkStructInfo [] ∅ in
  fst (UnmarshalEBML_loop example_env 0 1 s v 0
         (mkWorld [mkDecoder false 0 4 0xA0 None] [] [x81; x81; x07] 4096)) = (v, Ok tt) /\
  fst (UnmarshalEBML_loop example_env 0 1 s v 0
         (mkWorld [mkDecoder false 1 4 0xA0 None] [] (encode_vint IdKind 2 0x4286 ++ [x81]) 4096))
  = (v, Ok tt).
Proof.
  intros v s. split.
  - destruct (container_end_stops_loop example_env 0 0 0 s v
                (mkDecoder false 0 4 0xA0 None)
                (mkWorld [mkDecoder false 0 4 0xA0 None] [] [x81; x81; x07] 4096)
                eq_refl (quiet_nil _ _ _)) as [H _]; [cbn; lia | cbn; lia |].
    destruct H as [_ H]; [cbn; lia|]. rewrite H. reflexivity.
  - destruct (container_end_stops_loop example_env 0 0 0 s v
                (mkDecoder false 1 4 0xA0 None)
                (mkWorld [mkDecoder false 1 4 0xA0 None] [] (encode_vint IdKind 2 0x4286 ++ [x81]) 4096)
                eq_refl (quiet_nil _ _ _)) as (_ & H & _); [cbn; lia | cbn; lia |].
    destruct (H 2%nat 0x4286 [x81]) as (w' & _ & H'); [split; cbn; lia | cbn; lia | reflexivity |].
    rewrite H'. reflexivity.
Defined.

(** X10.  Under a size-bounded container [Next] rejects a header whose
    declared size is above the size of the container: the result is a
    format error and no child is made, but the bytes of the header are
    consumed and counted. *)
Theorem Next_rejects_oversized (sf a : nat) (d : Decoder) (w : world)
  (id n : Z) (wi ws : nat) (t : list byte) :
  w_heap w !! a = Some d ->
  quiet_chain (w_heap w) a sf (d_elem d) ->
  encodable IdKind wi id ->
  encodable SizeKind ws n ->
  0 < d_size d < n ->
  Z.of_nat wi + Z.of_nat ws <= d_len d < 2 ^ 63 ->
  pending w = encode_vint IdKind wi id ++ encode_vint SizeKind ws n ++ t ->
  exists w',
    Next sf a w = (Err ErrFormat, w') /\
    pending w' = t /\
    w_heap w' = <[a := with_len d (d_len d - Z.of_nat wi - Z.of_nat ws)]> (w_heap w).
Proof.
  intros Hl Hq Hid Hsz Hn Hlen Hp.
  assert (Hlt : (a < length (w_heap w))%nat) by (eapply lookup_lt_Some; exact Hl).
  destruct (readVint_encoded IdKind wi id sf a d w (encode_vint SizeKind ws n ++ t)
              Hid Hl Hq) as (w1 & Hr1 & Hp1 & Hh1 & Hc1 & _);
    [unfold int64_range; lia | lia | exact Hp |].
  rewrite wrap64_id in Hh1 by (unfold int64_range; lia).
  set (d1 := with_len d (d_len d - Z.of_nat wi)) in *.
  assert (Hl1 : w_heap w1 !! a = Some d1).
  { rewrite Hh1. apply list_lookup_insert_eq. exact Hlt. }
  assert (Hq1 : quiet_chain (w_heap w1) a sf (d_elem d1)).
  { rewrite Hh1. apply quiet_chain_insert. exact Hq. }
  destruct (readVint_encoded SizeKind ws n sf a d1 w1 t Hsz Hl1 Hq1)
    as (w2 & Hr2 & Hp2 & Hh2 & Hc2 & _);
    [unfold int64_range; cbn; lia | cbn; lia | exact Hp1 |].
  cbn [d1 with_len d_len] in Hh2.
  rewrite wrap64_id in Hh2 by (unfold int64_range; lia).
  assert (Hl2 : w_heap w2 !! a = Some (with_len d1 (d_len d - Z.of_nat wi - Z.of_nat ws))).
  { rewrite Hh2. apply list_lookup_insert_eq. rewrite Hh1, length_insert. exact Hlt. }
  destruct Hid as [Hwi Hidr].
  assert (Hidpos : 0 < id).
  { eapply Z.lt_le_trans; [|apply Hidr]. apply Z.pow_pos_nonneg; lia. }
  exists w2. split; [|split; [exact Hp2|]].
  - unfold Next.
    rewrite (bind_Ok _ _ _ _ _ (skip_quiet _ _ _ _ Hl Hq)).
    cbn [off_of] in Hr1, Hr2.
    rewrite (bind_Ok _ _ _ _ _ Hr1), (bind_Ok _ _ _ _ _ Hr2).
    replace ((id =? 0) || (n <? 0)) with false
      by (symmetry; apply orb_false_iff; split; [apply Z.eqb_neq | apply Z.ltb_ge]; lia).
    rewrite (bind_Ok _ _ _ _ _ (get_dec_Some _ _ _ Hl2)).
    cbn [with_len d_size d1].
    replace ((d_size d <? n) && (0 <? d_size d)) with true; [reflexivity|].
    symmetry. apply andb_true_iff. rewrite !Z.ltb_lt. lia.
  - rewrite Hh2, Hh1, list_insert_insert_eq. reflexivity.
Qed.

Lemma Next_rejects_oversized_witness :
  fst (Next 0 0 (mkWorld [mkDecoder false 8 8 0xA0 None] []
                   (encode_vint IdKind 1 0x83 ++ encode_vint SizeKind 1 9 ++ [x00]) 4096))
  = Err ErrFormat.
Proof.
  destruct (Next_rejects_oversized 0 0 (mkDecoder false 8 8 0xA0 None)
              (mkWorld [mkDecoder false 8 8 0xA0 None] []
                 (encode_vint IdKind 1 0x83 ++ encode_vint SizeKind 1 9 ++ [x00]) 4096)
              0x83 9 1 1 [x00] eq_refl (quiet_nil _ _ _))
    as (w' & H & _);
    [split; cbn; lia | split; cbn; lia | cbn; lia | cbn; lia | reflexivity |].
  rewrite H. reflexivity.
Defined.

(** ** Skip over the children left open *)

Lemma left_of_nonneg (h : list Decoder) (l : list nat) : 0 <= left_of h l.
Proof.
  unfold left_of. induction l as [|e l IH]; cbn [fold_right]; [lia|].
  destruct (h !! e); lia.
Qed.

Lemma close_one_lookup_ne (e x : nat) (h : list Decoder) :
  x <> e -> close_one e h !! x = h !! x.
Proof.
  intros Hne. unfold close_one. destruct (h !! e) as [d|]; [|reflexivity].
  destruct (d_len d <=? 0); [reflexivity|]. apply list_lookup_insert_ne. congruence.
Qed.

Lemma close_one_lookup (e : nat) (d : Decoder) (h : list Decoder) :
  h !! e = Some d ->
  close_one e h !! e = Some (if d_len d <=? 0 then d else with_len d 0).
Proof.
  intros Hl. unfold close_one. rewrite Hl. destruct (d_len d <=? 0); [exact Hl|].
  apply list_lookup_insert_eq. eapply lookup_lt_Some. exact Hl.
Qed.

Lemma close_all_lookup_notin (l : list nat) (x : nat) (h : list Decoder) :
  x ∉ l -> close_all l h !! x = h !! x.
Proof.
  induction l as [|e l IH]; intros Hx; [reflexivity|].
  apply not_elem_of_cons in Hx as [Hne Hx]. cbn [close_all fold_right].
  rewrite close_one_lookup_ne by exact Hne. apply IH. exact Hx.
Qed.

(** Closing cursors changes remaining counts only: the links stay. *)
Lemma close_all_links (l : list nat) (h : list Decoder) (x : nat) (d : Decoder) :
  h !! x = Some d ->
  exists d', close_all l h !! x = Some d' /\ d_elem d' = d_elem d /\
             d_size d' = d_size d /\ d_rs d' = d_rs d /\ d_id d' = d_id d /\
             (d_len d' = d_len d \/ d_len d' = 0).
Proof.
  intros Hl. induction l as [|e l IH]; [exists d; repeat split; auto|].
  destruct IH as (d1 & H1 & He & Hs & Hr & Hi & Hn). cbn [close_all fold_right].
  fold (close_all l h).
  destruct (Nat.eq_dec x e) as [->|Hne].
  - rewrite (close_one_lookup _ _ _ H1).
    destruct (d_len d1 <=? 0); eexists; (split; [reflexivity|]); cbn; repeat split; auto.
  - rewrite close_one_lookup_ne by exact Hne. exists d1. repeat split; auto.
Qed.

Lemma close_all_closed (l : list nat) (h : list Decoder) (x : nat) (d' : Decoder) :
  x ∈ l -> close_all l h !! x = Some d' -> d_len d' <= 0.
Proof.
  induction l as [|e l IH]; intros Hx Hl; [inversion Hx|].
  cbn [close_all fold_right] in Hl. fold (close_all l h) in Hl.
  destruct (Nat.eq_dec x e) as [->|Hne].
  - destruct (close_all l h !! e) as [d1|] eqn:E1.
    + rewrite (close_one_lookup _ _ _ E1) in Hl. injection Hl as <-.
      destruct (Z.leb_spec (d_len d1) 0); cbn; lia.
    + unfold close_one in Hl. rewrite E1 in Hl. congruence.
  - rewrite close_one_lookup_ne in Hl by exact Hne.
    apply elem_of_cons in Hx as [?|Hx]; [congruence|]. apply IH; assumption.
Qed.

Lemma chain_links (h h' : list Decoder) (o : option nat) (l : list nat) :
  chain h o l ->
  (forall x d, h !! x = Some d -> exists d', h' !! x = Some d' /\ d_elem d' = d_elem d) ->
  chain h' o l.
Proof.
  intros Hc Hlinks. induction Hc as [|e d l Hl Hc IH]; [constructor|].
  destruct (Hlinks e d Hl) as (d' & Hl' & He).
  econstructor; [exact Hl'|]. rewrite He. exact IH.
Qed.

Lemma chain_quiet (h : list Decoder) (a n : nat) (o : option nat) (l : list nat) :
  chain h o l ->
  a ∉ l ->
  (length l <= n)%nat ->
  (forall x d, x ∈ l -> h !! x = Some d -> d_len d <= 0) ->
  quiet_chain h a n o.
Proof.
  intros Hc. revert n. induction Hc as [|e d l Hl Hc IH]; intros n Ha Hn Hz; [constructor|].
  apply not_elem_of_cons in Ha as [Hne Ha]. cbn [length] in Hn.
  destruct n as [|n]; [lia|].
  econstructor; [congruence | exact Hl | apply (Hz e d); [left | exact Hl] |].
  apply IH; [exact Ha | lia |]. intros x dx Hx. apply Hz. right. exact Hx.
Qed.

(** The chain below a cursor is quiet once it has been closed. *)
Lemma closed_chain_quiet (h : list Decoder) (a n : nat) (o : option nat) (l : list nat) :
  chain h o l -> a ∉ l -> (length l <= n)%nat ->
  quiet_chain (close_all l h) a n o.
Proof.
  intros Hc Ha Hn.
  apply (chain_quiet _ a n o l); [|exact Ha | exact Hn |].
  - apply (chain_links h); [exact Hc|]. intros x d Hl.
    destruct (close_all_links l h x d Hl) as (d' & H1 & H2 & _). exists d'. auto.
  - intros x d Hx Hl. eapply close_all_closed; eassumption.
Qed.

(** [Skip] on a cursor whose open child has been closed already. *)
Lemma Skip_after_child (fuel a e : nat) (d : Decoder) (w w1 : world) :
  w_heap w !! a = Some d ->
  d_elem d = Some e ->
  Skip fuel e w = (Ok tt, w1) ->
  w_heap w1 !! a = Some d ->
  quiet_chain (w_heap w1) a fuel (Some e) ->
  Skip (S fuel) a w = Skip (S fuel) a w1.
Proof.
  intros Hl He Hs Hl1 Hq. cbn [Skip].
  rewrite (bind_Ok _ _ _ _ _ (get_dec_Some _ _ _ Hl)).
  rewrite (bind_Ok _ _ _ _ _ (get_dec_Some _ _ _ Hl1)).
  rewrite He.
  rewrite (bind_Ok _ _ _ _ _ Hs).
  rewrite (bind_Ok _ _ _ _ _ (Skip_quiet _ _ _ _ Hq w1 e eq_refl eq_refl)).
  reflexivity.
Qed.

Lemma Skip_chain_run (l : list nat) :
  forall (a fuel : nat) (w : world),
    chain (w_heap w) (Some a) l ->
    NoDup l ->
    (length l <= fuel)%nat ->
    left_of (w_heap w) l <= Z.of_nat (length (pending w)) ->
    exists w',
      Skip fuel a w = (Ok tt, w') /\
      pending w' = drop (Z.to_nat (left_of (w_heap w) l)) (pending w) /\
      w_heap w' = close_all l (w_heap w) /\
      w_cap w' = w_cap w.
Proof.
  induction l as [|x l IH]; intros a fuel w Hc Hnd Hf Hp; [inversion Hc|].
  inversion Hc as [|e d l0 Hl Hc' E1 E2]. subst e x l0.
  apply NoDup_cons in Hnd as [Ha Hnd]. cbn [length] in Hf.
  destruct fuel as [|fuel]; [lia|].
  cbn [left_of fold_right] in Hp |- *. fold (left_of (w_heap w) l) in Hp |- *.
  rewrite Hl in Hp |- *.
  pose proof (left_of_nonneg (w_heap w) l) as HL0.
  (* the world once the child, if any, is closed *)
  assert (Hchild : exists w1,
            Skip (S fuel) a w = Skip (S fuel) a w1 /\
            pending w1 = drop (Z.to_nat (left_of (w_heap w) l)) (pending w) /\
            w_heap w1 = close_all l (w_heap w) /\
            w_cap w1 = w_cap w).
  { destruct (d_elem d) as [e|] eqn:He.
    - destruct (IH e fuel w Hc' Hnd ltac:(lia) ltac:(lia)) as (w1 & Hs & Hp1 & Hh1 & Hc1).
      exists w1. split; [|repeat split; assumption].
      apply (Skip_after_child fuel a e d); [exact Hl | exact He | exact Hs | |].
      + rewrite Hh1, close_all_lookup_notin by exact Ha. exact Hl.
      + rewrite Hh1. apply (closed_chain_quiet _ a fuel (Some e) l); [exact Hc' | exact Ha | lia].
    - inversion Hc'. subst l. exists w. cbn. repeat split; reflexivity. }
  destruct Hchild as (w1 & Hsame & Hp1 & Hh1 & Hc1).
  assert (Hl1 : w_heap w1 !! a = Some d).
  { rewrite Hh1, close_all_lookup_notin by exact Ha. exact Hl. }
  assert (Hq1 : quiet_chain (w_heap w1) a fuel (d_elem d)).
  { rewrite Hh1. apply (closed_chain_quiet _ a fuel (d_elem d) l); [exact Hc' | exact Ha | lia]. }
  rewrite Hsame. cbn [close_all fold_right]. fold (close_all l (w_heap w)).
  unfold close_one. rewrite <- Hh1, Hl1.
  destruct (Z.leb_spec (d_len d) 0) as [Hle|Hgt].
  - rewrite (Skip_unfold fuel a d w1 Hl1 Hq1).
    replace (d_len d <=? 0) with true by (symmetry; apply Z.leb_le; exact Hle).
    exists w1. split; [reflexivity|]. split; [|split; [reflexivity | exact Hc1]].
    rewrite Hp1. f_equal. lia.
  - destruct (Skip_run fuel a d w1 Hl1 Hq1) as (w2 & Hs2 & Hp2 & Hh2 & Hc2 & _).
    { rewrite Hp1, length_drop. lia. }
    exists w2. split; [exact Hs2|]. split; [|split; [exact Hh2 | congruence]].
    rewrite Hp2, Hp1, drop_drop. f_equal. lia.
Qed.

Lemma chain_lookup (h : list Decoder) (o : option nat) (l : list nat) (x : nat) :
  chain h o l -> x ∈ l -> is_Some (h !! x).
Proof.
  induction 1 as [|e d l Hl Hc IH]; intros Hx; [inversion Hx|].
  apply elem_of_cons in Hx as [->|Hx]; [eexists; exact Hl | apply IH; exact Hx].
Qed.

(** X11.  [Skip] on a cursor closes everything that hangs from it: its
    open child, the open child of that one, and so on, the deepest first,
    and then the cursor itself.  When the stream holds the bytes, it
    consumes exactly what these cursors had left, taken together; every
    one of them ends with nothing remaining, no other cursor changes, and
    a second [Skip] does nothing. *)
Theorem Skip_closes_chain (fuel a : nat) (l : list nat) (w : world) :
  chain (w_heap w) (Some a) l ->
  NoDup l ->
  (length l <= fuel)%nat ->
  left_of (w_heap w) l <= Z.of_nat (length (pending w)) ->
  exists w',
    Skip fuel a w = (Ok tt, w') /\
    pending w' = drop (Z.to_nat (left_of (w_heap w) l)) (pending w) /\
    w_heap w' = close_all l (w_heap w) /\
    (forall x d', x ∈ l -> w_heap w' !! x = Some d' -> d_len d' <= 0) /\
    (forall x, x ∉ l -> w_heap w' !! x = w_heap w !! x) /\
    Skip fuel a w' = (Ok tt, w').
Proof.
  intros Hc Hnd Hf Hp.
  destruct (Skip_chain_run l a fuel w Hc Hnd Hf Hp) as (w' & Hs & Hp' & Hh' & _).
  exists w'. split; [exact Hs|]. split; [exact Hp'|]. split; [exact Hh'|].
  assert (Hclosed : forall x d', x ∈ l -> w_heap w' !! x = Some d' -> d_len d' <= 0).
  { intros x d' Hx Hl. rewrite Hh' in Hl. eapply close_all_closed; eassumption. }
  split; [exact Hclosed|].
  split; [intros x Hx; rewrite Hh'; apply close_all_lookup_notin; exact Hx|].
  assert (Hc' : chain (w_heap w') (Some a) l).
  { apply (chain_links (w_heap w)); [exact Hc|]. intros x d Hl. rewrite Hh'.
    destruct (close_all_links l (w_heap w) x d Hl) as (d' & H1 & H2 & _). exists d'. auto. }
  apply (Skip_quiet (w_heap w') (length (w_heap w')) fuel (Some a)); [|reflexivity..].
  apply (chain_quiet _ _ _ _ l); [exact Hc' | | exact Hf | exact Hclosed].
  intros Hin. destruct (chain_lookup _ _ _ _ Hc' Hin) as [d0 Hd0].
  apply lookup_lt_Some in Hd0. lia.
Qed.

Lemma Skip_closes_chain_witness :
  let w := mkWorld [mkDecoder false (-9) 0 0 (Some 1%nat);
                    mkDecoder false 2 7 0xA0 (Some 2%nat);
                    mkDecoder false 3 3 0xA1 None]
             [] [x01; x02; x03; x04; x05; x83; x81; x07] 4096 in
  fst (Skip 2 1 w) = Ok tt /\
  pending (snd (Skip 2 1 w)) = [x83; x81; x07] /\
  w_heap (snd (Skip 2 1 w))
  = [mkDecoder false (-9) 0 0 (Some 1%nat);
     mkDecoder false 0 7 0xA0 (Some 2%nat);
     mkDecoder false 0 3 0xA1 None].
Proof.
  intros w.
  destruct (Skip_closes_chain 2 1 [1%nat; 2%nat] w) as (w' & H & Hp & Hh & _).
  - econstructor; [reflexivity|]. econstructor; [reflexivity|]. constructor.
  - apply (bool_decide_unpack _). vm_compute. exact I.
  - cbn. lia.
  - vm_compute. discriminate.
  - rewrite H. cbn [fst snd]. split; [reflexivity|]. rewrite Hp, Hh. split; reflexivity.
Defined.

(** X12.  Every operation of a cursor first closes the children left
    open below it, and then behaves as it does on the stream behind them:
    [Next], [readVint], [Read] and the primitive readers give on a cursor
    with unfinished children what they give once [skip] has passed the
    bytes those children had left. *)
Theorem operations_skip_open_children (sf a : nat) (d : Decoder) (l : list nat) (w : world) :
  w_heap w !! a = Some d ->
  chain (w_heap w) (d_elem d) l ->
  a ∉ l ->
  NoDup l ->
  (length l <= sf)%nat ->
  left_of (w_heap w) l <= Z.of_nat (length (pending w)) ->
  exists w1,
    skip sf a w = (Ok tt, w1) /\
    pending w1 = drop (Z.to_nat (left_of (w_heap w) l)) (pending w) /\
    w_heap w1 = close_all l (w_heap w) /\
    w_heap w1 !! a = Some d /\
    quiet_chain (w_heap w1) a sf (d_elem d) /\
    Next sf a w = Next sf a w1 /\
    (forall off, readVint sf a off w = readVint sf a off w1) /\
    (forall m, Read sf a m w = Read sf a m w1) /\
    ReadInt sf a w = ReadInt sf a w1 /\
    ReadBool sf a w = ReadBool sf a w1 /\
    ReadTime sf a w = ReadTime sf a w1 /\
    ReadFloat sf a w = ReadFloat sf a w1 /\
    ReadBytes sf a w = ReadBytes sf a w1 /\
    ReadString sf a w = ReadString sf a w1.
Proof.
  intros Hl Hc Ha Hnd Hf Hp.
  assert (Hrun : exists w1,
            skip sf a w = (Ok tt, w1) /\
            pending w1 = drop (Z.to_nat (left_of (w_heap w) l)) (pending w) /\
            w_heap w1 = close_all l (w_heap w)).
  { unfold skip. rewrite (bind_Ok _ _ _ _ _ (get_dec_Some _ _ _ Hl)).
    destruct (d_elem d) as [e|] eqn:He.
    - destruct (Skip_chain_run l e sf w Hc Hnd Hf Hp) as (w1 & Hs & Hp1 & Hh1 & _).
      exists w1. repeat split; assumption.
    - inversion Hc. subst l. exists w. repeat split; reflexivity. }
  destruct Hrun as (w1 & Hs & Hp1 & Hh1).
  assert (Hl1 : w_heap w1 !! a = Some d).
  { rewrite Hh1, close_all_lookup_notin by exact Ha. exact Hl. }
  assert (Hq1 : quiet_chain (w_heap w1) a sf (d_elem d)).
  { rewrite Hh1. apply (closed_chain_quiet _ a sf (d_elem d) l); assumption. }
  pose proof (skip_quiet sf a d w1 Hl1 Hq1) as Hs1.
  assert (Hop : forall (A : Type) (k : M A), (skip sf a >> k) w = (skip sf a >> k) w1).
  { intros A k. rewrite (bind_Ok _ _ _ _ _ Hs), (bind_Ok _ _ _ _ _ Hs1). reflexivity. }
  assert (HInt : ReadInt sf a w = ReadInt sf a w1) by apply Hop.
  assert (HBytes : ReadBytes sf a w = ReadBytes sf a w1) by apply Hop.
  exists w1. split; [exact Hs|]. split; [exact Hp1|]. split; [exact Hh1|].
  split; [exact Hl1|]. split; [exact Hq1|].
  split; [apply Hop|]. split; [intros off; apply Hop|]. split; [intros m; apply Hop|].
  split; [exact HInt|].
  split; [unfold ReadBool, bind; rewrite HInt; reflexivity|].
  split; [unfold ReadTime, bind; rewrite HInt; reflexivity|].
  split; [apply Hop|]. split; [exact HBytes|].
  unfold ReadString, bind. rewrite HBytes. reflexivity.
Qed.

Lemma operations_skip_open_children_witness :
  let w := mkWorld [mkDecoder false (-9) 0 0 (Some 1%nat);
                    mkDecoder false 2 7 0xA0 (Some 2%nat);
                    mkDecoder false 3 3 0xA1 None]
             [] [x01; x02; x03; x04; x05; x83; x81; x07] 4096 in
  fst (Next 2 0 w) = Ok (0x83, Some 3%nat).
Proof.
  intros w.
  destruct (operations_skip_open_children 2 0 (mkDecoder false (-9) 0 0 (Some 1%nat))
              [1%nat; 2%nat] w) as (w1 & Hs & _ & _ & _ & _ & HN & _).
  - reflexivity.
  - econstructor; [reflexivity|]. econstructor; [reflexivity|]. constructor.
  - apply (bool_decide_unpack _). vm_compute. exact I.
  - apply (bool_decide_unpack _). vm_compute. exact I.
  - cbn. lia.
  - vm_compute. discriminate.
  - rewrite HN. assert (E : w1 = snd (skip 2 0 w)) by (rewrite Hs; reflexivity).
    rewrite E. vm_compute. reflexivity.
Defined.

(** ** The table of a struct type *)

Lemma tag_ids_some (i : nat) (name : string) (seq : list Z) (f : fieldInfo) :
  tag_ids i name (map Some seq) (Some f)
  = Ok (Some (mkFieldInfo (fi_id f) (fi_index f) (fi_name f) (fi_seq f ++ seq))).
Proof.
  revert f. induction seq as [|x seq IH]; intros f.
  - cbn. rewrite app_nil_r. destruct f; reflexivity.
  - cbn [map tag_ids]. rewrite IH. cbn. rewrite <- app_assoc. reflexivity.
Qed.

Lemma all_some_map (l : list (option Z)) :
  forallb (fun o : option Z => bool_decide (is_Some o)) l = true ->
  l = map Some (omap (fun o => o) l).
Proof.
  induction l as [|[x|] l IH]; cbn; intros H; [reflexivity | | discriminate].
  f_equal. apply IH. exact H.
Qed.

Lemma tag_ids_none (i : nat) (name : string) (p : list (option Z)) (it : option fieldInfo) :
  forallb (fun o : option Z => bool_decide (is_Some o)) p = false ->
  tag_ids i name p it = Err (ErrOther "strconv.ParseInt: invalid syntax").
Proof.
  revert it. induction p as [|[x|] p IH]; intros it H; cbn in *; [discriminate | | reflexivity].
  apply IH. exact H.
Qed.

(** The inner loop against [descriptor]. *)
Lemma tag_ids_descriptor (i : nat) (f : structField) (p : list (option Z)) :
  tag_path f = Some p ->
  match tag_ids i (sf_name f) p None with
  | Ok (Some it) => descriptor i f = Some it
  | Ok None => p = []
  | Err _ => descriptor i f = None /\ ~ Forall is_Some p
  | NoFuel => False
  end.
Proof.
  intros Hp. unfold descriptor. rewrite Hp.
  destruct p as [|[id|] rest]; [reflexivity | |].
  - cbn [tag_ids].
    destruct (forallb (fun o : option Z => bool_decide (is_Some o)) rest) eqn:E.
    + pose proof (all_some_map rest E) as Hm.
      remember (omap (fun o : option Z => o) rest) as seq eqn:Hs. clear Hs.
      subst rest. rewrite tag_ids_some. reflexivity.
    + rewrite (tag_ids_none _ _ _ _ E). split; [reflexivity|].
      intros HF. apply Forall_cons in HF as [_ HF].
      assert (forallb (fun o : option Z => bool_decide (is_Some o)) rest = true); [|congruence].
      apply forallb_forall. intros o Ho. apply bool_decide_eq_true.
      rewrite Forall_forall in HF. apply HF. apply list_elem_of_In. exact Ho.
  - cbn. split; [reflexivity|]. intros HF. apply Forall_cons in HF as [[x Hx] _]. discriminate.
Qed.

Lemma struct_fields_skip (i : nat) (f : structField) (fs : list structField) (c : structInfo) :
  tag_path f = None -> struct_fields i (f :: fs) c = struct_fields (S i) fs c.
Proof.
  unfold tag_path. intros H. cbn [struct_fields].
  destruct (sf_exported f), (sf_anonymous f), (sf_tag f); cbn in *; congruence.
Qed.

Lemma struct_fields_step (i : nat) (f : structField) (fs : list structField)
  (c : structInfo) (p : list (option Z)) :
  tag_path f = Some p ->
  struct_fields i (f :: fs) c =
  match tag_ids i (sf_name f) p None with
  | Ok (Some it) =>
      struct_fields (S i) fs
        (mkStructInfo (si_fields c ++ [it]) (<[fi_id it := it]> (si_ids c)))
  | Ok None => Err (Panic "nil pointer dereference")
  | Err e => Err e
  | NoFuel => NoFuel
  end.
Proof.
  unfold tag_path. intros H. cbn [struct_fields].
  destruct (sf_exported f), (sf_anonymous f), (sf_tag f); cbn in *;
    try discriminate; injection H as <-; reflexivity.
Qed.

Lemma descriptor_tag_path (i : nat) (f : structField) :
  tag_path f = None -> descriptor i f = None.
Proof. intros H. unfold descriptor. rewrite H. reflexivity. Qed.

Lemma struct_fields_ok (fs : list structField) :
  forall (i : nat) (c s : structInfo),
    struct_fields i fs c = Ok s ->
    si_fields s = si_fields c ++ descriptors i fs /\
    si_ids s = fold_left (fun m f => <[fi_id f := f]> m) (descriptors i fs) (si_ids c).
Proof.
  induction fs as [|f fs IH]; intros i c s H.
  - cbn in H. injection H as <-. cbn. rewrite app_nil_r. split; reflexivity.
  - cbn [descriptors]. destruct (tag_path f) as [p|] eqn:Hp.
    + rewrite (struct_fields_step _ _ _ _ _ Hp) in H.
      pose proof (tag_ids_descriptor i f p Hp) as Hd.
      destruct (tag_ids i (sf_name f) p None) as [[it|]|e|]; try discriminate.
      rewrite Hd. destruct (IH _ _ _ H) as [H1 H2]. cbn in H1, H2.
      rewrite <- app_assoc in H1. split; assumption.
    + rewrite (struct_fields_skip _ _ _ _ Hp) in H.
      rewrite (descriptor_tag_path _ _ Hp). apply IH. exact H.
Qed.

Lemma struct_fields_total (fs : list structField) :
  forall (i : nat) (c : structInfo),
    (exists s, struct_fields i fs c = Ok s) <-> Forall readable_tag fs.
Proof.
  induction fs as [|f fs IH]; intros i c.
  - split; [constructor | intros _; eexists; reflexivity].
  - rewrite Forall_cons. destruct (tag_path f) as [p|] eqn:Hp.
    + rewrite (struct_fields_step _ _ _ _ _ Hp).
      pose proof (tag_ids_descriptor i f p Hp) as Hd.
      destruct (tag_ids i (sf_name f) p None) as [[it|]|e|] eqn:Et.
      * rewrite IH. split; [|intros [_ H]; exact H].
        intros H. split; [|exact H]. intros p' Hp'. rewrite Hp in Hp'. injection Hp' as <-.
        unfold descriptor in Hd. rewrite Hp in Hd.
        destruct p as [|[id|] rest]; try discriminate.
        split; [discriminate|].
        destruct (forallb _ rest) eqn:E; [|discriminate].
        constructor; [eexists; reflexivity|].
        apply Forall_forall. intros o Ho.
        apply list_elem_of_In in Ho.
        pose proof (proj1 (forallb_forall _ _) E o Ho) as Hb.
        apply bool_decide_eq_true in Hb. exact Hb.
      * split; [intros [s Hs]; discriminate|].
        intros [Hr _]. destruct (Hr p Hp) as [Hne _]. congruence.
      * split; [intros [s Hs]; discriminate|].
        intros [Hr _]. destruct (Hr p Hp) as [_ HF]. destruct Hd as [_ Hd]. contradiction.
      * contradiction.
    + rewrite (struct_fields_skip _ _ _ _ Hp), IH.
      split; [|intros [_ H]; exact H].
      intros H. split; [|exact H]. intros p' Hp'. congruence.
Qed.

Lemma fold_insert_lookup (ds : list fieldInfo) (m : gmap Z fieldInfo) (id : Z) :
  fold_left (fun m f => <[fi_id f := f]> m) ds m !! id
  = match last (filter (fun f => fi_id f = id) ds) with
    | Some f => Some f
    | None => m !! id
    end.
Proof.
  revert m. induction ds as [|x ds IH]; intros m; [reflexivity|].
  cbn [fold_left]. rewrite IH. rewrite filter_cons.
  destruct (decide (fi_id x = id)) as [E|E].
  - rewrite last_cons. destruct (last (filter _ ds)); [reflexivity|].
    rewrite E. apply lookup_insert_eq.
  - destruct (last (filter _ ds)); [reflexivity|]. apply lookup_insert_ne. exact E.
Qed.

Lemma descriptors_from_fields (fs : list structField) (i : nat) :
  Forall (fun f => exists k sfld, fi_index f = (i + k)%nat /\ fs !! k = Some sfld /\
                                  descriptor (fi_index f) sfld = Some f)
    (descriptors i fs).
Proof.
  revert i. induction fs as [|f fs IH]; intros i; [constructor|].
  assert (Hrest : Forall (fun x => exists k sfld, fi_index x = (i + k)%nat /\
                            (f :: fs) !! k = Some sfld /\ descriptor (fi_index x) sfld = Some x)
                    (descriptors (S i) fs)).
  { eapply Forall_impl; [apply IH|]. intros x (k & sfld & H1 & H2 & H3).
    exists (S k), sfld. split; [lia|]. split; assumption. }
  cbn [descriptors]. destruct (descriptor i f) as [x|] eqn:E; [|exact Hrest].
  constructor; [|exact Hrest].
  assert (Hi : fi_index x = i).
  { unfold descriptor in E. destruct (tag_path f) as [[|[id|] rest]|]; try discriminate.
    destruct (forallb _ rest); [|discriminate]. injection E as <-. reflexivity. }
  exists 0%nat, f. rewrite Hi. split; [lia|]. split; [reflexivity | exact E].
Qed.

(** X13.  The table [newStructInfo] makes of a struct type.  Its
    descriptors are those of the fields that are exported, not embedded
    and tagged, in the order of the fields; each holds the index and the
    name of its field, the first id of the tag, and the rest of the path.
    The id table maps an id to the last field whose tag starts with it:
    when two fields share a first id, the earlier one is never reached. *)
Theorem newStructInfo_table (env : tenv) (name : string) (vs : list value) (s : structInfo) :
  newStructInfo env (VStruct name vs) = Ok s ->
  si_fields s = descriptors 0 (s_fields (env name)) /\
  (forall id, si_ids s !! id = last (filter (fun f => fi_id f = id) (si_fields s))) /\
  Forall (fun f => exists sfld,
            s_fields (env name) !! fi_index f = Some sfld /\
            descriptor (fi_index f) sfld = Some f)
    (si_fields s).
Proof.
  unfold newStructInfo. intros H.
  destruct (struct_fields_ok _ _ _ _ H) as [H1 H2]. cbn in H1, H2.
  split; [exact H1|]. split.
  - intros id. rewrite H2, fold_insert_lookup, lookup_empty, H1.
    destruct (last _); reflexivity.
  - rewrite H1. eapply Forall_impl; [apply descriptors_from_fields|].
    intros f (k & sfld & Hk & Hl & Hd). exists sfld. cbn in Hk. subst k. split; assumption.
Qed.

Lemma newStructInfo_table_witness :
  exists s,
    newStructInfo example_env Outer_zero = Ok s /\
    si_ids s !! 0xA1 = Some (mkFieldInfo 0xA1 2 "L" [0x84]) /\
    si_ids s !! 0x84 = None.
Proof.
  destruct (newStructInfo example_env Outer_zero) as [s|e|] eqn:E;
    try (vm_compute in E; discriminate).
  exists s. split; [reflexivity|].
  destruct (newStructInfo_table example_env "Outer" _ s E) as (H1 & H2 & _).
  rewrite !H2, H1. split; reflexivity.
Defined.

(** X14.  [newStructInfo] succeeds exactly when every field it looks at
    has a tag it can read: a path that is not empty and whose ids all
    parse.  Otherwise it returns an error, and so does
    [typeCodec.UnmarshalEBML], before a byte of the stream is read and
    with the value untouched. *)
Theorem newStructInfo_succeeds_iff (env : tenv) (name : string) (vs : list value) :
  ((exists s, newStructInfo env (VStruct name vs) = Ok s)
   <-> Forall readable_tag (s_fields (env name))) /\
  (~ Forall readable_tag (s_fields (env name)) ->
   exists e,
     newStructInfo env (VStruct name vs) = Err e /\
     forall sf fuel a w,
       UnmarshalEBML env sf fuel (VStruct name vs) a w = (VStruct name vs, Err e, w)).
Proof.
  split; [apply struct_fields_total|].
  intros Hbad.
  destruct (newStructInfo env (VStruct name vs)) as [s|e|] eqn:E.
  - exfalso. apply Hbad. apply (struct_fields_total _ 0%nat (mkStructInfo [] ∅)).
    exists s. exact E.
  - exists e. split; [reflexivity|]. intros sf fuel a w. unfold UnmarshalEBML.
    rewrite E. reflexivity.
  - exfalso. unfold newStructInfo in E. revert E.
    generalize 0%nat (mkStructInfo [] ∅). generalize (s_fields (env name)).
    clear. intros fs. induction fs as [|f fs IH]; intros i c; [discriminate|].
    destruct (tag_path f) as [p|] eqn:Hp.
    + rewrite (struct_fields_step _ _ _ _ _ Hp).
      pose proof (tag_ids_descriptor i f p Hp) as Hd.
      destruct (tag_ids i (sf_name f) p None) as [[it|]|e|]; try discriminate;
        [apply IH | contradiction].
    + rewrite (struct_fields_skip _ _ _ _ Hp). apply IH.
Qed.

(** ** Tags *)

Lemma split_on_app (sep : Ascii.ascii) (s o : string) :
  ~ In sep (list_ascii_of_string s) ->
  split_on sep (s ++ String sep o) = s :: split_on sep o.
Proof.
  induction s as [|c s IH]; intros Hn.
  - change (""%string +:+ String sep o) with (String sep o). cbn [split_on].
    rewrite Ascii.eqb_refl. reflexivity.
  - cbn in Hn.
    change (String c s +:+ String sep o) with (String c (s +:+ String sep o)).
    cbn [split_on].
    destruct (Ascii.eqb_spec c sep) as [->|Hne]; [exfalso; apply Hn; left; reflexivity|].
    rewrite IH by (intros H; apply Hn; right; exact H). reflexivity.
Qed.

Lemma split_on_none (sep : Ascii.ascii) (s : string) :
  ~ In sep (list_ascii_of_string s) -> split_on sep s = [s].
Proof.
  induction s as [|c s IH]; intros Hn; [reflexivity|].
  cbn in Hn. cbn [split_on].
  destruct (Ascii.eqb_spec c sep) as [->|Hne]; [exfalso; apply Hn; left; reflexivity|].
  rewrite IH by (intros H; apply Hn; right; exact H). reflexivity.
Qed.

(** X15.  Of a tag only the part before the first comma counts: the
    options that follow ([omitempty] and the like) change nothing in
    what [newStructInfo] reads, which is the ids between the [>] signs,
    each parsed in base 16. *)
Theorem parse_tag_ignores_options (s o : string) :
  ~ In char_comma (list_ascii_of_string s) ->
  parse_tag (s ++ String char_comma o) = TagPath (map ParseInt16 (split_on char_gt s)) /\
  (s <> ""%string -> s <> "-"%string ->
   parse_tag s = TagPath (map ParseInt16 (split_on char_gt s))).
Proof.
  intros Hn. split.
  - unfold parse_tag. rewrite (split_on_app _ _ _ Hn).
    replace (String.eqb (s ++ String char_comma o) "" || String.eqb (s ++ String char_comma o) "-")
      with false; [reflexivity|].
    symmetry. apply orb_false_iff. split; apply String.eqb_neq.
    + destruct s; discriminate.
    + destruct s as [|c [|c' s]]; cbn; discriminate.
  - intros H1 H2. unfold parse_tag. rewrite (split_on_none _ _ Hn).
    apply String.eqb_neq in H1, H2. rewrite H1, H2. reflexivity.
Qed.

Lemma parse_tag_ignores_options_witness :
  parse_tag "1654AE6B>AE,omitempty" = TagPath [Some 0x1654AE6B; Some 0xAE] /\
  parse_tag "1654AE6B>AE" = TagPath [Some 0x1654AE6B; Some 0xAE].
Proof.
  destruct (parse_tag_ignores_options "1654AE6B>AE" "omitempty") as [H1 H2].
  - vm_compute. intuition discriminate.
  - split; [exact H1|]. apply H2; discriminate.
Defined.

(** ** The Matroska schema *)

Lemma id_width_encodable (id : Z) :
  is_Some (id_width id) -> exists w, encodable IdKind w id.
Proof.
  intros [w Hw]. unfold id_width in Hw. apply find_some in Hw as [Hin Hc].
  apply andb_true_iff in Hc as [H1 H2]. apply Z.leb_le in H1. apply Z.ltb_lt in H2.
  exists w. split; [|split; assumption].
  clear - Hin. cbn in Hin. lia.
Qed.

(** X16.  For every struct type of the Matroska schema [newStructInfo]
    succeeds: all tags parse.  Every tagged field gets a descriptor, no
    two fields of a type share their first id, so the id table loses no
    field, and every id of every path is a value [readVint] returns for
    some id of 1 to 8 bytes: it carries the marker of its width. *)
Theorem matroska_schema_tables (name : string) (vs : list value) :
  exists s,
    newStructInfo matroska_env (VStruct name vs) = Ok s /\
    length (si_fields s) = length (filter (fun f => has_tag f = true) (s_fields (matroska_env name))) /\
    NoDup (map fi_id (si_fields s)) /\
    Forall (fun f => Forall (fun id => exists w, encodable IdKind w id) (fi_id f :: fi_seq f))
      (si_fields s).
Proof.
  set (check := fun d : structDecl =>
         match struct_fields 0 (s_fields d) (mkStructInfo [] ∅) with
         | Ok s =>
             (length (si_fields s) =? length (filter (fun f => has_tag f = true) (s_fields d)))%nat
             && bool_decide (NoDup (map fi_id (si_fields s)))
             && forallb (fun f => forallb (fun id => bool_decide (is_Some (id_width id)))
                                    (fi_id f :: fi_seq f)) (si_fields s)
         | _ => false
         end).
  assert (Hall : forallb check (map snd matroska_schema) = true) by (vm_compute; reflexivity).
  assert (Hdecl : check (matroska_env name) = true).
  { unfold matroska_env. destruct (find _ matroska_schema) as [p|] eqn:E; [|reflexivity].
    apply find_some in E as [Hin _].
    apply (proj1 (forallb_forall _ _) Hall). apply in_map. exact Hin. }
  clear Hall. unfold check, newStructInfo in *. clear check.
  destruct (struct_fields 0 (s_fields (matroska_env name)) (mkStructInfo [] ∅)) as [s|e|];
    [|discriminate Hdecl..].
  apply andb_true_iff in Hdecl as [Hdecl H3]. apply andb_true_iff in Hdecl as [H1 H2].
  exists s. split; [reflexivity|]. split; [apply Nat.eqb_eq; exact H1|].
  split; [apply bool_decide_eq_true in H2; exact H2|].
  apply Forall_forall. intros f Hf. apply Forall_forall. intros id Hid.
  apply list_elem_of_In in Hf, Hid.
  pose proof (proj1 (forallb_forall _ _) H3 f Hf) as Hff.
  pose proof (proj1 (forallb_forall _ _) Hff id Hid) as Hb.
  apply bool_decide_eq_true in Hb. apply id_width_encodable. exact Hb.
Qed.

Lemma unsupported_zero (env : tenv) (t : rtype) :
  supported t = false -> exists v, forall n, zero n env t = Some v.
Proof.
  destruct t as [k|k| |s| | |name|e|e|kd]; cbn; try discriminate; intros H.
  - exists (VPtr e None). intros [|n]; reflexivity.
  - destruct e as [k|k| |s| | |name|e|e|kd];
      try (eexists; intros [|n]; reflexivity).
    destruct k; try discriminate; eexists; intros [|n]; reflexivity.
  - eexists. intros [|n]; reflexivity.
Qed.

Lemma unsupported_decode (env : tenv) (sf : nat) (k : nat) :
  forall (t : rtype),
    (rdepth t <= k)%nat ->
    supported t = false ->
    forall (n fuel a : nat) (v : value) (w : world),
      zero n env t = Some v ->
      (rdepth t <= fuel)%nat ->
      exists v' msg, decode env sf fuel v a w = (v', Err (ErrOther msg), w).
Proof.
  induction k as [|k IH]; intros t Hk Hs n fuel a v w Hz Hf.
  { destruct t; cbn in Hk; lia. }
  destruct (unsupported_zero env t Hs) as (v0 & Hv0).
  rewrite Hv0 in Hz. injection Hz as <-. pose proof (Hv0 0%nat) as Hz. clear Hv0 n.
  destruct t as [ik|ik| |s| | |name|e|e|kd]; cbn [supported] in Hs; try discriminate.
  - cbn in Hz. injection Hz as <-. cbn [rdepth] in Hf.
    destruct fuel as [|fuel]; [lia|]. cbn [decode]. rewrite Hs. cbn.
    eexists _, _. reflexivity.
  - cbn [rdepth] in Hf, Hk. destruct fuel as [|fuel]; [lia|].
    assert (Hv : v0 = VSlice e []).
    { destruct e as [ik|ik| |s| | |name|e'|e'|kd]; cbn in Hz; try congruence.
      destruct ik; cbn in Hz; try congruence; discriminate. }
    subst v0. cbn [decode].
    destruct e as [ik|ik| |s| | |name|e'|e'|kd]; try discriminate;
      try (eexists _, _; reflexivity).
    + destruct ik; try discriminate; eexists _, _; reflexivity.
    + destruct ik; try discriminate; eexists _, _; reflexivity.
    + (* a slice of pointers: the item is made, then its decoding fails *)
      cbn [rdepth] in Hf, Hk.
      destruct (unsupported_zero env e' Hs) as (it & Hit).
      rewrite Hit.
      assert (Hu : implements_Unmarshaler env (TPtr e') = false).
      { destruct e'; try reflexivity. discriminate. }
      rewrite Hu.
      destruct (IH e' ltac:(lia) Hs 0%nat fuel a it w (Hit 0%nat) ltac:(lia)) as (v' & msg & Hd).
      rewrite Hd. eexists _, _. reflexivity.
  - cbn in Hz. injection Hz as <-. destruct fuel as [|fuel]; [cbn in Hf; lia|].
    cbn [decode]. eexists _, _. reflexivity.
Qed.

(** X17.  A field whose type [decode] has no case for cannot be decoded:
    whatever the element holds, the result is an error and no byte is
    read.  In the Matroska schema there is one such field,
    [Cluster.SilentTracks] of type [[]int]: a cluster that holds a
    SilentTrackNumber element fails to decode. *)
Theorem unsupported_field_types (env : tenv) (sf : nat) :
  (forall (t : rtype) (n fuel a : nat) (v : value) (w : world),
     supported t = false ->
     zero n env t = Some v ->
     (rdepth t <= fuel)%nat ->
     exists v' msg, decode env sf fuel v a w = (v', Err (ErrOther msg), w)) /\
  schema_unsupported = [("Cluster"%string, "SilentTracks"%string)] /\
  (let cluster := VStruct "Cluster"
                    [VInt K64 0; VSlice (TInt Kword) []; VInt K64 0; VInt K64 0;
                     VSlice (TPtr (TStruct "Block")) []; VSlice (TPtr (TStruct "BlockGroup")) []] in
   zero 1 matroska_env (TStruct "Cluster") = Some cluster /\
   snd (fst (UnmarshalEBML matroska_env 2 4 cluster 0
               (NewDecoder false 0 4096 [xe7; x81; x05; x58; x54; x83; x58; xd7; x81; x01])))
   = Err (ErrOther "ebml: unsupported slice type")).
Proof.
  split; [|split].
  - intros t n fuel a v w Hs Hz Hf.
    apply (unsupported_decode env sf (rdepth t) t (Nat.le_refl _) Hs n fuel a v w Hz Hf).
  - vm_compute. reflexivity.
  - split; vm_compute; reflexivity.
Qed.

(** ** Decoding the payload of an element *)

Lemma ReadInt_format_error (fuel a : nat) (d : Decoder) (w : world) :
  w_heap w !! a = Some d ->
  quiet_chain (w_heap w) a fuel (d_elem d) ->
  d_len d < 1 \/ 8 < d_len d ->
  ReadInt fuel a w = (Err ErrFormat, w).
Proof.
  intros Hl Hq H. unfold ReadInt.
  rewrite (bind_Ok _ _ _ _ _ (skip_quiet _ _ _ _ Hl Hq)).
  rewrite (bind_Ok _ _ _ _ _ (get_dec_Some _ _ _ Hl)).
  replace ((d_len d <? 1) || (8 <? d_len d)) with true; [reflexivity|].
  symmetry. apply orb_true_iff. rewrite !Z.ltb_lt. exact H.
Qed.

Lemma ReadFloat_format_error (fuel a : nat) (d : Decoder) (w : world) :
  w_heap w !! a = Some d ->
  quiet_chain (w_heap w) a fuel (d_elem d) ->
  d_len d <> 4 -> d_len d <> 8 ->
  ReadFloat fuel a w = (Err ErrFormat, w).
Proof.
  intros Hl Hq H4 H8. unfold ReadFloat.
  rewrite (bind_Ok _ _ _ _ _ (skip_quiet _ _ _ _ Hl Hq)).
  rewrite (bind_Ok _ _ _ _ _ (get_dec_Some _ _ _ Hl)).
  apply Z.eqb_neq in H4, H8. rewrite H4, H8. reflexivity.
Qed.

Lemma ReadFloat_run (fuel a : nat) (d : Decoder) (w : world) :
  w_heap w !! a = Some d ->
  quiet_chain (w_heap w) a fuel (d_elem d) ->
  d_len d = 4 \/ d_len d = 8 ->
  d_len d <= Z.of_nat (length (pending w)) ->
  exists w',
    ReadFloat fuel a w
    = (Ok (if d_len d =? 4 then F32frombits (be_uint (take 4 (pending w)))
           else F64frombits (be_uint (take 8 (pending w)))), w') /\
    pending w' = drop (Z.to_nat (d_len d)) (pending w) /\
    w_heap w' = <[a := with_len d 0]> (w_heap w) /\
    w_cap w' = w_cap w.
Proof.
  intros Hl Hq Hn Hp. unfold ReadFloat.
  rewrite (bind_Ok _ _ _ _ _ (skip_quiet _ _ _ _ Hl Hq)).
  rewrite (bind_Ok _ _ _ _ _ (get_dec_Some _ _ _ Hl)).
  pose proof (cap_ge_16 w) as Hcap.
  assert (Hstep : forall (n : nat) (mk : Z -> float64),
            d_len d = Z.of_nat n -> (n <= 16)%nat ->
            exists w',
              (let* v := (let* b := Peek n in ret (mk (be_uint b))) in
               Discard (d_len d) >> set_len a 0 >> ret v) w
              = (Ok (mk (be_uint (take n (pending w)))), w') /\
              pending w' = drop (Z.to_nat (d_len d)) (pending w) /\
              w_heap w' = <[a := with_len d 0]> (w_heap w) /\
              w_cap w' = w_cap w).
  { intros n mk Hd Hn16.
    destruct (Peek_ok n w) as (w1 & HP & Hp1 & Hs1 & Hc1); [lia | lia |].
    assert (HP' : (let* b := Peek n in ret (mk (be_uint b))) w
                  = (Ok (mk (be_uint (take n (pending w)))), w1)).
    { rewrite (bind_Ok _ _ _ _ _ HP). reflexivity. }
    rewrite (bind_Ok _ _ _ _ _ HP').
    destruct (Discard_ok (d_len d) w1) as (w2 & HD & Hp2 & Hs2 & Hc2); [rewrite Hp1; lia|].
    rewrite (bind_Ok _ _ _ _ _ HD).
    assert (Hl2 : w_heap w2 !! a = Some d) by (rewrite Hs2, Hs1; exact Hl).
    rewrite (bind_Ok _ _ _ _ _ (set_len_Some a 0 d w2 Hl2)).
    eexists. split; [reflexivity|].
    split; [rewrite pending_set_heap, Hp2, Hp1; reflexivity|].
    split; [cbn; rewrite Hs2, Hs1; reflexivity|].
    cbn. rewrite Hc2, Hc1. reflexivity. }
  destruct Hn as [E|E]; rewrite E in *; cbn [Z.eqb Pos.eqb].
  - apply (Hstep 4%nat F32frombits); [reflexivity | lia].
  - apply (Hstep 8%nat F64frombits); [reflexivity | lia].
Qed.

Lemma ReadInt_reads (fuel a : nat) (d : Decoder) (w : world) (p t : list byte) :
  w_heap w !! a = Some d ->
  quiet_chain (w_heap w) a fuel (d_elem d) ->
  d_len d = Z.of_nat (length p) ->
  pending w = p ++ t ->
  reads (ReadInt fuel a) (payload_int p) a d w t.
Proof.
  intros Hl Hq Hn Hp. unfold payload_int, reads.
  destruct ((1 <=? length p)%nat && (length p <=? 8)%nat) eqn:E.
  - apply andb_true_iff in E as [E1 E2]. apply Nat.leb_le in E1, E2.
    destruct (ReadInt_run fuel a d w Hl Hq) as (w' & H & Hp' & Hh' & Hc');
      [lia | rewrite Hp, length_app; lia |].
    rewrite Hn, Nat2Z.id, Hp in H, Hp'.
    rewrite take_app_length in H. rewrite drop_app_length in Hp'.
    exists w'. repeat split; assumption.
  - exists w. split; [|reflexivity].
    apply (ReadInt_format_error fuel a d w Hl Hq).
    apply andb_false_iff in E as [E|E]; apply Nat.leb_gt in E; lia.
Qed.

Lemma ReadFloat_reads (fuel a : nat) (d : Decoder) (w : world) (p t : list byte) :
  w_heap w !! a = Some d ->
  quiet_chain (w_heap w) a fuel (d_elem d) ->
  d_len d = Z.of_nat (length p) ->
  pending w = p ++ t ->
  reads (ReadFloat fuel a) (payload_float p) a d w t.
Proof.
  intros Hl Hq Hn Hp. unfold payload_float, reads.
  destruct (Nat.eqb_spec (length p) 4) as [E4|E4];
    [|destruct (Nat.eqb_spec (length p) 8) as [E8|E8]].
  - destruct (ReadFloat_run fuel a d w Hl Hq) as (w' & H & Hp' & Hh' & Hc');
      [lia | rewrite Hp, length_app; lia |].
    assert (Hd : d_len d = 4) by lia. rewrite Hd in H, Hp'.
    cbn [Z.eqb Pos.eqb] in H. change (Z.to_nat 4) with 4%nat in Hp'. rewrite Hp in H, Hp'.
    rewrite (take_app_length' p t 4) in H by lia.
    rewrite (drop_app_length' p t 4) in Hp' by lia.
    exists w'. repeat split; assumption.
  - destruct (ReadFloat_run fuel a d w Hl Hq) as (w' & H & Hp' & Hh' & Hc');
      [lia | rewrite Hp, length_app; lia |].
    assert (Hd : d_len d = 8) by lia. rewrite Hd in H, Hp'.
    cbn [Z.eqb Pos.eqb] in H. change (Z.to_nat 8) with 8%nat in Hp'. rewrite Hp in H, Hp'.
    rewrite (take_app_length' p t 8) in H by lia.
    rewrite (drop_app_length' p t 8) in Hp' by lia.
    exists w'. repeat split; assumption.
  - exists w. split; [|reflexivity].
    apply (ReadFloat_format_error fuel a d w Hl Hq); lia.
Qed.

Lemma ReadBytes_reads (fuel a : nat) (d : Decoder) (w : world) (p t : list byte) :
  w_heap w !! a = Some d ->
  quiet_chain (w_heap w) a fuel (d_elem d) ->
  d_len d = Z.of_nat (length p) ->
  pending w = p ++ t ->
  reads (ReadBytes fuel a) (payload_bytes p) a d w t.
Proof.
  intros Hl Hq Hn Hp. unfold payload_bytes, reads.
  change maxBufferSize with (2 ^ 20).
  destruct (Z.leb_spec (Z.of_nat (length p)) (2 ^ 20)) as [E|E].
  - destruct (ReadBytes_payload fuel a d w Hl Hq) as (w' & H & Hp' & Hh' & Hc');
      [lia | rewrite Hp, length_app; lia |].
    rewrite Hn, Nat2Z.id, Hp in H, Hp'.
    rewrite take_app_length in H. rewrite drop_app_length in Hp'.
    exists w'. repeat split; assumption.
  - exists w. split; [|reflexivity].
    apply (ReadBytes_format_error fuel a d w Hl Hq). lia.
Qed.

Lemma store_reads {A} (m : M A) (r : result A) (a : nat) (d : Decoder) (w : world)
  (t : list byte) (v : value) (f : A -> value) :
  reads m r a d w t ->
  exists w',
    store v (m w) f = (fst (stored v r f), snd (stored v r f), w') /\
    match snd (stored v r f) with
    | Ok _ => pending w' = t /\ w_heap w' = <[a := with_len d 0]> (w_heap w) /\
              w_cap w' = w_cap w
    | _ => w' = w
    end.
Proof.
  intros (w' & Hm & Hw). rewrite Hm. exists w'.
  destruct r as [x|e|]; cbn; split; first [reflexivity | exact Hw].
Qed.

Lemma ReadBool_reads (fuel a : nat) (d : Decoder) (w : world) (p t : list byte) :
  w_heap w !! a = Some d ->
  quiet_chain (w_heap w) a fuel (d_elem d) ->
  d_len d = Z.of_nat (length p) ->
  pending w = p ++ t ->
  reads (ReadBool fuel a)
        (match payload_int p with
         | Ok i => Ok (negb (i =? 0)) | Err e => Err e | NoFuel => NoFuel
         end) a d w t.
Proof.
  intros Hl Hq Hn Hp.
  destruct (ReadInt_reads fuel a d w p t Hl Hq Hn Hp) as (w' & H & Hw).
  exists w'. unfold ReadBool, bind. rewrite H.
  destruct (payload_int p) as [i|e|]; split; first [reflexivity | exact Hw].
Qed.

Lemma ReadTime_reads (fuel a : nat) (d : Decoder) (w : world) (p t : list byte) :
  w_heap w !! a = Some d ->
  quiet_chain (w_heap w) a fuel (d_elem d) ->
  d_len d = Z.of_nat (length p) ->
  pending w = p ++ t ->
  reads (ReadTime fuel a) (payload_int p) a d w t.
Proof.
  intros Hl Hq Hn Hp.
  destruct (ReadInt_reads fuel a d w p t Hl Hq Hn Hp) as (w' & H & Hw).
  exists w'. unfold ReadTime, bind. rewrite H.
  destruct (payload_int p) as [i|e|]; split; first [reflexivity | exact Hw].
Qed.

Lemma ReadString_reads (fuel a : nat) (d : Decoder) (w : world) (p t : list byte) :
  w_heap w !! a = Some d ->
  quiet_chain (w_heap w) a fuel (d_elem d) ->
  d_len d = Z.of_nat (length p) ->
  pending w = p ++ t ->
  reads (ReadString fuel a) (payload_bytes p) a d w t.
Proof.
  intros Hl Hq Hn Hp.
  destruct (ReadBytes_reads fuel a d w p t Hl Hq Hn Hp) as (w' & H & Hw).
  exists w'. unfold ReadString, bind. rewrite H.
  destruct (payload_bytes p) as [i|e|]; split; first [reflexivity | exact Hw].
Qed.

(** [decode] on an element of payload [p], into a value of a primitive
    kind, a byte slice or a slice of [int64]. *)
Lemma decode_leaf_run (env : tenv) (sf fuel c : nat) (dc : Decoder) (w : world)
  (v v' : value) (p t : list byte) (r : result unit) :
  w_heap w !! c = Some dc ->
  quiet_chain (w_heap w) c sf (d_elem dc) ->
  d_len dc = Z.of_nat (length p) ->
  pending w = p ++ t ->
  leaf v p = Some (v', r) ->
  exists w',
    decode env sf (S fuel) v c w = (v', r, w') /\
    match r with
    | Ok _ => pending w' = t /\ w_heap w' = <[c := with_len dc 0]> (w_heap w) /\
              w_cap w' = w_cap w
    | _ => w' = w
    end.
Proof.
  intros Hl Hq Hn Hp Hleaf.
  pose proof (ReadInt_reads sf c dc w p t Hl Hq Hn Hp) as HI.
  pose proof (ReadBool_reads sf c dc w p t Hl Hq Hn Hp) as HB.
  pose proof (ReadTime_reads sf c dc w p t Hl Hq Hn Hp) as HT.
  pose proof (ReadFloat_reads sf c dc w p t Hl Hq Hn Hp) as HF.
  pose proof (ReadBytes_reads sf c dc w p t Hl Hq Hn Hp) as HY.
  pose proof (ReadString_reads sf c dc w p t Hl Hq Hn Hp) as HS.
  assert (Hgo : forall (A : Type) (m : M A) (ra : result A) (f : A -> value),
            reads m ra c dc w t ->
            (v', r) = stored v ra f ->
            exists w',
              store v (m w) f = (v', r, w') /\
              match r with
              | Ok _ => pending w' = t /\ w_heap w' = <[c := with_len dc 0]> (w_heap w) /\
                        w_cap w' = w_cap w
              | _ => w' = w
              end).
  { intros A m ra f Hr E. destruct (store_reads m ra c dc w t v f Hr) as (w' & H1 & H2).
    rewrite <- E in H1, H2. exists w'. split; assumption. }
  destruct v as [k i|k u|b|s f|s|tm|name fs|e q|b|e items|kd]; cbn in Hleaf;
    try discriminate; cbn [decode].
  - injection Hleaf as E. apply (Hgo _ _ _ _ HI). symmetry. exact E.
  - injection Hleaf as E. apply (Hgo _ _ _ _ HI). symmetry. exact E.
  - injection Hleaf as E.
    destruct (Hgo _ _ _ VBool HB) as (w' & H1 & H2).
    { rewrite <- E. destruct (payload_int p); reflexivity. }
    exists w'. split; assumption.
  - injection Hleaf as E. apply (Hgo _ _ _ _ HF). symmetry. exact E.
  - injection Hleaf as E. apply (Hgo _ _ _ _ HS). symmetry. exact E.
  - injection Hleaf as E. apply (Hgo _ _ _ _ HT). symmetry. exact E.
  - injection Hleaf as E. apply (Hgo _ _ _ _ HY). symmetry. exact E.
  - destruct e as [k|k| |s| | |name|e'|e'|kd]; try discriminate.
    + destruct k; try discriminate. injection Hleaf as E.
      apply (Hgo _ _ _ _ HI). symmetry. exact E.
    + destruct k; try discriminate. injection Hleaf as E.
      apply (Hgo _ _ _ _ HY). symmetry. exact E.
Qed.

(** ** The struct decoder on the bytes of an element tree *)

Lemma tidy_None (h : list Decoder) (lo n : nat) : tidy h lo n None.
Proof.
  exists []. split; [constructor|]. split; [cbn; lia|]. split; [constructor|].
  intros x d Hx. inversion Hx.
Qed.

Lemma tidy_mono (h : list Decoder) (lo n n' : nat) (o : option nat) :
  (n <= n')%nat -> tidy h lo n o -> tidy h lo n' o.
Proof.
  intros Hn (l & Hc & Hl & Hlo & Hz). exists l. repeat split; try assumption. lia.
Qed.

Lemma tidy_quiet (h : list Decoder) (lo n sf a : nat) (o : option nat) :
  tidy h lo n o -> (a < lo)%nat -> (n <= sf)%nat -> quiet_chain h a sf o.
Proof.
  intros (l & Hc & Hl & Hlo & Hz) Ha Hn.
  apply (chain_quiet h a sf o l Hc); [|lia | exact Hz].
  intros Hin. rewrite Forall_forall in Hlo. specialize (Hlo a Hin). lia.
Qed.

Lemma chain_frame (h h' : list Decoder) (lo : nat) (o : option nat) (l : list nat) :
  chain h o l ->
  Forall (fun x => (lo <= x)%nat) l ->
  (forall x, (lo <= x)%nat -> (x < length h)%nat -> h' !! x = h !! x) ->
  chain h' o l.
Proof.
  intros Hc Hlo Hf. induction Hc as [|e d l Hl Hc IH]; [constructor|].
  apply Forall_cons in Hlo as [He Hlo].
  econstructor; [|apply IH; exact Hlo].
  rewrite Hf; [exact Hl | exact He | eapply lookup_lt_Some; exact Hl].
Qed.

Lemma tidy_frame (h h' : list Decoder) (lo n : nat) (o : option nat) :
  tidy h lo n o ->
  (forall x, (lo <= x)%nat -> (x < length h)%nat -> h' !! x = h !! x) ->
  tidy h' lo n o.
Proof.
  intros (l & Hc & Hl & Hlo & Hz) Hf. exists l.
  split; [eapply chain_frame; eassumption|]. split; [exact Hl|]. split; [exact Hlo|].
  intros x d Hx Hd. apply (Hz x d Hx).
  destruct (chain_lookup _ _ _ _ Hc Hx) as [d0 Hd0].
  rewrite <- Hf; [exact Hd | | eapply lookup_lt_Some; exact Hd0].
  rewrite Forall_forall in Hlo. apply Hlo. exact Hx.
Qed.

Lemma tidy_cons (h : list Decoder) (lo lo' n c : nat) (dc : Decoder) :
  (lo <= c)%nat -> (lo <= lo')%nat ->
  h !! c = Some dc -> d_len dc <= 0 ->
  tidy h lo' n (d_elem dc) ->
  tidy h lo (S n) (Some c).
Proof.
  intros Hc Hlo Hl Hz (l & Hch & Hn & Hlo' & Hcl).
  exists (c :: l). split; [econstructor; eassumption|]. split; [cbn; lia|].
  split.
  - constructor; [exact Hc|]. eapply Forall_impl; [exact Hlo'|]. cbn. intros; lia.
  - intros x d Hx Hd. apply elem_of_cons in Hx as [->|Hx].
    + rewrite Hl in Hd. injection Hd as <-. exact Hz.
    + apply (Hcl x d Hx Hd).
Qed.

Lemma advanced_refl (a : nat) (d : Decoder) (w : world) : advanced a d d 0 w w.
Proof.
  unfold advanced. repeat split; try reflexivity. intros _. lia.
Qed.

Lemma advanced_trans (a : nat) (d d1 d2 : Decoder) (t1 t2 : Z) (w w1 w2 : world) :
  advanced a d d1 t1 w w1 -> advanced a d1 d2 t2 w1 w2 ->
  advanced a d d2 (t1 + t2) w w2.
Proof.
  intros (Hc1 & Hl1 & Hf1 & Hs1 & Hr1 & Hi1 & Hn1) (Hc2 & Hl2 & Hf2 & Hs2 & Hr2 & Hi2 & Hn2).
  unfold advanced. split; [congruence|]. split; [lia|]. split.
  - intros x Hx Hne. rewrite Hf2 by (try lia; exact Hne). apply Hf1; assumption.
  - split; [congruence|]. split; [congruence|]. split; [congruence|].
    intros Hs. rewrite Hn2 by (rewrite Hs1; exact Hs). rewrite Hn1 by exact Hs. lia.
Qed.

(** [Next] where the elements of a cursor end. *)
Lemma Next_end (sf a : nat) (d : Decoder) (w : world) :
  w_heap w !! a = Some d ->
  quiet_chain (w_heap w) a sf (d_elem d) ->
  pending w = [] \/ (0 < d_size d /\ d_len d <= 0) ->
  exists w',
    Next sf a w = (Err EOF, w') /\
    pending w' = pending w /\ w_heap w' = w_heap w /\ w_cap w' = w_cap w.
Proof.
  intros Hl Hq Hend.
  assert (Hskip := skip_quiet _ _ _ _ Hl Hq).
  assert (Hrv : exists w', readVint sf a 0 w = (Err EOF, w') /\
                  pending w' = pending w /\ w_heap w' = w_heap w /\ w_cap w' = w_cap w).
  { unfold readVint. rewrite (bind_Ok _ _ _ _ _ Hskip).
    rewrite (bind_Ok _ _ _ _ _ (get_dec_Some _ _ _ Hl)).
    destruct ((d_len d <? 1) && (0 <? d_size d)) eqn:E.
    - exists w. repeat split; reflexivity.
    - assert (Hp : pending w = []).
      { destruct Hend as [Hp|[Hs Hn]]; [exact Hp|].
        apply andb_false_iff in E as [E|E]; apply Z.ltb_ge in E; lia. }
      destruct (ReadByte_nil w Hp) as (w' & Hrb & Hp' & Hh' & Hc').
      exists w'. rewrite (bind_Err _ _ _ _ _ Hrb). rewrite Hp, Hp'. repeat split; assumption. }
  destruct Hrv as (w' & Hrv & Hw). exists w'. split; [|exact Hw].
  unfold Next. rewrite (bind_Ok _ _ _ _ _ Hskip), (bind_Err _ _ _ _ _ Hrv). reflexivity.
Qed.

Lemma encode_tree_payload (e : etree) :
  encode_tree e
  = encode_vint IdKind (e_wi e) (e_id e)
    ++ encode_vint SizeKind (e_ws e) (Z.of_nat (length (payload e)))
    ++ payload e.
Proof. destruct e; reflexivity. Qed.

Lemma wf_tree_header (e : etree) :
  wf_tree e ->
  encodable IdKind (e_wi e) (e_id e) /\
  encodable SizeKind (e_ws e) (Z.of_nat (length (payload e))).
Proof. intros H. inversion H; subst; cbn; split; assumption. Qed.

Lemma length_encode_tree (e : etree) :
  Z.of_nat (length (encode_tree e))
  = Z.of_nat (e_wi e) + Z.of_nat (e_ws e) + Z.of_nat (length (payload e)).
Proof.
  rewrite encode_tree_payload, !length_app, !length_encode_vint. lia.
Qed.

Lemma encode_trees_cons (e : etree) (es : list etree) :
  encode_trees (e :: es) = encode_tree e ++ encode_trees es.
Proof. reflexivity. Qed.

Lemma encodable_size_bound (ws : nat) (n : Z) :
  encodable SizeKind ws n -> 0 <= n < 2 ^ 56.
Proof.
  intros [Hw Hn]. assert (2 ^ (7 * Z.of_nat ws) <= 2 ^ 56) by (apply Z.pow_le_mono_r; lia).
  lia.
Qed.

(** A leaf-like run on a fresh child: the payload consumed, the child
    closed, nothing else touched. *)
Lemma closed_passed (c : nat) (dc : Decoder) (n : nat) (total : Z) (t : list byte)
  (w w' : world) :
  w_heap w !! c = Some dc ->
  d_elem dc = None ->
  d_len dc = total ->
  pending w' = t ->
  w_heap w' = <[c := with_len dc 0]> (w_heap w) ->
  w_cap w' = w_cap w ->
  passed c (length (w_heap w)) n dc total t w w'.
Proof.
  intros Hl He Hn Hp Hh Hc.
  assert (Hlt : (c < length (w_heap w))%nat) by (eapply lookup_lt_Some; exact Hl).
  split; [exact Hp|]. exists (with_len dc 0). split.
  - split; [rewrite Hh; apply list_lookup_insert_eq; exact Hlt|].
    split; [rewrite Hh, length_insert; lia|].
    split; [cbn; rewrite He; apply tidy_None|].
    unfold int64_range. cbn. lia.
  - unfold advanced. split; [exact Hc|]. split; [rewrite Hh, length_insert; lia|].
    split; [intros x Hx Hne; rewrite Hh; apply list_lookup_insert_ne; congruence|].
    cbn. repeat split; try reflexivity. intros _. lia.
Qed.

(** One element of size 0 under a cursor: [Next] returns no child. *)
Lemma elem_empty_step (sf a lo m : nat) (d : Decoder) (w : world) (e : etree)
  (rest : list byte) :
  cursor_ok a lo m d w ->
  (m <= sf)%nat ->
  wf_tree e ->
  length (payload e) = 0%nat ->
  room d (Z.of_nat (length (encode_tree e))) ->
  pending w = encode_tree e ++ rest ->
  exists w1 d1,
    Next sf a w = (Ok (e_id e, None), w1) /\
    pending w1 = rest /\
    cursor_ok a lo m d1 w1 /\
    advanced a d d1 (Z.of_nat (length (encode_tree e))) w w1.
Proof.
  intros (Hl & Hlo & Ht & Hr) Hm Hwf H0 Hroom Hp.
  destruct (wf_tree_header e Hwf) as [Hid Hsz].
  pose proof (length_encode_tree e) as Hlen. rewrite H0 in Hlen, Hsz.
  rewrite encode_tree_payload, H0 in Hp.
  assert (Hpl : payload e = []) by (destruct (payload e); [reflexivity | discriminate]).
  rewrite Hpl, app_nil_r, <- app_assoc in Hp. change (Z.of_nat 0) with 0 in *.
  assert (Hlt : (a < length (w_heap w))%nat) by lia.
  destruct (Next_run_empty sf a d w (e_id e) (e_wi e) (e_ws e) rest Hl
              (tidy_quiet (w_heap w) lo m sf a (d_elem d) Ht (proj1 Hlo) Hm) Hr Hid Hsz)
    as (w1 & HN & Hp1 & Hh1 & Hc1 & _).
  { intros Hs. specialize (Hroom Hs). lia. }
  { exact Hp. }
  set (L := wrap64 (wrap64 (d_len d - Z.of_nat (e_wi e)) - Z.of_nat (e_ws e))) in *.
  exists w1, (with_len d L). split; [exact HN|]. split; [exact Hp1|]. split.
  - split; [rewrite Hh1; apply list_lookup_insert_eq; exact Hlt|].
    split; [rewrite Hh1, length_insert; lia|].
    split; [|apply wrap64_range].
    cbn. apply (tidy_frame (w_heap w)); [exact Ht|].
    intros x Hx _. rewrite Hh1. apply list_lookup_insert_ne. lia.
  - unfold advanced. split; [exact Hc1|]. split; [rewrite Hh1, length_insert; lia|].
    split; [intros x Hx Hne; rewrite Hh1; apply list_lookup_insert_ne; congruence|].
    cbn. repeat split; try reflexivity.
    intros Hs. specialize (Hroom Hs). unfold L. unfold int64_range in Hr.
    rewrite (wrap64_id (d_len d - _)) by (unfold int64_range; lia).
    rewrite wrap64_id by (unfold int64_range; lia). lia.
Qed.

(** One element with a payload under a cursor: [Next] opens a child on
    the payload.  Whatever then passes the payload and closes the child,
    [Skip] for one, leaves the cursor ready for the next element. *)
Lemma elem_open_step (sf a lo m : nat) (d : Decoder) (w : world) (e : etree)
  (rest : list byte) :
  cursor_ok a lo m d w ->
  (m <= sf)%nat ->
  wf_tree e ->
  (tdepth e <= m)%nat ->
  length (payload e) <> 0%nat ->
  room d (Z.of_nat (length (encode_tree e))) ->
  pending w = encode_tree e ++ rest ->
  exists (w1 : world) (d1 dc : Decoder),
    let c := length (w_heap w) in
    Next sf a w = (Ok (e_id e, Some c), w1) /\
    pending w1 = payload e ++ rest /\
    w_heap w1 !! c = Some dc /\
    length (w_heap w1) = S c /\
    d_elem dc = None /\
    0 < d_size dc /\
    d_len dc = d_size dc /\
    d_size dc = Z.of_nat (length (payload e)) /\
    (forall (k : nat) (w2 : world),
       (S k <= m)%nat ->
       passed c (S c) k dc (Z.of_nat (length (payload e))) rest w1 w2 ->
       cursor_ok a lo m d1 w2 /\
       advanced a d d1 (Z.of_nat (length (encode_tree e))) w w2) /\
    (exists w2,
       Skip sf c w1 = (Ok tt, w2) /\
       passed c (S c) 0 dc (Z.of_nat (length (payload e))) rest w1 w2).
Proof.
  intros (Hl & Hlo & Ht & Hr) Hm Hwf Hdep Hne Hroom Hp.
  destruct (wf_tree_header e Hwf) as [Hid Hsz].
  pose proof (length_encode_tree e) as Hlen.
  pose proof (encodable_size_bound _ _ Hsz) as Hsb.
  rewrite encode_tree_payload, <- !app_assoc in Hp.
  set (n := Z.of_nat (length (payload e))) in *.
  assert (Hn : 0 < n) by lia.
  assert (Hlt : (a < length (w_heap w))%nat) by lia.
  destruct (Next_run sf a d w (e_id e) n (e_wi e) (e_ws e) (payload e ++ rest) Hl
              (tidy_quiet (w_heap w) lo m sf a (d_elem d) Ht (proj1 Hlo) Hm) Hr Hid Hsz Hn)
    as (w1 & HN & Hp1 & Hh1 & Hc1 & _).
  { intros Hs. specialize (Hroom Hs). lia. }
  { exact Hp. }
  set (c := length (w_heap w)) in *.
  set (L := wrap64 (wrap64 (wrap64 (d_len d - Z.of_nat (e_wi e)) - Z.of_nat (e_ws e)) - n)) in *.
  set (d1 := with_elem (with_len d L) (Some c)) in *.
  set (dc := mkDecoder (d_rs d) n n (e_id e) None) in *.
  assert (Hlen1 : length (w_heap w1) = S c).
  { rewrite Hh1, length_app, length_insert. cbn. unfold c. lia. }
  assert (Hlc : w_heap w1 !! c = Some dc).
  { rewrite Hh1, lookup_app_r by (rewrite length_insert; unfold c; lia).
    rewrite length_insert. unfold c. rewrite Nat.sub_diag. reflexivity. }
  assert (Hla : w_heap w1 !! a = Some d1).
  { rewrite Hh1, lookup_app_l by (rewrite length_insert; exact Hlt).
    apply list_lookup_insert_eq. exact Hlt. }
  assert (Hold : forall x, (x < c)%nat -> x <> a -> w_heap w1 !! x = w_heap w !! x).
  { intros x Hx Hxa. rewrite Hh1, lookup_app_l by (rewrite length_insert; exact Hx).
    apply list_lookup_insert_ne. congruence. }
  exists w1, d1, dc. cbn zeta. fold c.
  split; [exact HN|]. split; [exact Hp1|]. split; [exact Hlc|]. split; [exact Hlen1|].
  split; [reflexivity|]. split; [exact Hn|]. split; [reflexivity|]. split; [reflexivity|].
  split.
  - intros k w2 Hk (Hp2 & dc' & (Hlc2 & Hlo2 & Ht2 & Hr2) & (Hcap2 & Hl2 & Hf2 & Hs2 & _ & _ & Hn2)).
    assert (Hdc0 : d_len dc' = 0).
    { rewrite Hn2 by exact Hn. cbn. lia. }
    assert (Hla2 : w_heap w2 !! a = Some d1).
    { rewrite Hf2; [exact Hla | lia | unfold c; lia]. }
    split.
    + split; [exact Hla2|]. split; [lia|].
      split; [|apply wrap64_range].
      cbn [d1 with_elem d_elem].
      apply (tidy_mono _ _ (S k)); [exact Hk|].
      apply (tidy_cons _ lo (S c) k c dc'); [unfold c; lia | unfold c; lia | exact Hlc2 | lia | exact Ht2].
    + unfold advanced. split; [congruence|]. split; [lia|].
      split.
      { intros x Hx Hxa. rewrite Hf2; [apply Hold; [exact Hx | exact Hxa] | lia | unfold c; lia]. }
      cbn. repeat split; try reflexivity.
      intros Hs. specialize (Hroom Hs). unfold L. unfold int64_range in Hr.
      rewrite (wrap64_id (d_len d - _)) by (unfold int64_range; lia).
      rewrite (wrap64_id (d_len d - _ - _)) by (unfold int64_range; lia).
      rewrite wrap64_id by (unfold int64_range; lia). lia.
  - destruct sf as [|sf']; [destruct e; cbn in Hdep; lia|].
    destruct (Skip_run sf' c dc w1 Hlc) as (w2 & HS & Hp2 & Hh2 & Hc2 & _).
    { cbn. constructor. }
    { cbn. rewrite Hp1, length_app. lia. }
    exists w2. split; [exact HS|].
    rewrite <- Hlen1.
    apply closed_passed; [exact Hlc | reflexivity | reflexivity | | exact Hh2 | exact Hc2].
    rewrite Hp2, Hp1. cbn [dc d_len]. unfold n. rewrite Nat2Z.id.
    apply drop_app_length.
Qed.

Lemma passed_step (a lo m : nat) (d d1 : Decoder) (n1 n2 : Z) (t : list byte)
  (w w1 w' : world) :
  advanced a d d1 n1 w w1 ->
  passed a lo m d1 n2 t w1 w' ->
  passed a lo m d (n1 + n2) t w w'.
Proof.
  intros Ha (Hp & d' & Hok & Ha'). split; [exact Hp|]. exists d'.
  split; [exact Hok|]. eapply advanced_trans; eassumption.
Qed.

Lemma room_step (a : nat) (d d1 : Decoder) (n1 n2 : Z) (w w1 : world) :
  room d (n1 + n2) -> 0 <= n1 -> advanced a d d1 n1 w w1 -> room d1 n2.
Proof.
  intros Hr H0 (_ & _ & _ & Hs & _ & _ & Hn) Hs1. rewrite Hs in *.
  specialize (Hr Hs1). rewrite (Hn Hs1). lia.
Qed.

Lemma at_end_step (a : nat) (d d1 : Decoder) (n1 n2 : Z) (t : list byte) (w w1 : world) :
  at_end d (n1 + n2) t -> advanced a d d1 n1 w w1 -> at_end d1 n2 t.
Proof.
  intros [[Hs He]|Ht] (_ & _ & _ & Hs1 & _ & _ & Hn); [left | right; exact Ht].
  rewrite Hs1. split; [exact Hs|]. rewrite (Hn Hs). lia.
Qed.

Lemma tdepth_pos (e : etree) : (1 <= tdepth e)%nat.
Proof. destruct e; cbn; lia. Qed.

Lemma tdepth_children (cs : list etree) (m : nat) :
  (fold_right Nat.max 0%nat (map tdepth cs) <= m)%nat ->
  Forall (fun e => (tdepth e <= m)%nat) cs.
Proof.
  induction cs as [|c cs IH]; intros H; [constructor|].
  cbn in H. constructor; [lia | apply IH; lia].
Qed.

(** The end of the elements of a cursor, for both loops. *)
Lemma loop_end (sf a lo m : nat) (d : Decoder) (w : world) (t : list byte) :
  cursor_ok a lo m d w ->
  (m <= sf)%nat ->
  pending w = t ->
  at_end d 0 t ->
  exists w',
    Next sf a w = (Err EOF, w') /\
    passed a lo m d 0 t w w'.
Proof.
  intros (Hl & Hlo & Ht & Hr) Hm Hp Hend.
  destruct (Next_end sf a d w Hl (tidy_quiet (w_heap w) lo m sf a (d_elem d) Ht (proj1 Hlo) Hm))
    as (w' & HN & Hp' & Hh' & Hc').
  { destruct Hend as [[Hs Hn]|Ht0]; [right; lia | left; congruence]. }
  exists w'. split; [exact HN|]. split; [congruence|]. exists d. split.
  - split; [rewrite Hh'; exact Hl|]. split; [rewrite Hh'; exact Hlo|].
    split; [rewrite Hh'; exact Ht | exact Hr].
  - unfold advanced. rewrite Hh'. repeat split; try reflexivity; try assumption; try lia.
Qed.

(** A fresh child on the payload of a node is a cursor at the head of
    the children of the node. *)
Lemma child_cursor (sf c : nat) (dc : Decoder) (w : world) (e : etree) (cs : list etree) :
  wf_tree e ->
  (tdepth e <= sf)%nat ->
  children e = Some cs ->
  w_heap w !! c = Some dc ->
  d_elem dc = None ->
  0 < d_size dc ->
  d_len dc = d_size dc ->
  d_size dc = Z.of_nat (length (payload e)) ->
  payload e = encode_trees cs /\
  Forall wf_tree cs /\
  Forall (fun x => (tdepth x <= tdepth e - 1)%nat) cs /\
  (tdepth e - 1 <= sf)%nat /\
  cursor_ok c (length (w_heap w)) (tdepth e - 1) dc w /\
  room dc (Z.of_nat (length (encode_trees cs))) /\
  (forall t, at_end dc (Z.of_nat (length (encode_trees cs))) t).
Proof.
  intros Hwf Hdep Hch Hl He Hs Hn Hsz.
  destruct e as [id wi ws p|id wi ws cs0]; [discriminate|].
  cbn in Hch. injection Hch as ->. inversion Hwf as [|? ? ? ? Hid Hsize Hcs]; subst.
  cbn [payload] in *. cbn [tdepth].
  pose proof (encodable_size_bound _ _ Hsize) as Hb.
  split; [reflexivity|]. split; [exact Hcs|].
  split; [apply tdepth_children; lia|]. split; [cbn in Hdep; lia|].
  split.
  - split; [exact Hl|]. split; [split; [eapply lookup_lt_Some; exact Hl | lia]|].
    split; [rewrite He; apply tidy_None|]. unfold int64_range. lia.
  - split; [intros _; lia|]. intros t. left. split; [exact Hs | lia].
Qed.

Lemma seq_on_child (env : tenv) (sf fuel : nat) (seq : list Z) (v : value) (e : etree)
  (cs : list etree) (c : nat) (dc : Decoder) (w : world) (t : list byte)
  (res : value * result unit) :
  seq_refines env sf fuel ->
  wf_tree e ->
  (tdepth e <= sf)%nat ->
  children e = Some cs ->
  tree_seq env fuel seq v cs = Some res ->
  w_heap w !! c = Some dc ->
  d_elem dc = None ->
  0 < d_size dc ->
  d_len dc = d_size dc ->
  d_size dc = Z.of_nat (length (payload e)) ->
  pending w = payload e ++ t ->
  exists w',
    decodeSeq env sf fuel seq v c w = (fst res, snd res, w') /\
    (snd res = Ok tt ->
     passed c (length (w_heap w)) (tdepth e - 1) dc (Z.of_nat (length (payload e))) t w w').
Proof.
  intros IH Hwf Hdep Hch Hrun Hl He Hs Hn Hsz Hp.
  destruct (child_cursor sf c dc w e cs Hwf Hdep Hch Hl He Hs Hn Hsz)
    as (Hpay & Hwfs & Hdeps & Hm & Hok & Hroom & Hend).
  rewrite Hpay in *.
  apply (IH seq v cs c (length (w_heap w)) (tdepth e - 1)%nat dc w t res); auto.
Qed.

Lemma loop_on_child (env : tenv) (sf fuel : nat) (s : structInfo) (v : value) (e : etree)
  (cs : list etree) (c : nat) (dc : Decoder) (w : world) (t : list byte)
  (res : value * result unit) :
  loop_refines env sf fuel ->
  wf_tree e ->
  (tdepth e <= sf)%nat ->
  children e = Some cs ->
  tree_loop env fuel s v cs = Some res ->
  w_heap w !! c = Some dc ->
  d_elem dc = None ->
  0 < d_size dc ->
  d_len dc = d_size dc ->
  d_size dc = Z.of_nat (length (payload e)) ->
  pending w = payload e ++ t ->
  exists w',
    UnmarshalEBML_loop env sf fuel s v c w = (fst res, snd res, w') /\
    (snd res = Ok tt ->
     passed c (length (w_heap w)) (tdepth e - 1) dc (Z.of_nat (length (payload e))) t w w').
Proof.
  intros IH Hwf Hdep Hch Hrun Hl He Hs Hn Hsz Hp.
  destruct (child_cursor sf c dc w e cs Hwf Hdep Hch Hl He Hs Hn Hsz)
    as (Hpay & Hwfs & Hdeps & Hm & Hok & Hroom & Hend).
  rewrite Hpay in *.
  apply (IH s v cs c (length (w_heap w)) (tdepth e - 1)%nat dc w t res); auto.
Qed.

Lemma decodeSeq_step (env : tenv) (sf fuel : nat) (seq : list Z) (v : value)
  (a : nat) (w : world) :
  decodeSeq env sf (S fuel) seq v a w =
  match Next sf a w with
  | (Err e, w1) => if is_EOF e then (v, Ok tt, w1) else (v, Err e, w1)
  | (NoFuel, w1) => (v, NoFuel, w1)
  | (Ok (_, None), w1) => decodeSeq env sf fuel seq v a w1
  | (Ok (id, Some elem), w1) =>
      match seq with
      | [] => (v, Err (Panic "index out of range"), w1)
      | id0 :: seq' =>
          if id =? id0 then
            let '(v', r, w2) :=
              match seq' with
              | [] => decode env sf fuel v elem w1
              | _ => decodeSeq env sf fuel seq' v elem w1
              end in
            match r with
            | Ok _ => decodeSeq env sf fuel seq v' a w2
            | _ => (v', r, w2)
            end
          else
            match Skip sf elem w1 with
            | (Ok _, w2) => decodeSeq env sf fuel seq v a w2
            | (Err e, w2) => (v, Err e, w2)
            | (NoFuel, w2) => (v, NoFuel, w2)
            end
      end
  end.
Proof. reflexivity. Qed.

Lemma loop_refines_S (env : tenv) (sf fuel : nat) :
  loop_refines env sf fuel ->
  seq_refines env sf fuel ->
  decode_refines env sf fuel ->
  loop_refines env sf (S fuel).
Proof.
  intros IHL IHS IHD s v es a lo m d w t res Hrun Hwf Hdep Hm Hok Hroom Hp Hend.
  rewrite UnmarshalEBML_loop_step.
  destruct es as [|e es].
  { cbn in Hrun. injection Hrun as <-. cbn in Hp, Hend |- *.
    destruct (loop_end sf a lo m d w t Hok Hm Hp Hend) as (w' & HN & Hpass).
    rewrite HN. cbn. exists w'. split; [reflexivity|]. intros _. exact Hpass. }
  apply Forall_cons in Hwf as [Hwfe Hwf]. apply Forall_cons in Hdep as [Hde Hdep].
  rewrite encode_trees_cons, <- app_assoc in Hp.
  rewrite encode_trees_cons, length_app, Nat2Z.inj_add in Hroom, Hend |- *.
  set (ne := Z.of_nat (length (encode_tree e))) in *.
  set (nr := Z.of_nat (length (encode_trees es))) in *.
  assert (Hne0 : 0 <= ne) by (unfold ne; lia).
  assert (Hnr0 : 0 <= nr) by (unfold nr; lia).
  assert (Hroome : room d ne) by (intros Hs; specialize (Hroom Hs); lia).
  (* the rest of the elements, from a state that has passed [e] *)
  assert (Hrest : forall v1 w2 d1,
            tree_loop env fuel s v1 es = Some res ->
            pending w2 = encode_trees es ++ t ->
            cursor_ok a lo m d1 w2 ->
            advanced a d d1 ne w w2 ->
            exists w',
              UnmarshalEBML_loop env sf fuel s v1 a w2 = (fst res, snd res, w') /\
              (snd res = Ok tt -> passed a lo m d (ne + nr) t w w')).
  { intros v1 w2 d1 Hrun1 Hp2 Hok2 Hadv.
    destruct (IHL s v1 es a lo m d1 w2 t res Hrun1 Hwf Hdep Hm Hok2
                (room_step a d d1 ne nr w w2 Hroom Hne0 Hadv) Hp2
                (at_end_step a d d1 ne nr t w w2 Hend Hadv)) as (w' & Hl & Hpass).
    exists w'. split; [exact Hl|]. intros Hr.
    apply (passed_step a lo m d d1 ne nr t w w2 w' Hadv (Hpass Hr)). }
  cbn [tree_loop] in Hrun.
  destruct (Nat.eqb_spec (length (payload e)) 0) as [H0|H0].
  { destruct (elem_empty_step sf a lo m d w e (encode_trees es ++ t) Hok Hm Hwfe H0 Hroome Hp)
      as (w1 & d1 & HN & Hp1 & Hok1 & Hadv1).
    rewrite HN. apply (Hrest v w1 d1 Hrun Hp1 Hok1 Hadv1). }
  destruct (elem_open_step sf a lo m d w e (encode_trees es ++ t) Hok Hm Hwfe Hde H0 Hroome Hp)
    as (w1 & d1 & dc & HN & Hp1 & Hlc & Hlen1 & Hec & Hsc & Hnc & Hszc & Hclose & Hskip).
  cbn zeta in *. set (c := length (w_heap w)) in *.
  rewrite HN.
  pose proof (tdepth_pos e) as Htp.
  (* what follows a child that has been passed *)
  assert (Hafter : forall k v1 w2,
            (S k <= m)%nat ->
            tree_loop env fuel s v1 es = Some res ->
            passed c (S c) k dc (Z.of_nat (length (payload e))) (encode_trees es ++ t) w1 w2 ->
            exists w',
              UnmarshalEBML_loop env sf fuel s v1 a w2 = (fst res, snd res, w') /\
              (snd res = Ok tt -> passed a lo m d (ne + nr) t w w')).
  { intros k v1 w2 Hk Hrun1 Hpass.
    destruct (Hclose k w2 Hk Hpass) as [Hok2 Hadv2].
    apply (Hrest v1 w2 d1 Hrun1 (proj1 Hpass) Hok2 Hadv2). }
  destruct (si_ids s !! e_id e) as [f|] eqn:Hf.
  2:{ destruct Hskip as (w2 & HS & Hpass). rewrite HS.
      apply (Hafter 0%nat v w2 ltac:(lia) Hrun Hpass). }
  destruct (field v (fi_index f)) as [fv|] eqn:Hfv.
  2:{ injection Hrun as <-. cbn. exists w1. split; [reflexivity|]. discriminate. }
  (* the child is decoded into the field *)
  assert (Hchild : forall fv' r,
            match fi_seq f with
            | [] => tree_decode env fuel fv e
            | _ :: _ =>
                match children e with
                | Some cs => tree_seq env fuel (fi_seq f) fv cs
                | None => None
                end
            end = Some (fv', r) ->
            exists w2,
              match fi_seq f with
              | [] => decode env sf fuel fv c w1
              | _ :: _ => decodeSeq env sf fuel (fi_seq f) fv c w1
              end = (fv', r, w2) /\
              (r = Ok tt ->
               passed c (S c) (tdepth e - 1) dc (Z.of_nat (length (payload e)))
                 (encode_trees es ++ t) w1 w2)).
  { intros fv' r Hin. rewrite <- Hlen1.
    destruct (fi_seq f) as [|x xs].
    - apply (IHD fv e c dc w1 (encode_trees es ++ t) (fv', r) Hin Hwfe ltac:(lia)
               Hlc Hec Hsc Hnc Hszc Hp1).
    - destruct (children e) as [cs|] eqn:Hch; [|discriminate].
      apply (seq_on_child env sf fuel (x :: xs) fv e cs c dc w1 (encode_trees es ++ t)
               (fv', r) IHS Hwfe ltac:(lia) Hch Hin Hlc Hec Hsc Hnc Hszc Hp1). }
  match type of Hrun with
  | match ?inner with _ => _ end = _ => destruct inner as [[fv' r]|] eqn:Hin; [|discriminate]
  end.
  assert (Hin' : match fi_seq f with
                 | [] => tree_decode env fuel fv e
                 | _ :: _ =>
                     match children e with
                     | Some cs => tree_seq env fuel (fi_seq f) fv cs
                     | None => None
                     end
                 end = Some (fv', r)).
  { destruct (fi_seq f); exact Hin. }
  destruct (Hchild fv' r Hin') as (w2 & Hdec & Hpass).
  assert (Hdec' : match fi_seq f with
                  | [] => decode env sf fuel fv c w1
                  | seq => decodeSeq env sf fuel seq fv c w1
                  end = (fv', r, w2)).
  { destruct (fi_seq f); exact Hdec. }
  rewrite Hdec'. cbn zeta in Hrun |- *.
  destruct r as [[]|er|].
  - apply (Hafter (tdepth e - 1)%nat _ w2 ltac:(lia) Hrun (Hpass eq_refl)).
  - injection Hrun as <-. cbn. exists w2. split; [reflexivity|]. discriminate.
  - injection Hrun as <-. cbn. exists w2. split; [reflexivity|]. discriminate.
Qed.

Lemma seq_refines_S (env : tenv) (sf fuel : nat) :
  seq_refines env sf fuel ->
  decode_refines env sf fuel ->
  seq_refines env sf (S fuel).
Proof.
  intros IHS IHD seq v es a lo m d w t res Hrun Hwf Hdep Hm Hok Hroom Hp Hend.
  rewrite decodeSeq_step.
  destruct es as [|e es].
  { cbn in Hrun. injection Hrun as <-. cbn in Hp, Hend |- *.
    destruct (loop_end sf a lo m d w t Hok Hm Hp Hend) as (w' & HN & Hpass).
    rewrite HN. cbn. exists w'. split; [reflexivity|]. intros _. exact Hpass. }
  apply Forall_cons in Hwf as [Hwfe Hwf]. apply Forall_cons in Hdep as [Hde Hdep].
  rewrite encode_trees_cons, <- app_assoc in Hp.
  rewrite encode_trees_cons, length_app, Nat2Z.inj_add in Hroom, Hend |- *.
  set (ne := Z.of_nat (length (encode_tree e))) in *.
  set (nr := Z.of_nat (length (encode_trees es))) in *.
  assert (Hne0 : 0 <= ne) by (unfold ne; lia).
  assert (Hnr0 : 0 <= nr) by (unfold nr; lia).
  assert (Hroome : room d ne) by (intros Hs; specialize (Hroom Hs); lia).
  assert (Hrest : forall v1 w2 d1,
            tree_seq env fuel seq v1 es = Some res ->
            pending w2 = encode_trees es ++ t ->
            cursor_ok a lo m d1 w2 ->
            advanced a d d1 ne w w2 ->
            exists w',
              decodeSeq env sf fuel seq v1 a w2 = (fst res, snd res, w') /\
              (snd res = Ok tt -> passed a lo m d (ne + nr) t w w')).
  { intros v1 w2 d1 Hrun1 Hp2 Hok2 Hadv.
    destruct (IHS seq v1 es a lo m d1 w2 t res Hrun1 Hwf Hdep Hm Hok2
                (room_step a d d1 ne nr w w2 Hroom Hne0 Hadv) Hp2
                (at_end_step a d d1 ne nr t w w2 Hend Hadv)) as (w' & Hl & Hpass).
    exists w'. split; [exact Hl|]. intros Hr.
    apply (passed_step a lo m d d1 ne nr t w w2 w' Hadv (Hpass Hr)). }
  cbn [tree_seq] in Hrun.
  destruct (Nat.eqb_spec (length (payload e)) 0) as [H0|H0].
  { destruct (elem_empty_step sf a lo m d w e (encode_trees es ++ t) Hok Hm Hwfe H0 Hroome Hp)
      as (w1 & d1 & HN & Hp1 & Hok1 & Hadv1).
    rewrite HN. apply (Hrest v w1 d1 Hrun Hp1 Hok1 Hadv1). }
  destruct (elem_open_step sf a lo m d w e (encode_trees es ++ t) Hok Hm Hwfe Hde H0 Hroome Hp)
    as (w1 & d1 & dc & HN & Hp1 & Hlc & Hlen1 & Hec & Hsc & Hnc & Hszc & Hclose & Hskip).
  cbn zeta in *. set (c := length (w_heap w)) in *.
  rewrite HN.
  pose proof (tdepth_pos e) as Htp.
  assert (Hafter : forall k v1 w2,
            (S k <= m)%nat ->
            tree_seq env fuel seq v1 es = Some res ->
            passed c (S c) k dc (Z.of_nat (length (payload e))) (encode_trees es ++ t) w1 w2 ->
            exists w',
              decodeSeq env sf fuel seq v1 a w2 = (fst res, snd res, w') /\
              (snd res = Ok tt -> passed a lo m d (ne + nr) t w w')).
  { intros k v1 w2 Hk Hrun1 Hpass.
    destruct (Hclose k w2 Hk Hpass) as [Hok2 Hadv2].
    apply (Hrest v1 w2 d1 Hrun1 (proj1 Hpass) Hok2 Hadv2). }
  destruct seq as [|id0 seq'].
  { injection Hrun as <-. cbn. exists w1. split; [reflexivity|]. discriminate. }
  destruct (e_id e =? id0).
  2:{ destruct Hskip as (w2 & HS & Hpass). rewrite HS.
      apply (Hafter 0%nat v w2 ltac:(lia) Hrun Hpass). }
  assert (Hchild : forall v' r,
            match seq' with
            | [] => tree_decode env fuel v e
            | _ :: _ =>
                match children e with
                | Some cs => tree_seq env fuel seq' v cs
                | None => None
                end
            end = Some (v', r) ->
            exists w2,
              match seq' with
              | [] => decode env sf fuel v c w1
              | _ :: _ => decodeSeq env sf fuel seq' v c w1
              end = (v', r, w2) /\
              (r = Ok tt ->
               passed c (S c) (tdepth e - 1) dc (Z.of_nat (length (payload e)))
                 (encode_trees es ++ t) w1 w2)).
  { intros v' r Hin. rewrite <- Hlen1.
    destruct seq' as [|x xs].
    - apply (IHD v e c dc w1 (encode_trees es ++ t) (v', r) Hin Hwfe ltac:(lia)
               Hlc Hec Hsc Hnc Hszc Hp1).
    - destruct (children e) as [cs|] eqn:Hch; [|discriminate].
      apply (seq_on_child env sf fuel (x :: xs) v e cs c dc w1 (encode_trees es ++ t)
               (v', r) IHS Hwfe ltac:(lia) Hch Hin Hlc Hec Hsc Hnc Hszc Hp1). }
  match type of Hrun with
  | match ?inner with _ => _ end = _ => destruct inner as [[v' r]|] eqn:Hin; [|discriminate]
  end.
  assert (Hin' : match seq' with
                 | [] => tree_decode env fuel v e
                 | _ :: _ =>
                     match children e with
                     | Some cs => tree_seq env fuel seq' v cs
                     | None => None
                     end
                 end = Some (v', r)).
  { first [exact Hin | destruct seq'; exact Hin]. }
  destruct (Hchild v' r eq_refl) as (w2 & Hdec & Hpass).
  assert (Hdec' : match seq' with
                  | [] => decode env sf fuel v c w1
                  | _ => decodeSeq env sf fuel seq' v c w1
                  end = (v', r, w2)).
  { first [exact Hdec | destruct seq'; exact Hdec]. }
  rewrite Hdec'. cbn zeta in Hrun |- *.
  destruct r as [[]|er|].
  - apply (Hafter (tdepth e - 1)%nat _ w2 ltac:(lia) Hrun (Hpass eq_refl)).
  - injection Hrun as <-. cbn. exists w2. split; [reflexivity|]. discriminate.
  - injection Hrun as <-. cbn. exists w2. split; [reflexivity|]. discriminate.
Qed.

(** [dec.Decode(u)] for a [Block] on a fresh child. *)
Lemma Block_run (sf c : nat) (dc : Decoder) (w : world) (x : value) (p t : list byte) :
  w_heap w !! c = Some dc ->
  d_elem dc = None ->
  d_len dc = Z.of_nat (length p) ->
  pending w = p ++ t ->
  exists w',
    Decode_Unmarshaler sf x c w = (fst (tree_block x p), snd (tree_block x p), w') /\
    (snd (tree_block x p) = Ok tt ->
     pending w' = t /\ w_heap w' = <[c := with_len dc 0]> (w_heap w) /\ w_cap w' = w_cap w).
Proof.
  intros Hl He Hn Hp.
  assert (Hq : quiet_chain (w_heap w) c sf (d_elem dc)) by (rewrite He; constructor).
  destruct (ReadBytes_reads sf c dc w p t Hl Hq Hn Hp) as (w' & HR & Hw).
  unfold Decode_Unmarshaler, Block_UnmarshalEBML, tree_block.
  rewrite (skip_quiet _ _ _ _ Hl Hq), HR.
  destruct (payload_bytes p) as [b|er|]; cbn; exists w';
    (split; [reflexivity|]); first [intros _; exact Hw | discriminate].
Qed.

Lemma decode_refines_S (env : tenv) (sf fuel : nat) :
  loop_refines env sf fuel ->
  decode_refines env sf fuel ->
  decode_refines env sf (S fuel).
Proof.
  intros IHL IHD v e c dc w t res Hrun Hwf Hdep Hl He Hs Hn Hsz Hp.
  assert (Hq : quiet_chain (w_heap w) c sf (d_elem dc)) by (rewrite He; constructor).
  assert (Hnp : d_len dc = Z.of_nat (length (payload e))) by lia.
  (* the cases that read the payload as a leaf *)
  assert (Hleaf : leaf v (payload e) = Some res ->
            exists w',
              decode env sf (S fuel) v c w = (fst res, snd res, w') /\
              (snd res = Ok tt ->
               passed c (length (w_heap w)) (tdepth e - 1) dc
                 (Z.of_nat (length (payload e))) t w w')).
  { intros Hlf. destruct res as [v' r].
    destruct (decode_leaf_run env sf fuel c dc w v v' (payload e) t r Hl Hq Hnp Hp Hlf)
      as (w' & Hd & Hw).
    exists w'. split; [exact Hd|]. cbn. intros ->. destruct Hw as (Hp' & Hh' & Hc').
    apply closed_passed; assumption. }
  (* a struct held by a pointer or made for a slice *)
  assert (Hinner : forall (x : value) (res1 : value * result unit) (impl : bool),
            (if impl then Some (tree_block x (payload e)) else tree_decode env fuel x e)
            = Some res1 ->
            exists w',
              (if impl then Decode_Unmarshaler sf x c w else decode env sf fuel x c w)
              = (fst res1, snd res1, w') /\
              (snd res1 = Ok tt ->
               passed c (length (w_heap w)) (tdepth e - 1) dc
                 (Z.of_nat (length (payload e))) t w w')).
  { intros x res1 [|] Hin.
    - injection Hin as <-.
      destruct (Block_run sf c dc w x (payload e) t Hl He Hnp Hp) as (w' & HB & Hw).
      exists w'. split; [exact HB|]. intros Hr. destruct (Hw Hr) as (Hp' & Hh' & Hc').
      apply closed_passed; assumption.
    - apply (IHD x e c dc w t res1 Hin Hwf Hdep Hl He Hs Hn Hsz Hp). }
  cbn [tree_decode] in Hrun.
  destruct v as [k i|k u|b|s f|s|tm|name fs|ty q|b|ty items|kd]; cbn [decode];
    try (apply Hleaf; exact Hrun).
  - (* a struct *)
    destruct (newStructInfo env (VStruct name fs)) as [st|er|] eqn:Est.
    + destruct (children e) as [cs|] eqn:Hch; [|discriminate].
      apply (loop_on_child env sf fuel st (VStruct name fs) e cs c dc w t res IHL Hwf Hdep
               Hch Hrun Hl He Hs Hn Hsz Hp).
    + injection Hrun as <-. cbn. exists w. split; [reflexivity|]. discriminate.
    + injection Hrun as <-. cbn. exists w. split; [reflexivity|]. discriminate.
  - (* a pointer *)
    destruct (negb (is_struct_kind ty)).
    { injection Hrun as <-. cbn. exists w. split; [reflexivity|]. discriminate. }
    destruct (match q with Some x => Some x | None => zero fuel env ty end) as [x|].
    2:{ injection Hrun as <-. cbn. exists w. split; [reflexivity|]. discriminate. }
    match type of Hrun with
    | match ?inner with _ => _ end = _ => destruct inner as [[x' r]|] eqn:Hin; [|discriminate]
    end.
    injection Hrun as <-.
    destruct (Hinner x (x', r) _ Hin) as (w' & Hd & Hw).
    rewrite Hd. cbn. exists w'. split; [reflexivity | exact Hw].
  - (* a slice *)
    destruct ty as [k|k| |s| | |name|ty'|ty'|kd];
      try (injection Hrun as <-; cbn; exists w; split; [reflexivity | discriminate]).
    + destruct k; try (apply Hleaf; exact Hrun);
        injection Hrun as <-; cbn; exists w; (split; [reflexivity | discriminate]).
    + destruct k; try (apply Hleaf; exact Hrun);
        injection Hrun as <-; cbn; exists w; (split; [reflexivity | discriminate]).
    + destruct (zero fuel env ty') as [it|].
      2:{ injection Hrun as <-. cbn. exists w. split; [reflexivity|]. discriminate. }
      match type of Hrun with
      | match ?inner with _ => _ end = _ => destruct inner as [[it' r]|] eqn:Hin; [|discriminate]
      end.
      injection Hrun as <-.
      destruct (Hinner it (it', r) _ Hin) as (w' & Hd & Hw).
      rewrite Hd. cbn. exists w'. split; [reflexivity | exact Hw].
  - (* any other kind *)
    injection Hrun as <-. cbn. exists w. split; [reflexivity|]. discriminate.
Qed.

(** The decoder on a cursor computes what its reading on the trees
    computes, for every amount of fuel. *)
Lemma decoder_refines (env : tenv) (sf fuel : nat) :
  loop_refines env sf fuel /\ seq_refines env sf fuel /\ decode_refines env sf fuel.
Proof.
  induction fuel as [|fuel (IHL & IHS & IHD)].
  - split; [|split].
    + intros s v es a lo m d w t res Hrun. cbn in Hrun. injection Hrun as <-.
      intros. exists w. split; [reflexivity | discriminate].
    + intros seq v es a lo m d w t res Hrun. cbn in Hrun. injection Hrun as <-.
      intros. exists w. split; [reflexivity | discriminate].
    + intros v e c dc w t res Hrun. cbn in Hrun. injection Hrun as <-.
      intros. exists w. split; [reflexivity | discriminate].
  - split; [|split].
    + apply loop_refines_S; assumption.
    + apply seq_refines_S; assumption.
    + apply decode_refines_S; assumption.
Qed.

(** X18.  Decoding an element into a field of a primitive kind, a byte
    slice or a slice of [int64] stores a function of the payload alone:
    an integer is the big-endian payload of 1 to 8 bytes, cut to the
    width of the field; a boolean tells whether that integer is not 0; a
    float takes 4 or 8 bytes; a string or a byte slice is the payload, of
    at most 1 MiB; a slice of [int64] gets the integer appended.  On
    success the payload is consumed and the element closed; on a format
    error the field and the state are left as they were. *)
Theorem decode_leaf (env : tenv) (sf fuel c : nat) (dc : Decoder) (w : world)
  (v v' : value) (p t : list byte) (r : result unit) :
  w_heap w !! c = Some dc ->
  quiet_chain (w_heap w) c sf (d_elem dc) ->
  d_len dc = Z.of_nat (length p) ->
  pending w = p ++ t ->
  leaf v p = Some (v', r) ->
  exists w',
    decode env sf (S fuel) v c w = (v', r, w') /\
    match r with
    | Ok _ => pending w' = t /\ w_heap w' = <[c := with_len dc 0]> (w_heap w)
    | _ => w' = w /\ v' = v
    end.
Proof.
  intros Hl Hq Hn Hp Hleaf.
  destruct (decode_leaf_run env sf fuel c dc w v v' p t r Hl Hq Hn Hp Hleaf) as (w' & Hd & Hw).
  exists w'. split; [exact Hd|].
  destruct r as [[]|er|]; [destruct Hw as (H1 & H2 & _); split; assumption | |].
  - split; [exact Hw|].
    destruct v as [k i|k u|b|s f|s|tm|name fs|e q|b|e items|kd]; cbn in Hleaf;
      try discriminate;
      try (unfold stored in Hleaf;
           match type of Hleaf with
           | context [match ?x with _ => _ end] => destruct x
           end; congruence).
    destruct e as [k|k| |s| | |name|e'|e'|kd]; try discriminate;
      destruct k; try discriminate; unfold stored in Hleaf;
      match type of Hleaf with
      | context [match ?x with _ => _ end] => destruct x
      end; congruence.
  - split; [exact Hw|].
    destruct v as [k i|k u|b|s f|s|tm|name fs|e q|b|e items|kd]; cbn in Hleaf;
      try discriminate;
      try (unfold stored in Hleaf;
           match type of Hleaf with
           | context [match ?x with _ => _ end] => destruct x
           end; congruence).
    destruct e as [k|k| |s| | |name|e'|e'|kd]; try discriminate;
      destruct k; try discriminate; unfold stored in Hleaf;
      match type of Hleaf with
      | context [match ?x with _ => _ end] => destruct x
      end; congruence.
Qed.

Lemma decode_leaf_witness :
  fst (decode example_env 0 1 (VInt K8 0) 0
         (mkWorld [mkDecoder false 2 2 0x83 None] [] [x01; xff; x00] 4096))
  = (VInt K8 (-1), Ok tt) /\
  fst (decode example_env 0 1 (VString [x41]) 0
         (mkWorld [mkDecoder false 2 2 0x86 None] [] [x56; x50; x00] 4096))
  = (VString [x56; x50], Ok tt).
Proof.
  split.
  - destruct (decode_leaf example_env 0 0 0 (mkDecoder false 2 2 0x83 None)
                (mkWorld [mkDecoder false 2 2 0x83 None] [] [x01; xff; x00] 4096)
                (VInt K8 0) (VInt K8 (-1)) [x01; xff] [x00] (Ok tt)
                eq_refl (quiet_nil _ _ _) eq_refl eq_refl eq_refl) as (w' & H & _).
    rewrite H. reflexivity.
  - destruct (decode_leaf example_env 0 0 0 (mkDecoder false 2 2 0x86 None)
                (mkWorld [mkDecoder false 2 2 0x86 None] [] [x56; x50; x00] 4096)
                (VString [x41]) (VString [x56; x50]) [x56; x50] [x00] (Ok tt)
                eq_refl (quiet_nil _ _ _) eq_refl eq_refl eq_refl) as (w' & H & _).
    rewrite H. reflexivity.
Defined.

(** X19.  An element of size 0 is passed over whether its id is known or
    not: [Next] returns no child for it, and both loops go on with the
    next element, the value untouched.  So an empty element never
    reaches its field: an empty string does not reset a string. *)
Theorem empty_element_is_ignored (env : tenv) (sf fuel a : nat) (d : Decoder) (w : world)
  (id : Z) (wi ws : nat) (t : list byte) :
  w_heap w !! a = Some d ->
  quiet_chain (w_heap w) a sf (d_elem d) ->
  int64_range (d_len d) ->
  encodable IdKind wi id ->
  (1 <= ws <= 8)%nat ->
  (0 < d_size d -> Z.of_nat wi + Z.of_nat ws <= d_len d) ->
  pending w = encode_vint IdKind wi id ++ encode_vint SizeKind ws 0 ++ t ->
  exists w1,
    Next sf a w = (Ok (id, None), w1) /\
    pending w1 = t /\
    (forall s v, UnmarshalEBML_loop env sf (S fuel) s v a w
                 = UnmarshalEBML_loop env sf fuel s v a w1) /\
    (forall seq v, decodeSeq env sf (S fuel) seq v a w
                   = decodeSeq env sf fuel seq v a w1).
Proof.
  intros Hl Hq Hr Hid Hws Hroom Hp.
  assert (Hsz : encodable SizeKind ws 0).
  { split; [exact Hws|]. split; [lia|]. apply Z.pow_pos_nonneg; lia. }
  destruct (Next_run_empty sf a d w id wi ws t Hl Hq Hr Hid Hsz Hroom Hp)
    as (w1 & HN & Hp1 & _).
  exists w1. split; [exact HN|]. split; [exact Hp1|]. split.
  - intros s v. rewrite UnmarshalEBML_loop_step, HN. reflexivity.
  - intros seq v. rewrite decodeSeq_step, HN. reflexivity.
Qed.

Lemma empty_element_is_ignored_witness :
  let s := match newStructInfo example_env Outer_zero with
           | Ok s => s
           | _ => mkStructInfo [] ∅
           end in
  let v := VStruct "Outer" [VPtr (TStruct "Inner") None; VInt Kword 7; VSlice (TInt K64) []] in
  fst (UnmarshalEBML_loop example_env 0 2 s v 0
         (NewDecoder false 0 4096 (encode_vint IdKind 1 0x83 ++ encode_vint SizeKind 1 0 ++ [])))
  = (v, Ok tt).
Proof.
  intros s v.
  destruct (empty_element_is_ignored example_env 0 1 0 (mkDecoder false 0 0 0 None)
              (NewDecoder false 0 4096 (encode_vint IdKind 1 0x83 ++ encode_vint SizeKind 1 0 ++ []))
              0x83 1 1 [] eq_refl (quiet_nil _ _ _))
    as (w1 & HN & _ & HL & _);
    [unfold int64_range; cbn; lia | split; cbn; lia | lia | cbn; lia | reflexivity |].
  rewrite HL. assert (E : w1 = snd (Next 0 0 (NewDecoder false 0 4096
            (encode_vint IdKind 1 0x83 ++ encode_vint SizeKind 1 0 ++ []))))
    by (rewrite HN; reflexivity).
  rewrite E. vm_compute. reflexivity.
Defined.

(** X20.  The struct decoder computes, on the bytes of a list of
    well-formed element trees, what its reading on the trees computes:
    [typeCodec.UnmarshalEBML] and [Decoder.Decode], run on a cursor with
    no open child that has the encoding of the trees before it and ends
    with them, return the same value and the same outcome, error or not,
    for every amount of fuel.  On success the trees are consumed, the
    cursor has that many bytes less to go and is ready for what follows,
    and no other cursor that existed has changed. *)
Theorem decoder_on_trees (env : tenv) (sf fuel a : nat) (v v' : value) (es : list etree)
  (d : Decoder) (w : world) (t : list byte) (r : result unit) :
  tree_unmarshal env fuel v es = Some (v', r) ->
  Forall wf_tree es ->
  Forall (fun e => (tdepth e <= sf)%nat) es ->
  w_heap w !! a = Some d ->
  d_elem d = None ->
  int64_range (d_len d) ->
  room d (Z.of_nat (length (encode_trees es))) ->
  pending w = encode_trees es ++ t ->
  at_end d (Z.of_nat (length (encode_trees es))) t ->
  exists w',
    UnmarshalEBML env sf fuel v a w = (v', r, w') /\
    (forall ty, implements_Unmarshaler env (TPtr ty) = false ->
                (exists name fs, v = VStruct name fs) ->
                Decode env sf fuel (VPtr ty (Some v)) a w = (VPtr ty (Some v'), r, w')) /\
    (r = Ok tt ->
     pending w' = t /\
     (forall x, (x < length (w_heap w))%nat -> x <> a -> w_heap w' !! x = w_heap w !! x) /\
     exists d',
       w_heap w' !! a = Some d' /\
       quiet_chain (w_heap w') a sf (d_elem d') /\
       (0 < d_size d -> d_len d' = d_len d - Z.of_nat (length (encode_trees es)))).
Proof.
  intros Hrun Hwf Hdep Hl He Hr Hroom Hp Hend.
  assert (Hlt : (a < length (w_heap w))%nat) by (eapply lookup_lt_Some; exact Hl).
  assert (Hq : quiet_chain (w_heap w) a sf (d_elem d)) by (rewrite He; constructor).
  assert (Hmain : exists w',
            UnmarshalEBML env sf fuel v a w = (v', r, w') /\
            (r = Ok tt ->
             passed a (length (w_heap w)) sf d (Z.of_nat (length (encode_trees es))) t w w')).
  { unfold UnmarshalEBML. unfold tree_unmarshal in Hrun.
    destruct (newStructInfo env v) as [s|er|].
    - destruct (decoder_refines env sf fuel) as (HL & _ & _).
      apply (HL s v es a (length (w_heap w)) sf d w t (v', r) Hrun Hwf Hdep (Nat.le_refl _));
        try assumption.
      split; [exact Hl|]. split; [lia|]. split; [rewrite He; apply tidy_None | exact Hr].
    - injection Hrun as <- <-. exists w. split; [reflexivity | discriminate].
    - injection Hrun as <- <-. exists w. split; [reflexivity | discriminate]. }
  destruct Hmain as (w' & HU & Hpass). exists w'. split; [exact HU|]. split.
  - intros ty Himpl (name & fs & Hv). unfold Decode.
    rewrite (skip_quiet sf a d w Hl Hq), Himpl. subst v. rewrite HU. reflexivity.
  - intros Hok. destruct (Hpass Hok) as (Hp' & d' & (Hl' & Hlo' & Ht' & Hr') & (_ & _ & Hf & _ & _ & _ & Hn)).
    split; [exact Hp'|]. split; [exact Hf|]. exists d'.
    split; [exact Hl'|]. split; [|exact Hn].
    apply (tidy_quiet _ _ _ _ _ _ Ht'); [exact Hlt | apply Nat.le_refl].
Qed.

Lemma decoder_on_trees_witness :
  let es := [Node 0x1A45DFA3 4 1
               [Leaf 0x4286 2 1 [x01];
                Leaf 0xEC 1 1 [x00; x00];
                Leaf 0x4282 2 1 [x77; x65; x62; x6d]]] in
  let file := VStruct "File" [VPtr (TStruct "EBML") None;
                              VSlice (TPtr (TStruct "Segment")) []] in
  fst (UnmarshalEBML matroska_env 2 8 file 0 (NewDecoder true 0 16 (encode_trees es)))
  = (VStruct "File"
       [VPtr (TStruct "EBML")
          (Some (VStruct "EBML"
                   [VInt Kword 1; VInt Kword 0; VInt Kword 0; VInt Kword 0;
                    VString [x77; x65; x62; x6d]; VInt Kword 0; VInt Kword 0]));
        VSlice (TPtr (TStruct "Segment")) []], Ok tt).
Proof.
  intros es file.
  destruct (decoder_on_trees matroska_env 2 8 0 file
              (VStruct "File"
                 [VPtr (TStruct "EBML")
                    (Some (VStruct "EBML"
                             [VInt Kword 1; VInt Kword 0; VInt Kword 0; VInt Kword 0;
                              VString [x77; x65; x62; x6d]; VInt Kword 0; VInt Kword 0]));
                  VSlice (TPtr (TStruct "Segment")) []])
              es (mkDecoder true 0 0 0 None)
              (NewDecoder true 0 16 (encode_trees es)) [] (Ok tt))
    as (w' & H & _).
  - vm_compute. reflexivity.
  - repeat constructor; cbn; lia.
  - repeat constructor.
  - reflexivity.
  - reflexivity.
  - unfold int64_range. cbn. lia.
  - intros Hs. cbn in Hs. lia.
  - cbn [NewDecoder pending w_buf w_src app]. rewrite app_nil_r. reflexivity.
  - right. reflexivity.
  - rewrite H. reflexivity.
Defined.

Lemma set_field_id (v : value) (i : nat) (x : value) :
  field v i = Some x -> set_field v i x = v.
Proof.
  destruct v; cbn; try discriminate. intros H. f_equal. apply list_insert_id. exact H.
Qed.

(** The reading on the trees of a run of elements that go to a field
    holding a slice of [int64]. *)
Lemma tree_loop_repeated (env : tenv) (s : structInfo) (f : fieldInfo) (id : Z)
  (es : list etree) :
  si_ids s !! id = Some f ->
  fi_seq f = [] ->
  Forall (fun e => e_id e = id /\ (1 <= length (payload e) <= 8)%nat) es ->
  forall (k : nat) (v : value) (items : list value),
    field v (fi_index f) = Some (VSlice (TInt K64) items) ->
    tree_loop env (length es + S k) s v es
    = Some (set_field v (fi_index f)
              (VSlice (TInt K64) (items ++ map (fun e => int64_item (payload e)) es)),
            Ok tt).
Proof.
  intros Hf Hseq Hes. induction Hes as [|e es [Hid Hlen] Hes IH]; intros k v items Hfv.
  - cbn. rewrite app_nil_r, (set_field_id _ _ _ Hfv). reflexivity.
  - cbn [length Nat.add tree_loop].
    destruct (Nat.eqb_spec (length (payload e)) 0) as [E|_]; [lia|].
    rewrite Hid, Hf, Hfv, Hseq.
    replace (length es + S k)%nat with (S (length es + k)) by lia. cbn [tree_decode].
    unfold leaf, payload_int.
    replace ((1 <=? length (payload e))%nat && (length (payload e) <=? 8)%nat) with true
      by (symmetry; apply andb_true_iff; split; apply Nat.leb_le; lia).
    cbn [stored].
    replace (S (length es + k)) with (length es + S k)%nat by lia.
    rewrite (IH k _ (items ++ [VInt K64 (wrap64 (be_uint (payload e)))]))
      by (eapply field_set_field; exact Hfv).
    rewrite set_field_set_field, <- app_assoc. reflexivity.
Qed.

(** X21.  Elements that share an id mapped to a field holding a slice of
    [int64] accumulate: a run of such elements, each of 1 to 8 bytes,
    appends its integers to the slice in the order of the stream. *)
Theorem repeated_elements_accumulate (env : tenv) (sf k a : nat) (s : structInfo)
  (f : fieldInfo) (id : Z) (v : value) (items : list value) (es : list etree)
  (d : Decoder) (w : world) (t : list byte) :
  si_ids s !! id = Some f ->
  fi_seq f = [] ->
  field v (fi_index f) = Some (VSlice (TInt K64) items) ->
  Forall (fun e => e_id e = id /\ (1 <= length (payload e) <= 8)%nat) es ->
  Forall wf_tree es ->
  Forall (fun e => (tdepth e <= sf)%nat) es ->
  w_heap w !! a = Some d ->
  d_elem d = None ->
  int64_range (d_len d) ->
  room d (Z.of_nat (length (encode_trees es))) ->
  pending w = encode_trees es ++ t ->
  at_end d (Z.of_nat (length (encode_trees es))) t ->
  exists w',
    UnmarshalEBML_loop env sf (length es + S k) s v a w
    = (set_field v (fi_index f)
         (VSlice (TInt K64) (items ++ map (fun e => int64_item (payload e)) es)),
       Ok tt, w') /\
    pending w' = t.
Proof.
  intros Hf Hseq Hfv Hes Hwf Hdep Hl He Hr Hroom Hp Hend.
  destruct (decoder_refines env sf (length es + S k)) as (HL & _ & _).
  destruct (HL s v es a (length (w_heap w)) sf d w t _
              (tree_loop_repeated env s f id es Hf Hseq Hes k v items Hfv)
              Hwf Hdep (Nat.le_refl _)) as (w' & Hrun & Hpass); try assumption.
  { split; [exact Hl|]. split; [split; [eapply lookup_lt_Some; exact Hl | lia]|].
    split; [rewrite He; apply tidy_None | exact Hr]. }
  exists w'. split; [exact Hrun|]. apply (Hpass eq_refl).
Qed.

Lemma repeated_elements_accumulate_witness :
  let s := match newStructInfo matroska_env
                   (VStruct "TagTarget" [VInt Kword 0; VString []; VSlice (TInt K64) [];
                                         VSlice (TInt K64) []; VSlice (TInt K64) [];
                                         VSlice (TInt K64) []]) with
           | Ok s => s
           | _ => mkStructInfo [] ∅
           end in
  let v := VStruct "TagTarget" [VInt Kword 0; VString []; VSlice (TInt K64) [];
                                VSlice (TInt K64) []; VSlice (TInt K64) [];
                                VSlice (TInt K64) []] in
  let es := [Leaf 0x63C5 2 1 [x01]; Leaf 0x63C5 2 1 [x02; x00]] in
  fst (UnmarshalEBML_loop matroska_env 1 3 s v 0 (NewDecoder false 0 4096 (encode_trees es)))
  = (VStruct "TagTarget" [VInt Kword 0; VString []; VSlice (TInt K64) [VInt K64 1; VInt K64 512];
                          VSlice (TInt K64) []; VSlice (TInt K64) [];
                          VSlice (TInt K64) []], Ok tt).
Proof.
  intros s v es.
  destruct (repeated_elements_accumulate matroska_env 1 0 0 s
              (mkFieldInfo 0x63C5 2 "TrackUID" []) 0x63C5 v [] es
              (mkDecoder false 0 0 0 None)
              (NewDecoder false 0 4096 (encode_trees es)) [])
    as (w' & H & _).
  - vm_compute. reflexivity.
  - reflexivity.
  - reflexivity.
  - repeat constructor; cbn; lia.
  - repeat constructor; cbn; lia.
  - repeat constructor.
  - reflexivity.
  - reflexivity.
  - unfold int64_range. cbn. lia.
  - intros Hs. cbn in Hs. lia.
  - cbn [NewDecoder pending w_buf w_src app]. rewrite app_nil_r. reflexivity.
  - right. reflexivity.
  - change (length es + 1)%nat with 3%nat in H. rewrite H. vm_compute. reflexivity.
Defined.

(** The reading on the trees of the children under a path of one id that
    leads to a slice of [int64]. *)
Lemma tree_seq_path (env : tenv) (id0 : Z) (es : list etree) :
  Forall (fun e => e_id e = id0 -> (length (payload e) <= 8)%nat) es ->
  forall (k : nat) (items : list value),
    tree_seq env (length es + S k) [id0] (VSlice (TInt K64) items) es
    = Some (VSlice (TInt K64)
              (items ++ map (fun e => int64_item (payload e)) (List.filter (selected id0) es)),
            Ok tt).
Proof.
  intros Hes. induction Hes as [|e es Hlen Hes IH]; intros k items.
  - cbn. rewrite app_nil_r. reflexivity.
  - cbn [length Nat.add tree_seq List.filter]. unfold selected at 1.
    destruct (Nat.eqb_spec (length (payload e)) 0) as [E|E].
    + rewrite andb_false_r. apply IH.
    + destruct (Z.eqb_spec (e_id e) id0) as [Hid|Hid]; cbn [andb negb]; [|apply IH].
      specialize (Hlen Hid).
      replace (length es + S k)%nat with (S (length es + k)) by lia. cbn [tree_decode].
      unfold leaf, payload_int.
      replace ((1 <=? length (payload e))%nat && (length (payload e) <=? 8)%nat) with true
        by (symmetry; apply andb_true_iff; split; apply Nat.leb_le; lia).
      cbn [stored].
      replace (S (length es + k)) with (length es + S k)%nat by lia.
      rewrite IH. cbn [map]. rewrite <- app_assoc. reflexivity.
Qed.

(** X22.  A path of one id over the children of a wrapper: the children
    with that id are decoded into the value in the order of the stream,
    every other child is skipped with all it contains, also when an
    element with the id of the path is nested in it. *)
Theorem path_selects_children (env : tenv) (sf k a : nat) (id0 : Z)
  (items : list value) (es : list etree) (d : Decoder) (w : world) (t : list byte) :
  Forall (fun e => e_id e = id0 -> (length (payload e) <= 8)%nat) es ->
  Forall wf_tree es ->
  Forall (fun e => (tdepth e <= sf)%nat) es ->
  w_heap w !! a = Some d ->
  d_elem d = None ->
  int64_range (d_len d) ->
  room d (Z.of_nat (length (encode_trees es))) ->
  pending w = encode_trees es ++ t ->
  at_end d (Z.of_nat (length (encode_trees es))) t ->
  exists w',
    decodeSeq env sf (length es + S k) [id0] (VSlice (TInt K64) items) a w
    = (VSlice (TInt K64)
         (items ++ map (fun e => int64_item (payload e)) (List.filter (selected id0) es)),
       Ok tt, w') /\
    pending w' = t.
Proof.
  intros Hes Hwf Hdep Hl He Hr Hroom Hp Hend.
  destruct (decoder_refines env sf (length es + S k)) as (_ & HS & _).
  destruct (HS [id0] (VSlice (TInt K64) items) es a (length (w_heap w)) sf d w t _
              (tree_seq_path env id0 es Hes k items)
              Hwf Hdep (Nat.le_refl _)) as (w' & Hrun & Hpass); try assumption.
  { split; [exact Hl|]. split; [split; [eapply lookup_lt_Some; exact Hl | lia]|].
    split; [rewrite He; apply tidy_None | exact Hr]. }
  exists w'. split; [exact Hrun|]. apply (Hpass eq_refl).
Qed.

Lemma path_selects_children_witness :
  let es := [Leaf 0xCC 1 1 [x07];
             Node 0xE8 1 1 [Leaf 0xCC 1 1 [x09]];
             Leaf 0xCC 1 1 [];
             Leaf 0xCC 1 1 [x01; x00]] in
  fst (decodeSeq matroska_env 2 5 [0xCC] (VSlice (TInt K64) []) 0
         (NewDecoder false 0 4096 (encode_trees es)))
  = (VSlice (TInt K64) [VInt K64 7; VInt K64 256], Ok tt).
Proof.
  intros es.
  destruct (path_selects_children matroska_env 2 0 0 0xCC [] es
              (mkDecoder false 0 0 0 None)
              (NewDecoder false 0 4096 (encode_trees es)) [])
    as (w' & H & _).
  - repeat constructor; cbn; lia.
  - repeat constructor; cbn; lia.
  - repeat constructor.
  - reflexivity.
  - reflexivity.
  - unfold int64_range. cbn. lia.
  - intros Hs. cbn in Hs. lia.
  - cbn [NewDecoder pending w_buf w_src app]. rewrite app_nil_r. reflexivity.
  - right. reflexivity.
  - change (length es + 1)%nat with 5%nat in H. rewrite H. vm_compute. reflexivity.
Defined.

(** The reading on the trees of elements whose ids the table does not
    have. *)
Lemma tree_loop_unknown (env : tenv) (s : structInfo) (v : value) (es : list etree) :
  Forall (fun e => si_ids s !! e_id e = None) es ->
  forall k : nat, tree_loop env (length es + S k) s v es = Some (v, Ok tt).
Proof.
  intros Hes. induction Hes as [|e es Hid Hes IH]; intros k.
  - reflexivity.
  - cbn [length Nat.add tree_loop]. rewrite Hid.
    destruct (length (payload e) =? 0)%nat; apply IH.
Qed.

(** X23.  Elements whose ids the struct has no field for are passed over,
    whatever they hold: the value is returned as it was, with no error,
    and the stream is behind them. *)
Theorem unknown_elements_are_skipped (env : tenv) (sf k a : nat) (s : structInfo)
  (v : value) (es : list etree) (d : Decoder) (w : world) (t : list byte) :
  Forall (fun e => si_ids s !! e_id e = None) es ->
  Forall wf_tree es ->
  Forall (fun e => (tdepth e <= sf)%nat) es ->
  w_heap w !! a = Some d ->
  d_elem d = None ->
  int64_range (d_len d) ->
  room d (Z.of_nat (length (encode_trees es))) ->
  pending w = encode_trees es ++ t ->
  at_end d (Z.of_nat (length (encode_trees es))) t ->
  exists w',
    UnmarshalEBML_loop env sf (length es + S k) s v a w = (v, Ok tt, w') /\
    pending w' = t.
Proof.
  intros Hes Hwf Hdep Hl He Hr Hroom Hp Hend.
  destruct (decoder_refines env sf (length es + S k)) as (HL & _ & _).
  destruct (HL s v es a (length (w_heap w)) sf d w t _
              (tree_loop_unknown env s v es Hes k)
              Hwf Hdep (Nat.le_refl _)) as (w' & Hrun & Hpass); try assumption.
  { split; [exact Hl|]. split; [split; [eapply lookup_lt_Some; exact Hl | lia]|].
    split; [rewrite He; apply tidy_None | exact Hr]. }
  exists w'. split; [exact Hrun|]. apply (Hpass eq_refl).
Qed.

Lemma unknown_elements_are_skipped_witness :
  let s := mkStructInfo [] (<[0x4286 := mkFieldInfo 0x4286 0 "Version" []]> ∅) in
  let es := [Leaf 0xEC 1 1 [xff; x00; xff];
             Node 0xBF 1 2 [Leaf 0x4286 2 1 [x05]]] in
  fst (UnmarshalEBML_loop matroska_env 2 3 s (VStruct "EBML" [VInt Kword 0]) 0
         (NewDecoder true 0 8 (encode_trees es)))
  = (VStruct "EBML" [VInt Kword 0], Ok tt).
Proof.
  intros s es.
  destruct (unknown_elements_are_skipped matroska_env 2 0 0 s
              (VStruct "EBML" [VInt Kword 0]) es
              (mkDecoder true 0 0 0 None)
              (NewDecoder true 0 8 (encode_trees es)) [])
    as (w' & H & _).
  - repeat constructor.
  - repeat constructor; cbn; lia.
  - repeat constructor.
  - reflexivity.
  - reflexivity.
  - unfold int64_range. cbn. lia.
  - intros Hs. cbn in Hs. lia.
  - cbn [NewDecoder pending w_buf w_src app]. rewrite app_nil_r. reflexivity.
  - right. reflexivity.
  - change (length es + 1)%nat with 3%nat in H. rewrite H. reflexivity.
Defined.

(** ** C10: the guard of ReadBytes on any cursor *)

(** A [Skip] that returns without error has closed the chain, whether
    the bytes were there or not. *)
Lemma Skip_Ok_closes (l : list nat) :
  forall (a fuel : nat) (w w' : world),
    chain (w_heap w) (Some a) l ->
    NoDup l ->
    Skip fuel a w = (Ok tt, w') ->
    w_heap w' = close_all l (w_heap w).
Proof.
  induction l as [|x l IH]; intros a fuel w w' Hc Hnd H; [inversion Hc|].
  inversion Hc as [|e d l0 Hl Hc' E1 E2]. subst e x l0.
  apply NoDup_cons in Hnd as [Ha Hnd].
  destruct fuel as [|fuel]; [discriminate|]. cbn [Skip] in H.
  rewrite (bind_Ok _ _ _ _ _ (get_dec_Some _ _ _ Hl)) in H.
  apply bind_Ok_inv in H as ([] & w1 & Echild & H).
  assert (Hh1 : w_heap w1 = close_all l (w_heap w)).
  { destruct (d_elem d) as [e|].
    - apply (IH e fuel w w1 Hc' Hnd Echild).
    - inversion Hc'. injection Echild as <-. reflexivity. }
  assert (Hl1 : w_heap w1 !! a = Some d).
  { rewrite Hh1, close_all_lookup_notin by exact Ha. exact Hl. }
  rewrite (bind_Ok _ _ _ _ _ (get_dec_Some _ _ _ Hl1)) in H.
  cbn [close_all fold_right]. fold (close_all l (w_heap w)).
  unfold close_one. rewrite <- Hh1, Hl1.
  destruct (d_len d <=? 0); [injection H as <-; reflexivity|].
  apply bind_Ok_inv in H as (n & w3 & EB & H). injection EB as <- <-.
  apply bind_Ok_inv in H as ([] & w4 & EP & H).
  assert (Hh : w_heap w4 = w_heap w1).
  { destruct (d_rs d && _).
    - apply bind_Ok_inv in EP as ([] & w5 & ES & ER).
      injection ES as <-. injection ER as <-. reflexivity.
    - eapply heap_of_run; [apply Discard_heap | exact EP]. }
  assert (Hl4 : w_heap w4 !! a = Some d) by (rewrite Hh; exact Hl1).
  rewrite (set_len_Some _ _ _ _ Hl4) in H. injection H as <-.
  cbn. rewrite Hh. reflexivity.
Qed.

(** C10 (amended).  On any cursor [ReadBytes] and [ReadString] first
    close the children left open below it, which takes the bytes these
    had left off the stream, and return the error of that step when it
    fails.  Once the children are closed, only their remaining counts
    having changed: when the remaining length of the cursor is negative
    or above 1 MiB the result is the format error and nothing more is
    read; when it is within the guard and the stream holds that many
    bytes, the result is exactly those bytes, which are consumed, and the
    cursor has nothing left. *)
Theorem ReadBytes_guard (fuel a : nat) (d : Decoder) (l : list nat) (w : world) :
  w_heap w !! a = Some d ->
  chain (w_heap w) (d_elem d) l ->
  a ∉ l ->
  NoDup l ->
  (length l <= fuel)%nat ->
  exists (r : result unit) (w1 : world),
    skip fuel a w = (r, w1) /\
    (left_of (w_heap w) l <= Z.of_nat (length (pending w)) ->
     r = Ok tt /\ pending w1 = drop (Z.to_nat (left_of (w_heap w) l)) (pending w)) /\
    match r with
    | Ok _ =>
        w_heap w1 = close_all l (w_heap w) /\
        (d_len d < 0 \/ 2 ^ 20 < d_len d ->
         ReadBytes fuel a w = (Err ErrFormat, w1) /\
         ReadString fuel a w = (Err ErrFormat, w1)) /\
        (0 <= d_len d <= 2 ^ 20 ->
         d_len d <= Z.of_nat (length (pending w1)) ->
         exists w',
           ReadBytes fuel a w = (Ok (take (Z.to_nat (d_len d)) (pending w1)), w') /\
           ReadString fuel a w = (Ok (take (Z.to_nat (d_len d)) (pending w1)), w') /\
           pending w' = drop (Z.to_nat (d_len d)) (pending w1) /\
           w_heap w' !! a = Some (with_len d 0))
    | Err e =>
        ReadBytes fuel a w = (Err e, w1) /\ ReadString fuel a w = (Err e, w1)
    | NoFuel =>
        ReadBytes fuel a w = (NoFuel, w1) /\ ReadString fuel a w = (NoFuel, w1)
    end.
Proof.
  intros Hl Hc Ha Hnd Hf.
  destruct (skip fuel a w) as [r w1] eqn:Hs. exists r, w1. split; [reflexivity|].
  assert (Hskip : skip fuel a w
                  = match d_elem d with Some e => Skip fuel e w | None => (Ok tt, w) end).
  { unfold skip. rewrite (bind_Ok _ _ _ _ _ (get_dec_Some _ _ _ Hl)).
    destruct (d_elem d); reflexivity. }
  split.
  - intros Hp. rewrite Hskip in Hs. destruct (d_elem d) as [e|].
    + destruct (Skip_chain_run l e fuel w Hc Hnd Hf Hp) as (w2 & Hs2 & Hp2 & _).
      rewrite Hs2 in Hs. injection Hs as <- <-. split; [reflexivity | exact Hp2].
    + inversion Hc. subst l. injection Hs as <- <-. split; reflexivity.
  - destruct r as [[]|e|].
    + assert (Hh1 : w_heap w1 = close_all l (w_heap w)).
      { rewrite Hskip in Hs. destruct (d_elem d) as [e|].
        - apply (Skip_Ok_closes l e fuel w w1 Hc Hnd Hs).
        - inversion Hc. injection Hs as <-. reflexivity. }
      assert (Hl1 : w_heap w1 !! a = Some d).
      { rewrite Hh1, close_all_lookup_notin by exact Ha. exact Hl. }
      assert (Hq1 : quiet_chain (w_heap w1) a fuel (d_elem d)).
      { rewrite Hh1. apply (closed_chain_quiet _ a fuel (d_elem d) l); assumption. }
      assert (HB : ReadBytes fuel a w = ReadBytes fuel a w1).
      { unfold ReadBytes.
        rewrite (bind_Ok _ _ _ _ _ Hs), (bind_Ok _ _ _ _ _ (skip_quiet fuel a d w1 Hl1 Hq1)).
        reflexivity. }
      assert (HS : ReadString fuel a w = ReadString fuel a w1).
      { unfold ReadString, bind. rewrite HB. reflexivity. }
      split; [exact Hh1|]. split.
      * intros Hlen.
        pose proof (ReadBytes_format_error fuel a d w1 Hl1 Hq1 Hlen) as H.
        split; [rewrite HB; exact H|].
        rewrite HS. unfold ReadString. rewrite (bind_Err _ _ _ _ _ H). reflexivity.
      * intros Hlen Hp.
        destruct (ReadBytes_payload fuel a d w1 Hl1 Hq1 Hlen Hp) as (w' & H & Hp' & Hh' & _).
        exists w'. split; [rewrite HB; exact H|].
        split; [rewrite HS; unfold ReadString; rewrite (bind_Ok _ _ _ _ _ H); reflexivity|].
        split; [exact Hp'|].
        rewrite Hh'. apply lookup_set_len. exact Hl1.
    + assert (HB : ReadBytes fuel a w = (Err e, w1)).
      { unfold ReadBytes. rewrite (bind_Err _ _ _ _ _ Hs). reflexivity. }
      split; [exact HB|]. unfold ReadString. rewrite (bind_Err _ _ _ _ _ HB). reflexivity.
    + assert (HB : ReadBytes fuel a w = (NoFuel, w1)).
      { unfold ReadBytes, bind. rewrite Hs. reflexivity. }
      split; [exact HB|]. unfold ReadString, bind. rewrite HB. reflexivity.
Qed.

Lemma ReadBytes_guard_witness :
  let w := mkWorld [mkDecoder false (-9) 0 0 (Some 1%nat);
                    mkDecoder false 3 7 0xA0 (Some 2%nat);
                    mkDecoder false 2 2 0xA1 None]
             [] [x01; x02; x56; x50; x38; xff] 4096 in
  let big := mkWorld [mkDecoder false (-9) 0 0 (Some 1%nat);
                      mkDecoder false (2 ^ 20 + 1) (2 ^ 20 + 8) 0xA0 (Some 2%nat);
                      mkDecoder false 2 2 0xA1 None]
               [] [x01; x02; x56; x50; x38; xff] 4096 in
  fst (ReadString 1 1 w) = Ok [x56; x50; x38] /\
  pending (snd (ReadString 1 1 w)) = [xff] /\
  fst (ReadBytes 1 1 big) = Err ErrFormat /\
  pending (snd (ReadBytes 1 1 big)) = [x56; x50; x38; xff].
Proof.
  intros w big.
  assert (Hin : 1%nat ∉ [2%nat]) by (apply (bool_decide_unpack _); vm_compute; exact I).
  assert (Hnd : NoDup [2%nat]) by (apply (bool_decide_unpack _); vm_compute; exact I).
  destruct (ReadBytes_guard 1 1 (mkDecoder false 3 7 0xA0 (Some 2%nat)) [2%nat] w)
    as (r & w1 & Hs & Hp & H).
  { reflexivity. }
  { econstructor; [reflexivity|]. constructor. }
  { exact Hin. }
  { exact Hnd. }
  { cbn. lia. }
  destruct (ReadBytes_guard 1 1 (mkDecoder false (2 ^ 20 + 1) (2 ^ 20 + 8) 0xA0 (Some 2%nat))
              [2%nat] big) as (r' & w1' & Hs' & Hp' & H').
  { reflexivity. }
  { econstructor; [reflexivity|]. constructor. }
  { exact Hin. }
  { exact Hnd. }
  { cbn. lia. }
  destruct Hp as [-> Hp]; [vm_compute; discriminate|].
  destruct Hp' as [-> Hp']; [vm_compute; discriminate|].
  destruct H as (_ & _ & H). destruct H' as (_ & H' & _).
  destruct H as (w' & _ & HS & Hpw & _).
  { cbn. lia. }
  { rewrite Hp. vm_compute. discriminate. }
  destruct H' as [HB _].
  { right. cbn. lia. }
  rewrite HS, HB. cbn [fst snd]. rewrite Hpw, Hp, Hp'.
  repeat split.
Defined.

(** C10, as stated, fails on a cursor with a child left open.  The
    container A0 declares 2^20 + 8 bytes; once its child 81, of 5 bytes,
    has been opened it has 2^20 + 1 left, above the guard.  Over a stream
    that ends after 2 bytes [ReadBytes] on the container returns [io.EOF],
    not the format error: closing the child comes first.  Over a stream
    that goes on, it returns the format error, the 5 bytes of the child
    having been read off the stream. *)
Lemma ReadBytes_skips_before_guard :
  let at_container := fun tl : list byte =>
    snd (Next 1 1 (snd (Next 1 0
      (NewDecoder false 0 4096 ([xa0; x30; x00; x08; x81; x85] ++ tl))))) in
  let short := at_container [x01; x02] in
  let long := at_container [x01; x02; x03; x04; x05; x06; x07] in
  w_heap short !! 1%nat = Some (mkDecoder false (2 ^ 20 + 1) (2 ^ 20 + 8) 0xA0 (Some 2%nat)) /\
  fst (ReadBytes 1 1 short) = Err EOF /\
  fst (ReadString 1 1 short) = Err EOF /\
  pending long = [x01; x02; x03; x04; x05; x06; x07] /\
  fst (ReadBytes 1 1 long) = Err ErrFormat /\
  pending (snd (ReadBytes 1 1 long)) = [x06; x07].
Proof. vm_compute. repeat split. Qed.

(** ** C9: the payload of a child of unknown id *)

(** C9.  The claim fails where a known child reaches past its end, the
    defect of C1.  The streams 1A45DFA3 83 | 4286 83 | EC 81 p hold two
    children of the root: the EBML header, of 3 bytes, and an element of
    id EC, which [File] has no field for, with the one payload byte p.
    Inside the header the element 4286 (EBMLVersion) declares 3 bytes
    where none is left, [Next] accepts it against the total size, and
    [ReadInt] takes its 3 bytes from what follows the header: EC 81 p.
    Both streams decode without error, and the version read is EC8101 on
    one and EC8102 on the other. *)
Lemma unknown_payload_reached_by_overrun :
  let file := VStruct "File" [VPtr (TStruct "EBML") None;
                              VSlice (TPtr (TStruct "Segment")) []] in
  let decoded := fun version : Z =>
    VStruct "File"
      [VPtr (TStruct "EBML")
         (Some (VStruct "EBML"
                  [VInt Kword version; VInt Kword 0; VInt Kword 0; VInt Kword 0;
                   VString []; VInt Kword 0; VInt Kword 0]));
       VSlice (TPtr (TStruct "Segment")) []] in
  let run := fun p : byte =>
    fst (UnmarshalEBML matroska_env 2 8 file 0
           (NewDecoder true 0 4096
              [x1a; x45; xdf; xa3; x83; x42; x86; x83; xec; x81; p])) in
  match newStructInfo matroska_env file with
  | Ok s => si_ids s !! 0xEC = None
  | _ => False
  end /\
  run x01 = (decoded 0xEC8101, Ok tt) /\
  run x02 = (decoded 0xEC8102, Ok tt).
Proof. vm_compute. repeat split. Qed.

(** The reading on the trees does not look into an element whose id has
    no field. *)
Lemma tree_loop_same_known (env : tenv) (s : structInfo) (es1 es2 : list etree) :
  Forall2 (same_known s) es1 es2 ->
  forall (fuel : nat) (v : value),
    tree_loop env fuel s v es1 = tree_loop env fuel s v es2.
Proof.
  induction 1 as [|e1 e2 es1 es2 He Hes IH]; intros fuel v; [reflexivity|].
  destruct fuel as [|fuel]; [reflexivity|]. cbn [tree_loop].
  destruct He as [<-|[H1 H2]].
  - destruct (length (payload e1) =? 0)%nat; [apply IH|].
    destruct (si_ids s !! e_id e1) as [f|]; [|apply IH].
    destruct (field v (fi_index f)) as [fv|]; [|reflexivity].
    match goal with
    | |- match ?X with _ => _ end = _ => destruct X as [[fv' r]|]
    end; [|reflexivity].
    destruct r; [apply IH | reflexivity..].
  - rewrite H1, H2.
    destruct (length (payload e1) =? 0)%nat, (length (payload e2) =? 0)%nat; apply IH.
Qed.

(** X26.  Over whole streams of well-formed elements: two streams whose
    children are, one by one, the same element or two elements of ids the
    struct has no field for, whatever these hold and wherever they stand
    among the known ones, decode to the same value with the same outcome,
    which is that of the reading on the trees. *)
Theorem unknown_children_do_not_matter (env : tenv) (sf fuel a : nat) (s : structInfo)
  (v : value) (es1 es2 : list etree) (w1 w2 : world) (res : value * result unit) :
  Forall2 (same_known s) es1 es2 ->
  tree_loop env fuel s v es1 = Some res ->
  holds_trees sf a w1 es1 ->
  holds_trees sf a w2 es2 ->
  fst (UnmarshalEBML_loop env sf fuel s v a w1) = res /\
  fst (UnmarshalEBML_loop env sf fuel s v a w2) = res.
Proof.
  intros Hsame Hrun1 H1 H2.
  assert (Hrun2 : tree_loop env fuel s v es2 = Some res).
  { rewrite <- (tree_loop_same_known env s es1 es2 Hsame). exact Hrun1. }
  destruct (decoder_refines env sf fuel) as (HL & _ & _).
  assert (Hone : forall es w,
            tree_loop env fuel s v es = Some res -> holds_trees sf a w es ->
            fst (UnmarshalEBML_loop env sf fuel s v a w) = res).
  { intros es w Hrun (d & t & Hl & He & Hr & Hwf & Hdep & Hroom & Hp & Hend).
    destruct (HL s v es a (length (w_heap w)) sf d w t res Hrun Hwf Hdep (Nat.le_refl _))
      as (w' & Hloop & _); try assumption.
    { split; [exact Hl|]. split; [split; [eapply lookup_lt_Some; exact Hl | lia]|].
      split; [rewrite He; apply tidy_None | exact Hr]. }
    rewrite Hloop. destruct res; reflexivity. }
  split; [apply (Hone es1 w1 Hrun1 H1) | apply (Hone es2 w2 Hrun2 H2)].
Qed.

Lemma unknown_children_do_not_matter_witness :
  let v := VStruct "EBML" [VInt Kword 0; VInt Kword 0; VInt Kword 0; VInt Kword 0;
                           VString []; VInt Kword 0; VInt Kword 0] in
  let s := match newStructInfo matroska_env v with
           | Ok s => s
           | _ => mkStructInfo [] ∅
           end in
  let stream := fun p q : list byte =>
    [Leaf 0xEC 1 1 p; Leaf 0x4286 2 1 [x01]; Leaf 0xBF 1 1 q;
     Leaf 0x4282 2 1 [x77; x65; x62; x6d]] in
  let run := fun p q : list byte =>
    fst (UnmarshalEBML_loop matroska_env 1 6 s v 0
           (NewDecoder true 0 16 (encode_trees (stream p q)))) in
  let decoded := VStruct "EBML" [VInt Kword 1; VInt Kword 0; VInt Kword 0; VInt Kword 0;
                                 VString [x77; x65; x62; x6d]; VInt Kword 0; VInt Kword 0] in
  run [x00; x00; x00] [x00; x00] = (decoded, Ok tt) /\
  run [x42; x86; x09] [xff; x81] = (decoded, Ok tt).
Proof.
  intros v s stream run decoded.
  assert (Hholds : forall p q,
            (length p <= 100)%nat -> (length q <= 100)%nat ->
            holds_trees 1 0 (NewDecoder true 0 16 (encode_trees (stream p q))) (stream p q)).
  { intros p q Hp Hq. exists (mkDecoder true 0 0 0 None), [].
    split; [reflexivity|]. split; [reflexivity|].
    split; [unfold int64_range; cbn; lia|].
    split; [repeat constructor; cbn; lia|].
    split; [repeat constructor|].
    split; [intros Hs; cbn in Hs; lia|].
    split; [|right; reflexivity].
    cbn [NewDecoder pending w_buf w_src app]. rewrite app_nil_r. reflexivity. }
  apply (unknown_children_do_not_matter matroska_env 1 6 0 s v
           (stream [x00; x00; x00] [x00; x00]) (stream [x42; x86; x09] [xff; x81])).
  - repeat (constructor;
            [first [left; reflexivity | right; split; vm_compute; reflexivity]|]).
    constructor.
  - vm_compute. reflexivity.
  - apply Hholds; cbn; lia.
  - apply Hholds; cbn; lia.
Defined.
